(** * DingoFlow dictation pipeline: shallow embedding and verified properties

    The development follows the TypeScript sources:
    - [SpokenFormattingProcessor.ts]  (spoken punctuation rewriter),
    - [DingoFlowApp.ts]               (queue, scheduler, deduper, session),
    - [FfmpegRecorder.ts], [RustNativeRecorder.ts] (capture collaborators),
    - [PersistentFramedWorker.ts]     (framed worker protocol),
    - [TextInjector.ts], [liveTerminal.ts] (injectors),
    - [prompt.ts]                     (formatter prompt and its answer),
    - [config.ts], [main.ts]          (configuration and wiring),
    - [PushToTalkHotkey.ts]           (hotkey state machine),
    - [LatencyTracker.ts]             (latency summary),
    - [TrayController.ts]             (menu).

    Conventions of the embedding.
    - A JavaScript string is a list of code units.  The model covers strings
      whose code units are below 256 (Latin-1), so a code unit is an [ascii].
    - Integer-valued JavaScript numbers (byte counts, offsets, window lengths
      in milliseconds, [Date.now()] readings) are [Z]; all of them stay far
      below 2^53, where binary64 arithmetic on integers is exact.
    - Fractional JavaScript numbers (EWMA state, durations in milliseconds
      derived from byte counts, dBFS levels) are binary64 [float]s.
    - A [Buffer] is a list of bytes. *)

From Stdlib Require Import Ascii String.
From Stdlib Require Import List ZArith Lia Bool.
From Stdlib Require Import Floats.PrimFloat Numbers.Cyclic.Int63.Uint63.
From Stdlib Require Floats.SpecFloat Floats.FloatOps Floats.FloatAxioms.
From Stdlib Require Sorting.Sorted.
From Equations Require Import Equations.
From Equations.Prop Require Import Logic.
Import ListNotations.

Open Scope list_scope.
Open Scope Z_scope.

Set Warnings "-inexact-float".

(* ===================================================================== *)
(** * JavaScript strings *)
(* ===================================================================== *)

Module Js.

Definition jsstring := list ascii.

(** String literal. *)
Definition str (s : string) : jsstring := list_ascii_of_string s.

Definition LF : ascii := "010"%char.
Definition TAB : ascii := "009"%char.
Definition SP : ascii := " "%char.
Definition DQUOTE : ascii := "034"%char.

Definition code (c : ascii) : N := N_of_ascii c.

Definition inRange (lo hi : N) (c : ascii) : bool :=
  ((lo <=? code c) && (code c <=? hi))%N.

Definition oneOf (cs : list ascii) (c : ascii) : bool :=
  existsb (Ascii.eqb c) cs.

(** [\s] of a regular expression and the characters removed by [trim]:
    TAB, LF, VT, FF, CR, SPACE and NBSP are the ones below 256. *)
Definition isSpace (c : ascii) : bool :=
  inRange 9 13 c || (code c =? 32)%N || (code c =? 160)%N.

(** The class [[ \t]]. *)
Definition isHSpace (c : ascii) : bool :=
  Ascii.eqb c SP || Ascii.eqb c TAB.

Definition isDigit (c : ascii) : bool := inRange 48 57 c.
Definition isUpper (c : ascii) : bool := inRange 65 90 c.
Definition isLower (c : ascii) : bool := inRange 97 122 c.

(** The class [[A-Za-z0-9]]. *)
Definition isAlnum (c : ascii) : bool := isUpper c || isLower c || isDigit c.

(** [\w]: [[A-Za-z0-9_]]. *)
Definition isWordChar (c : ascii) : bool := isAlnum c || (code c =? 95)%N.

(** [String.prototype.toLowerCase] on one Latin-1 code unit. *)
Definition lowerChar (c : ascii) : ascii :=
  if isUpper c || (inRange 192 222 c && negb (code c =? 215)%N)
  then ascii_of_N (code c + 32) else c.

Definition toLowerCase (s : jsstring) : jsstring := map lowerChar s.

(** Canonicalisation used by a case-insensitive (non-unicode) regular
    expression: the upper-case mapping, kept inside Latin-1. *)
Definition canonChar (c : ascii) : ascii :=
  if isLower c || (inRange 224 254 c && negb (code c =? 247)%N)
  then ascii_of_N (code c - 32) else c.

Fixpoint dropWhile (p : ascii -> bool) (s : jsstring) : jsstring :=
  match s with
  | [] => []
  | c :: s' => if p c then dropWhile p s' else s
  end.

Definition dropWhileEnd (p : ascii -> bool) (s : jsstring) : jsstring :=
  rev (dropWhile p (rev s)).

Definition trimStart (s : jsstring) : jsstring := dropWhile isSpace s.
Definition trimEnd (s : jsstring) : jsstring := dropWhileEnd isSpace s.
Definition trim (s : jsstring) : jsstring := trimEnd (trimStart s).

(** Truthiness of a string: non-empty. *)
Definition truthy (s : jsstring) : bool :=
  match s with [] => false | _ => true end.

Definition eqb (a b : jsstring) : bool :=
  if list_eq_dec ascii_dec a b then true else false.

Definition includes (c : ascii) (s : jsstring) : bool :=
  existsb (Ascii.eqb c) s.

(** [/[\s\n]$/.test(s)]. *)
Definition endsWithSpace (s : jsstring) : bool :=
  match rev s with
  | [] => false
  | c :: _ => isSpace c || Ascii.eqb c LF
  end.

(** [words.join(sep)]. *)
Fixpoint join (sep : jsstring) (ws : list jsstring) : jsstring :=
  match ws with
  | [] => []
  | [w] => w
  | w :: ws' => w ++ sep ++ join sep ws'
  end.

(** [s.split(/\s+/)]: the pieces between maximal runs of whitespace; a
    leading or trailing run yields an empty first or last piece, and the
    empty string yields one empty piece.  [skipping] is true while the scan
    is inside a separator, [cur] is the piece read so far. *)
Fixpoint splitGo (skipping : bool) (cur : jsstring) (s : jsstring)
  : list jsstring :=
  match s with
  | [] => [cur]
  | c :: s' =>
      if isSpace c
      then if skipping then splitGo true [] s' else cur :: splitGo true [] s'
      else splitGo false (cur ++ [c]) s'
  end.

Definition splitWs (s : jsstring) : list jsstring := splitGo false [] s.

(** [array.slice(start, end)] for [0 <= start]. *)
Definition slice {A} (start stop : Z) (l : list A) : list A :=
  firstn (Z.to_nat (stop - start)) (skipn (Z.to_nat start) l).

(** [array.slice(start)] for [0 <= start]. *)
Definition sliceFrom {A} (start : Z) (l : list A) : list A :=
  skipn (Z.to_nat start) l.

(** [array.slice(-size)] for [1 <= size]: the last [size] elements (the
    whole array when it is shorter). *)
Definition sliceLast {A} (size : Z) (l : list A) : list A :=
  skipn (Z.to_nat (Z.max 0 (Z.of_nat (length l) - size))) l.

Definition len {A} (l : list A) : Z := Z.of_nat (length l).

End Js.

Import Js.

(* ===================================================================== *)
(** * SpokenFormattingProcessor.ts *)
(* ===================================================================== *)

Module SpokenFormattingProcessor.

Record SpokenFormattingResult := {
  text : jsstring;
  appliedCommands : Z
}.

(** A rule [{ pattern: /\b<phrase>\b/gi, replacement }]. *)
Record SpokenFormattingRule := {
  phrase : jsstring;
  replacement : jsstring
}.

Definition rule (p : string) (r : jsstring) : SpokenFormattingRule :=
  {| phrase := str p; replacement := r |}.

Definition RULES : list SpokenFormattingRule :=
  [ rule "new paragraph" [LF; LF];
    rule "new line" [LF];
    rule "full stop" (str ".");
    rule "question mark" (str "?");
    rule "exclamation mark" (str "!");
    rule "open parenthesis" (str "(");
    rule "close parenthesis" (str ")");
    rule "open bracket" (str "[");
    rule "close bracket" (str "]");
    rule "open quote" [DQUOTE];
    rule "close quote" [DQUOTE];
    rule "semicolon" (str ";");
    rule "colon" (str ":");
    rule "comma" (str ",");
    rule "period" (str ".") ].

(** ** Matching [/\b<phrase>\b/i] at one position *)

Definition isWordOpt (c : option ascii) : bool :=
  match c with Some x => isWordChar x | None => false end.

(** [\b] between the code unit before and the code unit after. *)
Definition wordBoundary (before after : option ascii) : bool :=
  xorb (isWordOpt before) (isWordOpt after).

(** Case-insensitive match of the literal [p] at the head of [s]; returns
    the last code unit matched (or [prev] for the empty literal) and the
    rest of the input. *)
Fixpoint matchLiteral (p : jsstring) (prev : option ascii) (s : jsstring)
  : option (option ascii * jsstring) :=
  match p with
  | [] => Some (prev, s)
  | pc :: p' =>
      match s with
      | [] => None
      | c :: s' =>
          if Ascii.eqb (canonChar pc) (canonChar c)
          then matchLiteral p' (Some c) s'
          else None
      end
  end.

(** Does [/\b<phrase>\b/i] match at the head of [s], where [prev] is the
    code unit before it? *)
Definition matchPhraseAt (p : jsstring) (prev : option ascii) (s : jsstring)
  : bool :=
  wordBoundary prev (hd_error s)
  && match matchLiteral p prev s with
     | Some (last, rest) => wordBoundary last (hd_error rest)
     | None => false
     end.

(** [output.replace(rule.pattern, () => { appliedCommands += 1; return
    rule.replacement; })]: leftmost matches, scanning resumes after each
    match.  [prev] is the code unit before the current position and [skip]
    the number of code units still to pass of the match found last (every
    phrase is non-empty, so a match starts with the current code unit). *)
Fixpoint replaceGo (r : SpokenFormattingRule) (prev : option ascii)
  (skip : nat) (s : jsstring) : jsstring * Z :=
  match s with
  | [] => ([], 0)
  | c :: s' =>
      match skip with
      | S skip' => replaceGo r (Some c) skip' s'
      | O =>
          if matchPhraseAt (phrase r) prev s then
            let (out, n) :=
              replaceGo r (Some c) (Nat.pred (length (phrase r))) s' in
            (replacement r ++ out, 1 + n)
          else
            let (out, n) := replaceGo r (Some c) O s' in (c :: out, n)
      end
  end.

Definition replaceRule (r : SpokenFormattingRule) (s : jsstring)
  : jsstring * Z :=
  replaceGo r None O s.

(** The [for (const rule of RULES)] loop. *)
Fixpoint applyRules (rules : list SpokenFormattingRule) (output : jsstring)
  (applied : Z) : jsstring * Z :=
  match rules with
  | [] => (output, applied)
  | r :: rules' =>
      let (output', n) := replaceRule r output in
      applyRules rules' output' (applied + n)
  end.

(** ** [normalizeSpacing], one function per [replace] *)

Definition stripEdgeSpaces (value : jsstring) : jsstring :=
  dropWhileEnd isHSpace (dropWhile isHSpace value).

(** [/[ \t]{2,}/g -> ' ']; [run] is the run of blanks read so far. *)
Definition flushRun (run : jsstring) : jsstring :=
  if (2 <=? length run)%nat then [SP] else run.

Fixpoint collapseBlanks (run : jsstring) (s : jsstring) : jsstring :=
  match s with
  | [] => flushRun run
  | c :: s' =>
      if isHSpace c then collapseBlanks (run ++ [c]) s'
      else flushRun run ++ c :: collapseBlanks [] s'
  end.

(** [/[ \t]*\n[ \t]*/g -> '\n']; [run] is the run of blanks before the
    current position, [skipping] is true right after a matched newline. *)
Fixpoint trimAroundNewlines (skipping : bool) (run : jsstring) (s : jsstring)
  : jsstring :=
  match s with
  | [] => run
  | c :: s' =>
      if Ascii.eqb c LF then LF :: trimAroundNewlines true [] s'
      else if isHSpace c then
        if skipping then trimAroundNewlines true [] s'
        else trimAroundNewlines false (run ++ [c]) s'
      else run ++ c :: trimAroundNewlines false [] s'
  end.

Definition isCloser (c : ascii) : bool := oneOf (str ",.;:!?)}]") c.
Definition isOpener (c : ascii) : bool := oneOf (str "({[" ++ [DQUOTE]) c.
Definition isMark (c : ascii) : bool := oneOf (str ",.;:!?") c.

(** [/[ ]+([,.;:!?)}\]])/g -> '$1']; [run] is the run of spaces read. *)
Fixpoint dropSpacesBeforeClosers (run : jsstring) (s : jsstring) : jsstring :=
  match s with
  | [] => run
  | c :: s' =>
      if Ascii.eqb c SP then dropSpacesBeforeClosers (run ++ [c]) s'
      else if isCloser c then c :: dropSpacesBeforeClosers [] s'
      else run ++ c :: dropSpacesBeforeClosers [] s'
  end.

(** The replace of an opener followed by whitespace, [(opener)\s+ -> $1],
    where an opener is one of the three opening brackets or the double
    quote; [after] is true right after an opener (and the whitespace
    already dropped behind it). *)
Fixpoint dropSpaceAfterOpeners (after : bool) (s : jsstring) : jsstring :=
  match s with
  | [] => []
  | c :: s' =>
      if after && isSpace c then dropSpaceAfterOpeners true s'
      else c :: dropSpaceAfterOpeners (isOpener c) s'
  end.

(** The replace [DQUOTE \s+ ([A-Za-z0-9]) -> DQUOTE $1];
    [pending = Some run] right after a double quote followed by the
    whitespace [run]. *)
Fixpoint tightenAfterQuote (pending : option jsstring) (s : jsstring)
  : jsstring :=
  match s with
  | [] => match pending with Some run => run | None => [] end
  | c :: s' =>
      match pending with
      | Some run =>
          if isSpace c then tightenAfterQuote (Some (run ++ [c])) s'
          else if isAlnum c && truthy run then c :: tightenAfterQuote None s'
          else run ++ c ::
               tightenAfterQuote (if Ascii.eqb c DQUOTE then Some [] else None) s'
      | None =>
          c :: tightenAfterQuote (if Ascii.eqb c DQUOTE then Some [] else None) s'
      end
  end.

(** The class [[A-Za-z0-9.,;:!?]]. *)
Definition isBeforeQuote (c : ascii) : bool := isAlnum c || isMark c.

(** The replace [([A-Za-z0-9.,;:!?]) \s+ DQUOTE -> $1 DQUOTE];
    [pending = Some run] right after a code unit of the class followed by
    the whitespace [run]. *)
Fixpoint tightenBeforeQuote (pending : option jsstring) (s : jsstring)
  : jsstring :=
  match s with
  | [] => match pending with Some run => run | None => [] end
  | c :: s' =>
      match pending with
      | Some run =>
          if isSpace c then tightenBeforeQuote (Some (run ++ [c])) s'
          else if Ascii.eqb c DQUOTE && truthy run
               then c :: tightenBeforeQuote None s'
          else run ++ c ::
               tightenBeforeQuote (if isBeforeQuote c then Some [] else None) s'
      | None =>
          c :: tightenBeforeQuote (if isBeforeQuote c then Some [] else None) s'
      end
  end.

(** [/([,.;:!?])([^\s\n.,;:!?)}\]])/g -> '$1 $2']. *)
Fixpoint spaceAfterMarks (s : jsstring) : jsstring :=
  match s with
  | [] => []
  | c :: s' =>
      if isMark c then
        match s' with
        | d :: _ =>
            if isSpace d || Ascii.eqb d LF || isCloser d
            then c :: spaceAfterMarks s'
            else c :: SP :: spaceAfterMarks s'
        | [] => [c]
        end
      else c :: spaceAfterMarks s'
  end.

(** [/\n{3,}/g -> '\n\n']; [run] counts the newlines read so far. *)
Definition flushNewlines (run : nat) : jsstring :=
  if (3 <=? run)%nat then [LF; LF] else repeat LF run.

Fixpoint collapseNewlines (run : nat) (s : jsstring) : jsstring :=
  match s with
  | [] => flushNewlines run
  | c :: s' =>
      if Ascii.eqb c LF then collapseNewlines (S run) s'
      else flushNewlines run ++ c :: collapseNewlines 0 s'
  end.

Definition normalizeSpacing (value : jsstring) : jsstring :=
  let normalized := value in
  let normalized := collapseBlanks [] normalized in
  let normalized := trimAroundNewlines false [] normalized in
  let normalized := dropSpacesBeforeClosers [] normalized in
  let normalized := dropSpaceAfterOpeners false normalized in
  let normalized := tightenAfterQuote None normalized in
  let normalized := tightenBeforeQuote None normalized in
  let normalized := spaceAfterMarks normalized in
  let normalized := collapseNewlines 0 normalized in
  stripEdgeSpaces normalized.

Definition transform (text : jsstring) : SpokenFormattingResult :=
  if negb (truthy (trim text)) then {| text := []; appliedCommands := 0 |}
  else
    let (output, appliedCommands) := applyRules RULES text 0 in
    {| text := normalizeSpacing output; appliedCommands := appliedCommands |}.

End SpokenFormattingProcessor.

(* ===================================================================== *)
(** * DingoFlowApp.ts: live chunk normalisation and the overlap deduper *)
(* ===================================================================== *)

Module LiveText.

(** [normalizeLiveChunkOutput]. *)
Definition normalizeLiveChunkOutput (text : jsstring) : jsstring :=
  let normalizedEdges := dropWhileEnd isHSpace (dropWhile isHSpace text) in
  if negb (truthy normalizedEdges) then []
  else if endsWithSpace normalizedEdges then normalizedEdges
  else normalizedEdges ++ [SP].

(** The class [[a-z0-9']] and its complement. *)
Definition isTokenChar (c : ascii) : bool :=
  isLower c || isDigit c || (code c =? 39)%N.

Definition notTokenChar (c : ascii) : bool := negb (isTokenChar c).

(** The local [normalizeWord] of [dedupeChunkAgainstLiveTranscript]. *)
Definition normalizeWord (word : jsstring) : jsstring :=
  dropWhileEnd notTokenChar (dropWhile notTokenChar (toLowerCase word)).

(** The first loop, [for (size = overlapLimit; size >= 1; size -= 1)]:
    the largest [size] whose existing suffix equals the next prefix. *)
Fixpoint tailHeadLoop (existingNormalized nextNormalized : list jsstring)
  (size : nat) : Z :=
  match size with
  | O => 0
  | S size' =>
      let existingSuffix :=
        join [SP] (sliceLast (Z.of_nat size) existingNormalized) in
      let nextPrefix := join [SP] (slice 0 (Z.of_nat size) nextNormalized) in
      if Js.eqb existingSuffix nextPrefix then Z.of_nat size
      else tailHeadLoop existingNormalized nextNormalized size'
  end.

(** The inner loop, [for (start = latestStart; start <= end; start += 1)],
    run for [count] values of [start]. *)
Fixpoint startLoop (existingNormalized nextNormalized : list jsstring)
  (size start : Z) (count : nat) : bool :=
  match count with
  | O => false
  | S count' =>
      let existingSlice :=
        join [SP] (slice start (start + size) existingNormalized) in
      let nextSlice := join [SP] (slice 0 size nextNormalized) in
      if Js.eqb existingSlice nextSlice then true
      else startLoop existingNormalized nextNormalized size (start + 1) count'
  end.

(** The outer loop, [for (size = maxSize; size >= 4; size -= 1)]. *)
Fixpoint sizeLoop (existingNormalized nextNormalized : list jsstring)
  (existingLength searchStart : Z) (size : nat) : Z :=
  match size with
  | O => 0
  | S size' =>
      if Z.of_nat size <? 4 then 0
      else
        let latestStart :=
          Z.max searchStart (existingLength - Z.of_nat size - 6) in
        let stop := existingLength - Z.of_nat size in
        if startLoop existingNormalized nextNormalized (Z.of_nat size)
             latestStart (Z.to_nat (stop - latestStart + 1))
        then Z.of_nat size
        else sizeLoop existingNormalized nextNormalized
               existingLength searchStart size'
  end.

(** The value of [overlapWords] after both loops. *)
Definition overlapWords (existingWords nextWords : list jsstring) : Z :=
  let existingNormalized := map normalizeWord existingWords in
  let nextNormalized := map normalizeWord nextWords in
  let overlapLimit := Z.min (Z.min (len existingWords) (len nextWords)) 20 in
  let overlap :=
    tailHeadLoop existingNormalized nextNormalized (Z.to_nat overlapLimit) in
  if (overlap =? 0) && (4 <=? len nextWords) then
    let searchTailWords := Z.min (len existingWords) 28 in
    let searchStart := len existingWords - searchTailWords in
    let maxSize := Z.min (Z.min (len nextWords) 16) searchTailWords in
    sizeLoop existingNormalized nextNormalized (len existingWords)
      searchStart (Z.to_nat maxSize)
  else overlap.

(** [dedupeChunkAgainstLiveTranscript], with [this.liveInjectedText] as
    the first argument. *)
Definition dedupeChunkAgainstLiveTranscript
  (liveInjectedText nextChunk : jsstring) : jsstring :=
  if negb (truthy (trim nextChunk)) || negb (truthy (trim liveInjectedText))
  then nextChunk
  else if includes LF nextChunk || includes LF liveInjectedText
  then nextChunk
  else
    let existingWords := splitWs (trim liveInjectedText) in
    let nextWords := splitWs (trim nextChunk) in
    if (len existingWords =? 0) || (len nextWords =? 0) then nextChunk
    else
      let overlap := overlapWords existingWords nextWords in
      if overlap =? 0 then nextChunk
      else
        let dedupedWords := sliceFrom overlap nextWords in
        if len dedupedWords =? 0 then []
        else
          let needsTrailingWhitespace := endsWithSpace nextChunk in
          join [SP] dedupedWords
            ++ (if needsTrailingWhitespace then [SP] else []).

End LiveText.

(* ===================================================================== *)
(** * DingoFlowApp.ts: the pending audio queue *)
(* ===================================================================== *)

Definition Buffer := list Byte.byte.

Module AudioQueue.

Record QueuedAudioChunk := {
  data : Buffer;
  offset : Z;
  enqueuedAtMs : Z
}.

Record PendingAudioSlice := {
  sliceData : Buffer;
  oldestEnqueuedAtMs : Z
}.

(** The three fields of [DingoFlowApp] that hold audio. *)
Record t := {
  sessionAudioChunks : list Buffer;
  pendingAudioQueue : list QueuedAudioChunk;
  pendingAudioBytes : Z
}.

(** The queue set up by the constructor and by [startRecording]. *)
Definition empty : t :=
  {| sessionAudioChunks := []; pendingAudioQueue := []; pendingAudioBytes := 0 |}.

(** [enqueueAudioChunk] up to its final [ensureAsrLoop()] call; [now] is
    the reading of [Date.now()]. *)
Definition pushAudioChunk (now : Z) (chunk : Buffer) (q : t) : t :=
  {| sessionAudioChunks := sessionAudioChunks q ++ [chunk];
     pendingAudioQueue :=
       pendingAudioQueue q
         ++ [{| data := chunk; offset := 0; enqueuedAtMs := now |}];
     pendingAudioBytes := pendingAudioBytes q + len chunk |}.

(** The variables of the [while] loop of [readPendingAudioSlice]:
    [output] holds the [writeOffset] bytes copied so far. *)
Record ReadState := {
  output : Buffer;
  writeOffset : Z;
  oldest : Z;
  queue : list QueuedAudioChunk;
  pending : Z
}.

(** One iteration of the loop body on the head chunk. *)
Definition readStep (byteCount : Z) (head : QueuedAudioChunk)
  (rest : list QueuedAudioChunk) (st : ReadState) : ReadState :=
  let oldestEnqueuedAtMs := Z.min (oldest st) (enqueuedAtMs head) in
  let available := len (data head) - offset head in
  let toCopy := Z.min available (byteCount - writeOffset st) in
  let copied := slice (offset head) (offset head + toCopy) (data head) in
  let head' := {| data := data head;
                  offset := offset head + toCopy;
                  enqueuedAtMs := enqueuedAtMs head |} in
  {| output := output st ++ copied;
     writeOffset := writeOffset st + toCopy;
     oldest := oldestEnqueuedAtMs;
     queue := if len (data head') <=? offset head' then rest else head' :: rest;
     pending := pending st - toCopy |}.

Definition readMeasure (byteCount : Z) (st : ReadState) : nat :=
  (2 * length (queue st) + (if (writeOffset st <? byteCount)%Z then 1 else 0))%nat.

(** [while (writeOffset < byteCount) { head = queue[0]; if (!head) break;
    ... }].  Every iteration either removes the head chunk or completes the
    slice, which is the termination measure. *)
Equations readLoop (byteCount : Z) (st : ReadState) : ReadState
  by wf (readMeasure byteCount st) lt :=
  readLoop byteCount st with inspect (writeOffset st <? byteCount) := {
    | exist _ false _ := st
    | exist _ true Hlt with inspect (queue st) := {
        | exist _ [] _ := st
        | exist _ (headChunk :: rest) Hq :=
            readLoop byteCount (readStep byteCount headChunk rest st) } }.
Next Obligation.
  apply Z.ltb_lt in Hlt.
  unfold readMeasure, readStep. cbn [queue writeOffset offset data].
  rewrite Hq. cbn [length].
  destruct (Z.leb_spec (len (data headChunk))
              (offset headChunk
               + Z.min (len (data headChunk) - offset headChunk)
                       (byteCount - writeOffset st))) as [Hs|Hs].
  - destruct (_ <? byteCount); destruct (_ <? byteCount); lia.
  - cbn [length].
    destruct (Z.ltb_spec (writeOffset st) byteCount); [|lia].
    destruct (Z.ltb_spec
                (writeOffset st
                 + Z.min (len (data headChunk) - offset headChunk)
                         (byteCount - writeOffset st))
                byteCount); lia.
Qed.

(** [readPendingAudioSlice]; [now] is the reading of [Date.now()] that
    initialises [oldestEnqueuedAtMs]. *)
Definition readPendingAudioSlice (now : Z) (byteCount : Z) (q : t)
  : option PendingAudioSlice * t :=
  if (byteCount <=? 0) || (pendingAudioBytes q <? byteCount) then (None, q)
  else
    let st := readLoop byteCount
                {| output := []; writeOffset := 0; oldest := now;
                   queue := pendingAudioQueue q;
                   pending := pendingAudioBytes q |} in
    (Some {| sliceData := output st; oldestEnqueuedAtMs := oldest st |},
     {| sessionAudioChunks := sessionAudioChunks q;
        pendingAudioQueue := queue st;
        pendingAudioBytes := pending st |}).

End AudioQueue.

(* ===================================================================== *)
(** * JavaScript numbers that are not integers *)
(* ===================================================================== *)

Module Num.

(** The binary64 value of an integer (exact below 2^53). *)
Definition ofZ (z : Z) : float :=
  if z <? 0 then PrimFloat.opp (PrimFloat.of_uint63 (Uint63.of_Z (- z)))
  else PrimFloat.of_uint63 (Uint63.of_Z z).

(** [x >= y] and [x > y]. *)
Definition ge (x y : float) : bool := PrimFloat.leb y x.
Definition gt (x y : float) : bool := PrimFloat.ltb y x.

(** [Math.max(x, y)]. *)
Definition Math_max (x y : float) : float :=
  if PrimFloat.is_nan x || PrimFloat.is_nan y then PrimFloat.nan
  else if PrimFloat.ltb x y then y
  else if PrimFloat.ltb y x then x
  else if PrimFloat.is_zero x && PrimFloat.get_sign x then y else x.

(** [clamp] on integers: [Math.max(min, Math.min(max, value))]. *)
Definition clamp (value min max : Z) : Z := Z.max min (Z.min max value).

End Num.

(* ===================================================================== *)
(** * types.ts and the session state of DingoFlowApp.ts *)
(* ===================================================================== *)

Inductive PipelineStage :=
| idle | recording | transcribing | formatting | injecting | error.

Record AppState := {
  stage : PipelineStage;
  detail : option jsstring
}.

Inductive FormatMode := literal | clean | rewrite.

Inductive AsrBackend :=
| faster_whisper | parakeet_mlx | parakeet_native | whisper_native.

Record AsrResult := { asrText : jsstring }.

Record DictationResult := {
  rawTranscript : jsstring;
  formattedText : jsstring
}.

Record SliceLatencySample := {
  queueMs : Z;
  audioMs : float;
  asrMs : Z;
  injectMs : Z;
  endToEndMs : Z
}.

Record DingoFlowLatencyOptions := {
  asrBackend : AsrBackend;
  spokenFormattingCommands : bool;
  liveStreamChunkMs : Z;
  minAsrWindowMs : Z;
  normalAsrWindowMs : Z;
  backlogAsrWindowMs : Z;
  maxAsrWindowMs : Z;
  adaptiveAsrWindow : bool;
  parakeetFinalPass : bool;
  silenceGateDbfs : float;
  speechHangoverMs : Z;
  parakeetStreamContextLeft : Z;
  parakeetStreamContextRight : Z;
  parakeetStreamDepth : Z
}.

Definition DEFAULT_LATENCY_OPTIONS : DingoFlowLatencyOptions :=
  {| asrBackend := parakeet_native;
     spokenFormattingCommands := true;
     liveStreamChunkMs := 120;
     minAsrWindowMs := 90;
     normalAsrWindowMs := 180;
     backlogAsrWindowMs := 360;
     maxAsrWindowMs := 640;
     adaptiveAsrWindow := true;
     parakeetFinalPass := false;
     silenceGateDbfs := (-52)%float;
     speechHangoverMs := 420;
     parakeetStreamContextLeft := 64;
     parakeetStreamContextRight := 8;
     parakeetStreamDepth := 1 |}.

(** Which optional methods the collaborators in [DingoFlowDependencies]
    provide. *)
Record Deps := {
  hasStartStream : bool;
  hasPushStream : bool;
  hasFlushStream : bool;
  hasStopStream : bool;
  hasReplaceRecentText : bool
}.

(** What the orchestrator does to the outside: the events it emits and the
    calls it makes on its collaborators. *)
Inductive Effect :=
| EmitStateChanged (s : AppState)
| EmitModeChanged (m : FormatMode)
| EmitDictationCompleted (r : DictationResult)
| CallRecorderStartStreaming (chunkDurationMs : Z)
| CallRecorderStop
| CallAsrStartStream
| CallAsrPushStream (audioChunk : Buffer)
| CallAsrTranscribe (audioInput : Buffer)
| CallAsrFlushStream
| CallAsrStopStream
| CallFormat (m : FormatMode) (transcript : jsstring)
| CallInject (text : jsstring)
| CallReplaceRecentText (existingText replacementText : jsstring).

(** The fields of [DingoFlowApp].  [audio] groups the three audio fields,
    [asrLoopPromise] records whether the promise field is set,
    [latencyTracker] is the sample vector of the tracker, and [effects] is
    the history of effects, oldest first. *)
Record App := {
  state : AppState;
  mode : FormatMode;
  stopInProgress : bool;
  recordingActive : bool;
  acceptingAudio : bool;
  asrRequestCount : Z;
  rawTranscriptParts : list jsstring;
  liveInjectedText : jsstring;
  audio : AudioQueue.t;
  asrLoopActive : bool;
  asrLoopPromise : bool;
  latencyTracker : list SliceLatencySample;
  dynamicNormalAsrWindowMs : Z;
  ewmaAsrRtf : float;
  ewmaAsrMs : float;
  speechHangoverUntilMs : Z;
  effects : list Effect
}.

Definition set_state (v : AppState) (a : App) : App :=
  {| state := v;
     mode := mode a;
     stopInProgress := stopInProgress a;
     recordingActive := recordingActive a;
     acceptingAudio := acceptingAudio a;
     asrRequestCount := asrRequestCount a;
     rawTranscriptParts := rawTranscriptParts a;
     liveInjectedText := liveInjectedText a;
     audio := audio a;
     asrLoopActive := asrLoopActive a;
     asrLoopPromise := asrLoopPromise a;
     latencyTracker := latencyTracker a;
     dynamicNormalAsrWindowMs := dynamicNormalAsrWindowMs a;
     ewmaAsrRtf := ewmaAsrRtf a;
     ewmaAsrMs := ewmaAsrMs a;
     speechHangoverUntilMs := speechHangoverUntilMs a;
     effects := effects a |}.


Definition set_stopInProgress (v : bool) (a : App) : App :=
  {| state := state a;
     mode := mode a;
     stopInProgress := v;
     recordingActive := recordingActive a;
     acceptingAudio := acceptingAudio a;
     asrRequestCount := asrRequestCount a;
     rawTranscriptParts := rawTranscriptParts a;
     liveInjectedText := liveInjectedText a;
     audio := audio a;
     asrLoopActive := asrLoopActive a;
     asrLoopPromise := asrLoopPromise a;
     latencyTracker := latencyTracker a;
     dynamicNormalAsrWindowMs := dynamicNormalAsrWindowMs a;
     ewmaAsrRtf := ewmaAsrRtf a;
     ewmaAsrMs := ewmaAsrMs a;
     speechHangoverUntilMs := speechHangoverUntilMs a;
     effects := effects a |}.

Definition set_recordingActive (v : bool) (a : App) : App :=
  {| state := state a;
     mode := mode a;
     stopInProgress := stopInProgress a;
     recordingActive := v;
     acceptingAudio := acceptingAudio a;
     asrRequestCount := asrRequestCount a;
     rawTranscriptParts := rawTranscriptParts a;
     liveInjectedText := liveInjectedText a;
     audio := audio a;
     asrLoopActive := asrLoopActive a;
     asrLoopPromise := asrLoopPromise a;
     latencyTracker := latencyTracker a;
     dynamicNormalAsrWindowMs := dynamicNormalAsrWindowMs a;
     ewmaAsrRtf := ewmaAsrRtf a;
     ewmaAsrMs := ewmaAsrMs a;
     speechHangoverUntilMs := speechHangoverUntilMs a;
     effects := effects a |}.

Definition set_acceptingAudio (v : bool) (a : App) : App :=
  {| state := state a;
     mode := mode a;
     stopInProgress := stopInProgress a;
     recordingActive := recordingActive a;
     acceptingAudio := v;
     asrRequestCount := asrRequestCount a;
     rawTranscriptParts := rawTranscriptParts a;
     liveInjectedText := liveInjectedText a;
     audio := audio a;
     asrLoopActive := asrLoopActive a;
     asrLoopPromise := asrLoopPromise a;
     latencyTracker := latencyTracker a;
     dynamicNormalAsrWindowMs := dynamicNormalAsrWindowMs a;
     ewmaAsrRtf := ewmaAsrRtf a;
     ewmaAsrMs := ewmaAsrMs a;
     speechHangoverUntilMs := speechHangoverUntilMs a;
     effects := effects a |}.

Definition set_asrRequestCount (v : Z) (a : App) : App :=
  {| state := state a;
     mode := mode a;
     stopInProgress := stopInProgress a;
     recordingActive := recordingActive a;
     acceptingAudio := acceptingAudio a;
     asrRequestCount := v;
     rawTranscriptParts := rawTranscriptParts a;
     liveInjectedText := liveInjectedText a;
     audio := audio a;
     asrLoopActive := asrLoopActive a;
     asrLoopPromise := asrLoopPromise a;
     latencyTracker := latencyTracker a;
     dynamicNormalAsrWindowMs := dynamicNormalAsrWindowMs a;
     ewmaAsrRtf := ewmaAsrRtf a;
     ewmaAsrMs := ewmaAsrMs a;
     speechHangoverUntilMs := speechHangoverUntilMs a;
     effects := effects a |}.

Definition set_rawTranscriptParts (v : list jsstring) (a : App) : App :=
  {| state := state a;
     mode := mode a;
     stopInProgress := stopInProgress a;
     recordingActive := recordingActive a;
     acceptingAudio := acceptingAudio a;
     asrRequestCount := asrRequestCount a;
     rawTranscriptParts := v;
     liveInjectedText := liveInjectedText a;
     audio := audio a;
     asrLoopActive := asrLoopActive a;
     asrLoopPromise := asrLoopPromise a;
     latencyTracker := latencyTracker a;
     dynamicNormalAsrWindowMs := dynamicNormalAsrWindowMs a;
     ewmaAsrRtf := ewmaAsrRtf a;
     ewmaAsrMs := ewmaAsrMs a;
     speechHangoverUntilMs := speechHangoverUntilMs a;
     effects := effects a |}.

Definition set_liveInjectedText (v : jsstring) (a : App) : App :=
  {| state := state a;
     mode := mode a;
     stopInProgress := stopInProgress a;
     recordingActive := recordingActive a;
     acceptingAudio := acceptingAudio a;
     asrRequestCount := asrRequestCount a;
     rawTranscriptParts := rawTranscriptParts a;
     liveInjectedText := v;
     audio := audio a;
     asrLoopActive := asrLoopActive a;
     asrLoopPromise := asrLoopPromise a;
     latencyTracker := latencyTracker a;
     dynamicNormalAsrWindowMs := dynamicNormalAsrWindowMs a;
     ewmaAsrRtf := ewmaAsrRtf a;
     ewmaAsrMs := ewmaAsrMs a;
     speechHangoverUntilMs := speechHangoverUntilMs a;
     effects := effects a |}.

Definition set_audio (v : AudioQueue.t) (a : App) : App :=
  {| state := state a;
     mode := mode a;
     stopInProgress := stopInProgress a;
     recordingActive := recordingActive a;
     acceptingAudio := acceptingAudio a;
     asrRequestCount := asrRequestCount a;
     rawTranscriptParts := rawTranscriptParts a;
     liveInjectedText := liveInjectedText a;
     audio := v;
     asrLoopActive := asrLoopActive a;
     asrLoopPromise := asrLoopPromise a;
     latencyTracker := latencyTracker a;
     dynamicNormalAsrWindowMs := dynamicNormalAsrWindowMs a;
     ewmaAsrRtf := ewmaAsrRtf a;
     ewmaAsrMs := ewmaAsrMs a;
     speechHangoverUntilMs := speechHangoverUntilMs a;
     effects := effects a |}.

Definition set_asrLoopActive (v : bool) (a : App) : App :=
  {| state := state a;
     mode := mode a;
     stopInProgress := stopInProgress a;
     recordingActive := recordingActive a;
     acceptingAudio := acceptingAudio a;
     asrRequestCount := asrRequestCount a;
     rawTranscriptParts := rawTranscriptParts a;
     liveInjectedText := liveInjectedText a;
     audio := audio a;
     asrLoopActive := v;
     asrLoopPromise := asrLoopPromise a;
     latencyTracker := latencyTracker a;
     dynamicNormalAsrWindowMs := dynamicNormalAsrWindowMs a;
     ewmaAsrRtf := ewmaAsrRtf a;
     ewmaAsrMs := ewmaAsrMs a;
     speechHangoverUntilMs := speechHangoverUntilMs a;
     effects := effects a |}.

Definition set_asrLoopPromise (v : bool) (a : App) : App :=
  {| state := state a;
     mode := mode a;
     stopInProgress := stopInProgress a;
     recordingActive := recordingActive a;
     acceptingAudio := acceptingAudio a;
     asrRequestCount := asrRequestCount a;
     rawTranscriptParts := rawTranscriptParts a;
     liveInjectedText := liveInjectedText a;
     audio := audio a;
     asrLoopActive := asrLoopActive a;
     asrLoopPromise := v;
     latencyTracker := latencyTracker a;
     dynamicNormalAsrWindowMs := dynamicNormalAsrWindowMs a;
     ewmaAsrRtf := ewmaAsrRtf a;
     ewmaAsrMs := ewmaAsrMs a;
     speechHangoverUntilMs := speechHangoverUntilMs a;
     effects := effects a |}.

Definition set_latencyTracker (v : list SliceLatencySample) (a : App) : App :=
  {| state := state a;
     mode := mode a;
     stopInProgress := stopInProgress a;
     recordingActive := recordingActive a;
     acceptingAudio := acceptingAudio a;
     asrRequestCount := asrRequestCount a;
     rawTranscriptParts := rawTranscriptParts a;
     liveInjectedText := liveInjectedText a;
     audio := audio a;
     asrLoopActive := asrLoopActive a;
     asrLoopPromise := asrLoopPromise a;
     latencyTracker := v;
     dynamicNormalAsrWindowMs := dynamicNormalAsrWindowMs a;
     ewmaAsrRtf := ewmaAsrRtf a;
     ewmaAsrMs := ewmaAsrMs a;
     speechHangoverUntilMs := speechHangoverUntilMs a;
     effects := effects a |}.

Definition set_dynamicNormalAsrWindowMs (v : Z) (a : App) : App :=
  {| state := state a;
     mode := mode a;
     stopInProgress := stopInProgress a;
     recordingActive := recordingActive a;
     acceptingAudio := acceptingAudio a;
     asrRequestCount := asrRequestCount a;
     rawTranscriptParts := rawTranscriptParts a;
     liveInjectedText := liveInjectedText a;
     audio := audio a;
     asrLoopActive := asrLoopActive a;
     asrLoopPromise := asrLoopPromise a;
     latencyTracker := latencyTracker a;
     dynamicNormalAsrWindowMs := v;
     ewmaAsrRtf := ewmaAsrRtf a;
     ewmaAsrMs := ewmaAsrMs a;
     speechHangoverUntilMs := speechHangoverUntilMs a;
     effects := effects a |}.

Definition set_ewmaAsrRtf (v : float) (a : App) : App :=
  {| state := state a;
     mode := mode a;
     stopInProgress := stopInProgress a;
     recordingActive := recordingActive a;
     acceptingAudio := acceptingAudio a;
     asrRequestCount := asrRequestCount a;
     rawTranscriptParts := rawTranscriptParts a;
     liveInjectedText := liveInjectedText a;
     audio := audio a;
     asrLoopActive := asrLoopActive a;
     asrLoopPromise := asrLoopPromise a;
     latencyTracker := latencyTracker a;
     dynamicNormalAsrWindowMs := dynamicNormalAsrWindowMs a;
     ewmaAsrRtf := v;
     ewmaAsrMs := ewmaAsrMs a;
     speechHangoverUntilMs := speechHangoverUntilMs a;
     effects := effects a |}.

Definition set_ewmaAsrMs (v : float) (a : App) : App :=
  {| state := state a;
     mode := mode a;
     stopInProgress := stopInProgress a;
     recordingActive := recordingActive a;
     acceptingAudio := acceptingAudio a;
     asrRequestCount := asrRequestCount a;
     rawTranscriptParts := rawTranscriptParts a;
     liveInjectedText := liveInjectedText a;
     audio := audio a;
     asrLoopActive := asrLoopActive a;
     asrLoopPromise := asrLoopPromise a;
     latencyTracker := latencyTracker a;
     dynamicNormalAsrWindowMs := dynamicNormalAsrWindowMs a;
     ewmaAsrRtf := ewmaAsrRtf a;
     ewmaAsrMs := v;
     speechHangoverUntilMs := speechHangoverUntilMs a;
     effects := effects a |}.

Definition set_speechHangoverUntilMs (v : Z) (a : App) : App :=
  {| state := state a;
     mode := mode a;
     stopInProgress := stopInProgress a;
     recordingActive := recordingActive a;
     acceptingAudio := acceptingAudio a;
     asrRequestCount := asrRequestCount a;
     rawTranscriptParts := rawTranscriptParts a;
     liveInjectedText := liveInjectedText a;
     audio := audio a;
     asrLoopActive := asrLoopActive a;
     asrLoopPromise := asrLoopPromise a;
     latencyTracker := latencyTracker a;
     dynamicNormalAsrWindowMs := dynamicNormalAsrWindowMs a;
     ewmaAsrRtf := ewmaAsrRtf a;
     ewmaAsrMs := ewmaAsrMs a;
     speechHangoverUntilMs := v;
     effects := effects a |}.

Definition set_effects (v : list Effect) (a : App) : App :=
  {| state := state a;
     mode := mode a;
     stopInProgress := stopInProgress a;
     recordingActive := recordingActive a;
     acceptingAudio := acceptingAudio a;
     asrRequestCount := asrRequestCount a;
     rawTranscriptParts := rawTranscriptParts a;
     liveInjectedText := liveInjectedText a;
     audio := audio a;
     asrLoopActive := asrLoopActive a;
     asrLoopPromise := asrLoopPromise a;
     latencyTracker := latencyTracker a;
     dynamicNormalAsrWindowMs := dynamicNormalAsrWindowMs a;
     ewmaAsrRtf := ewmaAsrRtf a;
     ewmaAsrMs := ewmaAsrMs a;
     speechHangoverUntilMs := speechHangoverUntilMs a;
     effects := v |}.

(** How an [async] method ends: its promise resolves, or rejects with the
    error's message. *)
Inductive Outcome :=
| Returned
| Threw (detail : jsstring).

(* ===================================================================== *)
(** * DingoFlowApp.ts: scheduler, speech gate and the per-slice pipeline *)
(* ===================================================================== *)

(** The orchestrator runs on one thread and gives up control only where it
    awaits a collaborator.  The embedding follows that: a method is a
    function on the record of fields [App]; what a collaborator answers,
    what [Date.now()] reads and which chunks the recorder delivers while a
    call is awaited are inputs ([SliceEnv], [FlushEnv], [StartEnv],
    [StopEnv]); an awaited call that can reject carries its [Outcome].
    One activation of the ASR loop is run to completion within the event
    that starts it, so a press or a release never falls between two of its
    iterations.  Logging is left out. *)
Module DingoFlowApp.

Import AudioQueue LiveText.

Definition AUDIO_SAMPLE_RATE : Z := 16000.

Definition str := Js.str.

(** The object built by the constructor. *)
Definition new (options : DingoFlowLatencyOptions) : App :=
  {| state := {| stage := idle; detail := None |};
     mode := clean;
     stopInProgress := false;
     recordingActive := false;
     acceptingAudio := false;
     asrRequestCount := 0;
     rawTranscriptParts := [];
     liveInjectedText := [];
     audio := AudioQueue.empty;
     asrLoopActive := false;
     asrLoopPromise := false;
     latencyTracker := [];
     dynamicNormalAsrWindowMs := normalAsrWindowMs options;
     ewmaAsrRtf := 1%float;
     ewmaAsrMs := 0%float;
     speechHangoverUntilMs := 0;
     effects := [] |}.

Definition perform (e : Effect) (a : App) : App :=
  set_effects (effects a ++ [e]) a.

(** [setState]: assign and emit [stateChanged]. *)
Definition setState (next : AppState) (a : App) : App :=
  perform (EmitStateChanged next) (set_state next a).

Definition mkState (s : PipelineStage) (d : string) : AppState :=
  {| stage := s; detail := Some (str d) |}.

(** [msToBytes]. *)
Definition msToBytes (ms : Z) : Z :=
  Z.max 1 ((AUDIO_SAMPLE_RATE * 2 * ms) / 1000).

(** [bytesToMs]. *)
Definition bytesToMs (bytes : Z) : float :=
  (Num.ofZ bytes / Num.ofZ (2 * AUDIO_SAMPLE_RATE) * 1000)%float.

(** [audio.readInt16LE(index)] on the two bytes at [index]. *)
Definition readInt16LE (lo hi : Byte.byte) : Z :=
  let u := Z.of_N (Byte.to_N lo) + 256 * Z.of_N (Byte.to_N hi) in
  if u <? 32768 then u else u - 65536.

(** The [for (index = 0; index + 1 < audio.length; index += 2)] loop of
    [estimateDbfs].  Every [sample] is [k / 32768] for a 16-bit [k], so
    [sumSquares] is the sum of the [k * k] divided by 2^30, computed
    without rounding for any slice the scheduler can form; the loop
    returns that integer sum and [sampleCount]. *)
Fixpoint sumSquaresLoop (audio : Buffer) : Z * Z :=
  match audio with
  | lo :: hi :: rest =>
      let (sum, sampleCount) := sumSquaresLoop rest in
      (readInt16LE lo hi * readInt16LE lo hi + sum, sampleCount + 1)
  | _ => (0, 0)
  end.

Section Orchestrator.

(** [Math.log10] is implementation-approximated; it is a parameter. *)
Variable log10 : float -> float.
Variable options : DingoFlowLatencyOptions.
Variable deps : Deps.

(** [estimateDbfs].  [rms = Math.sqrt(sumSquares / sampleCount)] is [<= 0]
    exactly when every sample is zero, which is the test made on the
    integer sum. *)
Definition estimateDbfs (audio : Buffer) : float :=
  if len audio <? 2 then (-120)%float
  else
    let (sum, sampleCount) := sumSquaresLoop audio in
    if sampleCount =? 0 then (-120)%float
    else if sum =? 0 then (-120)%float
    else
      let sumSquares := (Num.ofZ sum / 1073741824)%float in
      let rms := PrimFloat.sqrt (sumSquares / Num.ofZ sampleCount)%float in
      (20 * log10 rms)%float.

(** [updateAdaptiveWindow]. *)
Definition updateAdaptiveWindow (audioMs : float) (asrElapsedMs : Z)
  (pendingMs : float) (a : App) : App :=
  let alpha := 0.18%float in
  let rtf := (Num.ofZ asrElapsedMs / Num.Math_max audioMs 1)%float in
  let a := set_ewmaAsrRtf (ewmaAsrRtf a * (1 - alpha) + rtf * alpha)%float a in
  let a :=
    set_ewmaAsrMs (ewmaAsrMs a * (1 - alpha) + Num.ofZ asrElapsedMs * alpha)%float
      a in
  if negb (adaptiveAsrWindow options) then a
  else
    let next := dynamicNormalAsrWindowMs a in
    let next :=
      if Num.ge pendingMs (Num.ofZ (backlogAsrWindowMs options))
         || Num.gt (ewmaAsrRtf a) 1%float
      then next + 24
      else if PrimFloat.leb pendingMs (Num.ofZ (minAsrWindowMs options))
              && PrimFloat.ltb (ewmaAsrRtf a) 0.68%float
      then next - 10
      else if PrimFloat.leb pendingMs
                (Num.ofZ (normalAsrWindowMs options) / 2)%float
              && PrimFloat.ltb (ewmaAsrRtf a) 0.8%float
      then next - 4
      else next in
    let clamped :=
      Num.clamp next (minAsrWindowMs options) (maxAsrWindowMs options) in
    if negb (clamped =? dynamicNormalAsrWindowMs a)
    then set_dynamicNormalAsrWindowMs clamped a
    else a.

(** [takeNextAudioSlice]; [now] is the clock reading made by
    [readPendingAudioSlice]. *)
Definition takeNextAudioSlice (now : Z) (forceFlush : bool) (a : App)
  : option PendingAudioSlice * App :=
  let pending := pendingAudioBytes (audio a) in
  if pending =? 0 then (None, a)
  else
    let minBytes := msToBytes (minAsrWindowMs options) in
    if negb forceFlush && (pending <? minBytes) then (None, a)
    else
      let pendingMs := bytesToMs pending in
      let targetMs :=
        if adaptiveAsrWindow options then dynamicNormalAsrWindowMs a
        else normalAsrWindowMs options in
      let targetMs :=
        if Num.ge pendingMs (Num.ofZ (backlogAsrWindowMs options * 2))
        then maxAsrWindowMs options
        else if Num.ge pendingMs (Num.ofZ (backlogAsrWindowMs options))
        then Z.max targetMs (backlogAsrWindowMs options)
        else targetMs in
      let targetMs :=
        Num.clamp targetMs (minAsrWindowMs options) (maxAsrWindowMs options) in
      let takeBytes :=
        if forceFlush then pending else Z.min pending (msToBytes targetMs) in
      if takeBytes <=? 0 then (None, a)
      else
        let (next, q) := readPendingAudioSlice now takeBytes (audio a) in
        (next, set_audio q a).

(** The [onChunk] callback while the ASR loop is active (so that the
    [ensureAsrLoop()] at the end of [enqueueAudioChunk] returns at once). *)
Definition onChunkWhileLoopActive (arrival : Z * Buffer) (a : App) : App :=
  let (now, chunk) := arrival in
  if negb (acceptingAudio a) || (len chunk =? 0) then a
  else set_audio (pushAudioChunk now chunk (audio a)) a.

Definition deliverWhileLoopActive (arrivals : list (Z * Buffer)) (a : App)
  : App :=
  fold_left (fun acc arrival => onChunkWhileLoopActive arrival acc) arrivals a.

(** What the outside world supplies while one slice is processed: the
    successive readings of [Date.now()], how the ASR request and the
    injector call end, and the chunks the recorder delivers while each of
    the two calls is awaited. *)
Record SliceEnv := {
  tTake : Z;
  tQueue : Z;
  tGate : Z;
  tAsrStart : Z;
  asrOutcome : option AsrResult;
  asrArrivals : list (Z * Buffer);
  tAsrEnd : Z;
  tInjectStart : Z;
  injectOutcome : Outcome;
  injectArrivals : list (Z * Buffer);
  tInjectEnd : Z;
  tEndToEnd : Z
}.

(** The rewrite applied to an ASR text before it is stitched. *)
Definition commandText (rawChunk : jsstring) : jsstring :=
  if spokenFormattingCommands options
  then SpokenFormattingProcessor.text
         (SpokenFormattingProcessor.transform rawChunk)
  else rawChunk.

(** [processAudioSlice]. *)
Definition processAudioSlice (env : SliceEnv) (audioSlice : PendingAudioSlice)
  (requestId : Z) (a : App) : App * Outcome :=
  let queueDelayMs := Z.max 0 (tQueue env - oldestEnqueuedAtMs audioSlice) in
  let audioMs := bytesToMs (len (sliceData audioSlice)) in
  let audioLevelDbfs := estimateDbfs (sliceData audioSlice) in
  let nowMs := tGate env in
  let hasSpeechEnergy := Num.ge audioLevelDbfs (silenceGateDbfs options) in
  let gate :=
    if hasSpeechEnergy
    then Some (set_speechHangoverUntilMs (nowMs + speechHangoverMs options) a)
    else if speechHangoverUntilMs a <? nowMs then None
    else Some a in
  match gate with
  | None => (a, Returned)
  | Some a =>
    let asrStartedAt := tAsrStart env in
    let a :=
      perform (if hasPushStream deps
               then CallAsrPushStream (sliceData audioSlice)
               else CallAsrTranscribe (sliceData audioSlice)) a in
    let a := deliverWhileLoopActive (asrArrivals env) a in
    let asrResult := asrOutcome env in
    let asrElapsedMs := tAsrEnd env - asrStartedAt in
    let a :=
      updateAdaptiveWindow audioMs asrElapsedMs
        (bytesToMs (pendingAudioBytes (audio a))) a in
    match asrResult with
    | None => (a, Returned)
    | Some result =>
        let rawChunk := trim (asrText result) in
        if negb (truthy rawChunk) then (a, Returned)
        else
          let commandResultText := commandText rawChunk in
          if negb (truthy commandResultText) then (a, Returned)
          else
            let normalizedChunk := normalizeLiveChunkOutput commandResultText in
            if negb (truthy normalizedChunk) then (a, Returned)
            else
              let dedupedChunk :=
                dedupeChunkAgainstLiveTranscript (liveInjectedText a)
                  normalizedChunk in
              if negb (truthy dedupedChunk) then (a, Returned)
              else
                let a :=
                  set_rawTranscriptParts
                    (rawTranscriptParts a ++ [dedupedChunk]) a in
                let a :=
                  set_liveInjectedText (liveInjectedText a ++ dedupedChunk) a in
                let injectStartedAt := tInjectStart env in
                let a := perform (CallInject dedupedChunk) a in
                let a := deliverWhileLoopActive (injectArrivals env) a in
                match injectOutcome env with
                | Threw d => (a, Threw d)
                | Returned =>
                    let injectElapsedMs := tInjectEnd env - injectStartedAt in
                    let endToEndMs :=
                      Z.max 0 (tEndToEnd env - oldestEnqueuedAtMs audioSlice) in
                    (set_latencyTracker
                       (latencyTracker a
                          ++ [{| queueMs := queueDelayMs;
                                 audioMs := audioMs;
                                 asrMs := asrElapsedMs;
                                 injectMs := injectElapsedMs;
                                 endToEndMs := endToEndMs |}]) a,
                     Returned)
                end
    end
  end.

(** What the outside world supplies to [processStreamFlush]. *)
Record FlushEnv := {
  flushOutcome : option AsrResult;
  flushInjectOutcome : Outcome
}.

(** [processStreamFlush]. *)
Definition processStreamFlush (env : FlushEnv) (a : App) : App * Outcome :=
  match asrBackend options with
  | parakeet_native => (a, Returned)
  | _ =>
      if negb (hasFlushStream deps) then (a, Returned)
      else
        let a := perform CallAsrFlushStream a in
        match flushOutcome env with
        | None => (a, Returned)
        | Some tailResult =>
            if negb (truthy (trim (asrText tailResult))) then (a, Returned)
            else
              let tailText := trim (asrText tailResult) in
              let tailCommandResultText := commandText tailText in
              if negb (truthy tailCommandResultText) then (a, Returned)
              else
                let normalizedTail :=
                  normalizeLiveChunkOutput tailCommandResultText in
                if negb (truthy normalizedTail) then (a, Returned)
                else
                  let a :=
                    set_rawTranscriptParts
                      (rawTranscriptParts a ++ [normalizedTail]) a in
                  let a :=
                    set_liveInjectedText
                      (liveInjectedText a ++ normalizedTail) a in
                  let a := perform (CallInject normalizedTail) a in
                  (a, flushInjectOutcome env)
        end
  end.

(** ** The ASR loop *)

(** The per-slice inputs of the session, indexed by request id. *)
Variable world : Z -> SliceEnv.

(** [shouldContinueLoop]. *)
Definition shouldContinueLoop (a : App) : bool :=
  if pendingAudioBytes (audio a) =? 0 then false
  else if negb (recordingActive a) then true
  else msToBytes (minAsrWindowMs options) <=? pendingAudioBytes (audio a).

(** [runAsrLoop], one activation run to completion.  [fuel] bounds the
    number of iterations ([None]: not finished within [fuel]); [iterated]
    tells whether a slice has been awaited, in which case the assignment
    [this.asrLoopPromise = this.runAsrLoop()] of [ensureAsrLoop] precedes
    the [finally] block; otherwise it follows it and leaves the field set.
    The result carries the outcome of the loop's promise. *)
Fixpoint runAsrLoop (fuel : nat) (iterated : bool) (a : App)
  : option (App * Outcome * bool) :=
  match fuel with
  | O => None
  | S fuel' =>
      let finally (a : App) (out : Outcome) (iterated : bool) :=
        let a := set_asrLoopPromise false (set_asrLoopActive false a) in
        if shouldContinueLoop a then
          match runAsrLoop fuel' false (set_asrLoopActive true a) with
          | None => None
          | Some (a', _, again) =>
              Some (if again then a' else set_asrLoopPromise true a',
                    out, iterated)
          end
        else Some (a, out, iterated) in
      let env := world (asrRequestCount a + 1) in
      match takeNextAudioSlice (tTake env) (negb (recordingActive a)) a with
      | (None, a) => finally a Returned iterated
      | (Some next, a) =>
          let requestId := asrRequestCount a + 1 in
          let a := set_asrRequestCount requestId a in
          match processAudioSlice env next requestId a with
          | (a, Returned) => runAsrLoop fuel' true a
          | (a, Threw d) => finally a (Threw d) true
          end
      end
  end.

(** [ensureAsrLoop]; the result carries the outcome of the promise of the
    loop it started (if any) and whether that loop awaited a slice. *)
Definition ensureAsrLoop (fuel : nat) (a : App)
  : option (App * Outcome * bool) :=
  if asrLoopActive a then Some (a, Returned, false)
  else
    match runAsrLoop fuel false (set_asrLoopActive true a) with
    | None => None
    | Some (a', out, iterated) =>
        Some (if iterated then a' else set_asrLoopPromise true a',
              out, iterated)
    end.

(** [enqueueAudioChunk]. *)
Definition enqueueAudioChunk (fuel : nat) (now : Z) (chunk : Buffer) (a : App)
  : option (App * Outcome * bool) :=
  ensureAsrLoop fuel (set_audio (pushAudioChunk now chunk (audio a)) a).

(** The [onChunk] callback passed to the recorder by [startRecording].  A
    [Threw] outcome is the rejection of the loop promise it started. *)
Definition onChunk (fuel : nat) (now : Z) (chunk : Buffer) (a : App)
  : option (App * Outcome) :=
  if negb (acceptingAudio a) || (len chunk =? 0) then Some (a, Returned)
  else
    match enqueueAudioChunk fuel now chunk a with
    | None => None
    | Some (a', out, _) => Some (a', out)
    end.

(** Chunks delivered one after the other through [onChunk]; stops at a
    rejected loop promise. *)
Fixpoint deliver (fuel : nat) (arrivals : list (Z * Buffer)) (a : App)
  : option (App * Outcome) :=
  match arrivals with
  | [] => Some (a, Returned)
  | (now, chunk) :: rest =>
      match onChunk fuel now chunk a with
      | None => None
      | Some (a', Threw d) => Some (a', Threw d)
      | Some (a', Returned) => deliver fuel rest a'
      end
  end.

(** The [while (this.asrLoopPromise)] loop of [waitForAsrDrain].
    [inflight] is the outcome of the loop started by the preceding
    [ensureAsrLoop()], when that loop awaited a slice. *)
Fixpoint awaitLoops (fuel loopFuel : nat) (inflight : option Outcome) (a : App)
  : option (App * Outcome) :=
  match fuel with
  | O => None
  | S fuel' =>
      match inflight, asrLoopPromise a with
      | None, false => Some (a, Returned)
      | Some (Threw d), _ => Some (a, Threw d)
      | _, _ =>
          if 0 <? pendingAudioBytes (audio a) then
            match ensureAsrLoop loopFuel a with
            | None => None
            | Some (a', out, iterated) =>
                awaitLoops fuel' loopFuel
                  (if iterated then Some out else None) a'
            end
          else awaitLoops fuel' loopFuel None a
      end
  end.

(** [waitForAsrDrain]. *)
Definition waitForAsrDrain (fuel : nat) (a : App) : option (App * Outcome) :=
  if 0 <? pendingAudioBytes (audio a) then
    match ensureAsrLoop fuel a with
    | None => None
    | Some (a', out, iterated) =>
        awaitLoops fuel fuel (if iterated then Some out else None) a'
    end
  else awaitLoops fuel fuel None a.

(** ** Starting and stopping a session *)

(** How [recorder.startStreaming] and [asr.startStream] end. *)
Record StartEnv := {
  recorderStartOutcome : Outcome;
  asrStartStreamOutcome : Outcome
}.

(** [startRecording]. *)
Definition startRecording (env : StartEnv) (a : App) : App * Outcome :=
  let a := set_recordingActive true a in
  let a := set_acceptingAudio true a in
  let a := set_asrRequestCount 0 a in
  let a := set_rawTranscriptParts [] a in
  let a := set_liveInjectedText [] a in
  let a := set_audio AudioQueue.empty a in
  let a := set_asrLoopActive false a in
  let a := set_asrLoopPromise false a in
  let a := set_dynamicNormalAsrWindowMs (normalAsrWindowMs options) a in
  let a := set_ewmaAsrRtf 1%float a in
  let a := set_ewmaAsrMs (Num.ofZ (normalAsrWindowMs options)) a in
  let a := set_speechHangoverUntilMs 0 a in
  let a := set_latencyTracker [] a in
  let rollback (d : jsstring) (a : App) :=
    let a := set_acceptingAudio false a in
    let a := set_recordingActive false a in
    let a := perform CallRecorderStop a in
    let a :=
      set_audio {| sessionAudioChunks := sessionAudioChunks (audio a);
                   pendingAudioQueue := [];
                   pendingAudioBytes := 0 |} a in
    (a, Threw d) in
  let a := perform (CallRecorderStartStreaming (liveStreamChunkMs options)) a in
  match recorderStartOutcome env with
  | Threw d => rollback d a
  | Returned =>
      let started :=
        if hasStartStream deps
        then (perform CallAsrStartStream a, asrStartStreamOutcome env)
        else (a, Returned) in
      match started with
      | (a, Threw d) => rollback d a
      | (a, Returned) =>
          (setState (mkState recording "Live dictation (adaptive streaming)") a,
           Returned)
      end
  end.

(** [handlePushToTalkPressed]. *)
Definition handlePushToTalkPressed (env : StartEnv) (a : App) : App :=
  match stage (state a) with
  | recording => a
  | idle | error =>
      match startRecording env a with
      | (a, Returned) => a
      | (a, Threw d) => setState {| stage := error; detail := Some d |} a
      end
  | _ => a
  end.

(** [/[ \t]+\n/g -> '\n']; [run] is the run of blanks read so far. *)
Fixpoint dropBlanksBeforeNewline (run : jsstring) (s : jsstring) : jsstring :=
  match s with
  | [] => run
  | c :: s' =>
      if Ascii.eqb c LF then LF :: dropBlanksBeforeNewline [] s'
      else if isHSpace c then dropBlanksBeforeNewline (run ++ [c]) s'
      else run ++ c :: dropBlanksBeforeNewline [] s'
  end.

(** The normalisation of [this.rawTranscriptParts.join('')] at the start
    of the drain. *)
Definition normalizeRawTranscript (parts : list jsstring) : jsstring :=
  trim
    (SpokenFormattingProcessor.collapseBlanks []
       (SpokenFormattingProcessor.collapseNewlines 0
          (dropBlanksBeforeNewline [] (concat parts)))).

(** What the outside world supplies to [stopAndProcess]: how
    [recorder.stop()] ends and the chunks it delivers before it does (its
    tail chunk), the inputs of the flush, how the final pass, the two
    [replaceRecentText] calls and the formatter end ([None]: the promise
    rejects and the orchestrator falls back). *)
Record StopEnv := {
  recorderStopOutcome : Outcome;
  recorderStopArrivals : list (Z * Buffer);
  flushEnv : FlushEnv;
  finalPassOutcome : option AsrResult;
  finalReplaceOutcome : Outcome;
  formatOutcome : option jsstring;
  formattedReplaceOutcome : Outcome
}.

(** The part of the [try] block of [stopAndProcess] after the flush. *)
Definition finishDictation (env : StopEnv) (a : App) : App * Outcome :=
  let rawTranscript := normalizeRawTranscript (rawTranscriptParts a) in
  let finalPassed : App * jsstring * Outcome :=
    match asrBackend options with
    | parakeet_native =>
        if parakeetFinalPass options && (0 <? len (sessionAudioChunks (audio a)))
        then
          let a :=
            setState (mkState transcribing "Final native Parakeet pass") a in
          let fullAudio := concat (sessionAudioChunks (audio a)) in
          let a := perform (CallAsrTranscribe fullAudio) a in
          match finalPassOutcome env with
          | None => (a, rawTranscript, Returned)
          | Some finalPass =>
              let finalRawTranscript := trim (asrText finalPass) in
              if truthy finalRawTranscript then
                if negb (Js.eqb finalRawTranscript rawTranscript)
                   && hasReplaceRecentText deps
                then
                  let a :=
                    setState
                      (mkState injecting "Applying final ASR correction") a in
                  let a :=
                    perform
                      (CallReplaceRecentText (trimEnd (liveInjectedText a))
                         finalRawTranscript) a in
                  match finalReplaceOutcome env with
                  | Threw d => (a, rawTranscript, Threw d)
                  | Returned =>
                      (set_liveInjectedText (finalRawTranscript ++ [SP]) a,
                       finalRawTranscript, Returned)
                  end
                else (a, finalRawTranscript, Returned)
              else (a, rawTranscript, Returned)
          end
        else (a, rawTranscript, Returned)
    | _ => (a, rawTranscript, Returned)
    end in
  match finalPassed with
  | (a, _, Threw d) => (a, Threw d)
  | (a, rawTranscript, Returned) =>
      if negb (truthy rawTranscript)
      then (setState (mkState idle "No speech detected") a, Returned)
      else
        let a := setState (mkState formatting "Final formatting pass") a in
        let a := perform (CallFormat (mode a) rawTranscript) a in
        let formattedText :=
          match formatOutcome env with
          | Some formatted => formatted
          | None => rawTranscript
          end in
        let finalText :=
          if truthy (trim formattedText) then trim formattedText
          else rawTranscript in
        let replaced :=
          if negb (Js.eqb finalText rawTranscript) && hasReplaceRecentText deps
          then
            let a :=
              setState (mkState injecting "Applying formatted correction") a in
            (perform
               (CallReplaceRecentText (trimEnd (liveInjectedText a)) finalText)
               a,
             formattedReplaceOutcome env)
          else (a, Returned) in
        match replaced with
        | (a, Threw d) => (a, Threw d)
        | (a, Returned) =>
            let a :=
              perform
                (EmitDictationCompleted
                   {| rawTranscript := rawTranscript;
                      formattedText := finalText |}) a in
            (setState {| stage := idle; detail := None |} a, Returned)
        end
  end.

(** The [try] block of [stopAndProcess]. *)
Definition stopAndProcessTry (fuel : nat) (env : StopEnv) (a : App)
  : option (App * Outcome) :=
  let a := set_recordingActive false a in
  let a := perform CallRecorderStop a in
  match deliver fuel (recorderStopArrivals env) a with
  | None => None
  | Some (a, Threw d) => Some (a, Threw d)
  | Some (a, Returned) =>
      match recorderStopOutcome env with
      | Threw d => Some (a, Threw d)
      | Returned =>
          let a := set_acceptingAudio false a in
          let a := setState (mkState transcribing "Draining audio queue") a in
          match waitForAsrDrain fuel a with
          | None => None
          | Some (a, Threw d) => Some (a, Threw d)
          | Some (a, Returned) =>
              match processStreamFlush (flushEnv env) a with
              | (a, Threw d) => Some (a, Threw d)
              | (a, Returned) => Some (finishDictation env a)
              end
          end
      end
  end.

(** [stopAndProcess]: the [try] block, then [catch] and [finally]. *)
Definition stopAndProcess (fuel : nat) (env : StopEnv) (a : App) : option App :=
  match stopAndProcessTry fuel env a with
  | None => None
  | Some (a, out) =>
      let a :=
        match out with
        | Threw d => setState {| stage := error; detail := Some d |} a
        | Returned => a
        end in
      let a := if hasStopStream deps then perform CallAsrStopStream a else a in
      let a := set_acceptingAudio false a in
      let a := set_recordingActive false a in
      let a := set_asrRequestCount 0 a in
      let a := set_rawTranscriptParts [] a in
      let a := set_liveInjectedText [] a in
      let a := set_audio AudioQueue.empty a in
      let a := set_asrLoopActive false a in
      let a := set_asrLoopPromise false a in
      Some (set_latencyTracker [] a)
  end.

(** [handlePushToTalkReleased]. *)
Definition handlePushToTalkReleased (fuel : nat) (env : StopEnv) (a : App)
  : option App :=
  match stage (state a) with
  | recording =>
      if stopInProgress a then Some a
      else
        match stopAndProcess fuel env (set_stopInProgress true a) with
        | None => None
        | Some a => Some (set_stopInProgress false a)
        end
  | _ => Some a
  end.

(** ** Sessions *)

(** What happens to the orchestrator from outside.  The ASR loop started
    by an event is run to completion within that event. *)
Inductive SessionEvent :=
| Pressed (env : StartEnv)
| ChunkDelivered (now : Z) (chunk : Buffer)
| Released (env : StopEnv).

Definition sessionStep (fuel : nat) (ev : SessionEvent) (a : App)
  : option (App * Outcome) :=
  match ev with
  | Pressed env => Some (handlePushToTalkPressed env a, Returned)
  | ChunkDelivered now chunk => onChunk fuel now chunk a
  | Released env =>
      match handlePushToTalkReleased fuel env a with
      | None => None
      | Some a => Some (a, Returned)
      end
  end.

(** Runs the events in order; stops at the first rejected loop promise
    that nothing awaits. *)
Fixpoint runSession (fuel : nat) (evs : list SessionEvent) (a : App)
  : option (App * Outcome) :=
  match evs with
  | [] => Some (a, Returned)
  | ev :: rest =>
      match sessionStep fuel ev a with
      | None => None
      | Some (a, Threw d) => Some (a, Threw d)
      | Some (a, Returned) => runSession fuel rest a
      end
  end.

End Orchestrator.

End DingoFlowApp.

(* ===================================================================== *)
(** * The capture collaborators: AudioRecorder.ts, FfmpegRecorder.ts,
      RustNativeRecorder.ts *)
(* ===================================================================== *)

Module Capture.

(** How the synchronous checks at the head of [startStreaming] end:
    an [Error] with its message is thrown, or capture is set up with the
    computed [chunkByteSize]. *)
Inductive StartCheck :=
| Throws (message : jsstring)
| Proceeds (chunkByteSize : Z).

(** The interface [AudioRecorder], as far as the checks go. *)
Class AudioRecorder (R : Type) := {
  isRecording : R -> bool;
  startStreaming : R -> Z -> StartCheck
}.

Definition chunkBytes (chunkDurationMs : Z) : Z :=
  Z.max 1 ((16000 * 2 * chunkDurationMs) / 1000).

(** [FfmpegRecorder]: [process] tells whether the child process is set. *)
Record FfmpegRecorder := { ffmpegProcess : bool }.

Definition ffmpegRangeError : jsstring :=
  str "chunkDurationMs must be between 40 and 2000.".

Definition ffmpegStartStreaming (r : FfmpegRecorder) (chunkDurationMs : Z)
  : StartCheck :=
  if ffmpegProcess r then Throws (str "Recorder is already active")
  else if (chunkDurationMs <? 40) || (2000 <? chunkDurationMs)
  then Throws ffmpegRangeError
  else Proceeds (chunkBytes chunkDurationMs).

#[export] Instance FfmpegAudioRecorder : AudioRecorder FfmpegRecorder := {
  isRecording := ffmpegProcess;
  startStreaming := ffmpegStartStreaming
}.

(** [RustNativeRecorder]: [binaryExists] is the answer of
    [fs.existsSync(this.binaryPath)]. *)
Record RustNativeRecorder := {
  nativeProcess : bool;
  binaryPath : jsstring;
  binaryExists : bool
}.

Definition nativeRangeError : jsstring :=
  str "chunkDurationMs must be between 20 and 2000.".

Definition nativeStartStreaming (r : RustNativeRecorder) (chunkDurationMs : Z)
  : StartCheck :=
  if nativeProcess r then Throws (str "Recorder is already active")
  else if (chunkDurationMs <? 20) || (2000 <? chunkDurationMs)
  then Throws nativeRangeError
  else if negb (binaryExists r)
  then Throws (str "Native recorder binary not found at '" ++ binaryPath r
               ++ str "'. Run scripts/build_native_audio.sh first.")
  else Proceeds (chunkBytes chunkDurationMs).

#[export] Instance RustNativeAudioRecorder : AudioRecorder RustNativeRecorder := {
  isRecording := nativeProcess;
  startStreaming := nativeStartStreaming
}.

(** The range error of either recorder. *)
Definition isRangeError (c : StartCheck) : bool :=
  match c with
  | Throws m => Js.eqb m ffmpegRangeError || Js.eqb m nativeRangeError
  | Proceeds _ => false
  end.

End Capture.

(* ===================================================================== *)
(** * FfmpegRecorder.ts and RustNativeRecorder.ts: re-framing of the
      captured audio *)
(* ===================================================================== *)

(** The two recorders hold the same five fields and the same three private
    methods [handleAudioData], [flushPendingTailChunk] and
    [readPendingBytes], word for word; they are embedded once. *)
Module RecorderBuffer.

(** The fields; [onChunk] tells whether the callback is set, and
    [process] whether the child process is. *)
Record t := {
  process : bool;
  onChunk : bool;
  pendingChunks : list Buffer;
  pendingChunkOffset : Z;
  pendingBytes : Z;
  chunkByteSize : Z
}.

(** The fields as declared. *)
Definition initial : t :=
  {| process := false; onChunk := false; pendingChunks := [];
     pendingChunkOffset := 0; pendingBytes := 0; chunkByteSize := 0 |}.

(** The assignments of [startStreaming] once its checks have passed and
    the child process runs. *)
Definition started (chunkDurationMs : Z) : t :=
  {| process := true; onChunk := true; pendingChunks := [];
     pendingChunkOffset := 0; pendingBytes := 0;
     chunkByteSize := Capture.chunkBytes chunkDurationMs |}.

(** The variables of the [while] loop of [readPendingBytes]: [output]
    holds the [writeOffset] bytes copied so far. *)
Record ReadState := {
  output : Buffer;
  writeOffset : Z;
  chunks : list Buffer;
  chunkOffset : Z;
  pending : Z
}.

(** One iteration of the loop body on the head chunk. *)
Definition readStep (byteCount : Z) (head : Buffer) (rest : list Buffer)
  (st : ReadState) : ReadState :=
  let available := len head - chunkOffset st in
  let toCopy := Z.min available (byteCount - writeOffset st) in
  let copied := slice (chunkOffset st) (chunkOffset st + toCopy) head in
  let offset' := chunkOffset st + toCopy in
  {| output := output st ++ copied;
     writeOffset := writeOffset st + toCopy;
     chunks := if len head <=? offset' then rest else head :: rest;
     chunkOffset := if len head <=? offset' then 0 else offset';
     pending := pending st - toCopy |}.

Definition readMeasure (byteCount : Z) (st : ReadState) : nat :=
  (2 * length (chunks st) + (if (writeOffset st <? byteCount)%Z then 1 else 0))%nat.

(** [while (writeOffset < byteCount) { head = pendingChunks[0];
    if (!head) break; ... }]; an iteration removes the head chunk or
    completes the read. *)
Equations readLoop (byteCount : Z) (st : ReadState) : ReadState
  by wf (readMeasure byteCount st) lt :=
  readLoop byteCount st with inspect (writeOffset st <? byteCount) := {
    | exist _ false _ := st
    | exist _ true Hlt with inspect (chunks st) := {
        | exist _ [] _ := st
        | exist _ (headChunk :: rest) Hq :=
            readLoop byteCount (readStep byteCount headChunk rest st) } }.
Next Obligation.
  apply Z.ltb_lt in Hlt.
  unfold readMeasure, readStep. cbn [chunks writeOffset chunkOffset].
  rewrite Hq. cbn [length].
  destruct (Z.leb_spec (len headChunk)
              (chunkOffset st
               + Z.min (len headChunk - chunkOffset st)
                       (byteCount - writeOffset st))) as [Hs|Hs].
  - destruct (_ <? byteCount); destruct (_ <? byteCount); lia.
  - cbn [length].
    destruct (Z.ltb_spec (writeOffset st) byteCount); [|lia].
    destruct (Z.ltb_spec
                (writeOffset st
                 + Z.min (len headChunk - chunkOffset st)
                         (byteCount - writeOffset st))
                byteCount); lia.
Qed.

(** [readPendingBytes]. *)
Definition readPendingBytes (byteCount : Z) (r : t) : option Buffer * t :=
  if (byteCount <=? 0) || (pendingBytes r <? byteCount) then (None, r)
  else
    let st := readLoop byteCount
                {| output := []; writeOffset := 0;
                   chunks := pendingChunks r;
                   chunkOffset := pendingChunkOffset r;
                   pending := pendingBytes r |} in
    (Some (output st),
     {| process := process r; onChunk := onChunk r;
        pendingChunks := chunks st;
        pendingChunkOffset := chunkOffset st;
        pendingBytes := pending st;
        chunkByteSize := chunkByteSize r |}).

(** The [while (this.pendingBytes >= this.chunkByteSize)] loop of
    [handleAudioData]; [emitted] collects the buffers passed to
    [onChunk], whose exceptions are caught and logged. *)
Fixpoint emitLoop (fuel : nat) (r : t) (emitted : list Buffer)
  : option (t * list Buffer) :=
  match fuel with
  | O => None
  | S fuel' =>
      if chunkByteSize r <=? pendingBytes r then
        match readPendingBytes (chunkByteSize r) r with
        | (None, r') => Some (r', emitted)
        | (Some nextChunk, r') => emitLoop fuel' r' (emitted ++ [nextChunk])
        end
      else Some (r, emitted)
  end.

(** [handleAudioData]; returns the buffers passed to [onChunk]. *)
Definition handleAudioData (fuel : nat) (chunk : Buffer) (r : t)
  : option (t * list Buffer) :=
  if negb (onChunk r) || (len chunk =? 0) || (chunkByteSize r <=? 0)
  then Some (r, [])
  else
    emitLoop fuel
      {| process := process r; onChunk := onChunk r;
         pendingChunks := pendingChunks r ++ [chunk];
         pendingChunkOffset := pendingChunkOffset r;
         pendingBytes := pendingBytes r + len chunk;
         chunkByteSize := chunkByteSize r |} [].

(** [flushPendingTailChunk]. *)
Definition flushPendingTailChunk (r : t) : t * list Buffer :=
  if negb (onChunk r) || (pendingBytes r <? chunkByteSize r / 2) then (r, [])
  else
    match readPendingBytes (pendingBytes r) r with
    | (None, r') => (r', [])
    | (Some tail, r') => (r', [tail])
    end.

(** [stop]; [closed] tells how the wait for the child's [close] event
    ends ([Threw] for an exit code that is not accepted or an [error]
    event). *)
Definition stop (closed : Outcome) (r : t) : t * list Buffer * Outcome :=
  if negb (process r) then (r, [], Returned)
  else
    let r :=
      {| process := false; onChunk := onChunk r;
         pendingChunks := pendingChunks r;
         pendingChunkOffset := pendingChunkOffset r;
         pendingBytes := pendingBytes r;
         chunkByteSize := chunkByteSize r |} in
    match closed with
    | Threw d => (r, [], Threw d)
    | Returned =>
        let (r, emitted) := flushPendingTailChunk r in
        ({| process := process r; onChunk := false;
            pendingChunks := []; pendingChunkOffset := 0;
            pendingBytes := 0; chunkByteSize := chunkByteSize r |},
         emitted, Returned)
    end.

(** The [data] events of the child's standard output, in order. *)
Fixpoint feed (fuel : nat) (datas : list Buffer) (r : t)
  : option (t * list Buffer) :=
  match datas with
  | [] => Some (r, [])
  | chunk :: datas' =>
      match handleAudioData fuel chunk r with
      | None => None
      | Some (r1, emitted1) =>
          match feed fuel datas' r1 with
          | None => None
          | Some (r2, emitted2) => Some (r2, emitted1 ++ emitted2)
          end
      end
  end.

End RecorderBuffer.

(* ===================================================================== *)
(** * PersistentFramedWorker.ts: length-prefixed frames *)
(* ===================================================================== *)

Module PersistentFramedWorker.

Definition FRAME_HEADER_BYTES : Z := 8.
Definition RESPONSE_HEADER_BYTES : Z := 4.
Definition MAX_RESPONSE_JSON_BYTES : Z := 8 * 1024 * 1024.

Definition byteOfZ (z : Z) : Byte.byte :=
  match Byte.of_N (Z.to_N (z mod 256)) with
  | Some b => b
  | None => Byte.x00
  end.

Definition byteValue (b : Byte.byte) : Z := Z.of_N (Byte.to_N b).

(** The four bytes stored by [buf.writeUInt32LE(value, offset)], for
    [0 <= value < 2^32] (Node throws a [RangeError] outside). *)
Definition writeUInt32LE (value : Z) : Buffer :=
  [ byteOfZ value; byteOfZ (value / 256); byteOfZ (value / 65536);
    byteOfZ (value / 16777216) ].

(** [buf.readUInt32LE(0)]; it is called on buffers of four bytes at
    least. *)
Definition readUInt32LE (buf : Buffer) : Z :=
  match buf with
  | b0 :: b1 :: b2 :: b3 :: _ =>
      byteValue b0 + 256 * byteValue b1 + 65536 * byteValue b2
      + 16777216 * byteValue b3
  | _ => 0
  end.

(** The header that [request] writes before the JSON bytes and the audio
    bytes: [uint32 jsonLen + uint32 binaryLen]. *)
Definition requestHeader (jsonBytes audioBytes : Buffer) : Buffer :=
  writeUInt32LE (len jsonBytes) ++ writeUInt32LE (len audioBytes).

(** The bytes that one [request] writes to the worker's standard input,
    in three [write] calls (two when there is no audio). *)
Definition requestFrame (jsonBytes : Buffer) (binaryData : option Buffer)
  : Buffer :=
  let audioBytes :=
    match binaryData with
    | Some data => if 0 <? len data then data else []
    | None => []
    end in
  requestHeader jsonBytes audioBytes ++ jsonBytes ++ audioBytes.

(** The value of [parsed.id]: falsy, a non-empty string, or a truthy
    value that is no string (and so is no key of [pending]). *)
Inductive ResponseId :=
| NoId
| StringId (id : jsstring)
| OtherId.

Section Worker.

(** The JSON values are opaque. *)
Variable Json : Type.

(** An object parsed from a response, as far as [handleStdoutChunk] reads
    it; [ok] is [parsed.ok === false]. *)
Record WorkerResponse := {
  responseId : ResponseId;
  okIsFalse : bool;
  result : Json;
  error : option jsstring
}.

(** What [JSON.parse(responseJson)] gives: it throws, or returns [null]
    (on which the read of [parsed.id] throws a [TypeError] that nothing
    catches), or returns a value whose properties can be read. *)
Inductive Parsed :=
| ParseThrows
| ParsedNull
| ParsedValue (r : WorkerResponse).

Variable parse : Buffer -> Parsed.

(** [this.options.name]. *)
Variable name : jsstring.

(** How a pending request is settled. *)
Inductive Settled :=
| Resolved (id : jsstring) (value : Json)
| Rejected (id : jsstring) (message : jsstring).

(** [stdoutBuffer] and the keys of the [pending] map. *)
Record t := {
  stdoutBuffer : Buffer;
  pending : list jsstring
}.

Definition hasKey (id : jsstring) (keys : list jsstring) : bool :=
  existsb (Js.eqb id) keys.

Definition deleteKey (id : jsstring) (keys : list jsstring) : list jsstring :=
  filter (fun k => negb (Js.eqb id k)) keys.

(** The body of the loop after the frame has been cut out of the buffer:
    parse and settle.  [Threw] is the uncaught [TypeError]. *)
Definition dispatch (responseJson : Buffer) (keys : list jsstring)
  : list jsstring * list Settled * Outcome :=
  match parse responseJson with
  | ParseThrows => (keys, [], Returned)
  | ParsedNull =>
      (keys, [],
       Threw (str "Cannot read properties of null (reading 'id')"))
  | ParsedValue r =>
      match responseId r with
      | NoId => (keys, [], Returned)
      | OtherId => (keys, [], Returned)
      | StringId id =>
          if negb (hasKey id keys) then (keys, [], Returned)
          else
            let keys := deleteKey id keys in
            if okIsFalse r then
              (keys,
               [Rejected id
                  (match error r with
                   | Some e => e
                   | None => name ++ str " worker request failed"
                   end)],
               Returned)
            else (keys, [Resolved id (result r)], Returned)
      end
  end.

(** [while (this.stdoutBuffer.length >= RESPONSE_HEADER_BYTES) { ... }];
    every iteration that goes on removes a frame of five bytes at least
    from the buffer. *)
#[local] Obligation Tactic := idtac.

Equations drain (buf : Buffer) (keys : list jsstring)
  : t * list Settled * Outcome by wf (length buf) lt :=
  drain buf keys with inspect (RESPONSE_HEADER_BYTES <=? len buf) := {
    | exist _ false _ :=
        ({| stdoutBuffer := buf; pending := keys |}, [], Returned)
    | exist _ true Hlen with
        inspect ((readUInt32LE buf <=? 0)
                 || (MAX_RESPONSE_JSON_BYTES <? readUInt32LE buf)) := {
        | exist _ true _ :=
            ({| stdoutBuffer := []; pending := keys |}, [], Returned)
        | exist _ false Hvalid with
            inspect (len buf <? RESPONSE_HEADER_BYTES + readUInt32LE buf) := {
            | exist _ true _ :=
                ({| stdoutBuffer := buf; pending := keys |}, [], Returned)
            | exist _ false Hframe with
                inspect
                  (dispatch
                     (slice RESPONSE_HEADER_BYTES
                        (RESPONSE_HEADER_BYTES + readUInt32LE buf) buf)
                     keys) := {
                | exist _ (keys', settled, Threw d) _ :=
                    ({| stdoutBuffer :=
                          sliceFrom (RESPONSE_HEADER_BYTES + readUInt32LE buf)
                            buf;
                        pending := keys' |}, settled, Threw d)
                | exist _ (keys', settled, Returned) _ :=
                    let '(st, settled', out) :=
                      drain
                        (sliceFrom (RESPONSE_HEADER_BYTES + readUInt32LE buf)
                           buf)
                        keys' in
                    (st, settled ++ settled', out) } } } }.
Next Obligation.
  intros buf Hframe Hvalid _ keys keys' settled _ _. cbv beta in *.
  apply orb_false_iff in Hvalid. destruct Hvalid as [H0 _].
  apply Z.leb_gt in H0. apply Z.ltb_ge in Hframe.
  pose proof (eq_refl : RESPONSE_HEADER_BYTES = 4) as Hheader.
  unfold sliceFrom, len in *.
  rewrite length_skipn. lia.
Qed.

(** [handleStdoutChunk]. *)
Definition handleStdoutChunk (chunk : Buffer) (w : t)
  : t * list Settled * Outcome :=
  drain (stdoutBuffer w ++ chunk) (pending w).

(** The [data] events of the worker's standard output, in order, up to an
    uncaught exception. *)
Fixpoint feed (chunks : list Buffer) (w : t) : t * list Settled * Outcome :=
  match chunks with
  | [] => (w, [], Returned)
  | chunk :: chunks' =>
      match handleStdoutChunk chunk w with
      | (w1, settled1, Threw d) => (w1, settled1, Threw d)
      | (w1, settled1, Returned) =>
          let '(w2, settled2, out) := feed chunks' w1 in
          (w2, settled1 ++ settled2, out)
      end
  end.

End Worker.

Arguments responseId {Json}.
Arguments okIsFalse {Json}.
Arguments result {Json}.
Arguments error {Json}.
Arguments ParseThrows {Json}.
Arguments ParsedNull {Json}.
Arguments ParsedValue {Json}.
Arguments Resolved {Json}.
Arguments Rejected {Json}.

End PersistentFramedWorker.

(* ===================================================================== *)
(** * TextInjector.ts *)
(* ===================================================================== *)

Module TextInjector.

Definition DIRECT_INPUT_MAX_LENGTH : Z := 280.

(** The commands handed to [commandRunner]. *)
Inductive Command :=
| NativeInsert (binary text : jsstring)
    (* binary --mode insert, the text on standard input *)
| AccessibilityInsert (text : jsstring)
    (* osascript: set AXSelectedText of the focused element *)
| DirectInput (text : jsstring)
    (* osascript: keystroke targetText *)
| PasteKeystroke
    (* osascript: keystroke v using command down *)
| NativeReplace (binary : jsstring) (deleteCount : Z) (text : jsstring)
    (* binary --mode replace --delete-count n, the text on standard input *)
| DeleteAndType (deleteCount : Z) (text : jsstring).
    (* osascript: repeat deleteCount times key code 51, then keystroke *)

(** The fields set by the constructor; [nativeBinaryPath] is set when the
    option is given and the file exists. *)
Record t := {
  nativeBinaryPath : option jsstring;
  pasteDelayMs : Z;
  retryCount : Z;
  retryDelayMs : Z
}.

(** What the injector acts on: the clipboard, written by nobody else
    meanwhile, and the commands run so far with how each ended. *)
Record World := {
  clipboard : jsstring;
  commands : list (Command * Outcome)
}.

Inductive Method := native | accessibility | direct | clipboardPaste.

(** An entry of [failures]: [`<method> attempt <attempt>: <detail>`]. *)
Record Failure := {
  method : Method;
  attempt : Z;
  failureDetail : jsstring
}.

(** How [inject] and [replaceRecentText] end: they return, [inject]
    throws after its retries with the last four failures in the message,
    or the error of a command is passed on. *)
Inductive Ending :=
| Done
| InjectionFailed (retries : Z) (lastFailures : list Failure)
| CommandFailed (detail : jsstring).

Section Injector.

(** How a command ends, given the commands run before it. *)
Variable run : list (Command * Outcome) -> Command -> Outcome.

Variable self : t.

Definition commandRunner (c : Command) (w : World) : World * Outcome :=
  let o := run (commands w) c in
  ({| clipboard := clipboard w; commands := commands w ++ [(c, o)] |}, o).

Definition writeText (text : jsstring) (w : World) : World :=
  {| clipboard := text; commands := commands w |}.

(** [injectViaNativeInsert]. *)
Definition injectViaNativeInsert (text : jsstring) (w : World)
  : World * Outcome :=
  commandRunner
    (NativeInsert (match nativeBinaryPath self with Some p => p | None => [] end)
       text) w.

(** [injectViaAccessibilityInsert]. *)
Definition injectViaAccessibilityInsert (text : jsstring) (w : World)
  : World * Outcome :=
  commandRunner (AccessibilityInsert text) w.

(** [injectViaDirectInput]. *)
Definition injectViaDirectInput (text : jsstring) (w : World)
  : World * Outcome :=
  commandRunner (DirectInput text) w.

(** [injectViaClipboardPaste]. *)
Definition injectViaClipboardPaste (text : jsstring) (w : World)
  : World * Outcome :=
  let previousClipboard := clipboard w in
  let w := writeText text w in
  let (w, out) := commandRunner PasteKeystroke w in
  let currentClipboard := clipboard w in
  match out with
  | Returned =>
      (if Js.eqb currentClipboard text then writeText previousClipboard w
       else w, Returned)
  | Threw d =>
      (if Js.eqb currentClipboard text || negb (truthy (trim currentClipboard))
       then writeText previousClipboard w else w, Threw d)
  end.

Definition failed (m : Method) (attemptNo : Z) (out : Outcome)
  : list Failure :=
  match out with
  | Threw d => [{| method := m; attempt := attemptNo; failureDetail := d |}]
  | Returned => []
  end.

(** The body of [for (attempt = 1; attempt <= retryCount; attempt += 1)],
    run for the [remaining] attempts from [attemptNo] on, and the [throw]
    behind the loop. *)
Fixpoint attempts (remaining : nat) (attemptNo : Z) (finalText : jsstring)
  (failures : list Failure) (w : World) : World * Ending :=
  match remaining with
  | O => (w, InjectionFailed (retryCount self) (sliceLast 4 failures))
  | S remaining' =>
      let allowDirectTyping := len finalText <=? DIRECT_INPUT_MAX_LENGTH in
      let tryNative :=
        match nativeBinaryPath self with
        | Some _ => injectViaNativeInsert finalText w
        | None => (w, Threw [])
        end in
      match tryNative with
      | (w, Returned) => (w, Done)
      | (w, Threw d) =>
          let failures :=
            match nativeBinaryPath self with
            | Some _ => failures ++ failed native attemptNo (Threw d)
            | None => failures
            end in
          match injectViaAccessibilityInsert finalText w with
          | (w, Returned) => (w, Done)
          | (w, Threw d) =>
              let failures :=
                failures ++ failed accessibility attemptNo (Threw d) in
              let tryDirect :=
                if allowDirectTyping then injectViaDirectInput finalText w
                else (w, Threw []) in
              match tryDirect with
              | (w, Returned) => (w, Done)
              | (w, Threw d) =>
                  let failures :=
                    if allowDirectTyping
                    then failures ++ failed direct attemptNo (Threw d)
                    else failures in
                  match injectViaClipboardPaste finalText w with
                  | (w, Returned) => (w, Done)
                  | (w, Threw d) =>
                      attempts remaining' (attemptNo + 1) finalText
                        (failures ++ failed clipboardPaste attemptNo (Threw d))
                        w
                  end
              end
          end
      end
  end.

(** [inject]. *)
Definition inject (text : jsstring) (w : World) : World * Ending :=
  let finalText := text in
  if len finalText =? 0 then (w, Done)
  else attempts (Z.to_nat (retryCount self)) 1 finalText [] w.

(** [replaceRecentText]. *)
Definition replaceRecentText (existingText replacementText : jsstring)
  (w : World) : World * Ending :=
  let oldText := trim existingText in
  let newText := trim replacementText in
  if negb (truthy newText) then (w, Done)
  else if negb (truthy oldText) then inject newText w
  else
    let charsToDelete := len oldText in
    let tryNative :=
      match nativeBinaryPath self with
      | Some p => commandRunner (NativeReplace p (len oldText) newText) w
      | None => (w, Threw [])
      end in
    match tryNative with
    | (w, Returned) => (w, Done)
    | (w, Threw _) =>
        match commandRunner (DeleteAndType charsToDelete newText) w with
        | (w, Returned) => (w, Done)
        | (w, Threw d) => (w, CommandFailed d)
        end
    end.

End Injector.

End TextInjector.

(* ===================================================================== *)
(** * cli/liveTerminal.ts: the injector of the terminal front end *)
(* ===================================================================== *)

Module TerminalInjector.

(** [liveText] and what has been written to standard output. *)
Record t := {
  liveText : jsstring;
  stdout : list jsstring
}.

Definition initial : t := {| liveText := []; stdout := [] |}.

(** [s.endsWith(suffix)]. *)
Definition endsWith (s suffix : jsstring) : bool :=
  (length suffix <=? length s)%nat
  && Js.eqb (skipn (length s - length suffix) s) suffix.

(** [inject]. *)
Definition inject (text : jsstring) (i : t) : t :=
  {| liveText := liveText i ++ text; stdout := stdout i ++ [text] |}.

(** [replaceRecentText]. *)
Definition replaceRecentText (existingText replacementText : jsstring) (i : t)
  : t :=
  {| liveText :=
       if truthy existingText && endsWith (liveText i) existingText
       then slice 0 (len (liveText i) - len existingText) (liveText i)
            ++ replacementText
       else replacementText;
     stdout :=
       stdout i
         ++ [LF :: str "[corrected] " ++ replacementText ++ [LF]] |}.

End TerminalInjector.

(* ===================================================================== *)
(** * services/formatter/prompt.ts *)
(* ===================================================================== *)

Module Prompt.

Definition BASE_RULES : jsstring :=
  join [SP]
    [ str "You are an offline dictation post-processor.";
      str "Keep the language of the input unchanged.";
      str "Do not add facts that were not stated.";
      str "Return output only between <final> and </final> tags." ].

Definition MODE_RULES (mode : FormatMode) : jsstring :=
  match mode with
  | literal =>
      str "Mode literal: Keep wording as close as possible. Only fix obvious transcription errors that break readability."
  | clean =>
      str "Mode clean: Remove filler words, repair punctuation/casing, and keep the same meaning and tone."
  | rewrite =>
      str "Mode rewrite: Rewrite for clarity and flow while preserving core meaning and intent."
  end.

(** [buildFormatterPrompt]. *)
Definition buildFormatterPrompt (mode : FormatMode) (transcript : jsstring)
  : jsstring :=
  let safeTranscript := trim transcript in
  join [LF; LF]
    [ BASE_RULES;
      MODE_RULES mode;
      str "Input transcript starts now.";
      safeTranscript;
      str "Produce final output now.";
      str "<final>" ].

Definition OPEN_TAG : jsstring := str "<final>".
Definition CLOSE_TAG : jsstring := str "</final>".

(** Case-insensitive match of the literal [p] at the head of [s]; returns
    what follows it. *)
Definition startsWith (p s : jsstring) : option jsstring :=
  option_map snd (SpokenFormattingProcessor.matchLiteral p None s).

(** The leftmost occurrence of the literal [p] in [s]: what is before it
    and what is after it. *)
Fixpoint findLiteral (p : jsstring) (before s : jsstring)
  : option (jsstring * jsstring) :=
  match startsWith p s with
  | Some rest => Some (before, rest)
  | None =>
      match s with
      | [] => None
      | c :: s' => findLiteral p (before ++ [c]) s'
      end
  end.

(** [generatedText.match(/<final>([\s\S]*?)<\/final>/i)]: the group of
    the leftmost match.  The match starts at the first opening tag that a
    closing tag follows; as a closing tag that follows a later opening tag
    follows the first one too, this is the first opening tag, and the lazy
    group ends at the first closing tag behind it. *)
Definition matchFinal (generatedText : jsstring) : option jsstring :=
  match findLiteral OPEN_TAG [] generatedText with
  | None => None
  | Some (_, rest) =>
      match findLiteral CLOSE_TAG [] rest with
      | None => None
      | Some (group, _) => Some group
      end
  end.

(** [extractFormattedOutput]. *)
Definition extractFormattedOutput (generatedText : jsstring) : jsstring :=
  match matchFinal generatedText with
  | None => trim generatedText
  | Some group => trim group
  end.

End Prompt.

(* ===================================================================== *)
(** * config.ts *)
(* ===================================================================== *)

Module Config.

Inductive RecorderBackend := auto | ffmpeg | native_rust.
Inductive AsrTransport := jsonl | framed.
Inductive LatencyPreset := ultra | balanced | quality.

Definition asrBackendName (b : AsrBackend) : jsstring :=
  match b with
  | faster_whisper => str "faster-whisper"
  | parakeet_mlx => str "parakeet-mlx"
  | parakeet_native => str "parakeet-native"
  | whisper_native => str "whisper-native"
  end.

Definition recorderBackendName (b : RecorderBackend) : jsstring :=
  match b with
  | auto => str "auto"
  | ffmpeg => str "ffmpeg"
  | native_rust => str "native-rust"
  end.

Definition asrTransportName (t : AsrTransport) : jsstring :=
  match t with jsonl => str "jsonl" | framed => str "framed" end.

Definition latencyPresetName (p : LatencyPreset) : jsstring :=
  match p with
  | ultra => str "ultra"
  | balanced => str "balanced"
  | quality => str "quality"
  end.

(** [AppConfig]; the two fields that [resolveConfig] leaves out are
    optional. *)
Record AppConfig := {
  hotkey : jsstring;
  recorderBackend : RecorderBackend;
  nativeAudioBin : jsstring;
  nativeTextInjectBin : jsstring;
  nativeAsrBin : jsstring;
  nativeParakeetBin : jsstring;
  nativeAsrThreads : Z;
  ffmpegInputDevice : jsstring;
  pythonBin : jsstring;
  asrBackend : AsrBackend;
  asrTransport : AsrTransport;
  asrScriptPath : jsstring;
  formatterScriptPath : jsstring;
  asrModelPath : jsstring;
  asrDevice : jsstring;
  asrComputeType : jsstring;
  formatterModelPath : jsstring;
  formatterMaxTokens : Z;
  pasteDelayMs : Z;
  injectionRetryCount : Z;
  injectionRetryDelayMs : Z;
  spokenFormattingCommands : bool;
  latencyPreset : LatencyPreset;
  liveStreamChunkMs : Z;
  minAsrWindowMs : Z;
  normalAsrWindowMs : Z;
  backlogAsrWindowMs : Z;
  maxAsrWindowMs : Z;
  adaptiveAsrWindow : bool;
  parakeetFinalPass : bool;
  silenceGateDbfs : option float;
  speechHangoverMs : option Z;
  parakeetStreamContextLeft : Z;
  parakeetStreamContextRight : Z;
  parakeetStreamDepth : Z;
  enforceOffline : bool
}.

(** ** Parsing the environment *)

Definition digitValue (c : ascii) : Z := Z.of_N (code c) - 48.

(** The longest prefix of decimal digits and its value; [seen] tells
    whether a digit has been read. *)
Fixpoint parseDigits (acc : Z) (seen : bool) (s : jsstring) : option Z :=
  match s with
  | c :: s' =>
      if isDigit c then parseDigits (10 * acc + digitValue c) true s'
      else if seen then Some acc else None
  | [] => if seen then Some acc else None
  end.

(** [Number.parseInt(value, 10)], [None] for [NaN]: leading white space
    is skipped, a sign is read, then the longest prefix of digits; what
    follows is ignored.  The value is exact below 2^53. *)
Definition parseInt (value : jsstring) : option Z :=
  match trimStart value with
  | c :: s' =>
      if Ascii.eqb c "-" then option_map Z.opp (parseDigits 0 false s')
      else if Ascii.eqb c "+" then parseDigits 0 false s'
      else parseDigits 0 false (c :: s')
  | [] => None
  end.

(** [parseIntOrDefault]. *)
Definition parseIntOrDefault (value : option jsstring) (fallback : Z) : Z :=
  match value with
  | None => fallback
  | Some v =>
      if negb (truthy v) then fallback
      else match parseInt v with
           | Some parsed => parsed
           | None => fallback
           end
  end.

(** [parseBoolOrDefault]. *)
Definition parseBoolOrDefault (value : option jsstring) (fallback : bool)
  : bool :=
  match value with
  | None => fallback
  | Some v => Js.eqb (toLowerCase v) (str "true")
  end.

Definition equals (name : string) (value : option jsstring) : bool :=
  match value with
  | Some v => Js.eqb v (str name)
  | None => false
  end.

(** [resolveAsrBackend]. *)
Definition resolveAsrBackend (value : option jsstring) : AsrBackend :=
  if equals "whisper-native" value then whisper_native
  else if equals "faster-whisper" value then faster_whisper
  else if equals "parakeet-native" value then parakeet_native
  else if equals "parakeet-mlx" value then parakeet_mlx
  else parakeet_native.

(** [resolveRecorderBackend]. *)
Definition resolveRecorderBackend (value : option jsstring) : RecorderBackend :=
  if equals "ffmpeg" value then ffmpeg
  else if equals "native-rust" value then native_rust
  else if equals "auto" value then auto
  else auto.

(** [resolveAsrTransport]. *)
Definition resolveAsrTransport (value : option jsstring) : AsrTransport :=
  if equals "jsonl" value then jsonl else framed.

(** [resolveLatencyPreset]. *)
Definition resolveLatencyPreset (value : option jsstring) : LatencyPreset :=
  if equals "ultra" value then ultra
  else if equals "quality" value then quality
  else if equals "balanced" value then balanced
  else balanced.

Record LatencyPresetDefaults := {
  presetLiveStreamChunkMs : Z;
  presetMinAsrWindowMs : Z;
  presetNormalAsrWindowMs : Z;
  presetBacklogAsrWindowMs : Z;
  presetMaxAsrWindowMs : Z;
  presetAdaptiveAsrWindow : bool
}.

Definition presetDefaults (chunk minW normalW backlogW maxW : Z)
  : LatencyPresetDefaults :=
  {| presetLiveStreamChunkMs := chunk;
     presetMinAsrWindowMs := minW;
     presetNormalAsrWindowMs := normalW;
     presetBacklogAsrWindowMs := backlogW;
     presetMaxAsrWindowMs := maxW;
     presetAdaptiveAsrWindow := true |}.

(** [getLatencyPresetDefaults]. *)
Definition getLatencyPresetDefaults (preset : LatencyPreset)
  (isAppleSilicon : bool) : LatencyPresetDefaults :=
  if negb isAppleSilicon then
    match preset with
    | ultra => presetDefaults 90 70 140 320 640
    | quality => presetDefaults 160 130 260 520 900
    | balanced => presetDefaults 120 90 180 360 640
    end
  else
    match preset with
    | ultra => presetDefaults 60 50 90 220 420
    | quality => presetDefaults 120 100 200 420 760
    | balanced => presetDefaults 90 70 140 300 520
    end.

(** [path.join(rootDir, ...segments)] for a [rootDir] that
    [path.resolve] has returned (absolute, without a trailing separator
    unless it is the root) and plain segments. *)
Definition pathJoin (rootDir : jsstring) (segments : list string) : jsstring :=
  (if Js.eqb rootDir (str "/") then [] else rootDir)
  ++ concat (map (fun segment => str "/" ++ str segment) segments).

(** [value ?? fallback]. *)
Definition orElse (value : option jsstring) (fallback : jsstring) : jsstring :=
  match value with Some v => v | None => fallback end.

(** [resolveConfig]; [env] is [process.env], [rootDir] is
    [path.resolve(__dirname, '..')] and [isAppleSilicon] tells whether the
    platform is darwin on arm64. *)
Definition resolveConfig (env : string -> option jsstring) (rootDir : jsstring)
  (isAppleSilicon : bool) : AppConfig :=
  let recorderBackend :=
    resolveRecorderBackend (env "DINGOFLOW_RECORDER_BACKEND"%string) in
  let asrBackend := resolveAsrBackend (env "DINGOFLOW_ASR_BACKEND"%string) in
  let asrTransport :=
    resolveAsrTransport (env "DINGOFLOW_ASR_TRANSPORT"%string) in
  let latencyPreset :=
    resolveLatencyPreset (env "DINGOFLOW_LATENCY_PRESET"%string) in
  let latencyDefaults := getLatencyPresetDefaults latencyPreset isAppleSilicon in
  let defaultParakeetFinalPass :=
    match latencyPreset with quality => true | _ => false end in
  let defaultAsrScript :=
    match asrBackend with
    | parakeet_mlx => pathJoin rootDir ["python"; "parakeet_runner.py"]%string
    | _ => pathJoin rootDir ["python"; "asr_runner.py"]%string
    end in
  let defaultAsrModelPath :=
    match asrBackend with
    | parakeet_mlx => pathJoin rootDir ["models"; "parakeet-tdt-0.6b-v3"]%string
    | parakeet_native =>
        pathJoin rootDir ["models"; "parakeet-tdt-0.6b-v3-onnx"]%string
    | whisper_native => pathJoin rootDir ["models"; "ggml-base.en.bin"]%string
    | faster_whisper =>
        pathJoin rootDir ["models"; "faster-whisper-small.en"]%string
    end in
  {| hotkey :=
       orElse (env "DINGOFLOW_HOTKEY"%string)
         (str "CommandOrControl+Shift+Space");
     recorderBackend := recorderBackend;
     nativeAudioBin :=
       orElse (env "DINGOFLOW_NATIVE_AUDIO_BIN"%string)
         (pathJoin rootDir
            ["native"; "audio_loop"; "target"; "release";
             "dingoflow-audio-loop"]%string);
     nativeTextInjectBin :=
       orElse (env "DINGOFLOW_NATIVE_TEXT_INJECT_BIN"%string)
         (pathJoin rootDir
            ["native"; "text_injector"; "bin";
             "dingoflow-text-injector"]%string);
     nativeAsrBin :=
       orElse (env "DINGOFLOW_NATIVE_ASR_BIN"%string)
         (pathJoin rootDir
            ["native"; "asr_worker"; "target"; "release";
             "dingoflow-asr-worker"]%string);
     nativeParakeetBin :=
       orElse (env "DINGOFLOW_NATIVE_PARAKEET_BIN"%string)
         (pathJoin rootDir
            ["native"; "parakeet_worker"; "target"; "release";
             "dingoflow-parakeet-worker"]%string);
     nativeAsrThreads :=
       parseIntOrDefault (env "DINGOFLOW_NATIVE_ASR_THREADS"%string) 4;
     ffmpegInputDevice := orElse (env "DINGOFLOW_FFMPEG_INPUT"%string) (str ":0");
     pythonBin := orElse (env "DINGOFLOW_PYTHON_BIN"%string) (str "python3");
     asrBackend := asrBackend;
     asrTransport := asrTransport;
     asrScriptPath := orElse (env "DINGOFLOW_ASR_SCRIPT"%string) defaultAsrScript;
     formatterScriptPath :=
       orElse (env "DINGOFLOW_FORMATTER_SCRIPT"%string)
         (pathJoin rootDir ["python"; "format_runner.py"]%string);
     asrModelPath :=
       orElse (env "DINGOFLOW_ASR_MODEL_PATH"%string) defaultAsrModelPath;
     asrDevice := orElse (env "DINGOFLOW_ASR_DEVICE"%string) (str "cpu");
     asrComputeType :=
       orElse (env "DINGOFLOW_ASR_COMPUTE_TYPE"%string) (str "int8");
     formatterModelPath :=
       orElse (env "DINGOFLOW_FORMATTER_MODEL_PATH"%string)
         (pathJoin rootDir ["models"; "qwen2.5-0.5b-instruct-mlx-4bit"]%string);
     formatterMaxTokens :=
       parseIntOrDefault (env "DINGOFLOW_FORMATTER_MAX_TOKENS"%string) 240;
     pasteDelayMs := parseIntOrDefault (env "DINGOFLOW_PASTE_DELAY_MS"%string) 80;
     injectionRetryCount :=
       parseIntOrDefault (env "DINGOFLOW_INJECTION_RETRY_COUNT"%string) 2;
     injectionRetryDelayMs :=
       parseIntOrDefault (env "DINGOFLOW_INJECTION_RETRY_DELAY_MS"%string) 120;
     spokenFormattingCommands :=
       parseBoolOrDefault (env "DINGOFLOW_SPOKEN_FORMATTING_COMMANDS"%string)
         true;
     latencyPreset := latencyPreset;
     liveStreamChunkMs :=
       parseIntOrDefault (env "DINGOFLOW_STREAM_CHUNK_MS"%string)
         (presetLiveStreamChunkMs latencyDefaults);
     minAsrWindowMs :=
       parseIntOrDefault (env "DINGOFLOW_ASR_WINDOW_MIN_MS"%string)
         (presetMinAsrWindowMs latencyDefaults);
     normalAsrWindowMs :=
       parseIntOrDefault (env "DINGOFLOW_ASR_WINDOW_NORMAL_MS"%string)
         (presetNormalAsrWindowMs latencyDefaults);
     backlogAsrWindowMs :=
       parseIntOrDefault (env "DINGOFLOW_ASR_WINDOW_BACKLOG_MS"%string)
         (presetBacklogAsrWindowMs latencyDefaults);
     maxAsrWindowMs :=
       parseIntOrDefault (env "DINGOFLOW_ASR_WINDOW_MAX_MS"%string)
         (presetMaxAsrWindowMs latencyDefaults);
     adaptiveAsrWindow :=
       parseBoolOrDefault (env "DINGOFLOW_ASR_WINDOW_ADAPTIVE"%string)
         (presetAdaptiveAsrWindow latencyDefaults);
     parakeetFinalPass :=
       parseBoolOrDefault (env "DINGOFLOW_PARAKEET_FINAL_PASS"%string)
         defaultParakeetFinalPass;
     silenceGateDbfs := None;
     speechHangoverMs := None;
     parakeetStreamContextLeft :=
       parseIntOrDefault (env "DINGOFLOW_PARAKEET_CTX_LEFT"%string) 64;
     parakeetStreamContextRight :=
       parseIntOrDefault (env "DINGOFLOW_PARAKEET_CTX_RIGHT"%string) 8;
     parakeetStreamDepth :=
       parseIntOrDefault (env "DINGOFLOW_PARAKEET_STREAM_DEPTH"%string) 1;
     enforceOffline :=
       parseBoolOrDefault (env "DINGOFLOW_ENFORCE_OFFLINE"%string) true |}.

(** ** Validation *)

(** [if (condition) { errors.push(message); }]. *)
Definition check (condition : bool) (message : jsstring) : list jsstring :=
  if condition then [message] else [].

Definition outside (value lo hi : Z) : bool := (value <? lo) || (hi <? value).

Definition blank (value : jsstring) : bool := negb (truthy (trim value)).

Definition nativeFramedBackends : list AsrBackend :=
  [whisper_native; parakeet_native].

Definition listIncludes (names : list jsstring) (name : jsstring) : bool :=
  existsb (Js.eqb name) names.

(** [validateConfig]: the messages pushed, in order. *)
Definition validateConfig (config : AppConfig) : list jsstring :=
  check
    (negb (listIncludes
             [str "faster-whisper"; str "parakeet-mlx"; str "parakeet-native";
              str "whisper-native"]
             (asrBackendName (asrBackend config))))
    (str "DINGOFLOW_ASR_BACKEND must be one of: faster-whisper, parakeet-mlx, parakeet-native, whisper-native.")
  ++ check
       (negb (listIncludes [str "auto"; str "ffmpeg"; str "native-rust"]
                (recorderBackendName (recorderBackend config))))
       (str "DINGOFLOW_RECORDER_BACKEND must be one of: auto, ffmpeg, native-rust.")
  ++ check
       (negb (listIncludes [str "jsonl"; str "framed"]
                (asrTransportName (asrTransport config))))
       (str "DINGOFLOW_ASR_TRANSPORT must be one of: jsonl, framed.")
  ++ check
       (negb (listIncludes [str "ultra"; str "balanced"; str "quality"]
                (latencyPresetName (latencyPreset config))))
       (str "DINGOFLOW_LATENCY_PRESET must be one of: ultra, balanced, quality.")
  ++ check (blank (hotkey config)) (str "DINGOFLOW_HOTKEY must not be empty.")
  ++ check (blank (nativeAudioBin config))
       (str "DINGOFLOW_NATIVE_AUDIO_BIN must not be empty.")
  ++ check (blank (nativeTextInjectBin config))
       (str "DINGOFLOW_NATIVE_TEXT_INJECT_BIN must not be empty.")
  ++ check (blank (nativeAsrBin config))
       (str "DINGOFLOW_NATIVE_ASR_BIN must not be empty.")
  ++ check (blank (nativeParakeetBin config))
       (str "DINGOFLOW_NATIVE_PARAKEET_BIN must not be empty.")
  ++ check (outside (nativeAsrThreads config) 1 64)
       (str "DINGOFLOW_NATIVE_ASR_THREADS must be between 1 and 64.")
  ++ check (outside (formatterMaxTokens config) 32 8192)
       (str "DINGOFLOW_FORMATTER_MAX_TOKENS must be between 32 and 8192.")
  ++ check (outside (pasteDelayMs config) 0 2000)
       (str "DINGOFLOW_PASTE_DELAY_MS must be between 0 and 2000 milliseconds.")
  ++ check (outside (injectionRetryCount config) 1 8)
       (str "DINGOFLOW_INJECTION_RETRY_COUNT must be between 1 and 8.")
  ++ check (outside (injectionRetryDelayMs config) 0 5000)
       (str "DINGOFLOW_INJECTION_RETRY_DELAY_MS must be between 0 and 5000 milliseconds.")
  ++ check (outside (liveStreamChunkMs config) 20 600)
       (str "DINGOFLOW_STREAM_CHUNK_MS must be between 20 and 600 milliseconds.")
  ++ check (outside (minAsrWindowMs config) 40 1200)
       (str "DINGOFLOW_ASR_WINDOW_MIN_MS must be between 40 and 1200 milliseconds.")
  ++ check (outside (normalAsrWindowMs config) 60 1500)
       (str "DINGOFLOW_ASR_WINDOW_NORMAL_MS must be between 60 and 1500 milliseconds.")
  ++ check (outside (backlogAsrWindowMs config) 80 2500)
       (str "DINGOFLOW_ASR_WINDOW_BACKLOG_MS must be between 80 and 2500 milliseconds.")
  ++ check (outside (maxAsrWindowMs config) 100 4000)
       (str "DINGOFLOW_ASR_WINDOW_MAX_MS must be between 100 and 4000 milliseconds.")
  ++ check
       (negb ((minAsrWindowMs config <=? normalAsrWindowMs config)
              && (normalAsrWindowMs config <=? backlogAsrWindowMs config)
              && (backlogAsrWindowMs config <=? maxAsrWindowMs config)))
       (str "ASR window settings must satisfy: MIN <= NORMAL <= BACKLOG <= MAX. Check DINGOFLOW_ASR_WINDOW_*_MS values.")
  ++ check (outside (parakeetStreamContextLeft config) 8 1024)
       (str "DINGOFLOW_PARAKEET_CTX_LEFT must be between 8 and 1024.")
  ++ check (outside (parakeetStreamContextRight config) 1 256)
       (str "DINGOFLOW_PARAKEET_CTX_RIGHT must be between 1 and 256.")
  ++ check (outside (parakeetStreamDepth config) 1 32)
       (str "DINGOFLOW_PARAKEET_STREAM_DEPTH must be between 1 and 32.")
  ++ check
       (listIncludes [str "faster-whisper"; str "parakeet-mlx"]
          (asrBackendName (asrBackend config))
        && blank (pythonBin config))
       (str "DINGOFLOW_PYTHON_BIN must not be empty.")
  ++ check
       (listIncludes (map asrBackendName nativeFramedBackends)
          (asrBackendName (asrBackend config))
        && negb (Js.eqb (asrTransportName (asrTransport config)) (str "framed")))
       (str "DINGOFLOW_ASR_TRANSPORT must be framed when DINGOFLOW_ASR_BACKEND="
        ++ asrBackendName (asrBackend config) ++ str ".").

(** ** main.ts: the choice of the recorder and the options handed to the
       orchestrator *)

Inductive RecorderChoice := UseFfmpegRecorder | UseRustNativeRecorder.

(** [createRecorder]; [nativeAudioBinExists] is the answer of
    [fs.existsSync(config.nativeAudioBin)]. *)
Definition createRecorder (config : AppConfig) (nativeAudioBinExists : bool)
  : RecorderChoice :=
  match recorderBackend config with
  | ffmpeg => UseFfmpegRecorder
  | native_rust => UseRustNativeRecorder
  | auto =>
      if nativeAudioBinExists then UseRustNativeRecorder
      else UseFfmpegRecorder
  end.

End Config.

(* ===================================================================== *)
(** * services/hotkey/PushToTalkHotkey.ts *)
(* ===================================================================== *)

Module PushToTalkHotkey.

Definition IGlobalKey := jsstring.

(** [IGlobalKeyDownMap]: [down key] is the truthiness of [down[key]]. *)
Definition IGlobalKeyDownMap := IGlobalKey -> bool.

Inductive KeyState := DOWN | UP.

Record IGlobalKeyEvent := {
  name : option IGlobalKey;
  state : KeyState
}.

(** [ParsedHotkey], with the groups that [MODIFIER_ALIASES] holds. *)
Record ParsedHotkey := {
  source : jsstring;
  triggerKey : IGlobalKey;
  requiredModifierGroups : list (list IGlobalKey)
}.

Inductive Callback := onPress | onRelease.

(** The fields of the class; [invoked] lists the callbacks that
    [invokeSafely] has called, oldest first. *)
Record t := {
  parsedHotkey : ParsedHotkey;
  listening : bool;
  active : bool;
  invoked : list Callback
}.

(** The constructor, after [parseHotkey] has returned [parsed]. *)
Definition new (parsed : ParsedHotkey) : t :=
  {| parsedHotkey := parsed; listening := false; active := false;
     invoked := [] |}.

Definition set_active (v : bool) (self : t) : t :=
  {| parsedHotkey := parsedHotkey self; listening := listening self;
     active := v; invoked := invoked self |}.

(** [hasAnyKeyDown]. *)
Definition hasAnyKeyDown (down : IGlobalKeyDownMap) (keys : list IGlobalKey)
  : bool :=
  existsb down keys.

(** [areModifiersHeld]. *)
Definition areModifiersHeld (self : t) (down : IGlobalKeyDownMap) : bool :=
  forallb (hasAnyKeyDown down) (requiredModifierGroups (parsedHotkey self)).

(** [invokeSafely]: the callback is called at once; what it returns is
    awaited elsewhere. *)
Definition invokeSafely (fn : Callback) (self : t) : t :=
  {| parsedHotkey := parsedHotkey self; listening := listening self;
     active := active self; invoked := invoked self ++ [fn] |}.

Definition isDown (s : KeyState) : bool :=
  match s with DOWN => true | UP => false end.

Definition isUp (s : KeyState) : bool :=
  match s with UP => true | DOWN => false end.

(** [onKeyEvent]. *)
Definition onKeyEvent (event : IGlobalKeyEvent) (down : IGlobalKeyDownMap)
  (self : t) : t * bool :=
  match name event with
  | None => (self, false)
  | Some keyName =>
      if negb (truthy keyName) then (self, false)
      else
        let isTriggerKey := Js.eqb keyName (triggerKey (parsedHotkey self)) in
        let modifiersHeld := areModifiersHeld self down in
        let comboHeld :=
          modifiersHeld && down (triggerKey (parsedHotkey self)) in
        if isDown (state event) && isTriggerKey && modifiersHeld then
          if negb (active self)
          then (invokeSafely onPress (set_active true self), true)
          else (self, true)
        else if active self && (isUp (state event) && isTriggerKey) then
          (invokeSafely onRelease (set_active false self), true)
        else if active self && negb comboHeld then
          (invokeSafely onRelease (set_active false self), true)
        else (self, active self)
  end.

(** The listener delivers key events, each with the map of the keys that
    are down, one after the other. *)
Fixpoint deliver (events : list (IGlobalKeyEvent * IGlobalKeyDownMap))
  (self : t) : t :=
  match events with
  | [] => self
  | (event, down) :: rest => deliver rest (fst (onKeyEvent event down self))
  end.

End PushToTalkHotkey.

(* ===================================================================== *)
(** * perf/LatencyTracker.ts *)
(* ===================================================================== *)

Module LatencyTracker.

(** The four latencies of a sample that [summarize] reads; they are
    differences of readings of [Date.now()], hence integers. *)
Definition sampleQueueMs : SliceLatencySample -> Z := queueMs.
Definition sampleAsrMs : SliceLatencySample -> Z := asrMs.
Definition sampleInjectMs : SliceLatencySample -> Z := injectMs.
Definition sampleEndToEndMs : SliceLatencySample -> Z := endToEndMs.

Record PercentileSummary := {
  p50 : Z;
  p95 : Z;
  max : Z;
  avg : Z
}.

Record LatencySummary := {
  slices : Z;
  queueMs : PercentileSummary;
  asrMs : PercentileSummary;
  injectMs : PercentileSummary;
  endToEndMs : PercentileSummary
}.

(** [Math.ceil] of a finite binary64 number, as an integer. *)
Definition Math_ceil (x : float) : Z :=
  match FloatOps.Prim2SF x with
  | SpecFloat.S754_finite negative m e =>
      let v := if negative then Z.neg m else Z.pos m in
      if 0 <=? e then v * 2 ^ e else - ((- v) / 2 ^ (- e))
  | _ => 0
  end.

(** [[...values].sort((a, b) => a - b)]: the values in ascending order. *)
Fixpoint insert (x : Z) (sorted : list Z) : list Z :=
  match sorted with
  | [] => [x]
  | y :: rest => if x <=? y then x :: sorted else y :: insert x rest
  end.

Fixpoint sort (values : list Z) : list Z :=
  match values with
  | [] => []
  | x :: rest => insert x (sort rest)
  end.

(** [pick]. *)
Definition pick (sorted : list Z) (pct : float) : Z :=
  let index :=
    Z.min (len sorted - 1)
      (Z.max 0 (Math_ceil (Num.ofZ (len sorted) * pct)%float - 1)) in
  nth (Z.to_nat index) sorted 0.

(** [Math.round(total / count)] for integers: the quotient rounded to the
    nearest integer, halves upwards (the binary64 quotient rounds to the
    same integer while [total] stays below 2^52). *)
Definition roundedQuotient (total count : Z) : Z :=
  (2 * total + count) / (2 * count).

(** The binary64 number written [0.95]. *)
Definition pct95 : float := 0x1.e666666666666p-1%float.

(** [asSummary]; the values are integers, which [Math.round] returns as
    they are. *)
Definition asSummary (values : list Z) : PercentileSummary :=
  if len values =? 0 then {| p50 := 0; p95 := 0; max := 0; avg := 0 |}
  else
    let sorted := sort values in
    let total := fold_left (fun sum value => sum + value) sorted 0 in
    {| p50 := pick sorted 0.5%float;
       p95 := pick sorted pct95;
       max := nth (Z.to_nat (len sorted - 1)) sorted 0;
       avg := roundedQuotient total (len sorted) |}.

(** [reset], [push] and [summarize] on the vector of samples. *)
Definition reset (slices : list SliceLatencySample) : list SliceLatencySample :=
  [].

Definition push (sample : SliceLatencySample)
  (slices : list SliceLatencySample) : list SliceLatencySample :=
  slices ++ [sample].

Definition summarize (samples : list SliceLatencySample) : LatencySummary :=
  {| slices := len samples;
     queueMs := asSummary (map sampleQueueMs samples);
     asrMs := asSummary (map sampleAsrMs samples);
     injectMs := asSummary (map sampleInjectMs samples);
     endToEndMs := asSummary (map sampleEndToEndMs samples) |}.

End LatencyTracker.

(* ===================================================================== *)
(** * DingoFlowApp.ts: the commands of the menu, and ui/TrayController.ts *)
(* ===================================================================== *)

Module Commands.

Import DingoFlowApp.


(** [setError]. *)
Definition setError (detail : jsstring) (a : App) : App :=
  setState {| stage := error; detail := Some detail |} a.






End Commands.

Module TrayController.


(** [TITLE_BY_STAGE]. *)
Definition TITLE_BY_STAGE (s : PipelineStage) : jsstring :=
  match s with
  | idle => str "DingoFlow"
  | recording => str "DingoFlow REC"
  | transcribing => str "DingoFlow ASR"
  | formatting => str "DingoFlow FMT"
  | injecting => str "DingoFlow OUT"
  | error => str "DingoFlow ERR"
  end.







End TrayController.

(* ===================================================================== *)
(** * Specification vocabulary *)
(* ===================================================================== *)

Module QueueSpec.

Import AudioQueue.

(** The operations on the pending audio queue.  [Enqueue] is
    [enqueueAudioChunk] up to its final [ensureAsrLoop()] call (whose effect
    on the queue is a sequence of takes); [Take] is [readPendingAudioSlice],
    which [takeNextAudioSlice] calls with the byte count it has chosen. *)
Inductive QueueOp :=
| Enqueue (now : Z) (chunk : Buffer)
| Take (now : Z) (byteCount : Z).

(** One operation; returns the bytes handed out by a take. *)
Definition applyOp (op : QueueOp) (q : t) : t * Buffer :=
  match op with
  | Enqueue now chunk => (pushAudioChunk now chunk q, [])
  | Take now byteCount =>
      match readPendingAudioSlice now byteCount q with
      | (Some s, q') => (q', sliceData s)
      | (None, q') => (q', [])
      end
  end.

(** Runs the operations in order from [q]; returns the final queue and the
    concatenation of the taken bytes in take order. *)
Fixpoint runOps (ops : list QueueOp) (q : t) : t * Buffer :=
  match ops with
  | [] => (q, [])
  | op :: ops' =>
      let (q1, out1) := applyOp op q in
      let (q2, out2) := runOps ops' q1 in
      (q2, out1 ++ out2)
  end.

(** The concatenation of the enqueued bytes in enqueue order. *)
Fixpoint enqueuedBytes (ops : list QueueOp) : Buffer :=
  match ops with
  | [] => []
  | Enqueue _ chunk :: ops' => chunk ++ enqueuedBytes ops'
  | Take _ _ :: ops' => enqueuedBytes ops'
  end.

(** The bytes of a queued chunk that have not been read. *)
Definition unread (c : QueuedAudioChunk) : Buffer :=
  skipn (Z.to_nat (offset c)) (data c).

Definition pendingContent (chunks : list QueuedAudioChunk) : Buffer :=
  concat (map unread chunks).

(** The sum over the queued chunks of their length minus their offset. *)
Fixpoint unreadTotal (chunks : list QueuedAudioChunk) : Z :=
  match chunks with
  | [] => 0
  | c :: chunks' => (len (data c) - offset c) + unreadTotal chunks'
  end.

Definition chunkOk (c : QueuedAudioChunk) : Prop :=
  0 <= offset c <= len (data c).

Definition isPrefixOf (p l : Buffer) : Prop := exists rest, l = p ++ rest.

(** The loop invariant of [readPendingAudioSlice]. *)
Record ReadInv (byteCount : Z) (st : ReadState) : Prop := {
  inv_chunks : Forall chunkOk (queue st);
  inv_pending : pending st = unreadTotal (queue st);
  inv_written : writeOffset st = len (output st);
  inv_bound : writeOffset st <= byteCount
}.

(** The invariant of the queue between operations. *)
Record QueueInv (q : t) : Prop := {
  qi_chunks : Forall chunkOk (pendingAudioQueue q);
  qi_pending : pendingAudioBytes q = unreadTotal (pendingAudioQueue q)
}.

(** The bytes handed out by a take. *)
Definition taken (r : option PendingAudioSlice) : Buffer :=
  match r with Some s => sliceData s | None => [] end.

End QueueSpec.

Module WindowSpec.

Import DingoFlowApp.

(** [min_window_ms <= dynamic_normal_ms <= max_window_ms]. *)
Definition windowInBounds (options : DingoFlowLatencyOptions) (a : App) : Prop :=
  minAsrWindowMs options <= dynamicNormalAsrWindowMs a <= maxAsrWindowMs options.

(** The arguments of one adaptive-window update. *)
Record WindowUpdate := {
  updAudioMs : float;
  updAsrElapsedMs : Z;
  updPendingMs : float
}.

Definition applyUpdate (options : DingoFlowLatencyOptions) (a : App)
  (u : WindowUpdate) : App :=
  updateAdaptiveWindow options (updAudioMs u) (updAsrElapsedMs u)
    (updPendingMs u) a.

Definition applyUpdates (options : DingoFlowLatencyOptions)
  (us : list WindowUpdate) (a : App) : App :=
  fold_left (applyUpdate options) us a.

End WindowSpec.

Module SliceSpec.

Import DingoFlowApp AudioQueue.

(** The speech gate lets the slice through to the ASR request. *)
Definition asrInvoked (log10 : float -> float)
  (options : DingoFlowLatencyOptions) (env : SliceEnv)
  (audioSlice : PendingAudioSlice) (a : App) : bool :=
  Num.ge (estimateDbfs log10 (sliceData audioSlice)) (silenceGateDbfs options)
  || negb (speechHangoverUntilMs a <? tGate env).

(** The same slice inputs with another end of the ASR request. *)
Definition withAsrOutcome (r : option AsrResult) (env : SliceEnv) : SliceEnv :=
  {| tTake := tTake env; tQueue := tQueue env; tGate := tGate env;
     tAsrStart := tAsrStart env; asrOutcome := r;
     asrArrivals := asrArrivals env; tAsrEnd := tAsrEnd env;
     tInjectStart := tInjectStart env; injectOutcome := injectOutcome env;
     injectArrivals := injectArrivals env; tInjectEnd := tInjectEnd env;
     tEndToEnd := tEndToEnd env |}.

(** The adaptive window state. *)
Definition tuning (a : App) : Z * float * float :=
  (dynamicNormalAsrWindowMs a, ewmaAsrRtf a, ewmaAsrMs a).

(** The ASR call made for a slice. *)
Definition asrCall (deps : Deps) (audioSlice : PendingAudioSlice) : Effect :=
  if hasPushStream deps then CallAsrPushStream (sliceData audioSlice)
  else CallAsrTranscribe (sliceData audioSlice).

(** The texts passed to [injector.inject] in a history of effects. *)
Fixpoint injectedTexts (es : list Effect) : list jsstring :=
  match es with
  | [] => []
  | CallInject t :: es' => t :: injectedTexts es'
  | _ :: es' => injectedTexts es'
  end.

(** A text that is non-empty and ends with a whitespace character. *)
Definition wordSeparated (t : jsstring) : Prop :=
  t <> [] /\ endsWithSpace t = true.

(** The path of a streaming ASR result up to the injector: trim, spoken
    punctuation rewrite, live normalisation, overlap dedup against the
    live transcript. *)
Definition streamingPath (options : DingoFlowLatencyOptions)
  (liveInjectedText asrText : jsstring) : jsstring :=
  LiveText.dedupeChunkAgainstLiveTranscript liveInjectedText
    (LiveText.normalizeLiveChunkOutput (commandText options (trim asrText))).

End SliceSpec.

Module Examples.

(** A binary64 approximation of [Math.log10] for running the model on
    concrete audio: [log2] is interpolated linearly between consecutive
    powers of two (exact at the powers of two) and scaled by [log10 2].
    [frshiftexp] returns the mantissa in [[0.5, 1)] and the exponent
    shifted by 2101. *)
Definition log10Approx (x : float) : float :=
  let (m, e) := PrimFloat.frshiftexp x in
  let exponent := Num.ofZ (Uint63.to_Z e - 2101) in
  ((exponent - 1 + (2 * m - 1)) * 0.3010299956639812)%float.

(** A buffer of [n] zero bytes. *)
Definition zeros (n : nat) : Buffer := repeat Byte.x00 n.

(** A buffer of [n] samples of value 16384 (half of full scale). *)
Fixpoint halfScale (n : nat) : Buffer :=
  match n with
  | O => []
  | S n' => Byte.x00 :: Byte.x40 :: halfScale n'
  end.

(** Collaborators that provide every optional method. *)
Definition fullDeps : Deps :=
  {| hasStartStream := true; hasPushStream := true; hasFlushStream := true;
     hasStopStream := true; hasReplaceRecentText := true |}.

(** Slice inputs: the clock advances by one millisecond per reading from
    [t0], the ASR request ends as given, the injector call resolves and no
    chunk arrives meanwhile. *)
Definition quietEnv (t0 : Z) (r : option AsrResult) : DingoFlowApp.SliceEnv :=
  {| DingoFlowApp.tTake := t0; DingoFlowApp.tQueue := t0 + 1;
     DingoFlowApp.tGate := t0 + 2; DingoFlowApp.tAsrStart := t0 + 3;
     DingoFlowApp.asrOutcome := r; DingoFlowApp.asrArrivals := [];
     DingoFlowApp.tAsrEnd := t0 + 4; DingoFlowApp.tInjectStart := t0 + 5;
     DingoFlowApp.injectOutcome := Returned;
     DingoFlowApp.injectArrivals := []; DingoFlowApp.tInjectEnd := t0 + 6;
     DingoFlowApp.tEndToEnd := t0 + 7 |}.

(** The default options with a Python ASR backend, for which
    [processStreamFlush] does call [flushStream]. *)
Definition whisperOptions : DingoFlowLatencyOptions :=
  {| asrBackend := faster_whisper;
     spokenFormattingCommands := true;
     liveStreamChunkMs := 120;
     minAsrWindowMs := 90;
     normalAsrWindowMs := 180;
     backlogAsrWindowMs := 360;
     maxAsrWindowMs := 640;
     adaptiveAsrWindow := true;
     parakeetFinalPass := false;
     silenceGateDbfs := (-52)%float;
     speechHangoverMs := 420;
     parakeetStreamContextLeft := 64;
     parakeetStreamContextRight := 8;
     parakeetStreamDepth := 1 |}.

(** A session in which [hello world ] has been stitched and injected. *)
Definition helloWorldInjected : App :=
  set_liveInjectedText (str "hello world ")
    (set_rawTranscriptParts [str "hello world "]
       (DingoFlowApp.new whisperOptions)).

End Examples.

Module DedupSpec.

Import LiveText.

(** The guards under which the deduper returns its chunk unchanged
    without looking for an overlap. *)
Definition dedupSkipped (liveInjectedText nextChunk : jsstring) : bool :=
  negb (truthy (trim nextChunk)) || negb (truthy (trim liveInjectedText))
  || includes LF nextChunk || includes LF liveInjectedText.

(** The number of leading words of [nextChunk] the deduper finds repeated
    in the live transcript. *)
Definition residualOverlap (liveInjectedText nextChunk : jsstring) : Z :=
  overlapWords (splitWs (trim liveInjectedText)) (splitWs (trim nextChunk)).

End DedupSpec.

Module SessionSpec.

Import DingoFlowApp AudioQueue QueueSpec.

(** A buffer of silence: every byte is zero. *)
Definition silent (b : Buffer) : Prop := Forall (fun x => x = Byte.x00) b.

(** Deliveries of silence only. *)
Definition allSilent (arrivals : list (Z * Buffer)) : Prop :=
  Forall (fun arrival => silent (snd arrival)) arrivals.

Fixpoint deliveredBytes (arrivals : list (Z * Buffer)) : Z :=
  match arrivals with
  | [] => 0
  | (_, chunk) :: rest => len chunk + deliveredBytes rest
  end.

(** An ASR request that yields no text: it fails, or its text is empty or
    whitespace only. *)
Definition noText (r : option AsrResult) : Prop :=
  match r with
  | None => True
  | Some result => trim (asrText result) = []
  end.

(** An effect that is neither an injector call nor the
    [dictationCompleted] event. *)
Definition quiet (e : Effect) : Prop :=
  match e with
  | CallInject _ | CallReplaceRecentText _ _ | EmitDictationCompleted _ => False
  | _ => True
  end.

Definition chunkEvents (arrivals : list (Z * Buffer)) : list SessionEvent :=
  map (fun arrival => ChunkDelivered (fst arrival) (snd arrival)) arrivals.

(** A session: press, the recorder's chunks, release. *)
Definition session (startEnv : StartEnv) (arrivals : list (Z * Buffer))
  (stopEnv : StopEnv) : list SessionEvent :=
  Pressed startEnv :: chunkEvents arrivals ++ [Released stopEnv].

(** Collaborator calls that all resolve, with no flush or final-pass text
    and no tail chunk. *)
Definition okStart : StartEnv :=
  {| recorderStartOutcome := Returned; asrStartStreamOutcome := Returned |}.

Definition okStop : StopEnv :=
  {| recorderStopOutcome := Returned;
     recorderStopArrivals := [];
     flushEnv := {| flushOutcome := None; flushInjectOutcome := Returned |};
     finalPassOutcome := None;
     finalReplaceOutcome := Returned;
     formatOutcome := None;
     formattedReplaceOutcome := Returned |}.

(** The [dictationCompleted] events in a history of effects. *)
Fixpoint dictationEvents (es : list Effect) : list DictationResult :=
  match es with
  | [] => []
  | EmitDictationCompleted r :: es' => r :: dictationEvents es'
  | _ :: es' => dictationEvents es'
  end.

(** Since the history [base], [a] has only made quiet effects. *)
Definition QuietSince (base : list Effect) (a : App) : Prop :=
  exists new, effects a = base ++ new /\ Forall quiet new.

(** The state in which a session without speech ends. *)
Definition noSpeechDetected : AppState := mkState idle "No speech detected".

(** Slice inputs of a session in which request [id] is processed around
    time [1000 + 10 * id] and every ASR request fails. *)
Definition deafWorld (id : Z) : SliceEnv :=
  Examples.quietEnv (1000 + 10 * Z.abs id) None.

(** 100 ms of silence delivered at time 500. *)
Definition silence100ms : list (Z * Buffer) := [(500, Examples.zeros 3200)].

(** The queue holds silence only and its counter is right. *)
Definition SilentQueue (q : AudioQueue.t) : Prop :=
  QueueInv q /\ silent (pendingContent (pendingAudioQueue q)).

(** Between loop activations of a session that has heard silence only:
    the queue is silent, no hangover is armed, no loop is active, and a
    promise left in the field by a loop that awaited nothing goes with
    audio still pending. *)
Record Calm (a : App) : Prop := {
  calm_queue : SilentQueue (audio a);
  calm_hangover : speechHangoverUntilMs a = 0;
  calm_loop : asrLoopActive a = false;
  calm_promise : asrLoopPromise a = true -> 0 < pendingAudioBytes (audio a)
}.

(** What holds of the orchestrator between any two events of any
    session: the pending-byte counter is the sum of what is unread in the
    queued chunks, the dynamic window lies within the configured bounds,
    and every text passed to [inject] so far is word separated. *)
Record SessionInv (options : DingoFlowLatencyOptions) (a : App) : Prop := {
  si_queue : QueueInv (audio a);
  si_window : WindowSpec.windowInBounds options a;
  si_injects :
    Forall SliceSpec.wordSeparated (SliceSpec.injectedTexts (effects a))
}.

(** An effect other than a call of [inject]. *)
Definition notInject (e : Effect) : Prop :=
  match e with CallInject _ => False | _ => True end.

(** The fields that the ASR loop leaves alone whenever every slice is
    stopped by the speech gate: all but the audio fields, the request
    counter and the two loop fields. *)
Definition mask (a : App) : App :=
  set_asrLoopPromise false
    (set_asrLoopActive false
       (set_asrRequestCount 0 (set_audio AudioQueue.empty a))).

End SessionSpec.

Module RecorderSpec.

Import RecorderBuffer.

(** The bytes received and not yet handed out. *)
Definition unread (chunks : list Buffer) (offset : Z) : Buffer :=
  skipn (Z.to_nat offset) (concat chunks).

(** The head chunk, when there is one, is neither empty nor read to its
    end. *)
Definition headOk (chunks : list Buffer) (offset : Z) : Prop :=
  match chunks with
  | [] => offset = 0
  | head :: _ => 0 <= offset < len head
  end.

Record BufferInv (r : t) : Prop := {
  bi_head : headOk (pendingChunks r) (pendingChunkOffset r);
  bi_pending : pendingBytes r = len (unread (pendingChunks r) (pendingChunkOffset r))
}.

Record ReadInv (byteCount : Z) (st : ReadState) : Prop := {
  ri_head : headOk (chunks st) (chunkOffset st);
  ri_pending : pending st = len (unread (chunks st) (chunkOffset st));
  ri_written : writeOffset st = len (output st);
  ri_bound : writeOffset st <= byteCount
}.

(** The invariant of the recorder between calls, with the chunks all
    non-empty. *)
Definition Framed (r : t) : Prop :=
  BufferInv r /\ Forall (fun c => 0 < len c) (pendingChunks r).

End RecorderSpec.

Module FramedSpec.

Import PersistentFramedWorker.

(** A response as the worker writes it: [uint32 jsonLen] and the JSON
    bytes. *)
Definition responseFrame (json : Buffer) : Buffer :=
  writeUInt32LE (len json) ++ json.

Definition responseStream (jsons : list Buffer) : Buffer :=
  concat (map responseFrame jsons).

(** A JSON text that [handleStdoutChunk] accepts by its length. *)
Definition lengthOk (json : Buffer) : Prop :=
  0 < len json <= MAX_RESPONSE_JSON_BYTES.

Section Settling.

Variable Json : Type.
Variable parse : Buffer -> Parsed Json.
Variable name : jsstring.

(** The responses settled one after the other. *)
Fixpoint dispatchAll (jsons : list Buffer) (keys : list jsstring)
  : list jsstring * list (Settled Json) :=
  match jsons with
  | [] => (keys, [])
  | json :: jsons' =>
      let '(keys1, settled1, _) := dispatch Json parse name json keys in
      let (keys2, settled2) := dispatchAll jsons' keys1 in
      (keys2, settled1 ++ settled2)
  end.

Definition parsesToValue (json : Buffer) : Prop :=
  parse json <> ParsedNull.

End Settling.

(** A parser for examples: every text is the response, with a result,
    to the request whose id is the text [7]. *)
Definition exampleParse (json : Buffer) : Parsed Z :=
  ParsedValue
    {| responseId := StringId (str "7"); okIsFalse := false;
       result := len json; error := None |}.

(** Two responses of three and five bytes, and their stream cut after
    two bytes and after nine bytes. *)
Definition exampleJsons : list Buffer :=
  [Examples.zeros 3; Examples.zeros 5].

Definition exampleChunks : list Buffer :=
  [ firstn 2 (responseStream exampleJsons);
    firstn 7 (skipn 2 (responseStream exampleJsons));
    skipn 9 (responseStream exampleJsons) ].

End FramedSpec.

Module InjectorSpec.

Import TextInjector.

Definition isDirectInput (c : Command) : bool :=
  match c with DirectInput _ => true | _ => false end.

Definition threw (o : Outcome) : Prop :=
  match o with Threw _ => True | Returned => False end.

(** The text a command types, and how many characters it deletes
    before. *)
Definition typedText (c : Command) : option jsstring :=
  match c with
  | NativeInsert _ text | AccessibilityInsert text | DirectInput text
  | NativeReplace _ _ text | DeleteAndType _ text => Some text
  | PasteKeystroke => None
  end.

Definition deleted (c : Command) : Z :=
  match c with
  | NativeReplace _ n _ | DeleteAndType n _ => n
  | _ => 0
  end.

Definition isInsert (c : Command) : bool :=
  match c with
  | NativeInsert _ _ | AccessibilityInsert _ | DirectInput _ | PasteKeystroke =>
      true
  | _ => false
  end.

(** The number of commands of one attempt. *)
Definition methodsPerAttempt (self : t) (text : jsstring) : Z :=
  (match nativeBinaryPath self with Some _ => 1 | None => 0 end)
  + 1
  + (if len text <=? DIRECT_INPUT_MAX_LENGTH then 1 else 0)
  + 1.

(** A command of [inject] for [text]: an insertion of [text] itself, or
    the paste keystroke. *)
Definition insertsText (text : jsstring) (e : Command * Outcome) : Prop :=
  isInsert (fst e) = true
  /\ (typedText (fst e) = Some text \/ fst e = PasteKeystroke).

Definition notDirect (e : Command * Outcome) : Prop :=
  isDirectInput (fst e) = false.

Definition entryThrew (e : Command * Outcome) : Prop := threw (snd e).

(** An injector without native binary on a machine where every command
    succeeds. *)
Definition scriptedInjector : t :=
  {| nativeBinaryPath := None; pasteDelayMs := 80; retryCount := 2;
     retryDelayMs := 120 |}.

Definition alwaysOk (before : list (Command * Outcome)) (c : Command)
  : Outcome := Returned.

Definition emptyWorld : World := {| clipboard := []; commands := [] |}.

End InjectorSpec.

Module PromptSpec.

Definition LT : ascii := "<"%char.

(** A text without the character that begins a tag. *)
Definition tagFree (s : jsstring) : Prop := Forall (fun c => c <> LT) s.

(** A tag written in any letter case. *)
Definition spells (tag written : jsstring) : Prop :=
  toLowerCase written = tag.

End PromptSpec.

Module ConfigSpec.

Import Config.

(** The variables that select a backend, a recorder or a preset. *)
Definition selector (name : string) : bool :=
  String.eqb name "DINGOFLOW_ASR_BACKEND"
  || String.eqb name "DINGOFLOW_RECORDER_BACKEND"
  || String.eqb name "DINGOFLOW_LATENCY_PRESET".

(** An environment that sets nothing but selectors. *)
Definition onlySelectors (env : string -> option jsstring) : Prop :=
  forall name, selector name = false -> env name = None.

(** The synchronous checks of [startStreaming] of the recorder that
    [createRecorder] picks, on the chunk duration of the configuration. *)
Definition startCheck (config : AppConfig) (nativeAudioBinExists : bool)
  : Capture.StartCheck :=
  match createRecorder config nativeAudioBinExists with
  | UseFfmpegRecorder =>
      Capture.ffmpegStartStreaming {| Capture.ffmpegProcess := false |}
        (liveStreamChunkMs config)
  | UseRustNativeRecorder =>
      Capture.nativeStartStreaming
        {| Capture.nativeProcess := false;
           Capture.binaryPath := nativeAudioBin config;
           Capture.binaryExists := nativeAudioBinExists |}
        (liveStreamChunkMs config)
  end.

(** An environment that sets nothing. *)
Definition emptyEnv (name : string) : option jsstring := None.

(** An environment that asks for the ffmpeg recorder and chunks of 30 ms. *)
Definition shortChunkEnv (name : string) : option jsstring :=
  if String.eqb name "DINGOFLOW_RECORDER_BACKEND" then Some (str "ffmpeg")
  else if String.eqb name "DINGOFLOW_STREAM_CHUNK_MS" then Some (str "30")
  else None.

Definition exampleRoot : jsstring := str "/opt/dingoflow/dist".

End ConfigSpec.

Module HotkeySpec.

Import PushToTalkHotkey.

(** Reading a list of callbacks as presses and releases of one button
    that is up at first: [Some held] when every press finds the button up
    and every release finds it held, with [held] telling whether it is
    held at the end. *)
Fixpoint pairing (held : bool) (calls : list Callback) : option bool :=
  match calls with
  | [] => Some held
  | onPress :: rest => if held then None else pairing true rest
  | onRelease :: rest => if held then pairing false rest else None
  end.

End HotkeySpec.

Module ControlSpec.

Import DingoFlowApp AudioQueue.


(** The state, the stop flag and the two recording flags. *)
Definition control (a : App) : AppState * bool * bool * bool :=
  (state a, stopInProgress a, recordingActive a, acceptingAudio a).

End ControlSpec.

Module TranscriptSpec.

Import DingoFlowApp SliceSpec SessionSpec.

(** Since the history [base], the transcript parts kept are the texts
    passed to [inject], in order, and no dictation has been completed. *)
Definition Typed (base : list Effect) (a : App) : Prop :=
  exists added,
    effects a = base ++ added
    /\ injectedTexts added = rawTranscriptParts a
    /\ dictationEvents added = [].

(** Since the history [base], at most one dictation has been completed,
    and its raw transcript is made of the texts passed to [inject]. *)
Definition Reported (base : list Effect) (a : App) : Prop :=
  exists added,
    effects a = base ++ added
    /\ (dictationEvents added = []
        \/ exists r,
             dictationEvents added = [r]
             /\ rawTranscript r = normalizeRawTranscript (injectedTexts added)
             /\ rawTranscript r <> []
             /\ formattedText r <> []).

End TranscriptSpec.

Module GateSpec.

Import DingoFlowApp.

(** An effect that is neither a transcription request, nor an injector
    call, nor the [dictationCompleted] event. *)
Definition deaf (e : Effect) : Prop :=
  match e with
  | CallAsrPushStream _ | CallAsrTranscribe _ | CallAsrFlushStream
  | CallInject _ | CallReplaceRecentText _ _ | EmitDictationCompleted _ => False
  | _ => True
  end.

(** No hangover is armed, no transcript part is kept and nothing has been
    heard. *)
Definition Unheard (a : App) : Prop :=
  speechHangoverUntilMs a = 0
  /\ rawTranscriptParts a = []
  /\ Forall deaf (effects a).

(** The options that a caller builds when it names every field of the
    defaults but the silence gate and the hangover: the comparison of a
    level with the missing gate is the comparison with NaN. *)
Definition ungatedOptions : DingoFlowLatencyOptions :=
  {| asrBackend := parakeet_native;
     spokenFormattingCommands := true;
     liveStreamChunkMs := 120;
     minAsrWindowMs := 90;
     normalAsrWindowMs := 180;
     backlogAsrWindowMs := 360;
     maxAsrWindowMs := 640;
     adaptiveAsrWindow := true;
     parakeetFinalPass := false;
     silenceGateDbfs := PrimFloat.nan;
     speechHangoverMs := 0;
     parakeetStreamContextLeft := 64;
     parakeetStreamContextRight := 8;
     parakeetStreamDepth := 1 |}.

(** Slice inputs of a session in which every ASR request would return
    the text [hello]. *)
Definition helloWorld (id : Z) : SliceEnv :=
  Examples.quietEnv (1000 + 10 * Z.abs id) (Some {| asrText := str "hello" |}).

(** 100 ms of a square wave at half of full scale, delivered at time 500. *)
Definition loud100ms : list (Z * Buffer) := [(500, Examples.halfScale 1600)].

End GateSpec.

Module SpacingSpec.

(** No blank (space or tab) at either end. *)
Definition edgeClean (s : jsstring) : Prop :=
  match s with c :: _ => isHSpace c = false | [] => True end
  /\ match rev s with c :: _ => isHSpace c = false | [] => True end.

(** There are never three newlines in a row in [s], [run] newlines being
    just before it. *)
Fixpoint paragraphsClean (run : nat) (s : jsstring) : bool :=
  match s with
  | [] => true
  | c :: s' =>
      if Ascii.eqb c LF then (S run <? 3)%nat && paragraphsClean (S run) s'
      else paragraphsClean 0 s'
  end.

End SpacingSpec.

Module LatencySpec.

Import LatencyTracker.

(** A figure of a summary that is one of the values, no greater than the
    greatest. *)
Definition isSample (values : list Z) (figure : Z) : Prop :=
  In figure values.

Definition isGreatest (values : list Z) (figure : Z) : Prop :=
  In figure values /\ Forall (fun value => value <= figure) values.

Definition isLeast (values : list Z) (figure : Z) : Prop :=
  In figure values /\ Forall (fun value => figure <= value) values.

End LatencySpec.

Module TraySpec.

Import DingoFlowApp Commands TrayController.


Section Clicks.

Variable log10 : float -> float.
Variable options : DingoFlowLatencyOptions.
Variable deps : Deps.
Variable world : Z -> SliceEnv.


End Clicks.



End TraySpec.

(* ===================================================================== *)
(** * Theorems *)
(* ===================================================================== *)

(** Splits a goal into its conjuncts, and nothing more. *)
Ltac split_and := repeat match goal with |- _ /\ _ => split end.

Module QueueFacts.

Import AudioQueue QueueSpec.

Lemma len_app {A} (l1 l2 : list A) : len (l1 ++ l2) = len l1 + len l2.
Proof. unfold len. rewrite length_app. lia. Qed.

Lemma len_nonneg {A} (l : list A) : 0 <= len l.
Proof. unfold len. lia. Qed.

Lemma unreadTotal_app l1 l2 :
  unreadTotal (l1 ++ l2) = unreadTotal l1 + unreadTotal l2.
Proof. induction l1 as [|c l1 IH]; cbn; [reflexivity | rewrite IH; lia]. Qed.

Lemma pendingContent_app l1 l2 :
  pendingContent (l1 ++ l2) = pendingContent l1 ++ pendingContent l2.
Proof. unfold pendingContent. rewrite map_app, concat_app. reflexivity. Qed.

(** The bytes copied by [head.data.copy], followed by what stays unread,
    are what was unread before. *)
Lemma slice_then_skipn (data : Buffer) (off n : Z) :
  0 <= off -> 0 <= n ->
  slice off (off + n) data ++ skipn (Z.to_nat (off + n)) data
  = skipn (Z.to_nat off) data.
Proof.
  intros Hoff Hn. unfold slice.
  replace (off + n - off) with n by lia.
  rewrite Z2Nat.inj_add by lia.
  rewrite Nat.add_comm, <- skipn_skipn.
  apply firstn_skipn.
Qed.

Lemma skipn_len_nil (data : Buffer) (off : Z) :
  len data <= off -> skipn (Z.to_nat off) data = [].
Proof. intros H. apply skipn_all2. unfold len in H. lia. Qed.

Lemma len_slice (data : Buffer) (off n : Z) :
  0 <= off -> 0 <= n -> off + n <= len data ->
  len (slice off (off + n) data) = n.
Proof.
  intros Hoff Hn Hle. unfold slice, len in *.
  replace (off + n - off) with n by lia.
  rewrite length_firstn, length_skipn. lia.
Qed.

Lemma readStep_inv byteCount headChunk rest st :
  writeOffset st < byteCount ->
  queue st = headChunk :: rest ->
  ReadInv byteCount st ->
  ReadInv byteCount (readStep byteCount headChunk rest st)
  /\ output (readStep byteCount headChunk rest st)
       ++ pendingContent (queue (readStep byteCount headChunk rest st))
     = output st ++ pendingContent (queue st).
Proof.
  intros Hlt Hq [Hch Hp Hw Hb]. rewrite Hq in Hch, Hp.
  inversion Hch as [|? ? Hhead Hrest]; subst.
  unfold chunkOk in Hhead. cbn [unreadTotal] in Hp.
  set (toCopy := Z.min (len (data headChunk) - offset headChunk)
                       (byteCount - writeOffset st)).
  assert (HtoCopy : 0 <= toCopy <= len (data headChunk) - offset headChunk)
    by (unfold toCopy; lia).
  unfold readStep. fold toCopy. cbn [queue output writeOffset pending offset data].
  split.
  - constructor; cbn [queue output writeOffset pending].
    + destruct (Z.leb_spec (len (data headChunk)) (offset headChunk + toCopy)).
      * assumption.
      * constructor; [unfold chunkOk; cbn; lia | assumption].
    + destruct (Z.leb_spec (len (data headChunk)) (offset headChunk + toCopy)).
      * lia.
      * cbn [unreadTotal offset data]. lia.
    + rewrite len_app, len_slice by lia. lia.
    + unfold toCopy. lia.
  - rewrite Hq. rewrite <- app_assoc. f_equal.
    change (pendingContent (headChunk :: rest))
      with (unread headChunk ++ pendingContent rest).
    unfold unread. rewrite <- (slice_then_skipn (data headChunk)
                                 (offset headChunk) toCopy) by lia.
    rewrite <- app_assoc. f_equal.
    destruct (Z.leb_spec (len (data headChunk)) (offset headChunk + toCopy)).
    + rewrite skipn_len_nil by lia. reflexivity.
    + reflexivity.
Qed.

Lemma readLoop_inv byteCount st :
  ReadInv byteCount st ->
  ReadInv byteCount (readLoop byteCount st)
  /\ output (readLoop byteCount st)
       ++ pendingContent (queue (readLoop byteCount st))
     = output st ++ pendingContent (queue st).
Proof.
  funelim (readLoop byteCount st); intros Hinv.
  - split; [assumption | reflexivity].
  - split; [assumption | reflexivity].
  - pose proof (proj1 (Z.ltb_lt _ _) Hlt) as Hlt'.
    destruct (readStep_inv byteCount headChunk rest st Hlt' Hq Hinv) as [Hi He].
    destruct (H Hi) as [Hi' He']. split; [assumption|]. rewrite He'. exact He.
Qed.

Lemma readLoop_conserve byteCount st :
  pending (readLoop byteCount st) + writeOffset (readLoop byteCount st)
  = pending st + writeOffset st.
Proof.
  funelim (readLoop byteCount st); try reflexivity.
  rewrite H. unfold readStep. cbn [pending writeOffset]. lia.
Qed.

Lemma readLoop_oldest_le byteCount st :
  oldest (readLoop byteCount st) <= oldest st.
Proof.
  funelim (readLoop byteCount st); try lia.
  etransitivity; [exact H|]. unfold readStep. cbn [oldest]. lia.
Qed.

(** The loop stops because the slice is complete or the queue is empty. *)
Lemma readLoop_exit byteCount st :
  byteCount <= writeOffset (readLoop byteCount st)
  \/ queue (readLoop byteCount st) = [].
Proof.
  funelim (readLoop byteCount st).
  - left. apply Z.ltb_ge. assumption.
  - right. assumption.
  - assumption.
Qed.

Lemma empty_inv : QueueInv empty.
Proof. split; [constructor | reflexivity]. Qed.

Lemma pushAudioChunk_inv now chunk q :
  QueueInv q ->
  QueueInv (pushAudioChunk now chunk q)
  /\ pendingContent (pendingAudioQueue (pushAudioChunk now chunk q))
     = pendingContent (pendingAudioQueue q) ++ chunk.
Proof.
  intros [Hch Hp]. split; [split|]; cbn [pushAudioChunk pendingAudioQueue pendingAudioBytes].
  - apply Forall_app. split; [assumption|].
    constructor; [|constructor]. unfold chunkOk. cbn. pose proof (len_nonneg chunk). lia.
  - rewrite unreadTotal_app, Hp. cbn. lia.
  - rewrite pendingContent_app. f_equal. unfold pendingContent, unread. cbn.
    apply app_nil_r.
Qed.

Lemma readPendingAudioSlice_inv now byteCount q :
  QueueInv q ->
  QueueInv (snd (readPendingAudioSlice now byteCount q))
  /\ taken (fst (readPendingAudioSlice now byteCount q))
       ++ pendingContent (pendingAudioQueue (snd (readPendingAudioSlice now byteCount q)))
     = pendingContent (pendingAudioQueue q).
Proof.
  intros [Hch Hp]. unfold readPendingAudioSlice.
  destruct ((byteCount <=? 0) || (pendingAudioBytes q <? byteCount)) eqn:Hguard.
  - split; [split; assumption | reflexivity].
  - apply orb_false_iff in Hguard. destruct Hguard as [H0 H1].
    apply Z.leb_gt in H0. apply Z.ltb_ge in H1.
    set (st0 := {| output := []; writeOffset := 0; oldest := now;
                   queue := pendingAudioQueue q;
                   pending := pendingAudioBytes q |}).
    assert (Hinv0 : ReadInv byteCount st0)
      by (split; cbn; [assumption | assumption | reflexivity | lia]).
    destruct (readLoop_inv byteCount st0 Hinv0) as [[Hc' Hp' _ _] He].
    cbn [fst snd taken sliceData pendingAudioQueue pendingAudioBytes].
    split; [split; assumption | exact He].
Qed.

(** A take that succeeds returns exactly the requested number of bytes and
    lowers the counter by as much. *)
Lemma readPendingAudioSlice_some now byteCount q :
  QueueInv q -> 0 < byteCount <= pendingAudioBytes q ->
  exists s,
    fst (readPendingAudioSlice now byteCount q) = Some s
    /\ len (sliceData s) = byteCount
    /\ oldestEnqueuedAtMs s <= now
    /\ pendingAudioBytes (snd (readPendingAudioSlice now byteCount q))
       = pendingAudioBytes q - byteCount
    /\ sessionAudioChunks (snd (readPendingAudioSlice now byteCount q))
       = sessionAudioChunks q.
Proof.
  intros [Hch Hp] [Hpos Hle]. unfold readPendingAudioSlice.
  destruct (Z.leb_spec byteCount 0); [lia|].
  destruct (Z.ltb_spec (pendingAudioBytes q) byteCount); [lia|].
  cbn [orb fst snd].
  set (st0 := {| output := []; writeOffset := 0; oldest := now;
                 queue := pendingAudioQueue q;
                 pending := pendingAudioBytes q |}).
  assert (Hinv0 : ReadInv byteCount st0)
    by (split; cbn; [assumption | assumption | reflexivity | lia]).
  destruct (readLoop_inv byteCount st0 Hinv0) as [[Hc' Hp' Hw' Hb'] _].
  pose proof (readLoop_conserve byteCount st0) as Hcons.
  pose proof (readLoop_oldest_le byteCount st0) as Hold.
  cbn [pending writeOffset oldest st0] in Hcons, Hold.
  assert (Hfull : writeOffset (readLoop byteCount st0) = byteCount).
  { destruct (readLoop_exit byteCount st0) as [Hx|Hx]; [lia|].
    rewrite Hx in Hp'. cbn in Hp'. lia. }
  eexists. split; [reflexivity|].
  cbn [sliceData oldestEnqueuedAtMs pendingAudioBytes sessionAudioChunks].
  repeat split; lia.
Qed.

Lemma applyOp_inv op q :
  QueueInv q ->
  QueueInv (fst (applyOp op q))
  /\ snd (applyOp op q) ++ pendingContent (pendingAudioQueue (fst (applyOp op q)))
     = pendingContent (pendingAudioQueue q) ++ enqueuedBytes [op].
Proof.
  intros Hinv. destruct op as [now chunk | now byteCount]; cbn [applyOp].
  - destruct (pushAudioChunk_inv now chunk q Hinv) as [Hi He].
    cbn [fst snd enqueuedBytes]. split; [assumption|].
    rewrite He, app_nil_r. reflexivity.
  - pose proof (readPendingAudioSlice_inv now byteCount q Hinv) as [Hi He].
    destruct (readPendingAudioSlice now byteCount q) as [[s|] q'];
      cbn [fst snd taken enqueuedBytes] in *; rewrite app_nil_r;
      (split; [assumption | exact He]).
Qed.

Lemma enqueuedBytes_cons op ops :
  enqueuedBytes (op :: ops) = enqueuedBytes [op] ++ enqueuedBytes ops.
Proof. destruct op; cbn; [rewrite app_nil_r|]; reflexivity. Qed.

Lemma runOps_inv ops : forall q,
  QueueInv q ->
  QueueInv (fst (runOps ops q))
  /\ snd (runOps ops q) ++ pendingContent (pendingAudioQueue (fst (runOps ops q)))
     = pendingContent (pendingAudioQueue q) ++ enqueuedBytes ops.
Proof.
  induction ops as [|op ops IH]; intros q Hinv.
  - cbn. split; [assumption | rewrite app_nil_r; reflexivity].
  - cbn [runOps]. destruct (applyOp_inv op q Hinv) as [Hi He].
    destruct (applyOp op q) as [q1 out1]. cbn [fst snd] in Hi, He.
    destruct (IH q1 Hi) as [Hi2 He2].
    destruct (runOps ops q1) as [q2 out2]. cbn [fst snd] in *.
    split; [assumption|].
    rewrite enqueuedBytes_cons, <- app_assoc, He2, !app_assoc, He. reflexivity.
Qed.

(** C5. At every step of every sequence of enqueue and take operations on
    the queue set up by [startRecording] (that is, after every prefix of
    the sequence), [pendingAudioBytes] is the sum over the queued chunks of
    the chunk length minus the chunk's read offset. *)
Theorem pending_counter_is_unread_total (ops : list QueueOp) (k : nat) :
  let q := fst (runOps (firstn k ops) empty) in
  pendingAudioBytes q = unreadTotal (pendingAudioQueue q).
Proof.
  cbv zeta. destruct (runOps_inv (firstn k ops) empty empty_inv) as [[_ Hp] _].
  exact Hp.
Qed.

(** C4. For every sequence of enqueue and take operations, the bytes
    returned by the takes, concatenated in take order, are a prefix of the
    enqueued bytes concatenated in enqueue order; what follows the prefix
    is exactly what is still unread in the queue, so that bytes leave in
    FIFO order and none is returned twice. *)
Theorem taken_bytes_are_prefix_of_enqueued (ops : list QueueOp) :
  let (q, out) := runOps ops empty in
  isPrefixOf out (enqueuedBytes ops)
  /\ enqueuedBytes ops = out ++ pendingContent (pendingAudioQueue q).
Proof.
  destruct (runOps_inv ops empty empty_inv) as [_ He].
  destruct (runOps ops empty) as [q out]. cbn [fst snd] in He.
  cbn in He. split; [eexists|]; symmetry; exact He.
Qed.

End QueueFacts.

Module WindowFacts.

Import DingoFlowApp WindowSpec.

Lemma updateAdaptiveWindow_in_bounds options audioMs asrElapsedMs pendingMs a :
  minAsrWindowMs options <= maxAsrWindowMs options ->
  windowInBounds options a ->
  windowInBounds options
    (updateAdaptiveWindow options audioMs asrElapsedMs pendingMs a).
Proof.
  unfold windowInBounds, updateAdaptiveWindow, Num.clamp. intros Hmm Hin.
  destruct (adaptiveAsrWindow options); cbn [negb]; [|exact Hin].
  match goal with
  | |- context [if negb (?c =? ?d) then _ else _] => destruct (Z.eqb_spec c d)
  end; cbn [negb].
  - exact Hin.
  - cbn [dynamicNormalAsrWindowMs set_dynamicNormalAsrWindowMs]. lia.
Qed.

Lemma applyUpdates_in_bounds options us : forall a,
  minAsrWindowMs options <= maxAsrWindowMs options ->
  windowInBounds options a ->
  windowInBounds options (applyUpdates options us a).
Proof.
  induction us as [|u us IH]; intros a Hmm Hin; [exact Hin|].
  cbn. apply IH; [assumption|].
  apply updateAdaptiveWindow_in_bounds; assumption.
Qed.

(** C6. When [minAsrWindowMs <= normalAsrWindowMs <= maxAsrWindowMs], the
    dynamic window [dynamicNormalAsrWindowMs] lies in
    [[minAsrWindowMs, maxAsrWindowMs]] after initialisation (by the
    constructor and by [startRecording], whether it succeeds or rolls back)
    and after every update of every sequence of adaptive-window updates,
    whatever [audioMs], [asrElapsedMs] and [pendingMs] they are given. *)
Theorem dynamic_window_stays_in_bounds
  (options : DingoFlowLatencyOptions)
  (Hmin : minAsrWindowMs options <= normalAsrWindowMs options)
  (Hmax : normalAsrWindowMs options <= maxAsrWindowMs options) :
  windowInBounds options (new options)
  /\ (forall deps env a,
        windowInBounds options (fst (startRecording options deps env a)))
  /\ (forall a us k,
        windowInBounds options a ->
        windowInBounds options (applyUpdates options (firstn k us) a)).
Proof.
  repeat split.
  1,2: cbn; assumption.
  - unfold startRecording.
    destruct (recorderStartOutcome env); [|cbn; lia].
    destruct (hasStartStream deps); [destruct (asrStartStreamOutcome env)|];
      cbn; lia.
  - unfold startRecording.
    destruct (recorderStartOutcome env); [|cbn; lia].
    destruct (hasStartStream deps); [destruct (asrStartStreamOutcome env)|];
      cbn; lia.
  - apply applyUpdates_in_bounds; [lia | assumption].
  - apply applyUpdates_in_bounds; [lia | assumption].
Qed.

(** The default options satisfy the precondition; three updates from the
    constructor's state. *)
Lemma dynamic_window_stays_in_bounds_witness :
  let us := [ {| updAudioMs := 180%float; updAsrElapsedMs := 400;
                 updPendingMs := 5000%float |};
              {| updAudioMs := 640%float; updAsrElapsedMs := 20;
                 updPendingMs := 0%float |};
              {| updAudioMs := 90%float; updAsrElapsedMs := 10;
                 updPendingMs := 0%float |} ] in
  windowInBounds DEFAULT_LATENCY_OPTIONS
    (applyUpdates DEFAULT_LATENCY_OPTIONS (firstn 3 us)
       (new DEFAULT_LATENCY_OPTIONS)).
Proof.
  cbv zeta.
  apply (dynamic_window_stays_in_bounds DEFAULT_LATENCY_OPTIONS).
  - simpl. lia.
  - simpl. lia.
  - apply (dynamic_window_stays_in_bounds DEFAULT_LATENCY_OPTIONS);
      simpl; lia.
Defined.

End WindowFacts.

Module SliceFacts.

Import DingoFlowApp AudioQueue LiveText SliceSpec.

(** Chunk deliveries during an awaited call touch the audio fields only. *)
Lemma deliverWhileLoopActive_frame arrivals : forall a q,
  set_audio q (deliverWhileLoopActive arrivals a) = set_audio q a.
Proof.
  induction arrivals as [|[now chunk] rest IH]; intros a q; [reflexivity|].
  unfold deliverWhileLoopActive in *. cbn [fold_left]. rewrite IH.
  unfold onChunkWhileLoopActive.
  destruct (negb (acceptingAudio a) || (len chunk =? 0)); reflexivity.
Qed.

(** An adaptive-window update touches the three tuning fields only. *)
Lemma updateAdaptiveWindow_frame options audioMs asrElapsedMs pendingMs a w r m :
  set_dynamicNormalAsrWindowMs w
    (set_ewmaAsrRtf r
       (set_ewmaAsrMs m
          (updateAdaptiveWindow options audioMs asrElapsedMs pendingMs a)))
  = set_dynamicNormalAsrWindowMs w (set_ewmaAsrRtf r (set_ewmaAsrMs m a)).
Proof.
  unfold updateAdaptiveWindow.
  destruct (adaptiveAsrWindow options); cbn [negb]; [|reflexivity].
  match goal with
  | |- context [if negb (?c =? ?d) then _ else _] => destruct (negb (c =? d))
  end; reflexivity.
Qed.

Lemma updateAdaptiveWindow_ewma options audioMs asrElapsedMs pendingMs a :
  let a' := updateAdaptiveWindow options audioMs asrElapsedMs pendingMs a in
  ewmaAsrRtf a'
  = (ewmaAsrRtf a * (1 - 0.18)
     + Num.ofZ asrElapsedMs / Num.Math_max audioMs 1 * 0.18)%float
  /\ ewmaAsrMs a'
     = (ewmaAsrMs a * (1 - 0.18) + Num.ofZ asrElapsedMs * 0.18)%float.
Proof.
  cbv zeta. unfold updateAdaptiveWindow.
  destruct (adaptiveAsrWindow options); cbn [negb]; [|split; reflexivity].
  match goal with
  | |- context [if negb (?c =? ?d) then _ else _] => destruct (negb (c =? d))
  end; split; reflexivity.
Qed.

(** The state in which [processAudioSlice] returns when the ASR request
    has been made and its promise rejected. *)
Lemma processAudioSlice_asr_failed log10 options deps env audioSlice requestId a :
  asrOutcome env = None ->
  asrInvoked log10 options env audioSlice a = true ->
  exists a0,
    set_speechHangoverUntilMs 0 a0 = set_speechHangoverUntilMs 0 a
    /\ processAudioSlice log10 options deps env audioSlice requestId a
       = (updateAdaptiveWindow options
            (bytesToMs (len (sliceData audioSlice)))
            (tAsrEnd env - tAsrStart env)
            (bytesToMs
               (pendingAudioBytes
                  (audio (deliverWhileLoopActive (asrArrivals env)
                            (perform (asrCall deps audioSlice) a0)))))
            (deliverWhileLoopActive (asrArrivals env)
               (perform (asrCall deps audioSlice) a0)),
          Returned).
Proof.
  intros Hfail Hgate. unfold asrInvoked in Hgate. unfold processAudioSlice.
  rewrite Hfail. fold (asrCall deps audioSlice).
  destruct (Num.ge (estimateDbfs log10 (sliceData audioSlice))
              (silenceGateDbfs options)).
  - eexists. split; [|reflexivity]. reflexivity.
  - cbn [orb] in Hgate. apply negb_true_iff in Hgate. rewrite Hgate.
    eexists. split; reflexivity.
Qed.

Lemma deliverWhileLoopActive_tuning arrivals a :
  tuning (deliverWhileLoopActive arrivals a) = tuning a.
Proof.
  pose proof (deliverWhileLoopActive_frame arrivals a AudioQueue.empty) as H.
  unfold tuning.
  apply (f_equal tuning) in H. exact H.
Qed.

Lemma tuning_set_latencyTracker l a :
  tuning (set_latencyTracker l a) = tuning a.
Proof. reflexivity. Qed.

(** How the ASR request ends has no influence on the adaptive window
    state left by [processAudioSlice]. *)
Lemma processAudioSlice_tuning log10 options deps env audioSlice requestId a r r' :
  tuning (fst (processAudioSlice log10 options deps (withAsrOutcome r env)
                 audioSlice requestId a))
  = tuning (fst (processAudioSlice log10 options deps (withAsrOutcome r' env)
                   audioSlice requestId a)).
Proof.
  assert (Hnone : forall r,
    tuning (fst (processAudioSlice log10 options deps (withAsrOutcome r env)
                   audioSlice requestId a))
    = tuning (fst (processAudioSlice log10 options deps
                     (withAsrOutcome None env) audioSlice requestId a))).
  { clear r r'. intros r. unfold processAudioSlice.
    cbn [withAsrOutcome tGate tAsrStart tAsrEnd asrArrivals asrOutcome tQueue
         injectArrivals injectOutcome tInjectStart tInjectEnd tEndToEnd].
    match goal with
    | |- context [match ?g with Some _ => _ | None => (a, Returned) end] =>
        destruct g as [a0|]; [|reflexivity]
    end.
    destruct r as [result|]; [|reflexivity].
    repeat match goal with
    | |- context [if ?c then _ else _] => destruct c; try reflexivity
    end.
    all: destruct (injectOutcome env); cbn [fst];
      rewrite ?tuning_set_latencyTracker, deliverWhileLoopActive_tuning;
      reflexivity. }
  rewrite (Hnone r), (Hnone r'). reflexivity.
Qed.

(** C7. When the ASR request made for a slice fails, the slice yields no
    transcript text, no injector call (the one effect is the ASR call
    itself) and no latency sample, the session state is unchanged, and the
    EWMA state is updated as for a successful call:
    [ewmaAsrRtf] becomes
    [ewmaAsrRtf * (1 - 0.18) + (asrElapsedMs / max(audioMs, 1)) * 0.18] and
    [ewmaAsrMs] becomes [ewmaAsrMs * (1 - 0.18) + asrElapsedMs * 0.18]
    (the factors in the order of the source), which are also the values,
    together with the dynamic window, left by the same call when it
    succeeds with any result. *)
Theorem failed_asr_request_drops_slice_and_updates_ewma
  (log10 : float -> float) (options : DingoFlowLatencyOptions) (deps : Deps)
  (env : SliceEnv) (audioSlice : PendingAudioSlice) (requestId : Z) (a : App)
  (Hfail : asrOutcome env = None)
  (Hgate : asrInvoked log10 options env audioSlice a = true) :
  let run e := processAudioSlice log10 options deps e audioSlice requestId a in
  let a' := fst (run env) in
  let audioMs := bytesToMs (len (sliceData audioSlice)) in
  let asrElapsedMs := tAsrEnd env - tAsrStart env in
  snd (run env) = Returned
  /\ rawTranscriptParts a' = rawTranscriptParts a
  /\ liveInjectedText a' = liveInjectedText a
  /\ effects a' = effects a ++ [asrCall deps audioSlice]
  /\ latencyTracker a' = latencyTracker a
  /\ state a' = state a
  /\ ewmaAsrRtf a'
     = (ewmaAsrRtf a * (1 - 0.18)
        + Num.ofZ asrElapsedMs / Num.Math_max audioMs 1 * 0.18)%float
  /\ ewmaAsrMs a'
     = (ewmaAsrMs a * (1 - 0.18) + Num.ofZ asrElapsedMs * 0.18)%float
  /\ forall result,
       let ok := fst (run (withAsrOutcome (Some result) env)) in
       ewmaAsrRtf ok = ewmaAsrRtf a'
       /\ ewmaAsrMs ok = ewmaAsrMs a'
       /\ dynamicNormalAsrWindowMs ok = dynamicNormalAsrWindowMs a'.
Proof.
  cbv zeta.
  destruct (processAudioSlice_asr_failed log10 options deps env audioSlice
              requestId a Hfail Hgate) as [a0 [Ha0 Hrun]].
  rewrite Hrun. cbn [fst snd].
  set (a1 := deliverWhileLoopActive (asrArrivals env)
               (perform (asrCall deps audioSlice) a0)).
  set (a2 := updateAdaptiveWindow options _ _ _ a1).
  assert (Hupd : forall w r m,
             set_dynamicNormalAsrWindowMs w (set_ewmaAsrRtf r (set_ewmaAsrMs m a2))
             = set_dynamicNormalAsrWindowMs w (set_ewmaAsrRtf r (set_ewmaAsrMs m a1)))
    by (intros; apply updateAdaptiveWindow_frame).
  assert (Hdel : forall q, set_audio q a1
                           = set_audio q (perform (asrCall deps audioSlice) a0))
    by (intros; apply deliverWhileLoopActive_frame).
  pose proof (Hupd 0 0%float 0%float) as Hu.
  pose proof (Hdel AudioQueue.empty) as Hd.
  assert (Hraw : rawTranscriptParts a2 = rawTranscriptParts a).
  { apply (f_equal rawTranscriptParts) in Hu, Hd, Ha0. cbn in Hu, Hd, Ha0. congruence. }
  assert (Hlive : liveInjectedText a2 = liveInjectedText a).
  { apply (f_equal liveInjectedText) in Hu, Hd, Ha0. cbn in Hu, Hd, Ha0. congruence. }
  assert (Heff : effects a2 = effects a ++ [asrCall deps audioSlice]).
  { apply (f_equal effects) in Hu, Hd, Ha0. cbn in Hu, Hd, Ha0. congruence. }
  assert (Hlat : latencyTracker a2 = latencyTracker a).
  { apply (f_equal latencyTracker) in Hu, Hd, Ha0. cbn in Hu, Hd, Ha0. congruence. }
  assert (Hst : state a2 = state a).
  { apply (f_equal state) in Hu, Hd, Ha0. cbn in Hu, Hd, Ha0. congruence. }
  assert (HrtfIn : ewmaAsrRtf a1 = ewmaAsrRtf a).
  { apply (f_equal ewmaAsrRtf) in Hd, Ha0. cbn in Hd, Ha0. congruence. }
  assert (HmsIn : ewmaAsrMs a1 = ewmaAsrMs a).
  { apply (f_equal ewmaAsrMs) in Hd, Ha0. cbn in Hd, Ha0. congruence. }
  destruct (updateAdaptiveWindow_ewma options
              (bytesToMs (len (sliceData audioSlice)))
              (tAsrEnd env - tAsrStart env)
              (bytesToMs (pendingAudioBytes (audio a1))) a1) as [Hrtf Hms].
  fold a2 in Hrtf, Hms. rewrite HrtfIn in Hrtf. rewrite HmsIn in Hms.
  repeat split; try assumption.
  all: pose proof (processAudioSlice_tuning log10 options deps env audioSlice
                     requestId a (Some result) None) as Ht;
    replace (withAsrOutcome None env) with env in Ht
      by (destruct env; cbn in Hfail; subst; reflexivity);
    rewrite Hrun in Ht; cbn [fst] in Ht; fold a1 a2 in Ht;
    unfold tuning in Ht; congruence.
Qed.

Lemma failed_asr_request_drops_slice_and_updates_ewma_witness :
  let env := Examples.quietEnv 1000 None in
  let audioSlice :=
    {| sliceData := Examples.halfScale 1600; oldestEnqueuedAtMs := 990 |} in
  let a := new DEFAULT_LATENCY_OPTIONS in
  let a' :=
    fst (processAudioSlice Examples.log10Approx DEFAULT_LATENCY_OPTIONS
           Examples.fullDeps env audioSlice 1 a) in
  rawTranscriptParts a' = [] /\ latencyTracker a' = []
  /\ ewmaAsrRtf a' = (1 * (1 - 0.18) + 1 / 100 * 0.18)%float.
Proof.
  cbv zeta.
  destruct (failed_asr_request_drops_slice_and_updates_ewma
              Examples.log10Approx DEFAULT_LATENCY_OPTIONS Examples.fullDeps
              (Examples.quietEnv 1000 None)
              {| sliceData := Examples.halfScale 1600;
                 oldestEnqueuedAtMs := 990 |}
              1 (new DEFAULT_LATENCY_OPTIONS))
    as (_ & Hraw & _ & _ & Hlat & _ & Hrtf & _).
  - reflexivity.
  - vm_compute. reflexivity.
  - split; [exact Hraw | split; [exact Hlat|]].
    rewrite Hrtf. vm_compute. reflexivity.
Defined.

End SliceFacts.

Module RewriterFacts.

Import SpokenFormattingProcessor.

(** C8 as stated is refuted: on the input
    [hello comma world full stop new line next] the applied-commands
    counter ends at three, which is not the four of the claim. *)
Lemma rewriter_counts_three_commands_not_four :
  appliedCommands
    (transform (str "hello comma world full stop new line next")) = 3
  /\ (3 =? 4) = false.
Proof. split; vm_compute; reflexivity. Qed.

(** C8, amended. On [hello comma world full stop new line next] the
    rewriter returns the text [hello, world.] + newline + [next]; the three
    rule matches (new line, full stop, comma) each increment the
    applied-commands counter, which ends at three. *)
Theorem spoken_punctuation_example :
  transform (str "hello comma world full stop new line next")
  = {| text := str "hello, world." ++ [LF] ++ str "next";
       appliedCommands := 3 |}
  /\ map (fun r => snd (replaceRule r
                          (str "hello comma world full stop new line next")))
       RULES
     = [0; 1; 1; 0; 0; 0; 0; 0; 0; 0; 0; 0; 0; 1; 0].
Proof. split; vm_compute; reflexivity. Qed.

End RewriterFacts.

Module CaptureFacts.

Import Capture.

Lemma nativeRangeError_neq_missing_binary path :
  Js.eqb (str "Native recorder binary not found at '" ++ path
          ++ str "'. Run scripts/build_native_audio.sh first.")
         ffmpegRangeError
  || Js.eqb (str "Native recorder binary not found at '" ++ path
             ++ str "'. Run scripts/build_native_audio.sh first.")
            nativeRangeError = false.
Proof.
  unfold Js.eqb.
  repeat match goal with
  | |- context [list_eq_dec ascii_dec ?x ?y] =>
      destruct (list_eq_dec ascii_dec x y) as [E|_];
      [cbn in E; discriminate E|]
  end.
  reflexivity.
Qed.

(** C9 as stated is refuted for the ffmpeg recorder: 20 ms and 39 ms lie
    in [[20, 2000]] and an idle [FfmpegRecorder] fails its range check on
    them. *)
Lemma ffmpeg_recorder_rejects_20_ms :
  (20 <=? 20) && (20 <=? 2000) = true
  /\ startStreaming {| ffmpegProcess := false |} 20 = Throws ffmpegRangeError
  /\ startStreaming {| ffmpegProcess := false |} 39 = Throws ffmpegRangeError
  /\ isRangeError (startStreaming {| ffmpegProcess := false |} 20) = true.
Proof. repeat split; vm_compute; reflexivity. Qed.

(** C9, amended. An idle [RustNativeRecorder] throws its range error
    exactly when [chunkDurationMs] is outside [[20, 2000]], and an idle
    [FfmpegRecorder] throws its range error exactly when [chunkDurationMs]
    is outside [[40, 2000]]; inside the range either recorder goes on to
    set up capture with [chunkByteSize = max(1, floor(32 * chunkDurationMs))]
    (the native one provided its binary exists). *)
Theorem startStreaming_range_check (chunkDurationMs : Z) :
  (forall path present,
     let r := {| nativeProcess := false; binaryPath := path;
                 binaryExists := present |} in
     (isRangeError (startStreaming r chunkDurationMs) = true
      <-> ~ (20 <= chunkDurationMs <= 2000))
     /\ (20 <= chunkDurationMs <= 2000 -> present = true ->
         startStreaming r chunkDurationMs
         = Proceeds (Z.max 1 (32 * chunkDurationMs))))
  /\ (let r := {| ffmpegProcess := false |} in
      (isRangeError (startStreaming r chunkDurationMs) = true
       <-> ~ (40 <= chunkDurationMs <= 2000))
      /\ (40 <= chunkDurationMs <= 2000 ->
          startStreaming r chunkDurationMs
          = Proceeds (Z.max 1 (32 * chunkDurationMs)))).
Proof.
  assert (Hbytes : chunkBytes chunkDurationMs = Z.max 1 (32 * chunkDurationMs)).
  { unfold chunkBytes. f_equal.
    replace (16000 * 2 * chunkDurationMs) with (32 * chunkDurationMs * 1000) by lia.
    apply Z.div_mul. lia. }
  split.
  - intros path present. cbv zeta.
    cbn [startStreaming RustNativeAudioRecorder nativeStartStreaming
         nativeProcess binaryExists binaryPath].
    destruct (Z.ltb_spec chunkDurationMs 20), (Z.ltb_spec 2000 chunkDurationMs);
      cbn [orb]; try (split; [split; [intros _; lia | intros _; reflexivity] | lia]).
    destruct present; cbn [negb].
    + split; [split; [discriminate | lia]|]. intros _ _. rewrite Hbytes. reflexivity.
    + split; [|discriminate].
      unfold isRangeError. rewrite nativeRangeError_neq_missing_binary.
      split; [discriminate | lia].
  - cbv zeta.
    cbn [startStreaming FfmpegAudioRecorder ffmpegStartStreaming ffmpegProcess].
    destruct (Z.ltb_spec chunkDurationMs 40), (Z.ltb_spec 2000 chunkDurationMs);
      cbn [orb]; try (split; [split; [intros _; lia | intros _; reflexivity] | lia]).
    split; [split; [discriminate | lia]|]. intros _. rewrite Hbytes. reflexivity.
Qed.

End CaptureFacts.

Module StringFacts.

Lemma endsWithSpace_isSpace s :
  endsWithSpace s = true <-> exists pre c, s = pre ++ [c] /\ isSpace c = true.
Proof.
  unfold endsWithSpace. split.
  - destruct (rev s) as [|c r] eqn:E; [discriminate|]. intros H.
    exists (rev r), c. split.
    + rewrite <- (rev_involutive s), E. reflexivity.
    + apply orb_true_iff in H. destruct H as [H|H]; [exact H|].
      apply Ascii.eqb_eq in H. subst c. reflexivity.
  - intros (pre & c & -> & Hc). rewrite rev_unit, Hc. reflexivity.
Qed.

Lemma endsWithSpace_app_SP s : endsWithSpace (s ++ [SP]) = true.
Proof. apply endsWithSpace_isSpace. exists s, SP. split; reflexivity. Qed.

Lemma truthy_true s : truthy s = true <-> s <> [].
Proof. destruct s; cbn; split; congruence. Qed.

Lemma truthy_false s : truthy s = false <-> s = [].
Proof. destruct s; cbn; split; congruence. Qed.

Lemma eqb_eq a b : Js.eqb a b = true <-> a = b.
Proof. unfold Js.eqb. destruct (list_eq_dec ascii_dec a b); split; congruence. Qed.

Lemma dropWhile_suffix p s : exists pre, s = pre ++ dropWhile p s.
Proof.
  induction s as [|c s [pre IH]]; [exists []; reflexivity|].
  cbn. destruct (p c); [|exists []; reflexivity].
  exists (c :: pre). cbn. f_equal. exact IH.
Qed.

Lemma dropWhile_length p s : (length (dropWhile p s) <= length s)%nat.
Proof.
  induction s as [|c s IH]; cbn; [lia|]. destruct (p c); cbn; lia.
Qed.

Lemma dropWhileEnd_length p s : (length (dropWhileEnd p s) <= length s)%nat.
Proof.
  unfold dropWhileEnd. rewrite length_rev.
  etransitivity; [apply dropWhile_length|]. rewrite length_rev. lia.
Qed.

(** [join] of a list with one more piece in front. *)
Lemma join_cons_length sep w ws :
  (length (join sep (w :: ws)) <= length w + length sep + length (join sep ws))%nat.
Proof.
  destruct ws as [|w' ws]; cbn [join]; [lia|].
  rewrite !length_app. lia.
Qed.

Lemma join_cons_nonempty sep w ws :
  ws <> [] -> join sep (w :: ws) = w ++ sep ++ join sep ws.
Proof. destruct ws; [congruence | reflexivity]. Qed.

Lemma splitGo_nonempty s : forall skipping cur, splitGo skipping cur s <> [].
Proof.
  induction s as [|c s IH]; intros skipping cur; cbn; [discriminate|].
  destruct (isSpace c); [destruct skipping|]; try apply IH. discriminate.
Qed.

(** Joining the pieces of a split with single spaces never lengthens. *)
Lemma splitGo_join_length s : forall skipping cur,
  (length (join [SP] (splitGo skipping cur s)) <= length cur + length s)%nat.
Proof.
  induction s as [|c s IH]; intros skipping cur; cbn [splitGo].
  - cbn. lia.
  - destruct (isSpace c); [destruct skipping|].
    + specialize (IH true []). cbn [length] in *. lia.
    + pose proof (join_cons_length [SP] cur (splitGo true [] s)).
      specialize (IH true []). cbn [length] in *. lia.
    + specialize (IH false (cur ++ [c])). rewrite length_app in IH.
      cbn [length] in *. lia.
Qed.

Lemma splitWs_join_length s :
  (length (join [SP] (splitWs s)) <= length s)%nat.
Proof. unfold splitWs. pose proof (splitGo_join_length s false []). cbn in *. lia. Qed.

(** Dropping leading words strictly shortens the joined text. *)
Lemma join_skipn_length (ws : list jsstring) : forall k,
  skipn k ws <> [] ->
  (length (join [SP] (skipn k ws)) + k <= length (join [SP] ws))%nat.
Proof.
  induction ws as [|w ws IH]; intros k Hne.
  - rewrite skipn_nil in Hne. congruence.
  - destruct k as [|k]; [cbn [skipn]; lia|].
    cbn [skipn] in *. specialize (IH k Hne).
    assert (ws <> []) by (intros ->; rewrite skipn_nil in Hne; congruence).
    rewrite (join_cons_nonempty [SP] w ws) by assumption.
    rewrite !length_app. cbn [length]. lia.
Qed.

(** [trim] removes the trailing whitespace character when there is one. *)
Lemma trim_length s :
  trim s <> [] ->
  (length (trim s) + (if endsWithSpace s then 1 else 0) <= length s)%nat.
Proof.
  intros Hne. unfold trim, trimEnd, trimStart in *.
  destruct (dropWhile_suffix isSpace s) as [pre Hs].
  set (suf := dropWhile isSpace s) in *.
  pose proof (dropWhileEnd_length isSpace suf) as Hle.
  assert (Hlen : (length suf <= length s)%nat)
    by (apply dropWhile_length).
  destruct (endsWithSpace s) eqn:Hend; [|lia].
  apply endsWithSpace_isSpace in Hend. destruct Hend as (pre' & c & Hs' & Hc).
  assert (Hsuf : suf <> []) by (intros E; rewrite E in Hne; cbn in Hne; congruence).
  assert (Hrev : exists r, rev suf = c :: r).
  { destruct (rev suf) as [|c' r] eqn:E.
    - apply (f_equal (@rev ascii)) in E. rewrite rev_involutive in E. cbn in E. congruence.
    - exists r. f_equal.
      assert (E2 : rev s = c :: rev pre') by (rewrite Hs', rev_unit; reflexivity).
      rewrite Hs, rev_app_distr, E in E2. cbn in E2. congruence. }
  destruct Hrev as [r Hr]. unfold dropWhileEnd. rewrite length_rev, Hr.
  cbn [dropWhile]. rewrite Hc.
  pose proof (dropWhile_length isSpace r).
  assert (length suf = S (length r))
    by (rewrite <- (length_rev suf), Hr; reflexivity).
  lia.
Qed.

End StringFacts.

Module DedupFacts.

Import LiveText DedupSpec StringFacts.

Lemma tailHeadLoop_nonneg e n size : 0 <= tailHeadLoop e n size.
Proof.
  induction size as [|size IH]; cbn [tailHeadLoop]; [lia|].
  destruct (Js.eqb _ _); lia.
Qed.

Lemma sizeLoop_nonneg e n el ss size : 0 <= sizeLoop e n el ss size.
Proof.
  induction size as [|size IH]; cbn [sizeLoop]; [lia|].
  destruct (_ <? 4); [lia|]. destruct (startLoop _ _ _ _ _); lia.
Qed.

Lemma overlapWords_nonneg e n : 0 <= overlapWords e n.
Proof.
  unfold overlapWords.
  destruct ((_ =? 0) && _); [apply sizeLoop_nonneg | apply tailHeadLoop_nonneg].
Qed.

(** The deduper unfolded past its guards. *)
Lemma dedupe_unfold live chunk :
  dedupeChunkAgainstLiveTranscript live chunk
  = if dedupSkipped live chunk then chunk
    else if residualOverlap live chunk =? 0 then chunk
    else
      let dedupedWords :=
        sliceFrom (residualOverlap live chunk) (splitWs (trim chunk)) in
      if len dedupedWords =? 0 then []
      else join [SP] dedupedWords ++ (if endsWithSpace chunk then [SP] else []).
Proof.
  unfold dedupeChunkAgainstLiveTranscript, dedupSkipped, residualOverlap.
  destruct (negb (truthy (trim chunk)) || negb (truthy (trim live)));
    cbn [orb]; [reflexivity|].
  destruct (includes LF chunk || includes LF live); [reflexivity|].
  assert (He : (len (splitWs (trim live)) =? 0) = false).
  { apply Z.eqb_neq. unfold len, splitWs.
    pose proof (splitGo_nonempty (trim live) false []).
    destruct (splitGo false [] (trim live)); [congruence | cbn; lia]. }
  assert (Hn : (len (splitWs (trim chunk)) =? 0) = false).
  { apply Z.eqb_neq. unfold len, splitWs.
    pose proof (splitGo_nonempty (trim chunk) false []).
    destruct (splitGo false [] (trim chunk)); [congruence | cbn; lia]. }
  rewrite He, Hn. reflexivity.
Qed.

(** When the deduper drops words, what it returns is shorter than the
    chunk. *)
Lemma dedupe_shortens live chunk :
  dedupSkipped live chunk = false ->
  residualOverlap live chunk <> 0 ->
  (length (dedupeChunkAgainstLiveTranscript live chunk) < length chunk)%nat.
Proof.
  intros Hskip Hov. rewrite dedupe_unfold, Hskip.
  destruct (Z.eqb_spec (residualOverlap live chunk) 0); [congruence|].
  cbv zeta.
  assert (Htrim : trim chunk <> []).
  { unfold dedupSkipped in Hskip. apply orb_false_iff in Hskip.
    destruct Hskip as [Hskip _]. apply orb_false_iff in Hskip.
    destruct Hskip as [Hskip _]. apply orb_false_iff in Hskip.
    destruct Hskip as [Hskip _]. apply negb_false_iff in Hskip.
    apply truthy_true. exact Hskip. }
  pose proof (trim_length chunk Htrim) as Hlen.
  assert (Hchunk : (0 < length chunk)%nat).
  { destruct chunk; [cbn in Htrim; congruence | cbn; lia]. }
  pose proof (overlapWords_nonneg (splitWs (trim live)) (splitWs (trim chunk))) as Hk.
  fold (residualOverlap live chunk) in Hk.
  unfold sliceFrom.
  set (k := Z.to_nat (residualOverlap live chunk)).
  assert (Hk1 : (1 <= k)%nat) by (unfold k; lia).
  destruct (Z.eqb_spec (len (skipn k (splitWs (trim chunk)))) 0) as [E|E];
    [cbn; lia|].
  assert (Hne : skipn k (splitWs (trim chunk)) <> [])
    by (intros E'; rewrite E' in E; cbn in E; congruence).
  pose proof (join_skipn_length (splitWs (trim chunk)) k Hne) as Hj.
  pose proof (splitWs_join_length (trim chunk)) as Hs.
  rewrite length_app.
  destruct (endsWithSpace chunk); cbn [length]; lia.
Qed.

(** The deduper keeps a trailing whitespace character. *)
Lemma dedupe_keeps_trailing_space live chunk :
  endsWithSpace chunk = true ->
  dedupeChunkAgainstLiveTranscript live chunk = []
  \/ endsWithSpace (dedupeChunkAgainstLiveTranscript live chunk) = true.
Proof.
  intros Hend. rewrite dedupe_unfold.
  destruct (dedupSkipped live chunk); [right; assumption|].
  destruct (_ =? 0); [right; assumption|]. cbv zeta.
  destruct (_ =? 0); [left; reflexivity|].
  right. rewrite Hend. apply endsWithSpace_app_SP.
Qed.

(** [normalizeLiveChunkOutput] returns the empty string or a text that
    ends with a whitespace character. *)
Lemma normalizeLiveChunkOutput_trailing_space text :
  normalizeLiveChunkOutput text = []
  \/ endsWithSpace (normalizeLiveChunkOutput text) = true.
Proof.
  unfold normalizeLiveChunkOutput.
  destruct (truthy _); cbn [negb]; [|left; reflexivity].
  destruct (endsWithSpace _) eqn:E; right; [exact E | apply endsWithSpace_app_SP].
Qed.

(** C1 as stated is refuted: with [no ] on screen, deduping the chunk
    [no no way ] gives [no way ], and deduping that again gives [way ]. *)
Lemma dedupe_twice_differs_from_once :
  dedupeChunkAgainstLiveTranscript (str "no ") (str "no no way ")
  = str "no way "
  /\ dedupeChunkAgainstLiveTranscript (str "no ")
       (dedupeChunkAgainstLiveTranscript (str "no ") (str "no no way "))
     = str "way "
  /\ Js.eqb (str "way ") (str "no way ") = false.
Proof. repeat split; vm_compute; reflexivity. Qed.

(** C1, amended. Applying the deduper to its own result (against the same
    live transcript) returns that result unchanged exactly when the result
    has no further overlap with the live transcript: either a guard makes
    the deduper skip it (the result or the live transcript is blank, or
    one of them contains a newline) or the deduper finds none of its
    leading words repeated.  In particular a chunk that the first
    application returns unchanged, or drops entirely, is a fixed point. *)
Theorem dedupe_idempotent_iff_no_residual_overlap (live chunk : jsstring) :
  let once := dedupeChunkAgainstLiveTranscript live chunk in
  (dedupeChunkAgainstLiveTranscript live once = once
   <-> dedupSkipped live once = true \/ residualOverlap live once = 0)
  /\ (once = chunk \/ once = [] ->
      dedupeChunkAgainstLiveTranscript live once = once).
Proof.
  cbv zeta. set (once := dedupeChunkAgainstLiveTranscript live chunk).
  assert (Hiff : dedupeChunkAgainstLiveTranscript live once = once
                 <-> dedupSkipped live once = true \/ residualOverlap live once = 0).
  { split.
    - intros Hfix.
      destruct (dedupSkipped live once) eqn:Hskip; [left; reflexivity|].
      right. destruct (Z.eq_dec (residualOverlap live once) 0) as [E|E]; [exact E|].
      pose proof (dedupe_shortens live once Hskip E) as Hlt.
      rewrite Hfix in Hlt. lia.
    - intros [Hskip|Hov]; rewrite dedupe_unfold.
      + rewrite Hskip. reflexivity.
      + rewrite Hov. destruct (dedupSkipped live once); reflexivity. }
  split; [exact Hiff|].
  intros [E|E].
  - rewrite E. exact E.
  - rewrite E. reflexivity.
Qed.

End DedupFacts.

Module InjectFacts.

Import DingoFlowApp AudioQueue LiveText SliceSpec StringFacts DedupFacts SliceFacts.

Lemma effects_deliverWhileLoopActive arrivals a :
  effects (deliverWhileLoopActive arrivals a) = effects a.
Proof.
  pose proof (deliverWhileLoopActive_frame arrivals a AudioQueue.empty) as H.
  apply (f_equal effects) in H. exact H.
Qed.

Lemma liveInjectedText_deliverWhileLoopActive arrivals a :
  liveInjectedText (deliverWhileLoopActive arrivals a) = liveInjectedText a.
Proof.
  pose proof (deliverWhileLoopActive_frame arrivals a AudioQueue.empty) as H.
  apply (f_equal liveInjectedText) in H. exact H.
Qed.

Lemma effects_updateAdaptiveWindow options audioMs asrElapsedMs pendingMs a :
  effects (updateAdaptiveWindow options audioMs asrElapsedMs pendingMs a)
  = effects a.
Proof.
  pose proof (updateAdaptiveWindow_frame options audioMs asrElapsedMs pendingMs
                a 0 0%float 0%float) as H.
  apply (f_equal effects) in H. exact H.
Qed.

Lemma injectedTexts_app es1 es2 :
  injectedTexts (es1 ++ es2) = injectedTexts es1 ++ injectedTexts es2.
Proof.
  induction es1 as [|e es1 IH]; [reflexivity|].
  destruct e; cbn; rewrite IH; reflexivity.
Qed.

Lemma injectedTexts_asrCall deps audioSlice :
  injectedTexts [asrCall deps audioSlice] = [].
Proof. unfold asrCall. destruct (hasPushStream deps); reflexivity. Qed.

(** A live chunk that survives normalisation and dedup is word separated. *)
Lemma stitched_chunk_wordSeparated live text :
  truthy (normalizeLiveChunkOutput text) = true ->
  truthy (dedupeChunkAgainstLiveTranscript live (normalizeLiveChunkOutput text))
  = true ->
  wordSeparated
    (dedupeChunkAgainstLiveTranscript live (normalizeLiveChunkOutput text)).
Proof.
  intros Hn Hd. apply truthy_true in Hn, Hd. split; [exact Hd|].
  destruct (normalizeLiveChunkOutput_trailing_space text) as [E|E]; [congruence|].
  destruct (dedupe_keeps_trailing_space live _ E) as [E'|E']; [congruence | exact E'].
Qed.

Lemma normalized_chunk_wordSeparated text :
  truthy (normalizeLiveChunkOutput text) = true ->
  wordSeparated (normalizeLiveChunkOutput text).
Proof.
  intros Hn. apply truthy_true in Hn. split; [exact Hn|].
  destruct (normalizeLiveChunkOutput_trailing_space text); [congruence | assumption].
Qed.

(** The effects of one [processAudioSlice]: nothing, the ASR call, or the
    ASR call followed by the injection of a word-separated chunk. *)
Lemma processAudioSlice_effects log10 options deps env audioSlice requestId a :
  exists new,
    effects (fst (processAudioSlice log10 options deps env audioSlice requestId a))
    = effects a ++ new
    /\ Forall wordSeparated (injectedTexts new).
Proof.
  unfold processAudioSlice. fold (asrCall deps audioSlice).
  match goal with
  | |- context [match ?g with Some _ => _ | None => (a, Returned) end] =>
      destruct g as [a0|] eqn:Hg
  end.
  2: { exists []. cbn. rewrite app_nil_r. split; [reflexivity | constructor]. }
  assert (Ha0 : effects a0 = effects a).
  { destruct (Num.ge _ _); [|destruct (_ <? _)]; inversion Hg; reflexivity. }
  set (a1 := deliverWhileLoopActive (asrArrivals env)
               (perform (asrCall deps audioSlice) a0)).
  set (a2 := updateAdaptiveWindow options _ _ _ a1).
  assert (Ha2 : effects a2 = effects a ++ [asrCall deps audioSlice]).
  { unfold a2, a1. rewrite effects_updateAdaptiveWindow,
      effects_deliverWhileLoopActive. cbn. rewrite Ha0. reflexivity. }
  assert (Hnone : exists new,
             effects a2 = effects a ++ new
             /\ Forall wordSeparated (injectedTexts new)).
  { exists [asrCall deps audioSlice]. split; [exact Ha2|].
    rewrite injectedTexts_asrCall. constructor. }
  destruct (asrOutcome env) as [result|]; [|exact Hnone].
  destruct (truthy (trim (asrText result))); cbn [negb]; [|exact Hnone].
  destruct (truthy (commandText options (trim (asrText result))));
    cbn [negb]; [|exact Hnone].
  destruct (truthy (normalizeLiveChunkOutput
                      (commandText options (trim (asrText result))))) eqn:Hn;
    cbn [negb]; [|exact Hnone].
  destruct (truthy (dedupeChunkAgainstLiveTranscript (liveInjectedText a2)
                      (normalizeLiveChunkOutput
                         (commandText options (trim (asrText result)))))) eqn:Hd;
    cbn [negb]; [|exact Hnone].
  set (d := dedupeChunkAgainstLiveTranscript (liveInjectedText a2) _) in *.
  exists [asrCall deps audioSlice; CallInject d]. split.
  - destruct (injectOutcome env); cbn [fst effects set_latencyTracker];
      rewrite effects_deliverWhileLoopActive; cbn; rewrite Ha2, <- app_assoc;
      reflexivity.
  - change [asrCall deps audioSlice; CallInject d]
      with ([asrCall deps audioSlice] ++ [CallInject d]).
    rewrite injectedTexts_app, injectedTexts_asrCall. cbn.
    constructor; [|constructor].
    apply stitched_chunk_wordSeparated; assumption.
Qed.

(** The effects of [processStreamFlush]: nothing, the flush call, or the
    flush call followed by the injection of a word-separated tail. *)
Lemma processStreamFlush_effects options deps env a :
  exists new,
    effects (fst (processStreamFlush options deps env a)) = effects a ++ new
    /\ Forall wordSeparated (injectedTexts new).
Proof.
  assert (Hnil : exists new, effects a = effects a ++ new
                              /\ Forall wordSeparated (injectedTexts new)).
  { exists []. rewrite app_nil_r. split; [reflexivity | constructor]. }
  assert (Hcall : exists new,
             effects (perform CallAsrFlushStream a) = effects a ++ new
             /\ Forall wordSeparated (injectedTexts new)).
  { exists [CallAsrFlushStream]. split; [reflexivity | constructor]. }
  unfold processStreamFlush.
  destruct (asrBackend options); try exact Hnil.
  all: destruct (hasFlushStream deps); cbn [negb]; [|exact Hnil].
  all: destruct (flushOutcome env) as [tailResult|]; [|exact Hcall].
  all: destruct (truthy (trim (asrText tailResult))); cbn [negb]; [|exact Hcall].
  all: destruct (truthy (commandText options (trim (asrText tailResult))));
    cbn [negb]; [|exact Hcall].
  all: destruct (truthy (normalizeLiveChunkOutput
                           (commandText options (trim (asrText tailResult)))))
         eqn:Hn; cbn [negb]; [|exact Hcall].
  all: eexists [CallAsrFlushStream; CallInject _]; split;
    [ cbn; rewrite <- app_assoc; reflexivity
    | cbn; constructor; [|constructor];
      apply normalized_chunk_wordSeparated; assumption ].
Qed.

(** C10. Every text passed to [injector.inject] during live streaming, by
    [processAudioSlice] for a slice and by [processStreamFlush] for the
    flush tail, is non-empty and ends with a whitespace character:
    [normalizeLiveChunkOutput] returns the empty string or a text ending
    in whitespace (it appends a space unless the text already ends in
    whitespace), and the deduper, given a chunk that ends in whitespace,
    returns the empty string or a text ending in whitespace. *)
Theorem live_injected_chunks_end_with_whitespace
  (log10 : float -> float) (options : DingoFlowLatencyOptions) (deps : Deps) :
  (forall env audioSlice requestId a, exists new,
      effects (fst (processAudioSlice log10 options deps env audioSlice
                      requestId a))
      = effects a ++ new
      /\ Forall wordSeparated (injectedTexts new))
  /\ (forall env a, exists new,
        effects (fst (processStreamFlush options deps env a)) = effects a ++ new
        /\ Forall wordSeparated (injectedTexts new))
  /\ (forall text,
        normalizeLiveChunkOutput text = []
        \/ endsWithSpace (normalizeLiveChunkOutput text) = true)
  /\ (forall live chunk,
        endsWithSpace chunk = true ->
        dedupeChunkAgainstLiveTranscript live chunk = []
        \/ endsWithSpace (dedupeChunkAgainstLiveTranscript live chunk) = true).
Proof.
  split; [|split; [|split]].
  - intros. apply processAudioSlice_effects.
  - intros. apply processStreamFlush_effects.
  - apply normalizeLiveChunkOutput_trailing_space.
  - apply dedupe_keeps_trailing_space.
Qed.

(** C2, the code at a failing input.  With [hello world ] on screen and a
    flush tail [world], [processStreamFlush] appends [world ] to the raw
    parts and injects it, whereas the path of a streaming result (trim,
    rewrite, normalise, dedup against the live transcript) reduces the
    same text to the empty string, and [processAudioSlice] given the same
    ASR text injects nothing. *)
Theorem flush_tail_bypasses_dedup :
  let a := Examples.helloWorldInjected in
  let tail := {| asrText := str "world" |} in
  let flushed :=
    fst (processStreamFlush Examples.whisperOptions Examples.fullDeps
           {| flushOutcome := Some tail; flushInjectOutcome := Returned |} a) in
  let sliced :=
    fst (processAudioSlice Examples.log10Approx Examples.whisperOptions
           Examples.fullDeps (Examples.quietEnv 1000 (Some tail))
           {| sliceData := Examples.halfScale 1600; oldestEnqueuedAtMs := 990 |}
           1 a) in
  effects flushed = [CallAsrFlushStream; CallInject (str "world ")]
  /\ rawTranscriptParts flushed = [str "hello world "; str "world "]
  /\ liveInjectedText flushed = str "hello world world "
  /\ streamingPath Examples.whisperOptions (liveInjectedText a) (str "world") = []
  /\ injectedTexts (effects sliced) = []
  /\ rawTranscriptParts sliced = [str "hello world "].
Proof. cbv zeta. repeat split; vm_compute; reflexivity. Qed.

End InjectFacts.

Module InvariantFacts.

Import DingoFlowApp AudioQueue QueueSpec QueueFacts WindowSpec WindowFacts.
Import SliceSpec SliceFacts InjectFacts SessionSpec.

Section Invariant.

Variable log10 : float -> float.
Variable options : DingoFlowLatencyOptions.
Variable deps : Deps.
Variable world : Z -> SliceEnv.

(** What [validateConfig] demands of the window settings. *)
Hypothesis normal_low : minAsrWindowMs options <= normalAsrWindowMs options.
Hypothesis normal_high : normalAsrWindowMs options <= maxAsrWindowMs options.

Lemma window_order : minAsrWindowMs options <= maxAsrWindowMs options.
Proof. lia. Qed.

(** The part of the invariant on the queue and the window. *)
Definition Sound (a : App) : Prop :=
  QueueInv (audio a) /\ windowInBounds options a.

Lemma Sound_onChunkWhileLoopActive arrival a :
  Sound a -> Sound (onChunkWhileLoopActive arrival a).
Proof.
  intros [Hq Hw]. unfold onChunkWhileLoopActive. destruct arrival as [now chunk].
  destruct (negb (acceptingAudio a) || (len chunk =? 0)); [split; assumption|].
  split; [|exact Hw]. apply pushAudioChunk_inv. exact Hq.
Qed.

Lemma Sound_deliverWhileLoopActive arrivals : forall a,
  Sound a -> Sound (deliverWhileLoopActive arrivals a).
Proof.
  unfold deliverWhileLoopActive.
  induction arrivals as [|arrival rest IH]; intros a H; [exact H|].
  cbn [fold_left]. apply IH. apply Sound_onChunkWhileLoopActive. exact H.
Qed.

Lemma Sound_updateAdaptiveWindow audioMs asrElapsedMs pendingMs a :
  Sound a -> Sound (updateAdaptiveWindow options audioMs asrElapsedMs pendingMs a).
Proof.
  intros [Hq Hw]. split.
  - pose proof (updateAdaptiveWindow_frame options audioMs asrElapsedMs
                  pendingMs a 0 0%float 0%float) as H.
    apply (f_equal audio) in H. cbn in H. rewrite H. exact Hq.
  - apply updateAdaptiveWindow_in_bounds; [exact window_order | exact Hw].
Qed.

Lemma Sound_takeNextAudioSlice now forceFlush a :
  Sound a -> Sound (snd (takeNextAudioSlice options now forceFlush a)).
Proof.
  intros [Hq Hw]. unfold takeNextAudioSlice.
  destruct (_ =? 0); [split; assumption|].
  destruct (negb forceFlush && _); [split; assumption|].
  match goal with
  | |- context [if ?taken <=? 0 then _ else _] => set (takeBytes := taken)
  end.
  destruct (takeBytes <=? 0); [split; assumption|].
  pose proof (readPendingAudioSlice_inv now takeBytes (audio a) Hq) as [Hq' _].
  destruct (readPendingAudioSlice now takeBytes (audio a)) as [r q].
  split; [exact Hq' | exact Hw].
Qed.

Lemma Sound_processAudioSlice env audioSlice requestId a :
  Sound a ->
  Sound (fst (processAudioSlice log10 options deps env audioSlice requestId a)).
Proof.
  intros H. unfold processAudioSlice.
  match goal with
  | |- context [match ?g with Some _ => _ | None => (a, Returned) end] =>
      destruct g as [a0|] eqn:Hg; [|exact H]
  end.
  assert (H0 : Sound a0).
  { destruct (Num.ge _ _); [|destruct (_ <? _)]; inversion Hg; subst; exact H. }
  match goal with
  | |- context [updateAdaptiveWindow options ?x ?y ?z ?b] =>
      assert (H2 : Sound (updateAdaptiveWindow options x y z b))
        by (apply Sound_updateAdaptiveWindow, Sound_deliverWhileLoopActive;
            exact H0);
      set (a2 := updateAdaptiveWindow options x y z b) in *
  end.
  destruct (asrOutcome env) as [result|]; [|exact H2].
  repeat match goal with
  | |- context [if negb (truthy ?t) then _ else _] =>
      destruct (truthy t); cbn [negb]; [|exact H2]
  end.
  match goal with
  | |- context [deliverWhileLoopActive (injectArrivals env) ?b] =>
      assert (H3 : Sound (deliverWhileLoopActive (injectArrivals env) b))
        by (apply Sound_deliverWhileLoopActive; exact H2)
  end.
  destruct (injectOutcome env); exact H3.
Qed.

(** The texts injected so far are word separated. *)
Definition Spaced (a : App) : Prop :=
  Forall wordSeparated (injectedTexts (effects a)).

Lemma Spaced_extend a a' new :
  effects a' = effects a ++ new ->
  Forall wordSeparated (injectedTexts new) ->
  Spaced a -> Spaced a'.
Proof.
  intros He Hn Ha. unfold Spaced. rewrite He, injectedTexts_app.
  apply Forall_app. split; assumption.
Qed.

Lemma Spaced_perform e a : notInject e -> Spaced a -> Spaced (perform e a).
Proof.
  intros He Ha. apply (Spaced_extend a _ [e]); [reflexivity | | exact Ha].
  destruct e; cbn in *; try contradiction; constructor.
Qed.

Lemma Spaced_setState next a : Spaced a -> Spaced (setState next a).
Proof. intros H. unfold setState. apply Spaced_perform; [exact I | exact H]. Qed.

Lemma Spaced_processAudioSlice env audioSlice requestId a :
  Spaced a ->
  Spaced (fst (processAudioSlice log10 options deps env audioSlice requestId a)).
Proof.
  intros H.
  destruct (processAudioSlice_effects log10 options deps env audioSlice
              requestId a) as (new & He & Hn).
  exact (Spaced_extend _ _ _ He Hn H).
Qed.

Lemma Spaced_processStreamFlush env a :
  Spaced a -> Spaced (fst (processStreamFlush options deps env a)).
Proof.
  intros H.
  destruct (processStreamFlush_effects options deps env a) as (new & He & Hn).
  exact (Spaced_extend _ _ _ He Hn H).
Qed.

Lemma SessionInv_split a : SessionInv options a <-> Sound a /\ Spaced a.
Proof.
  split.
  - intros [Hq Hw Hs]. split; [split|]; assumption.
  - intros [[Hq Hw] Hs]. split; assumption.
Qed.

Lemma SessionInv_takeNextAudioSlice now forceFlush a :
  SessionInv options a ->
  SessionInv options (snd (takeNextAudioSlice options now forceFlush a)).
Proof.
  intros H. apply SessionInv_split in H. destruct H as [Hs Hp].
  apply SessionInv_split. split; [apply Sound_takeNextAudioSlice; exact Hs|].
  unfold takeNextAudioSlice.
  repeat match goal with
  | |- context [if ?c then (None, a) else _] => destruct c; [exact Hp|]
  end.
  destruct (readPendingAudioSlice _ _ _); exact Hp.
Qed.

Lemma SessionInv_processAudioSlice env audioSlice requestId a :
  SessionInv options a ->
  SessionInv options
    (fst (processAudioSlice log10 options deps env audioSlice requestId a)).
Proof.
  intros H. apply SessionInv_split in H. destruct H as [Hs Hp].
  apply SessionInv_split. split;
    [apply Sound_processAudioSlice | apply Spaced_processAudioSlice]; assumption.
Qed.

(** Changes of fields outside the invariant. *)
Lemma SessionInv_same a a' :
  audio a' = audio a ->
  dynamicNormalAsrWindowMs a' = dynamicNormalAsrWindowMs a ->
  effects a' = effects a ->
  SessionInv options a -> SessionInv options a'.
Proof.
  intros Ha Hw He [Hq Hwin Hs]. split.
  - rewrite Ha. exact Hq.
  - unfold windowInBounds. rewrite Hw. exact Hwin.
  - rewrite He. exact Hs.
Qed.

Lemma SessionInv_perform e a :
  notInject e -> SessionInv options a -> SessionInv options (perform e a).
Proof.
  intros He H. apply SessionInv_split in H. destruct H as [Hs Hp].
  apply SessionInv_split. split; [exact Hs | apply Spaced_perform; assumption].
Qed.

Lemma SessionInv_setState next a :
  SessionInv options a -> SessionInv options (setState next a).
Proof.
  intros H. unfold setState.
  apply SessionInv_perform; [exact I|].
  apply (SessionInv_same a); try reflexivity. exact H.
Qed.

Lemma SessionInv_runAsrLoop fuel : forall iterated a a' out iterated',
  SessionInv options a ->
  runAsrLoop log10 options deps world fuel iterated a = Some (a', out, iterated') ->
  SessionInv options a'.
Proof.
  induction fuel as [|fuel IH]; intros iterated a a' out iterated' Hinv Hrun;
    [discriminate|].
  cbn [runAsrLoop] in Hrun.
  assert (Hfinally : forall b o it,
    SessionInv options b ->
    (let b := set_asrLoopPromise false (set_asrLoopActive false b) in
     if shouldContinueLoop options b then
       match runAsrLoop log10 options deps world fuel false
               (set_asrLoopActive true b) with
       | None => None
       | Some (b', _, again) =>
           Some (if again then b' else set_asrLoopPromise true b', o, it)
       end
     else Some (b, o, it)) = Some (a', out, iterated') ->
    SessionInv options a').
  { intros b o it Hb Hf. cbv zeta in Hf.
    destruct (shouldContinueLoop options _).
    - destruct (runAsrLoop log10 options deps world fuel false _)
        as [[[b' o'] again]|] eqn:Hnested; [|discriminate].
      assert (Hb' : SessionInv options b').
      { eapply IH; [|exact Hnested].
        apply (SessionInv_same b); try reflexivity. exact Hb. }
      inversion Hf; subst. destruct again; [exact Hb'|].
      apply (SessionInv_same b'); try reflexivity. exact Hb'.
    - inversion Hf; subst.
      apply (SessionInv_same b); try reflexivity. exact Hb. }
  pose proof (SessionInv_takeNextAudioSlice
                (tTake (world (asrRequestCount a + 1)))
                (negb (recordingActive a)) a Hinv) as Htake.
  destruct (takeNextAudioSlice options _ _ a) as [[next|] a1]; cbn [snd] in Htake.
  - pose proof (SessionInv_processAudioSlice
                  (world (asrRequestCount a + 1)) next
                  (asrRequestCount a1 + 1)
                  (set_asrRequestCount (asrRequestCount a1 + 1) a1)) as Hslice.
    destruct (processAudioSlice log10 options deps _ next _ _) as [a2 [|d]];
      cbn [fst] in Hslice.
    + eapply IH; [|exact Hrun]. apply Hslice.
      apply (SessionInv_same a1); try reflexivity. exact Htake.
    + eapply Hfinally; [|exact Hrun]. apply Hslice.
      apply (SessionInv_same a1); try reflexivity. exact Htake.
  - eapply Hfinally; [|exact Hrun]. exact Htake.
Qed.

Lemma SessionInv_ensureAsrLoop fuel a a' out iterated :
  SessionInv options a ->
  ensureAsrLoop log10 options deps world fuel a = Some (a', out, iterated) ->
  SessionInv options a'.
Proof.
  intros Hinv Hrun. unfold ensureAsrLoop in Hrun.
  destruct (asrLoopActive a); [inversion Hrun; subst; exact Hinv|].
  destruct (runAsrLoop log10 options deps world fuel false _)
    as [[[b o] it]|] eqn:Hloop; [|discriminate].
  assert (Hb : SessionInv options b).
  { eapply SessionInv_runAsrLoop; [|exact Hloop].
    apply (SessionInv_same a); try reflexivity. exact Hinv. }
  inversion Hrun; subst. destruct iterated; [exact Hb|].
  apply (SessionInv_same b); try reflexivity. exact Hb.
Qed.

Lemma SessionInv_onChunk fuel now chunk a a' out :
  SessionInv options a ->
  onChunk log10 options deps world fuel now chunk a = Some (a', out) ->
  SessionInv options a'.
Proof.
  intros Hinv Hrun. unfold onChunk, enqueueAudioChunk in Hrun.
  destruct (negb (acceptingAudio a) || (len chunk =? 0));
    [inversion Hrun; subst; exact Hinv|].
  destruct (ensureAsrLoop log10 options deps world fuel _)
    as [[[b o] it]|] eqn:Hensure; [|discriminate].
  inversion Hrun; subst.
  eapply SessionInv_ensureAsrLoop; [|exact Hensure].
  destruct Hinv as [Hq Hw Hs]. split; [|exact Hw | exact Hs].
  apply pushAudioChunk_inv. exact Hq.
Qed.

Lemma SessionInv_deliver fuel arrivals : forall a a' out,
  SessionInv options a ->
  deliver log10 options deps world fuel arrivals a = Some (a', out) ->
  SessionInv options a'.
Proof.
  induction arrivals as [|[now chunk] rest IH]; intros a a' out Hinv Hrun.
  - inversion Hrun; subst. exact Hinv.
  - cbn [deliver] in Hrun.
    destruct (onChunk log10 options deps world fuel now chunk a)
      as [[b [|d]]|] eqn:Hchunk; [| |discriminate].
    + eapply IH; [|exact Hrun]. eapply SessionInv_onChunk; eassumption.
    + inversion Hrun; subst. eapply SessionInv_onChunk; eassumption.
Qed.

Lemma SessionInv_awaitLoops fuel loopFuel : forall inflight a a' out,
  SessionInv options a ->
  awaitLoops log10 options deps world fuel loopFuel inflight a = Some (a', out) ->
  SessionInv options a'.
Proof.
  induction fuel as [|fuel IH]; intros inflight a a' out Hinv Hrun;
    [discriminate|].
  cbn [awaitLoops] in Hrun.
  assert (Hgo : (if 0 <? pendingAudioBytes (audio a)
                 then match ensureAsrLoop log10 options deps world loopFuel a with
                      | None => None
                      | Some (b, o, it) =>
                          awaitLoops log10 options deps world fuel loopFuel
                            (if it then Some o else None) b
                      end
                 else awaitLoops log10 options deps world fuel loopFuel None a)
                = Some (a', out) -> SessionInv options a').
  { intros Hgo. destruct (0 <? pendingAudioBytes (audio a)).
    - destruct (ensureAsrLoop log10 options deps world loopFuel a)
        as [[[b o] it]|] eqn:Hensure; [|discriminate].
      eapply IH; [|exact Hgo]. eapply SessionInv_ensureAsrLoop; eassumption.
    - eapply IH; eassumption. }
  destruct inflight as [[|d]|]; [apply Hgo; exact Hrun | |].
  - inversion Hrun; subst. exact Hinv.
  - destruct (asrLoopPromise a); [apply Hgo; exact Hrun|].
    inversion Hrun; subst. exact Hinv.
Qed.

Lemma SessionInv_waitForAsrDrain fuel a a' out :
  SessionInv options a ->
  waitForAsrDrain log10 options deps world fuel a = Some (a', out) ->
  SessionInv options a'.
Proof.
  intros Hinv Hrun. unfold waitForAsrDrain in Hrun.
  destruct (0 <? pendingAudioBytes (audio a)).
  - destruct (ensureAsrLoop log10 options deps world fuel a)
      as [[[b o] it]|] eqn:Hensure; [|discriminate].
    eapply SessionInv_awaitLoops; [|exact Hrun].
    eapply SessionInv_ensureAsrLoop; eassumption.
  - eapply SessionInv_awaitLoops; eassumption.
Qed.

Lemma SessionInv_set_audio q a :
  QueueInv q -> SessionInv options a -> SessionInv options (set_audio q a).
Proof. intros Hq [_ Hw Hs]. split; assumption. Qed.

Lemma SessionInv_set_dynamicNormalAsrWindowMs w a :
  minAsrWindowMs options <= w <= maxAsrWindowMs options ->
  SessionInv options a ->
  SessionInv options (set_dynamicNormalAsrWindowMs w a).
Proof. intros Hw [Hq _ Hs]. split; assumption. Qed.

(** Walks down a chain of field updates and effects, none of which is a
    call of [inject]. *)
Ltac inv_chain :=
  cbv zeta; cbn [fst];
  repeat match goal with
  | H : SessionInv _ ?x |- SessionInv _ ?x => exact H
  | |- SessionInv _ (setState _ _) => apply SessionInv_setState
  | |- SessionInv _ (perform _ _) => apply SessionInv_perform; [exact I|]
  | |- SessionInv _ (set_audio _ _) =>
      apply SessionInv_set_audio;
      [first [exact empty_inv | split; [constructor | reflexivity]]|]
  | |- SessionInv _ (set_dynamicNormalAsrWindowMs _ _) =>
      apply SessionInv_set_dynamicNormalAsrWindowMs; [lia|]
  | |- SessionInv ?o (?set ?v ?x) =>
      let Hset := fresh "Hset" in
      assert (Hset : forall y, SessionInv o y -> SessionInv o (set v y))
        by (intros y Hy; apply (SessionInv_same y);
            [reflexivity | reflexivity | reflexivity | exact Hy]);
      apply Hset; clear Hset
  end.

Lemma SessionInv_new : SessionInv options (new options).
Proof.
  split; [apply empty_inv | | constructor].
  unfold windowInBounds. cbn. lia.
Qed.

Lemma SessionInv_startRecording env a :
  SessionInv options a ->
  SessionInv options (fst (startRecording options deps env a)).
Proof.
  intros H. unfold startRecording.
  destruct (recorderStartOutcome env); cbn [fst].
  - destruct (hasStartStream deps); [destruct (asrStartStreamOutcome env)|];
      cbn [fst]; inv_chain.
  - inv_chain.
Qed.

Lemma SessionInv_handlePushToTalkPressed env a :
  SessionInv options a ->
  SessionInv options (handlePushToTalkPressed options deps env a).
Proof.
  intros H. unfold handlePushToTalkPressed.
  pose proof (SessionInv_startRecording env a H) as Hstart.
  destruct (startRecording options deps env a) as [b [|d]]; cbn [fst] in Hstart.
  - destruct (stage (state a)); assumption.
  - destruct (stage (state a)); inv_chain.
Qed.

Lemma SessionInv_processStreamFlush env a :
  SessionInv options a ->
  SessionInv options (fst (processStreamFlush options deps env a)).
Proof.
  intros H. apply SessionInv_split in H. destruct H as [Hs Hp].
  apply SessionInv_split. split; [|apply Spaced_processStreamFlush; exact Hp].
  unfold processStreamFlush.
  destruct (asrBackend options); try exact Hs.
  all: destruct (hasFlushStream deps); cbn [negb]; [|exact Hs].
  all: destruct (flushOutcome env) as [tailResult|]; [|exact Hs].
  all: repeat match goal with
       | |- context [if negb (truthy ?t) then _ else _] =>
           destruct (truthy t); cbn [negb]; [|exact Hs]
       end.
  all: exact Hs.
Qed.

Lemma SessionInv_finishDictation env a :
  SessionInv options a ->
  SessionInv options (fst (finishDictation options deps env a)).
Proof.
  intros H. unfold finishDictation.
  match goal with
  | |- SessionInv _ (fst (match ?p with _ => _ end)) =>
      assert (Hpass : SessionInv options (fst (fst p)));
      [|destruct p as [[b t] [|d]]; cbn [fst] in Hpass |- *]
  end.
  - destruct (asrBackend options); cbn [fst]; try exact H.
    destruct (parakeetFinalPass options && _); cbn [fst]; [|exact H].
    destruct (finalPassOutcome env) as [finalPass|]; cbn [fst]; [|inv_chain].
    destruct (truthy (trim (asrText finalPass))); cbn [fst]; [|inv_chain].
    destruct (negb _ && hasReplaceRecentText deps); cbn [fst]; [|inv_chain].
    destruct (finalReplaceOutcome env); cbn [fst]; inv_chain.
  - destruct (negb (truthy t)); cbn [fst]; [inv_chain|].
    destruct (negb _ && hasReplaceRecentText deps); cbn [fst].
    + destruct (formattedReplaceOutcome env); cbn [fst]; inv_chain.
    + inv_chain.
  - exact Hpass.
Qed.

Lemma SessionInv_stopAndProcessTry fuel env a a' out :
  SessionInv options a ->
  stopAndProcessTry log10 options deps world fuel env a = Some (a', out) ->
  SessionInv options a'.
Proof.
  intros H Hrun. unfold stopAndProcessTry in Hrun. cbv zeta in Hrun.
  destruct (deliver log10 options deps world fuel (recorderStopArrivals env) _)
    as [[a1 [|d1]]|] eqn:Hdeliver; [| |discriminate].
  2: { inversion Hrun; subst.
       eapply SessionInv_deliver; [|exact Hdeliver]. inv_chain. }
  assert (H1 : SessionInv options a1).
  { eapply SessionInv_deliver; [|exact Hdeliver]. inv_chain. }
  destruct (recorderStopOutcome env); [|inversion Hrun; subst; exact H1].
  destruct (waitForAsrDrain log10 options deps world fuel _)
    as [[a2 [|d2]]|] eqn:Hdrain; [| |discriminate].
  2: { inversion Hrun; subst.
       eapply SessionInv_waitForAsrDrain; [|exact Hdrain]. inv_chain. }
  assert (H2 : SessionInv options a2).
  { eapply SessionInv_waitForAsrDrain; [|exact Hdrain]. inv_chain. }
  pose proof (SessionInv_processStreamFlush (flushEnv env) a2 H2) as Hflush.
  destruct (processStreamFlush options deps (flushEnv env) a2) as [a3 [|d3]];
    cbn [fst] in Hflush.
  - pose proof (SessionInv_finishDictation env a3 Hflush) as Hfinish.
    destruct (finishDictation options deps env a3) as [a4 o4].
    inversion Hrun; subst. exact Hfinish.
  - inversion Hrun; subst. exact Hflush.
Qed.

Lemma SessionInv_stopAndProcess fuel env a a' :
  SessionInv options a ->
  stopAndProcess log10 options deps world fuel env a = Some a' ->
  SessionInv options a'.
Proof.
  intros H Hrun. unfold stopAndProcess in Hrun.
  destruct (stopAndProcessTry log10 options deps world fuel env a)
    as [[b out]|] eqn:Htry; [|discriminate].
  pose proof (SessionInv_stopAndProcessTry fuel env a b out H Htry) as Hb.
  inversion Hrun; subst.
  destruct out, (hasStopStream deps); inv_chain.
Qed.

Lemma SessionInv_handlePushToTalkReleased fuel env a a' :
  SessionInv options a ->
  handlePushToTalkReleased log10 options deps world fuel env a = Some a' ->
  SessionInv options a'.
Proof.
  intros H Hrun. unfold handlePushToTalkReleased in Hrun.
  destruct (stage (state a)); try (inversion Hrun; subst; exact H).
  destruct (stopInProgress a); [inversion Hrun; subst; exact H|].
  destruct (stopAndProcess log10 options deps world fuel env _)
    as [b|] eqn:Hstop; [|discriminate].
  inversion Hrun; subst.
  assert (Hb : SessionInv options b).
  { eapply SessionInv_stopAndProcess; [|exact Hstop]. inv_chain. }
  inv_chain.
Qed.

Lemma SessionInv_sessionStep fuel ev a a' out :
  SessionInv options a ->
  sessionStep log10 options deps world fuel ev a = Some (a', out) ->
  SessionInv options a'.
Proof.
  intros H Hrun. destruct ev as [env|now chunk|env]; cbn [sessionStep] in Hrun.
  - inversion Hrun; subst. apply SessionInv_handlePushToTalkPressed. exact H.
  - eapply SessionInv_onChunk; eassumption.
  - destruct (handlePushToTalkReleased log10 options deps world fuel env a)
      as [b|] eqn:Hreleased; [|discriminate].
    inversion Hrun; subst.
    eapply SessionInv_handlePushToTalkReleased; eassumption.
Qed.

(** The invariant holds of the orchestrator as constructed and after every
    event of every session: presses, chunk deliveries with the ASR loops
    they start, and releases with their drain, flush and final passes. *)
Theorem session_invariant fuel evs : forall a a' out,
  SessionInv options a ->
  runSession log10 options deps world fuel evs a = Some (a', out) ->
  SessionInv options a'.
Proof.
  induction evs as [|ev rest IH]; intros a a' out H Hrun.
  - inversion Hrun; subst. exact H.
  - cbn [runSession] in Hrun.
    destruct (sessionStep log10 options deps world fuel ev a)
      as [[b [|d]]|] eqn:Hstep; [| |discriminate].
    + eapply IH; [|exact Hrun]. eapply SessionInv_sessionStep; eassumption.
    + inversion Hrun; subst. eapply SessionInv_sessionStep; eassumption.
Qed.

End Invariant.

End InvariantFacts.

Module SessionFacts.

Import DingoFlowApp AudioQueue QueueSpec QueueFacts SliceSpec SessionSpec StringFacts.


Lemma readInt16LE_zero : readInt16LE Byte.x00 Byte.x00 = 0.
Proof. reflexivity. Qed.

Lemma sumSquaresLoop_silent_pair (audio : Buffer) :
  (silent audio -> fst (sumSquaresLoop audio) = 0)
  /\ (forall b, silent (b :: audio) -> fst (sumSquaresLoop (b :: audio)) = 0).
Proof.
  induction audio as [|x audio [IH1 IH2]].
  - split; intros; reflexivity.
  - split.
    + intros H. apply IH2. exact H.
    + intros b H. inversion H as [|? ? Hb H']; subst.
      inversion H' as [|? ? Hx H'']; subst.
      cbn [sumSquaresLoop]. specialize (IH1 H'').
      destruct (sumSquaresLoop audio) as [sum n]. cbn [fst] in *.
      rewrite readInt16LE_zero, IH1. reflexivity.
Qed.

Section Silence.

Variable log10 : float -> float.
Variable options : DingoFlowLatencyOptions.
Variable deps : Deps.
Variable world : Z -> SliceEnv.

(** Silence lies below the gate, and the clock is past the epoch. *)
Hypothesis gate_above_silence :
  Num.ge (-120)%float (silenceGateDbfs options) = false.
Hypothesis clock_positive : forall requestId, 0 < tGate (world requestId).

Lemma estimateDbfs_silent audio :
  silent audio -> estimateDbfs log10 audio = (-120)%float.
Proof.
  intros H. unfold estimateDbfs.
  destruct (len audio <? 2); [reflexivity|].
  pose proof (proj1 (sumSquaresLoop_silent_pair audio) H) as Hs.
  destruct (sumSquaresLoop audio) as [sum n]. cbn [fst] in Hs. subst sum.
  destruct (n =? 0); reflexivity.
Qed.

(** A silent slice outside the hangover is dropped by the gate: no ASR
    call, no change of state. *)
Lemma processAudioSlice_gated audioSlice requestId id a :
  silent (sliceData audioSlice) ->
  speechHangoverUntilMs a = 0 ->
  processAudioSlice log10 options deps (world id) audioSlice requestId a
  = (a, Returned).
Proof.
  intros Hs Hh. unfold processAudioSlice.
  rewrite (estimateDbfs_silent _ Hs), gate_above_silence, Hh.
  destruct (Z.ltb_spec 0 (tGate (world id))); [reflexivity|].
  pose proof (clock_positive id). lia.
Qed.

Lemma unreadTotal_nonneg chunks :
  Forall chunkOk chunks -> 0 <= unreadTotal chunks.
Proof.
  induction 1 as [|c chunks Hc _ IH]; cbn [unreadTotal]; [lia|].
  unfold chunkOk in Hc. lia.
Qed.

Lemma SilentQueue_pending_nonneg q :
  SilentQueue q -> 0 <= pendingAudioBytes q.
Proof.
  intros [[Hc Hp] _]. rewrite Hp. apply unreadTotal_nonneg. exact Hc.
Qed.

Lemma msToBytes_pos ms : 1 <= msToBytes ms.
Proof. unfold msToBytes. lia. Qed.

(** What [takeNextAudioSlice] does on a silent queue. *)
Lemma takeNextAudioSlice_silent now forceFlush a :
  SilentQueue (audio a) ->
  (takeNextAudioSlice options now forceFlush a = (None, a)
   /\ (pendingAudioBytes (audio a) = 0
       \/ (forceFlush = false
           /\ pendingAudioBytes (audio a) < msToBytes (minAsrWindowMs options))))
  \/ (exists s q,
        takeNextAudioSlice options now forceFlush a = (Some s, set_audio q a)
        /\ silent (sliceData s)
        /\ SilentQueue q
        /\ pendingAudioBytes q < pendingAudioBytes (audio a)
        /\ sessionAudioChunks q = sessionAudioChunks (audio a)).
Proof.
  intros Hq. pose proof (SilentQueue_pending_nonneg _ Hq) as Hnn.
  destruct Hq as [Hinv Hzero].
  unfold takeNextAudioSlice.
  destruct (Z.eqb_spec (pendingAudioBytes (audio a)) 0) as [E|E];
    [left; split; [reflexivity | left; exact E]|].
  destruct (negb forceFlush
            && (pendingAudioBytes (audio a) <? msToBytes (minAsrWindowMs options)))
    eqn:Hmin.
  { left. split; [reflexivity|]. right.
    apply andb_true_iff in Hmin. destruct Hmin as [Hf Hlt].
    apply negb_true_iff in Hf. apply Z.ltb_lt in Hlt. split; assumption. }
  match goal with
  | |- context [if ?taken <=? 0 then _ else _] => set (takeBytes := taken)
  end.
  assert (Htake : 0 < takeBytes <= pendingAudioBytes (audio a)).
  { unfold takeBytes. destruct forceFlush; cbn [negb andb] in *; [lia|].
    match goal with |- context [msToBytes ?t] => pose proof (msToBytes_pos t) end.
    lia. }
  clearbody takeBytes.
  destruct (Z.leb_spec takeBytes 0); [lia|].
  right.
  destruct (readPendingAudioSlice_some now takeBytes (audio a) Hinv Htake)
    as (s & Hs & Hlen & _ & Hpend & Hsess).
  destruct (readPendingAudioSlice_inv now takeBytes (audio a) Hinv) as [Hinv' Hcontent].
  destruct (readPendingAudioSlice now takeBytes (audio a)) as [r q].
  cbn [fst snd] in *. subst r. cbn [taken] in Hcontent.
  exists s, q. rewrite <- Hcontent in Hzero. apply Forall_app in Hzero.
  destruct Hzero as [Hz1 Hz2].
  split; [reflexivity|]. split; [exact Hz1|].
  split; [split; assumption|]. split; [lia | exact Hsess].
Qed.

(** One activation of the ASR loop on a silent queue: it ends, its promise
    resolves, and it has only consumed audio. *)
Lemma runAsrLoop_silent fuel : forall a iterated,
  SilentQueue (audio a) ->
  speechHangoverUntilMs a = 0 ->
  (Z.to_nat (pendingAudioBytes (audio a)) < fuel)%nat ->
  exists a' iterated',
    runAsrLoop log10 options deps world fuel iterated a
    = Some (a', Returned, iterated')
    /\ mask a' = mask a
    /\ SilentQueue (audio a')
    /\ sessionAudioChunks (audio a') = sessionAudioChunks (audio a)
    /\ asrLoopActive a' = false
    /\ asrLoopPromise a' = false
    /\ pendingAudioBytes (audio a') <= pendingAudioBytes (audio a)
    /\ (recordingActive a = false -> pendingAudioBytes (audio a') = 0)
    /\ (iterated' = false -> audio a' = audio a /\ iterated = false).
Proof.
  induction fuel as [|fuel IH]; intros a iterated Hq Hh Hfuel; [lia|].
  cbn [runAsrLoop].
  destruct (takeNextAudioSlice_silent
              (tTake (world (asrRequestCount a + 1)))
              (negb (recordingActive a)) a Hq)
    as [[Htake Hwhy] | (s & q & Htake & Hs & Hq' & Hlt & Hsess)];
    rewrite Htake.
  - assert (Hstop : shouldContinueLoop options
                      (set_asrLoopPromise false (set_asrLoopActive false a))
                    = false).
    { unfold shouldContinueLoop. cbn [audio recordingActive set_asrLoopPromise
                                       set_asrLoopActive].
      destruct Hwhy as [E|[Hf Hlt]].
      - rewrite E. reflexivity.
      - destruct (Z.eqb_spec (pendingAudioBytes (audio a)) 0); [reflexivity|].
        rewrite Hf. apply Z.leb_gt. exact Hlt. }
    rewrite Hstop.
    exists (set_asrLoopPromise false (set_asrLoopActive false a)), iterated.
    split_and; try reflexivity.
    + exact Hq.
    + intros Hrec. destruct Hwhy as [E|[Hf _]]; [exact E|].
      rewrite Hrec in Hf. discriminate.
    + intros ->. split; reflexivity.
  - pose proof (SilentQueue_pending_nonneg _ Hq') as Hnn.
    rewrite (processAudioSlice_gated s _ _ _ Hs) by exact Hh.
    destruct (IH (set_asrRequestCount (asrRequestCount (set_audio q a) + 1)
                    (set_audio q a)) true)
      as (a' & it' & Hrun & Hmask & Hq'' & Hsess' & Hact & Hprom & Hle & Hrec & Hit).
    + exact Hq'.
    + exact Hh.
    + cbn [audio set_asrRequestCount set_audio]. lia.
    + rewrite Hrun. exists a', it'. cbn [audio set_asrRequestCount set_audio] in *.
      split_and.
      * reflexivity.
      * exact Hmask.
      * exact Hq''.
      * congruence.
      * exact Hact.
      * exact Hprom.
      * lia.
      * exact Hrec.
      * intros Hx. apply Hit in Hx. destruct Hx as [_ Hx]. discriminate Hx.
Qed.

Lemma mask_hangover a a' :
  mask a' = mask a -> speechHangoverUntilMs a' = speechHangoverUntilMs a.
Proof. intros H. apply (f_equal speechHangoverUntilMs) in H. exact H. Qed.

Lemma mask_recordingActive a a' :
  mask a' = mask a -> recordingActive a' = recordingActive a.
Proof. intros H. apply (f_equal recordingActive) in H. exact H. Qed.

Lemma mask_acceptingAudio a a' :
  mask a' = mask a -> acceptingAudio a' = acceptingAudio a.
Proof. intros H. apply (f_equal acceptingAudio) in H. exact H. Qed.

Lemma mask_effects a a' : mask a' = mask a -> effects a' = effects a.
Proof. intros H. apply (f_equal effects) in H. exact H. Qed.

Lemma mask_state a a' : mask a' = mask a -> state a' = state a.
Proof. intros H. apply (f_equal state) in H. exact H. Qed.

Lemma mask_parts a a' :
  mask a' = mask a -> rawTranscriptParts a' = rawTranscriptParts a.
Proof. intros H. apply (f_equal rawTranscriptParts) in H. exact H. Qed.

Lemma mask_stopInProgress a a' :
  mask a' = mask a -> stopInProgress a' = stopInProgress a.
Proof. intros H. apply (f_equal stopInProgress) in H. exact H. Qed.

Lemma ensureAsrLoop_silent fuel a :
  Calm a ->
  0 < pendingAudioBytes (audio a) ->
  (Z.to_nat (pendingAudioBytes (audio a)) < fuel)%nat ->
  exists a' iterated,
    ensureAsrLoop log10 options deps world fuel a = Some (a', Returned, iterated)
    /\ mask a' = mask a
    /\ Calm a'
    /\ sessionAudioChunks (audio a') = sessionAudioChunks (audio a)
    /\ pendingAudioBytes (audio a') <= pendingAudioBytes (audio a)
    /\ (recordingActive a = false ->
        pendingAudioBytes (audio a') = 0 /\ asrLoopPromise a' = false
        /\ iterated = true).
Proof.
  intros [Hq Hh Hl Hp] Hpos Hfuel. unfold ensureAsrLoop. rewrite Hl.
  destruct (runAsrLoop_silent fuel (set_asrLoopActive true a) false Hq Hh Hfuel)
    as (a' & it & Hrun & Hmask & Hq' & Hsess & Hact & Hprom & Hle & Hrec & Hit).
  rewrite Hrun. cbn [audio set_asrLoopActive recordingActive] in *.
  assert (Hmask' : mask a' = mask a) by exact Hmask.
  destruct it.
  - exists a', true. split_and; try assumption; try reflexivity.
    + split; [assumption | | assumption |].
      * rewrite (mask_hangover _ _ Hmask'). exact Hh.
      * rewrite Hprom. discriminate.
    + intros Hr. split_and; [apply Hrec; exact Hr | exact Hprom | reflexivity].
  - destruct (Hit eq_refl) as [Haudio _].
    exists (set_asrLoopPromise true a'), false.
    cbn [audio set_asrLoopPromise asrLoopPromise].
    split_and; try assumption; try reflexivity.
    + split; cbn [audio set_asrLoopPromise asrLoopPromise asrLoopActive
                  speechHangoverUntilMs]; [assumption | | assumption |].
      * rewrite (mask_hangover _ _ Hmask'). exact Hh.
      * intros _. rewrite Haudio. exact Hpos.
    + intros Hr. specialize (Hrec Hr). rewrite Haudio in Hrec. lia.
Qed.

Lemma silent_app b1 b2 : silent b1 -> silent b2 -> silent (b1 ++ b2).
Proof. intros H1 H2. apply Forall_app. split; assumption. Qed.

Lemma onChunk_silent fuel now chunk a :
  Calm a ->
  silent chunk ->
  (Z.to_nat (pendingAudioBytes (audio a) + len chunk) < fuel)%nat ->
  exists a',
    onChunk log10 options deps world fuel now chunk a = Some (a', Returned)
    /\ mask a' = mask a
    /\ Calm a'
    /\ pendingAudioBytes (audio a') <= pendingAudioBytes (audio a) + len chunk.
Proof.
  intros Hcalm Hs Hfuel. pose proof Hcalm as [Hq Hh Hl Hp].
  pose proof (SilentQueue_pending_nonneg _ Hq) as Hnn.
  pose proof (len_nonneg chunk) as Hlen.
  unfold onChunk, enqueueAudioChunk.
  destruct (negb (acceptingAudio a) || (len chunk =? 0)) eqn:Hskip.
  - exists a. split_and; try reflexivity; [exact Hcalm | lia].
  - apply orb_false_iff in Hskip. destruct Hskip as [_ Hne].
    apply Z.eqb_neq in Hne.
    set (a1 := set_audio (pushAudioChunk now chunk (audio a)) a).
    destruct Hq as [Hinv Hzero].
    destruct (pushAudioChunk_inv now chunk (audio a) Hinv) as [Hinv1 Hcontent].
    assert (Hpend1 : pendingAudioBytes (audio a1)
                     = pendingAudioBytes (audio a) + len chunk) by reflexivity.
    assert (Hcalm1 : Calm a1).
    { split; cbn [audio a1 set_audio speechHangoverUntilMs asrLoopActive
                  asrLoopPromise]; try assumption.
      - split; [exact Hinv1|]. rewrite Hcontent. apply silent_app; assumption.
      - intros _. cbn [pushAudioChunk pendingAudioBytes]. lia. }
    destruct (ensureAsrLoop_silent fuel a1 Hcalm1) as
      (a' & it & Hrun & Hmask & Hcalm' & _ & Hle & _); [lia | lia |].
    rewrite Hrun. rewrite Hpend1 in Hle. exists a'.
    split_and; [reflexivity | exact Hmask | exact Hcalm' | lia].
Qed.

Lemma deliveredBytes_nonneg arrivals : 0 <= deliveredBytes arrivals.
Proof.
  induction arrivals as [|[now chunk] rest IH]; cbn [deliveredBytes]; [lia|].
  pose proof (len_nonneg chunk). lia.
Qed.

Lemma deliver_silent fuel arrivals : forall a,
  Calm a ->
  allSilent arrivals ->
  (Z.to_nat (pendingAudioBytes (audio a) + deliveredBytes arrivals) < fuel)%nat ->
  exists a',
    deliver log10 options deps world fuel arrivals a = Some (a', Returned)
    /\ mask a' = mask a
    /\ Calm a'
    /\ pendingAudioBytes (audio a')
       <= pendingAudioBytes (audio a) + deliveredBytes arrivals.
Proof.
  induction arrivals as [|[now chunk] rest IH]; intros a Hcalm Hs Hfuel.
  - exists a. cbn. split_and; try reflexivity; [exact Hcalm | lia].
  - inversion Hs as [|? ? Hc Hrest]; subst. cbn [snd] in Hc.
    cbn [deliver deliveredBytes] in *.
    pose proof (deliveredBytes_nonneg rest) as Hnn.
    pose proof (len_nonneg chunk) as Hlen.
    pose proof (SilentQueue_pending_nonneg _ (calm_queue _ Hcalm)) as Hp.
    destruct (onChunk_silent fuel now chunk a Hcalm Hc) as
      (a1 & Hrun & Hmask & Hcalm1 & Hle); [lia|].
    rewrite Hrun.
    pose proof (SilentQueue_pending_nonneg _ (calm_queue _ Hcalm1)) as Hp1.
    destruct (IH a1 Hcalm1 Hrest) as (a' & Hrun' & Hmask' & Hcalm' & Hle'); [lia|].
    rewrite Hrun'. exists a'.
    split_and; [reflexivity | congruence | exact Hcalm' | lia].
Qed.

Lemma runSession_chunks fuel arrivals rest : forall a,
  Calm a ->
  allSilent arrivals ->
  (Z.to_nat (pendingAudioBytes (audio a) + deliveredBytes arrivals) < fuel)%nat ->
  exists a',
    runSession log10 options deps world fuel (chunkEvents arrivals ++ rest) a
    = runSession log10 options deps world fuel rest a'
    /\ mask a' = mask a
    /\ Calm a'
    /\ pendingAudioBytes (audio a')
       <= pendingAudioBytes (audio a) + deliveredBytes arrivals.
Proof.
  induction arrivals as [|[now chunk] more IH]; intros a Hcalm Hs Hfuel.
  - exists a. cbn. split_and; try reflexivity; [exact Hcalm | lia].
  - inversion Hs as [|? ? Hc Hrest]; subst. cbn [snd] in Hc.
    cbn [chunkEvents map app runSession sessionStep fst snd deliveredBytes] in *.
    fold (chunkEvents more).
    pose proof (deliveredBytes_nonneg more) as Hnn.
    pose proof (len_nonneg chunk) as Hlen.
    pose proof (SilentQueue_pending_nonneg _ (calm_queue _ Hcalm)) as Hp.
    destruct (onChunk_silent fuel now chunk a Hcalm Hc) as
      (a1 & Hrun & Hmask & Hcalm1 & Hle); [lia|].
    rewrite Hrun.
    destruct (IH a1 Hcalm1 Hrest) as (a' & Hrun' & Hmask' & Hcalm' & Hle'); [lia|].
    rewrite Hrun'. exists a'.
    split_and; [reflexivity | congruence | exact Hcalm' | lia].
Qed.

Lemma waitForAsrDrain_silent fuel a :
  Calm a ->
  recordingActive a = false ->
  (Z.to_nat (pendingAudioBytes (audio a)) + 2 <= fuel)%nat ->
  exists a',
    waitForAsrDrain log10 options deps world fuel a = Some (a', Returned)
    /\ mask a' = mask a
    /\ sessionAudioChunks (audio a') = sessionAudioChunks (audio a).
Proof.
  intros Hcalm Hrec Hfuel. pose proof Hcalm as [Hq Hh Hl Hp].
  pose proof (SilentQueue_pending_nonneg _ Hq) as Hnn.
  unfold waitForAsrDrain.
  destruct fuel as [|[|fuel]]; [lia | lia |].
  destruct (Z.ltb_spec 0 (pendingAudioBytes (audio a))) as [Hpos|Hzero].
  - destruct (ensureAsrLoop_silent (S (S fuel)) a Hcalm Hpos) as
      (a' & it & Hrun & Hmask & Hcalm' & Hsess & Hle & Hforce); [lia|].
    destruct (Hforce Hrec) as (Hp0 & Hprom & ->).
    rewrite Hrun. cbn [awaitLoops]. rewrite Hp0, Hprom. cbn.
    exists a'. split_and; [reflexivity | assumption | assumption].
  - assert (Hprom : asrLoopPromise a = false).
    { destruct (asrLoopPromise a); [|reflexivity]. specialize (Hp eq_refl). lia. }
    cbn [awaitLoops]. rewrite Hprom.
    exists a. split_and; reflexivity.
Qed.

Lemma QuietSince_refl a : QuietSince (effects a) a.
Proof. exists []. rewrite app_nil_r. split; [reflexivity | constructor]. Qed.

Lemma QuietSince_perform base e a :
  quiet e -> QuietSince base a -> QuietSince base (perform e a).
Proof.
  intros He (new & Hnew & Hq). exists (new ++ [e]). split.
  - cbn. rewrite Hnew, app_assoc. reflexivity.
  - apply Forall_app. split; [assumption | constructor; [assumption | constructor]].
Qed.

Lemma QuietSince_setState base next a :
  QuietSince base a -> QuietSince base (setState next a).
Proof. intros H. unfold setState. apply QuietSince_perform; [exact I | exact H]. Qed.

Lemma QuietSince_mask base a a' :
  mask a' = mask a -> QuietSince base a -> QuietSince base a'.
Proof.
  intros Hm (new & Hnew & Hq). exists new. split; [|assumption].
  rewrite (mask_effects _ _ Hm). exact Hnew.
Qed.

(** A flush that yields no text leaves the transcript alone. *)
Lemma processStreamFlush_noText env a :
  noText (flushOutcome env) ->
  processStreamFlush options deps env a = (a, Returned)
  \/ processStreamFlush options deps env a
     = (perform CallAsrFlushStream a, Returned).
Proof.
  intros Hno. unfold processStreamFlush.
  destruct (asrBackend options); try (left; reflexivity).
  all: destruct (hasFlushStream deps); cbn [negb]; [|left; reflexivity].
  all: destruct (flushOutcome env) as [tailResult|]; [|right; reflexivity].
  all: cbn in Hno; rewrite Hno; right; reflexivity.
Qed.

(** With no transcript part and no final-pass text, the drain ends in
    [No speech detected]. *)
Lemma finishDictation_no_speech env a :
  rawTranscriptParts a = [] ->
  noText (finalPassOutcome env) ->
  exists a',
    finishDictation options deps env a = (a', Returned)
    /\ state a' = noSpeechDetected
    /\ stopInProgress a' = stopInProgress a
    /\ forall base, QuietSince base a -> QuietSince base a'.
Proof.
  intros Hparts Hno. unfold finishDictation. rewrite Hparts.
  change (normalizeRawTranscript []) with (@nil ascii).
  assert (Hplain : exists a',
            (setState (mkState idle "No speech detected") a, Returned)
            = (a', Returned)
            /\ state a' = noSpeechDetected
            /\ stopInProgress a' = stopInProgress a
            /\ forall base, QuietSince base a -> QuietSince base a').
  { eexists. split_and; [reflexivity | reflexivity | reflexivity |].
    intros base H. apply QuietSince_setState. exact H. }
  destruct (asrBackend options); try exact Hplain.
  destruct (parakeetFinalPass options && _); [|exact Hplain].
  assert (Hpass : exists a',
            (setState (mkState idle "No speech detected")
               (perform
                  (CallAsrTranscribe
                     (concat
                        (sessionAudioChunks
                           (audio
                              (setState
                                 (mkState transcribing "Final native Parakeet pass")
                                 a)))))
                  (setState (mkState transcribing "Final native Parakeet pass") a)),
             Returned)
            = (a', Returned)
            /\ state a' = noSpeechDetected
            /\ stopInProgress a' = stopInProgress a
            /\ forall base, QuietSince base a -> QuietSince base a').
  { eexists. split_and; [reflexivity | reflexivity | reflexivity |].
    intros base H. apply QuietSince_setState.
    apply QuietSince_perform; [exact I|]. apply QuietSince_setState. exact H. }
  destruct (finalPassOutcome env) as [finalPass|]; [|exact Hpass].
  cbn in Hno. rewrite Hno. exact Hpass.
Qed.

Lemma stopAndProcess_silent fuel env a :
  Calm a ->
  rawTranscriptParts a = [] ->
  allSilent (recorderStopArrivals env) ->
  recorderStopOutcome env = Returned ->
  noText (flushOutcome (flushEnv env)) ->
  noText (finalPassOutcome env) ->
  (Z.to_nat (pendingAudioBytes (audio a)
             + deliveredBytes (recorderStopArrivals env)) + 2 <= fuel)%nat ->
  exists a',
    stopAndProcess log10 options deps world fuel env a = Some a'
    /\ state a' = noSpeechDetected
    /\ stopInProgress a' = stopInProgress a
    /\ forall base, QuietSince base a -> QuietSince base a'.
Proof.
  intros Hcalm Hparts Hsil Hstop Hflush Hfinal Hfuel.
  pose proof (SilentQueue_pending_nonneg _ (calm_queue _ Hcalm)) as Hnn.
  pose proof (deliveredBytes_nonneg (recorderStopArrivals env)) as Hdn.
  unfold stopAndProcess, stopAndProcessTry.
  set (a1 := perform CallRecorderStop (set_recordingActive false a)).
  assert (Hcalm1 : Calm a1) by (destruct Hcalm; split; assumption).
  destruct (deliver_silent fuel (recorderStopArrivals env) a1 Hcalm1 Hsil)
    as (a2 & Hrun2 & Hmask2 & Hcalm2 & Hle2);
    [change (pendingAudioBytes (audio a1)) with (pendingAudioBytes (audio a)); lia|].
  change (pendingAudioBytes (audio a1)) with (pendingAudioBytes (audio a)) in Hle2.
  rewrite Hrun2, Hstop.
  set (a3 := setState (mkState transcribing "Draining audio queue")
               (set_acceptingAudio false a2)).
  assert (Hcalm3 : Calm a3) by (destruct Hcalm2; split; assumption).
  assert (Hrec3 : recordingActive a3 = false)
    by (change (recordingActive a2 = false);
        rewrite (mask_recordingActive _ _ Hmask2); reflexivity).
  destruct (waitForAsrDrain_silent fuel a3 Hcalm3 Hrec3) as (a4 & Hrun4 & Hmask4 & _);
    [change (pendingAudioBytes (audio a3)) with (pendingAudioBytes (audio a2)); lia|].
  rewrite Hrun4.
  assert (Hparts4 : rawTranscriptParts a4 = []).
  { rewrite (mask_parts _ _ Hmask4).
    change (rawTranscriptParts a2 = []).
    rewrite (mask_parts _ _ Hmask2). exact Hparts. }
  assert (Hstop4 : stopInProgress a4 = stopInProgress a).
  { rewrite (mask_stopInProgress _ _ Hmask4).
    change (stopInProgress a2 = stopInProgress a).
    rewrite (mask_stopInProgress _ _ Hmask2). reflexivity. }
  assert (Hquiet4 : forall base, QuietSince base a -> QuietSince base a4).
  { intros base H. apply (QuietSince_mask base a3 a4 Hmask4).
    unfold a3. apply QuietSince_setState.
    apply (QuietSince_mask base a1 _ Hmask2).
    unfold a1. apply QuietSince_perform; [exact I | exact H]. }
  assert (Hflushed : exists a5,
            processStreamFlush options deps (flushEnv env) a4 = (a5, Returned)
            /\ rawTranscriptParts a5 = []
            /\ stopInProgress a5 = stopInProgress a
            /\ forall base, QuietSince base a -> QuietSince base a5).
  { destruct (processStreamFlush_noText (flushEnv env) a4 Hflush) as [E|E];
      rewrite E; eexists; split_and; try reflexivity; try assumption.
    intros base H. apply QuietSince_perform; [exact I | apply Hquiet4; exact H]. }
  destruct Hflushed as (a5 & Hrun5 & Hparts5 & Hstop5 & Hquiet5). rewrite Hrun5.
  destruct (finishDictation_no_speech env a5 Hparts5 Hfinal)
    as (a6 & Hrun6 & Hstate6 & Hstop6 & Hquiet6).
  rewrite Hstop5 in Hstop6.
  rewrite Hrun6.
  eexists. split; [reflexivity|]. split_and.
  - destruct (hasStopStream deps); exact Hstate6.
  - destruct (hasStopStream deps); exact Hstop6.
  - intros base H. specialize (Hquiet6 base (Hquiet5 base H)).
    destruct (hasStopStream deps).
    + apply (QuietSince_perform base CallAsrStopStream a6 I) in Hquiet6.
      exact Hquiet6.
    + exact Hquiet6.
Qed.

(** A press in the idle or error stage, with a recorder and an ASR stream
    that start, begins a recording on an empty queue. *)
Lemma handlePushToTalkPressed_starts env a :
  stage (state a) = idle \/ stage (state a) = error ->
  recorderStartOutcome env = Returned ->
  asrStartStreamOutcome env = Returned ->
  let a' := handlePushToTalkPressed options deps env a in
  Calm a'
  /\ rawTranscriptParts a' = []
  /\ pendingAudioBytes (audio a') = 0
  /\ stage (state a') = recording
  /\ stopInProgress a' = stopInProgress a
  /\ QuietSince (effects a) a'.
Proof.
  intros Hstage Hrec Hasr. cbv zeta.
  assert (Hstarted :
            Calm (fst (startRecording options deps env a))
            /\ rawTranscriptParts (fst (startRecording options deps env a)) = []
            /\ pendingAudioBytes (audio (fst (startRecording options deps env a))) = 0
            /\ stage (state (fst (startRecording options deps env a))) = recording
            /\ stopInProgress (fst (startRecording options deps env a))
               = stopInProgress a
            /\ QuietSince (effects a) (fst (startRecording options deps env a))
            /\ snd (startRecording options deps env a) = Returned).
  { unfold startRecording. rewrite Hrec, Hasr.
    destruct (hasStartStream deps); cbn [fst snd]; split_and; try reflexivity.
    all: try match goal with
         | |- Calm _ =>
             split; cbn; try reflexivity;
             [split; [apply empty_inv | constructor] | discriminate]
         end.
    all: apply QuietSince_setState;
      repeat (apply QuietSince_perform; [exact I|]);
      exact (QuietSince_refl a). }
  destruct Hstarted as (H1 & H2 & H3 & H4 & H5 & H6 & H7).
  unfold handlePushToTalkPressed.
  destruct (startRecording options deps env a) as [a' out].
  cbn [fst snd] in *. subst out.
  destruct Hstage as [E|E]; rewrite E; split_and; assumption.
Qed.

(** C3, amended. When a session is released after receiving only silence
    (all-zero PCM, with the silence gate above the -120 dBFS of silence,
    as -52 is), with a recorder that starts and stops and an ASR that
    returns no text for the flush and the final pass, the session runs to
    its end, nothing is passed to the injector ([inject] or
    [replaceRecentText]), no [dictationCompleted] event is emitted, and
    the state returns to idle with the detail [No speech detected]. *)
Theorem silent_session_ends_with_no_speech_detected
  (a0 : App) (startEnv : StartEnv) (arrivals : list (Z * Buffer))
  (stopEnv : StopEnv) (fuel : nat)
  (Hstage : stage (state a0) = idle \/ stage (state a0) = error)
  (Hfree : stopInProgress a0 = false)
  (Hstart : recorderStartOutcome startEnv = Returned)
  (Hstream : asrStartStreamOutcome startEnv = Returned)
  (Hsilent : allSilent arrivals)
  (Htail : allSilent (recorderStopArrivals stopEnv))
  (Hstop : recorderStopOutcome stopEnv = Returned)
  (Hflush : noText (flushOutcome (flushEnv stopEnv)))
  (Hfinal : noText (finalPassOutcome stopEnv))
  (Hfuel : (Z.to_nat (deliveredBytes arrivals
                      + deliveredBytes (recorderStopArrivals stopEnv)) + 2
            <= fuel)%nat) :
  exists a added,
    runSession log10 options deps world fuel
      (session startEnv arrivals stopEnv) a0
    = Some (a, Returned)
    /\ effects a = effects a0 ++ added
    /\ Forall quiet added
    /\ injectedTexts added = []
    /\ dictationEvents added = []
    /\ state a = noSpeechDetected.
Proof.
  pose proof (deliveredBytes_nonneg arrivals) as Hn1.
  pose proof (deliveredBytes_nonneg (recorderStopArrivals stopEnv)) as Hn2.
  unfold session. cbn [runSession sessionStep].
  destruct (handlePushToTalkPressed_starts startEnv a0 Hstage Hstart Hstream)
    as (Hcalm1 & Hparts1 & Hpend1 & Hstage1 & Hstop1 & Hquiet1).
  set (a1 := handlePushToTalkPressed options deps startEnv a0) in *.
  destruct (runSession_chunks fuel arrivals [Released stopEnv] a1 Hcalm1 Hsilent)
    as (a2 & Hrun2 & Hmask2 & Hcalm2 & Hle2); [lia|].
  rewrite Hrun2. cbn [runSession sessionStep].
  unfold handlePushToTalkReleased.
  rewrite (mask_state _ _ Hmask2), Hstage1.
  rewrite (mask_stopInProgress _ _ Hmask2), Hstop1, Hfree.
  assert (Hcalm2' : Calm (set_stopInProgress true a2))
    by (destruct Hcalm2; split; assumption).
  destruct (stopAndProcess_silent fuel stopEnv (set_stopInProgress true a2) Hcalm2')
    as (a3 & Hrun3 & Hstate3 & _ & Hquiet3); try assumption.
  - change (rawTranscriptParts a2 = []).
    rewrite (mask_parts _ _ Hmask2). exact Hparts1.
  - change (pendingAudioBytes (audio (set_stopInProgress true a2)))
      with (pendingAudioBytes (audio a2)). lia.
  - rewrite Hrun3.
    assert (Hq : QuietSince (effects a0) (set_stopInProgress false a3)).
    { apply (Hquiet3 (effects a0)).
      apply (QuietSince_mask (effects a0) a1 a2 Hmask2). exact Hquiet1. }
    destruct Hq as (new & Hnew & Hq).
    exists (set_stopInProgress false a3), new.
    split_and; [reflexivity | exact Hnew | exact Hq | | | exact Hstate3].
    + clear - Hq. induction Hq as [|e new He _ IH]; [reflexivity|].
      destruct e; cbn in *; try assumption; contradiction.
    + clear - Hq. induction Hq as [|e new He _ IH]; [reflexivity|].
      destruct e; cbn in *; try assumption; contradiction.
Qed.

End Silence.

Lemma silent_zeros n : silent (Examples.zeros n).
Proof. induction n; constructor; [reflexivity | assumption]. Qed.

(** C3 as stated is refuted: on 100 ms of all-zero PCM with the default
    gate of -52 dBFS the session ends without any [dictationCompleted]
    event; its effects are the recorder start, the ASR stream start, three
    state changes, the recorder stop and the ASR stream stop. *)
Lemma silent_100ms_session_emits_no_dictationCompleted :
  option_map (fun r => (effects (fst r), dictationEvents (effects (fst r))))
    (runSession Examples.log10Approx DEFAULT_LATENCY_OPTIONS Examples.fullDeps
       deafWorld 3202 (session okStart silence100ms okStop)
       (new DEFAULT_LATENCY_OPTIONS))
  = Some ([ CallRecorderStartStreaming 120;
            CallAsrStartStream;
            EmitStateChanged
              (mkState recording "Live dictation (adaptive streaming)");
            CallRecorderStop;
            EmitStateChanged (mkState transcribing "Draining audio queue");
            EmitStateChanged noSpeechDetected;
            CallAsrStopStream ],
          []).
Proof. vm_compute. reflexivity. Qed.

Lemma silent_session_ends_with_no_speech_detected_witness :
  exists a added,
    runSession Examples.log10Approx DEFAULT_LATENCY_OPTIONS Examples.fullDeps
      deafWorld 3202 (session okStart silence100ms okStop)
      (new DEFAULT_LATENCY_OPTIONS)
    = Some (a, Returned)
    /\ effects a = effects (new DEFAULT_LATENCY_OPTIONS) ++ added
    /\ Forall quiet added
    /\ injectedTexts added = []
    /\ dictationEvents added = []
    /\ state a = noSpeechDetected.
Proof.
  apply (silent_session_ends_with_no_speech_detected
           Examples.log10Approx DEFAULT_LATENCY_OPTIONS Examples.fullDeps
           deafWorld).
  - vm_compute. reflexivity.
  - intros requestId. unfold deafWorld, Examples.quietEnv. cbn [tGate]. lia.
  - left. reflexivity.
  - reflexivity.
  - reflexivity.
  - reflexivity.
  - constructor; [apply silent_zeros | constructor].
  - constructor.
  - reflexivity.
  - exact I.
  - exact I.
  - vm_compute. lia.
Defined.

End SessionFacts.

Module FrameFacts.

Import DingoFlowApp AudioQueue.

(** A property kept by the steps of the ASR loop is kept by the loop and
    by everything that starts or awaits it. *)
Section LoopFrame.

Variable log10 : float -> float.
Variable options : DingoFlowLatencyOptions.
Variable deps : Deps.
Variable world : Z -> SliceEnv.
Variable P : App -> Prop.

Hypothesis P_take : forall now forceFlush a,
  P a -> P (snd (takeNextAudioSlice options now forceFlush a)).
Hypothesis P_slice : forall id audioSlice requestId a,
  P a ->
  P (fst (processAudioSlice log10 options deps (world id) audioSlice requestId a)).
Hypothesis P_request : forall v a, P a -> P (set_asrRequestCount v a).
Hypothesis P_active : forall v a, P a -> P (set_asrLoopActive v a).
Hypothesis P_promise : forall v a, P a -> P (set_asrLoopPromise v a).
Hypothesis P_push : forall now chunk a,
  P a -> acceptingAudio a = true ->
  P (set_audio (pushAudioChunk now chunk (audio a)) a).

Lemma frame_runAsrLoop fuel : forall iterated a a' out iterated',
  P a ->
  runAsrLoop log10 options deps world fuel iterated a = Some (a', out, iterated') ->
  P a'.
Proof.
  induction fuel as [|fuel IH]; intros iterated a a' out iterated' Hinv Hrun;
    [discriminate|].
  cbn [runAsrLoop] in Hrun.
  assert (Hfinally : forall b o it,
    P b ->
    (let b := set_asrLoopPromise false (set_asrLoopActive false b) in
     if shouldContinueLoop options b then
       match runAsrLoop log10 options deps world fuel false
               (set_asrLoopActive true b) with
       | None => None
       | Some (b', _, again) =>
           Some (if again then b' else set_asrLoopPromise true b', o, it)
       end
     else Some (b, o, it)) = Some (a', out, iterated') ->
    P a').
  { intros b o it Hb Hf. cbv zeta in Hf.
    destruct (shouldContinueLoop options _).
    - destruct (runAsrLoop log10 options deps world fuel false _)
        as [[[b' o'] again]|] eqn:Hnested; [|discriminate].
      assert (Hb' : P b').
      { eapply IH; [|exact Hnested].
        apply P_active, P_promise, P_active. exact Hb. }
      inversion Hf; subst. destruct again; [exact Hb'|].
      apply P_promise. exact Hb'.
    - inversion Hf; subst. apply P_promise, P_active. exact Hb. }
  pose proof (P_take (tTake (world (asrRequestCount a + 1)))
                (negb (recordingActive a)) a Hinv) as Htake.
  destruct (takeNextAudioSlice options _ _ a) as [[next|] a1]; cbn [snd] in Htake.
  - pose proof (P_slice (asrRequestCount a + 1) next
                  (asrRequestCount a1 + 1)
                  (set_asrRequestCount (asrRequestCount a1 + 1) a1)
                  (P_request _ _ Htake)) as Hslice.
    destruct (processAudioSlice log10 options deps _ next _ _) as [a2 [|d]];
      cbn [fst] in Hslice.
    + eapply IH; [|exact Hrun]. exact Hslice.
    + eapply Hfinally; [|exact Hrun]. exact Hslice.
  - eapply Hfinally; [|exact Hrun]. exact Htake.
Qed.

Lemma frame_ensureAsrLoop fuel a a' out iterated :
  P a ->
  ensureAsrLoop log10 options deps world fuel a = Some (a', out, iterated) ->
  P a'.
Proof.
  intros Hinv Hrun. unfold ensureAsrLoop in Hrun.
  destruct (asrLoopActive a); [inversion Hrun; subst; exact Hinv|].
  destruct (runAsrLoop log10 options deps world fuel false _)
    as [[[b o] it]|] eqn:Hloop; [|discriminate].
  assert (Hb : P b).
  { eapply frame_runAsrLoop; [|exact Hloop]. apply P_active. exact Hinv. }
  inversion Hrun; subst. destruct iterated; [exact Hb|].
  apply P_promise. exact Hb.
Qed.

Lemma frame_onChunk fuel now chunk a a' out :
  P a ->
  onChunk log10 options deps world fuel now chunk a = Some (a', out) ->
  P a'.
Proof.
  intros Hinv Hrun. unfold onChunk, enqueueAudioChunk in Hrun.
  destruct (acceptingAudio a) eqn:Hacc; cbn [negb orb] in Hrun;
    [|inversion Hrun; subst; exact Hinv].
  destruct (len chunk =? 0); [inversion Hrun; subst; exact Hinv|].
  destruct (ensureAsrLoop log10 options deps world fuel _)
    as [[[b o] it]|] eqn:Hensure; [|discriminate].
  inversion Hrun; subst.
  eapply frame_ensureAsrLoop; [|exact Hensure].
  apply P_push; assumption.
Qed.

Lemma frame_deliver fuel arrivals : forall a a' out,
  P a ->
  deliver log10 options deps world fuel arrivals a = Some (a', out) ->
  P a'.
Proof.
  induction arrivals as [|[now chunk] rest IH]; intros a a' out Hinv Hrun.
  - inversion Hrun; subst. exact Hinv.
  - cbn [deliver] in Hrun.
    destruct (onChunk log10 options deps world fuel now chunk a)
      as [[b [|d]]|] eqn:Hchunk; [| |discriminate].
    + eapply IH; [|exact Hrun]. eapply frame_onChunk; eassumption.
    + inversion Hrun; subst. eapply frame_onChunk; eassumption.
Qed.

Lemma frame_awaitLoops fuel loopFuel : forall inflight a a' out,
  P a ->
  awaitLoops log10 options deps world fuel loopFuel inflight a = Some (a', out) ->
  P a'.
Proof.
  induction fuel as [|fuel IH]; intros inflight a a' out Hinv Hrun;
    [discriminate|].
  cbn [awaitLoops] in Hrun.
  assert (Hgo : (if 0 <? pendingAudioBytes (audio a)
                 then match ensureAsrLoop log10 options deps world loopFuel a with
                      | None => None
                      | Some (b, o, it) =>
                          awaitLoops log10 options deps world fuel loopFuel
                            (if it then Some o else None) b
                      end
                 else awaitLoops log10 options deps world fuel loopFuel None a)
                = Some (a', out) -> P a').
  { intros Hgo. destruct (0 <? pendingAudioBytes (audio a)).
    - destruct (ensureAsrLoop log10 options deps world loopFuel a)
        as [[[b o] it]|] eqn:Hensure; [|discriminate].
      eapply IH; [|exact Hgo]. eapply frame_ensureAsrLoop; eassumption.
    - eapply IH; eassumption. }
  destruct inflight as [[|d]|]; [apply Hgo; exact Hrun | |].
  - inversion Hrun; subst. exact Hinv.
  - destruct (asrLoopPromise a); [apply Hgo; exact Hrun|].
    inversion Hrun; subst. exact Hinv.
Qed.

Lemma frame_waitForAsrDrain fuel a a' out :
  P a ->
  waitForAsrDrain log10 options deps world fuel a = Some (a', out) ->
  P a'.
Proof.
  intros Hinv Hrun. unfold waitForAsrDrain in Hrun.
  destruct (0 <? pendingAudioBytes (audio a)).
  - destruct (ensureAsrLoop log10 options deps world fuel a)
      as [[[b o] it]|] eqn:Hensure; [|discriminate].
    eapply frame_awaitLoops; [|exact Hrun].
    eapply frame_ensureAsrLoop; eassumption.
  - eapply frame_awaitLoops; eassumption.
Qed.

End LoopFrame.

End FrameFacts.

Module ControlFacts.

Import DingoFlowApp AudioQueue ControlSpec FrameFacts.

Section Control.

Variable log10 : float -> float.
Variable options : DingoFlowLatencyOptions.
Variable deps : Deps.
Variable world : Z -> SliceEnv.

Lemma control_deliverWhileLoopActive arrivals : forall a,
  control (deliverWhileLoopActive arrivals a) = control a.
Proof.
  unfold deliverWhileLoopActive.
  induction arrivals as [|[now chunk] rest IH]; intros a; [reflexivity|].
  cbn [fold_left]. rewrite IH. unfold onChunkWhileLoopActive.
  destruct (negb (acceptingAudio a) || (len chunk =? 0)); reflexivity.
Qed.

Lemma control_updateAdaptiveWindow audioMs asrElapsedMs pendingMs a :
  control (updateAdaptiveWindow options audioMs asrElapsedMs pendingMs a)
  = control a.
Proof.
  unfold updateAdaptiveWindow.
  destruct (adaptiveAsrWindow options); cbn [negb]; [|reflexivity].
  match goal with
  | |- context [if negb (?c =? ?d) then _ else _] => destruct (negb (c =? d))
  end; reflexivity.
Qed.

Lemma control_takeNextAudioSlice now forceFlush a :
  control (snd (takeNextAudioSlice options now forceFlush a)) = control a.
Proof.
  unfold takeNextAudioSlice.
  destruct (_ =? 0); [reflexivity|].
  destruct (negb forceFlush && _); [reflexivity|].
  match goal with
  | |- context [if ?taken <=? 0 then _ else _] => destruct (taken <=? 0)
  end; [reflexivity|].
  destruct (readPendingAudioSlice _ _ _) as [r q]. reflexivity.
Qed.

Lemma control_processAudioSlice env audioSlice requestId a :
  control (fst (processAudioSlice log10 options deps env audioSlice requestId a))
  = control a.
Proof.
  unfold processAudioSlice.
  match goal with
  | |- context [match ?g with Some _ => _ | None => (a, Returned) end] =>
      destruct g as [a0|] eqn:Hg; [|reflexivity]
  end.
  assert (H0 : control a0 = control a).
  { destruct (Num.ge _ _); [|destruct (_ <? _)]; inversion Hg; subst;
      reflexivity. }
  rewrite <- H0. clear Hg H0.
  match goal with
  | |- context [updateAdaptiveWindow options ?x ?y ?z ?b] =>
      assert (Hb : control (updateAdaptiveWindow options x y z b) = control a0)
        by (rewrite control_updateAdaptiveWindow,
              control_deliverWhileLoopActive; reflexivity);
      generalize dependent (updateAdaptiveWindow options x y z b)
  end.
  intros b Hb.
  destruct (asrOutcome env) as [result|]; [|exact Hb].
  repeat match goal with
  | |- context [if negb (truthy ?t) then _ else _] =>
      destruct (truthy t); cbn [negb]; [|exact Hb]
  end.
  destruct (injectOutcome env); cbn [fst];
    [change (control (set_latencyTracker ?l ?x)) with (control x)|];
    rewrite control_deliverWhileLoopActive; exact Hb.
Qed.


Lemma control_frame (a : App) :
  (forall now forceFlush b,
     control b = control a ->
     control (snd (takeNextAudioSlice options now forceFlush b)) = control a)
  /\ (forall id audioSlice requestId b,
        control b = control a ->
        control (fst (processAudioSlice log10 options deps (world id)
                        audioSlice requestId b)) = control a).
Proof.
  split.
  - intros now forceFlush b Hb. rewrite control_takeNextAudioSlice. exact Hb.
  - intros id audioSlice requestId b Hb.
    rewrite control_processAudioSlice. exact Hb.
Qed.

Lemma control_deliver fuel arrivals a a' out :
  deliver log10 options deps world fuel arrivals a = Some (a', out) ->
  control a' = control a.
Proof.
  intros Hrun. destruct (control_frame a) as [Htake Hslice].
  apply (frame_deliver log10 options deps world
           (fun b => control b = control a)) in Hrun; try exact Hrun;
    try reflexivity; try assumption; intros; assumption.
Qed.

Lemma control_waitForAsrDrain fuel a a' out :
  waitForAsrDrain log10 options deps world fuel a = Some (a', out) ->
  control a' = control a.
Proof.
  intros Hrun. destruct (control_frame a) as [Htake Hslice].
  apply (frame_waitForAsrDrain log10 options deps world
           (fun b => control b = control a)) in Hrun; try exact Hrun;
    try reflexivity; try assumption; intros; assumption.
Qed.










End Control.


End ControlFacts.

Module GateFacts.

Import DingoFlowApp AudioQueue GateSpec FrameFacts.

Lemma ge_nan x : Num.ge x PrimFloat.nan = false.
Proof. unfold Num.ge. rewrite FloatAxioms.leb_spec. reflexivity. Qed.

Section Gate.

Variable log10 : float -> float.
Variable options : DingoFlowLatencyOptions.
Variable deps : Deps.
Variable world : Z -> SliceEnv.

Hypothesis gate_missing : silenceGateDbfs options = PrimFloat.nan.
Hypothesis clock_positive : forall id, 0 < tGate (world id).
Hypothesis native_backend : asrBackend options = parakeet_native.
Hypothesis no_final_pass : parakeetFinalPass options = false.

Lemma processAudioSlice_ungated id audioSlice requestId a :
  speechHangoverUntilMs a = 0 ->
  processAudioSlice log10 options deps (world id) audioSlice requestId a
  = (a, Returned).
Proof.
  intros Hzero. unfold processAudioSlice.
  rewrite gate_missing, ge_nan, Hzero.
  pose proof (clock_positive id) as Hpos. apply Z.ltb_lt in Hpos.
  rewrite Hpos. reflexivity.
Qed.

Lemma Unheard_same a a' :
  speechHangoverUntilMs a' = speechHangoverUntilMs a ->
  rawTranscriptParts a' = rawTranscriptParts a ->
  effects a' = effects a ->
  Unheard a -> Unheard a'.
Proof. intros H1 H2 H3 (Hh & Hp & He). repeat split; congruence. Qed.

Lemma Unheard_perform e a : deaf e -> Unheard a -> Unheard (perform e a).
Proof.
  intros He (Hh & Hp & Hes). repeat split; try assumption.
  cbn. apply Forall_app. split; [exact Hes | constructor; [exact He | constructor]].
Qed.

Lemma Unheard_setState next a : Unheard a -> Unheard (setState next a).
Proof.
  intros H. unfold setState. apply Unheard_perform; [exact I|].
  apply (Unheard_same a); try reflexivity. exact H.
Qed.

Lemma Unheard_takeNextAudioSlice now forceFlush a :
  Unheard a -> Unheard (snd (takeNextAudioSlice options now forceFlush a)).
Proof.
  intros H. unfold takeNextAudioSlice.
  destruct (_ =? 0); [exact H|].
  destruct (negb forceFlush && _); [exact H|].
  match goal with
  | |- context [if ?taken <=? 0 then _ else _] => destruct (taken <=? 0)
  end; [exact H|].
  destruct (readPendingAudioSlice _ _ _) as [r q].
  apply (Unheard_same a); try reflexivity. exact H.
Qed.

Lemma Unheard_processAudioSlice id audioSlice requestId a :
  Unheard a ->
  Unheard (fst (processAudioSlice log10 options deps (world id)
                  audioSlice requestId a)).
Proof.
  intros H. rewrite processAudioSlice_ungated; [exact H|].
  destruct H as (Hh & _). exact Hh.
Qed.

Lemma Unheard_field (set : App -> App) :
  (forall y, speechHangoverUntilMs (set y) = speechHangoverUntilMs y) ->
  (forall y, rawTranscriptParts (set y) = rawTranscriptParts y) ->
  (forall y, effects (set y) = effects y) ->
  forall a, Unheard a -> Unheard (set a).
Proof. intros H1 H2 H3 a. apply Unheard_same; auto. Qed.

Ltac unheard_frame :=
  first [ exact Unheard_takeNextAudioSlice
        | exact Unheard_processAudioSlice
        | intros v; apply Unheard_field; reflexivity
        | intros now0 chunk0 b Hb _; revert b Hb; apply Unheard_field;
          reflexivity ].

Lemma Unheard_onChunk fuel now chunk a a' out :
  Unheard a ->
  onChunk log10 options deps world fuel now chunk a = Some (a', out) ->
  Unheard a'.
Proof.
  apply (frame_onChunk log10 options deps world Unheard); unheard_frame.
Qed.

Lemma Unheard_deliver fuel arrivals a a' out :
  Unheard a ->
  deliver log10 options deps world fuel arrivals a = Some (a', out) ->
  Unheard a'.
Proof.
  apply (frame_deliver log10 options deps world Unheard); unheard_frame.
Qed.

Lemma Unheard_waitForAsrDrain fuel a a' out :
  Unheard a ->
  waitForAsrDrain log10 options deps world fuel a = Some (a', out) ->
  Unheard a'.
Proof.
  apply (frame_waitForAsrDrain log10 options deps world Unheard); unheard_frame.
Qed.

Ltac deaf_effects He :=
  cbn; rewrite ?Forall_app; repeat split;
  first [exact He | repeat constructor].

Lemma Unheard_handlePushToTalkPressed env a :
  Unheard a -> Unheard (handlePushToTalkPressed options deps env a).
Proof.
  intros H. unfold handlePushToTalkPressed.
  assert (Hstart :
    forall b out, startRecording options deps env a = (b, out) ->
    Unheard
      match out with
      | Returned => b
      | Threw d => setState {| stage := error; detail := Some d |} b
      end).
  { destruct H as (_ & _ & He). intros b out Hb. unfold startRecording in Hb.
    destruct (recorderStartOutcome env).
    - destruct (hasStartStream deps); [destruct (asrStartStreamOutcome env)|];
        inversion Hb; subst; (split; [reflexivity|split; [reflexivity|]]);
        deaf_effects He.
    - inversion Hb; subst; (split; [reflexivity|split; [reflexivity|]]);
        deaf_effects He. }
  destruct (stage (state a)); try exact H.
  - destruct (startRecording options deps env a) as [b out] eqn:Hb.
    specialize (Hstart b out eq_refl). destruct out; exact Hstart.
  - destruct (startRecording options deps env a) as [b out] eqn:Hb.
    specialize (Hstart b out eq_refl). destruct out; exact Hstart.
Qed.

Lemma finishDictation_unheard env a :
  Unheard a ->
  finishDictation options deps env a
  = (setState (mkState idle "No speech detected") a, Returned).
Proof.
  intros (_ & Hp & _). unfold finishDictation.
  rewrite native_backend, no_final_pass, Hp. reflexivity.
Qed.

Lemma Unheard_handlePushToTalkReleased fuel env a a' :
  Unheard a ->
  handlePushToTalkReleased log10 options deps world fuel env a = Some a' ->
  Unheard a'.
Proof.
  intros H Hrun. unfold handlePushToTalkReleased in Hrun.
  destruct (stage (state a)); try (inversion Hrun; subst; exact H).
  destruct (stopInProgress a); [inversion Hrun; subst; exact H|].
  destruct (stopAndProcess log10 options deps world fuel env _)
    as [b|] eqn:Hstop; [|discriminate].
  inversion Hrun; subst. clear Hrun.
  apply (Unheard_field (set_stopInProgress false)); try reflexivity.
  unfold stopAndProcess in Hstop.
  destruct (stopAndProcessTry log10 options deps world fuel env _)
    as [[c out]|] eqn:Htry; [|discriminate].
  assert (Hc : Unheard c).
  { unfold stopAndProcessTry in Htry. cbv zeta in Htry.
    assert (H0 : Unheard
                   (perform CallRecorderStop
                      (set_recordingActive false (set_stopInProgress true a)))).
    { apply Unheard_perform; [exact I|].
      apply (Unheard_same a); try reflexivity. exact H. }
    destruct (deliver log10 options deps world fuel (recorderStopArrivals env) _)
      as [[a1 [|d1]]|] eqn:Hdeliver; [| |discriminate].
    2: { inversion Htry; subst. eapply Unheard_deliver; eassumption. }
    assert (H1 : Unheard a1) by (eapply Unheard_deliver; eassumption).
    destruct (recorderStopOutcome env); [|inversion Htry; subst; exact H1].
    destruct (waitForAsrDrain log10 options deps world fuel _)
      as [[a2 [|d2]]|] eqn:Hdrain; [| |discriminate].
    2: { inversion Htry; subst.
         eapply Unheard_waitForAsrDrain; [|exact Hdrain].
         apply Unheard_setState.
         apply (Unheard_same a1); try reflexivity. exact H1. }
    assert (H2 : Unheard a2).
    { eapply Unheard_waitForAsrDrain; [|exact Hdrain].
      apply Unheard_setState.
      apply (Unheard_same a1); try reflexivity. exact H1. }
    unfold processStreamFlush in Htry. rewrite native_backend in Htry.
    rewrite (finishDictation_unheard env a2 H2) in Htry.
    inversion Htry; subst. apply Unheard_setState. exact H2. }
  inversion Hstop; subst. clear Hstop.
  destruct Hc as (Hh & _ & He).
  destruct out, (hasStopStream deps);
    (split; [exact Hh|split; [reflexivity|]]); deaf_effects He.
Qed.

Lemma Unheard_runSession fuel evs : forall a a' out,
  Unheard a ->
  runSession log10 options deps world fuel evs a = Some (a', out) ->
  Unheard a'.
Proof.
  induction evs as [|ev rest IH]; intros a a' out H Hrun.
  - inversion Hrun; subst. exact H.
  - cbn [runSession] in Hrun.
    assert (Hstep : forall b o,
              sessionStep log10 options deps world fuel ev a = Some (b, o) ->
              Unheard b).
    { intros b o Hs. destruct ev as [env|now chunk|env]; cbn [sessionStep] in Hs.
      - inversion Hs; subst. apply Unheard_handlePushToTalkPressed. exact H.
      - eapply Unheard_onChunk; eassumption.
      - destruct (handlePushToTalkReleased log10 options deps world fuel env a)
          as [c|] eqn:Hreleased; [|discriminate].
        inversion Hs; subst.
        eapply Unheard_handlePushToTalkReleased; eassumption. }
    destruct (sessionStep log10 options deps world fuel ev a)
      as [[b [|d]]|]; [| |discriminate].
    + eapply IH; [|exact Hrun]. eapply Hstep. reflexivity.
    + inversion Hrun; subst. eapply Hstep. reflexivity.
Qed.

(** X16. Without a silence gate nothing is heard.  When the options carry
    no silence gate, so that every level is compared with NaN (main.ts
    builds the options without [silenceGateDbfs]), with the native
    Parakeet backend and no final pass, which are the defaults: whatever
    audio is delivered in whatever sequence of presses, chunks and
    releases since construction, every slice is dropped by the gate, and
    the orchestrator makes no transcription request, no injector call and
    emits no [dictationCompleted] event. *)
Theorem missing_gate_hears_nothing
  (fuel : nat) (evs : list SessionEvent) (a : App) (out : Outcome)
  (Hrun : runSession log10 options deps world fuel evs (new options)
          = Some (a, out)) :
  Forall deaf (effects a) /\ rawTranscriptParts a = [].
Proof.
  assert (H : Unheard a).
  { eapply Unheard_runSession; [|exact Hrun].
    repeat split; constructor. }
  destruct H as (_ & Hp & He). split; assumption.
Qed.

End Gate.

(** The audio and the ASR answers of the session that types [hello] with
    the default gate, with the gate left out. *)
Lemma missing_gate_hears_nothing_witness :
  exists a out,
    runSession Examples.log10Approx ungatedOptions Examples.fullDeps
      helloWorld 3202
      (SessionSpec.session SessionSpec.okStart loud100ms SessionSpec.okStop)
      (new ungatedOptions)
    = Some (a, out)
    /\ Forall deaf (effects a) /\ rawTranscriptParts a = [].
Proof.
  eexists. eexists. split; [vm_compute; reflexivity|].
  apply (missing_gate_hears_nothing
           Examples.log10Approx ungatedOptions Examples.fullDeps helloWorld
           eq_refl
           (fun id => ltac:(unfold helloWorld, Examples.quietEnv; cbn [tGate]; lia))
           eq_refl eq_refl 3202
           (SessionSpec.session SessionSpec.okStart loud100ms SessionSpec.okStop)
           _ Returned).
  vm_compute. reflexivity.
Defined.

End GateFacts.

Module SchedulerFacts.

Import DingoFlowApp AudioQueue QueueSpec QueueFacts.

Lemma msToBytes_mono x y : x <= y -> msToBytes x <= msToBytes y.
Proof.
  intros H. unfold msToBytes, AUDIO_SAMPLE_RATE.
  assert (16000 * 2 * x / 1000 <= 16000 * 2 * y / 1000)
    by (apply Z.div_le_mono; lia).
  lia.
Qed.

(** X17. The size of a slice.  On a queue whose counter is right and with
    [minAsrWindowMs <= maxAsrWindowMs]: while recording (no forced flush)
    a slice is taken exactly when at least the minimum window of audio is
    pending, and it holds no less than the minimum window and no more
    than the maximum window of audio, whatever the adaptive window and
    the backlog; on a forced flush a slice is taken exactly when something
    is pending, and it holds all of it, however long, leaving nothing
    pending.  When no slice is taken nothing changes. *)
Theorem slice_size_is_bounded
  (options : DingoFlowLatencyOptions) (now : Z) (forceFlush : bool) (a : App)
  (Hqueue : QueueInv (audio a))
  (Horder : minAsrWindowMs options <= maxAsrWindowMs options) :
  let pending := pendingAudioBytes (audio a) in
  let minBytes := msToBytes (minAsrWindowMs options) in
  let maxBytes := msToBytes (maxAsrWindowMs options) in
  match takeNextAudioSlice options now forceFlush a with
  | (Some next, a') =>
      pendingAudioBytes (audio a') = pending - len (sliceData next)
      /\ (if forceFlush then len (sliceData next) = pending /\ 0 < pending
          else minBytes <= len (sliceData next) <= maxBytes
               /\ minBytes <= pending)
  | (None, a') =>
      a' = a /\ (if forceFlush then pending = 0 else pending < minBytes)
  end.
Proof.
  cbv zeta. unfold takeNextAudioSlice.
  assert (Hnonneg : 0 <= pendingAudioBytes (audio a)).
  { destruct Hqueue as [Hch Hp]. rewrite Hp.
    apply SessionFacts.unreadTotal_nonneg. exact Hch. }
  assert (Hmin : 1 <= msToBytes (minAsrWindowMs options))
    by (unfold msToBytes; lia).
  destruct (Z.eqb_spec (pendingAudioBytes (audio a)) 0) as [Hzero|Hpos].
  { split; [reflexivity|]. destruct forceFlush; lia. }
  destruct forceFlush; cbn [negb andb].
  - destruct (Z.leb_spec (pendingAudioBytes (audio a)) 0); [lia|].
    destruct (readPendingAudioSlice_some now (pendingAudioBytes (audio a))
                (audio a) Hqueue) as (s & Hs & Hlen & _ & Hpend & _); [lia|].
    destruct (readPendingAudioSlice now _ (audio a)) as [r q].
    cbn [fst snd] in *. subst r. cbn [audio set_audio]. lia.
  - destruct (Z.ltb_spec (pendingAudioBytes (audio a))
                (msToBytes (minAsrWindowMs options))) as [Hlow|Hhigh].
    { split; [reflexivity | lia]. }
    match goal with
    | |- context [msToBytes (Num.clamp ?t ?lo ?hi)] =>
        set (targetMs := Num.clamp t lo hi)
    end.
    assert (Htarget : minAsrWindowMs options <= targetMs <= maxAsrWindowMs options)
      by (unfold targetMs, Num.clamp; lia).
    pose proof (msToBytes_mono _ _ (proj1 Htarget)) as Hlo.
    pose proof (msToBytes_mono _ _ (proj2 Htarget)) as Hhi.
    set (takeBytes := Z.min (pendingAudioBytes (audio a)) (msToBytes targetMs)).
    destruct (Z.leb_spec takeBytes 0); [unfold takeBytes in *; lia|].
    destruct (readPendingAudioSlice_some now takeBytes (audio a) Hqueue)
      as (s & Hs & Hlen & _ & Hpend & _); [unfold takeBytes; lia|].
    destruct (readPendingAudioSlice now takeBytes (audio a)) as [r q].
    cbn [fst snd] in *. subst r. cbn [audio set_audio].
    unfold takeBytes in *. lia.
Qed.

(** The constructor's queue after one chunk of 100 ms, with the default
    windows. *)
Lemma slice_size_is_bounded_witness :
  let a := set_audio (pushAudioChunk 500 (Examples.zeros 3200) AudioQueue.empty)
             (new DEFAULT_LATENCY_OPTIONS) in
  match takeNextAudioSlice DEFAULT_LATENCY_OPTIONS 600 false a with
  | (Some next, a') =>
      pendingAudioBytes (audio a')
      = pendingAudioBytes (audio a) - len (sliceData next)
      /\ msToBytes 90 <= len (sliceData next) <= msToBytes 640
      /\ msToBytes 90 <= pendingAudioBytes (audio a)
  | (None, a') => a' = a /\ pendingAudioBytes (audio a) < msToBytes 90
  end.
Proof.
  cbv zeta.
  apply (slice_size_is_bounded DEFAULT_LATENCY_OPTIONS 600 false
           (set_audio (pushAudioChunk 500 (Examples.zeros 3200) AudioQueue.empty)
              (new DEFAULT_LATENCY_OPTIONS))).
  - apply pushAudioChunk_inv. apply empty_inv.
  - vm_compute. discriminate.
Defined.

End SchedulerFacts.

Module TranscriptFacts.

Import DingoFlowApp AudioQueue LiveText SliceSpec SessionSpec TranscriptSpec.
Import SliceFacts InjectFacts FrameFacts.

Lemma dictationEvents_app es1 es2 :
  dictationEvents (es1 ++ es2) = dictationEvents es1 ++ dictationEvents es2.
Proof.
  induction es1 as [|e es1 IH]; [reflexivity|].
  destruct e; cbn; rewrite IH; reflexivity.
Qed.

Lemma Typed_extend base a a' new :
  Typed base a ->
  effects a' = effects a ++ new ->
  rawTranscriptParts a' = rawTranscriptParts a ++ injectedTexts new ->
  dictationEvents new = [] ->
  Typed base a'.
Proof.
  intros (added & He & Hi & Hd) He' Hp' Hd'. exists (added ++ new).
  rewrite He', He, <- app_assoc, injectedTexts_app, dictationEvents_app,
    Hi, Hd, Hd', Hp'.
  repeat split; reflexivity.
Qed.

Lemma Typed_same base a a' :
  effects a' = effects a ->
  rawTranscriptParts a' = rawTranscriptParts a ->
  Typed base a -> Typed base a'.
Proof.
  intros He Hp H. apply (Typed_extend base a a' []); try assumption.
  - rewrite app_nil_r. exact He.
  - rewrite app_nil_r. exact Hp.
  - reflexivity.
Qed.

Lemma Typed_Reported base a : Typed base a -> Reported base a.
Proof.
  intros (added & He & _ & Hd). exists added. split; [exact He | left; exact Hd].
Qed.

Lemma parts_deliverWhileLoopActive arrivals a :
  rawTranscriptParts (deliverWhileLoopActive arrivals a) = rawTranscriptParts a.
Proof.
  pose proof (deliverWhileLoopActive_frame arrivals a AudioQueue.empty) as H.
  apply (f_equal rawTranscriptParts) in H. exact H.
Qed.

Lemma parts_updateAdaptiveWindow options audioMs asrElapsedMs pendingMs a :
  rawTranscriptParts (updateAdaptiveWindow options audioMs asrElapsedMs pendingMs a)
  = rawTranscriptParts a.
Proof.
  pose proof (updateAdaptiveWindow_frame options audioMs asrElapsedMs pendingMs
                a 0 0%float 0%float) as H.
  apply (f_equal rawTranscriptParts) in H. exact H.
Qed.

Lemma dictationEvents_asrCall deps audioSlice :
  dictationEvents [asrCall deps audioSlice] = [].
Proof. unfold asrCall. destruct (hasPushStream deps); reflexivity. Qed.

Section Transcript.

Variable log10 : float -> float.
Variable options : DingoFlowLatencyOptions.
Variable deps : Deps.
Variable world : Z -> SliceEnv.

Hypothesis no_final_pass : parakeetFinalPass options = false.

Variable base : list Effect.

Lemma Typed_takeNextAudioSlice now forceFlush a :
  Typed base a -> Typed base (snd (takeNextAudioSlice options now forceFlush a)).
Proof.
  intros H. unfold takeNextAudioSlice.
  destruct (_ =? 0); [exact H|].
  destruct (negb forceFlush && _); [exact H|].
  match goal with
  | |- context [if ?taken <=? 0 then _ else _] => destruct (taken <=? 0)
  end; [exact H|].
  destruct (readPendingAudioSlice _ _ _) as [r q].
  apply (Typed_same base a); try reflexivity. exact H.
Qed.

Lemma Typed_processAudioSlice env audioSlice requestId a :
  Typed base a ->
  Typed base (fst (processAudioSlice log10 options deps env audioSlice requestId a)).
Proof.
  intros H. unfold processAudioSlice. fold (asrCall deps audioSlice).
  match goal with
  | |- context [match ?g with Some _ => _ | None => (a, Returned) end] =>
      destruct g as [a0|] eqn:Hg
  end; [|exact H].
  assert (Ha0 : effects a0 = effects a
                /\ rawTranscriptParts a0 = rawTranscriptParts a).
  { destruct (Num.ge _ _); [|destruct (_ <? _)]; inversion Hg; split;
      reflexivity. }
  destruct Ha0 as [He0 Hp0].
  set (a1 := deliverWhileLoopActive (asrArrivals env)
               (perform (asrCall deps audioSlice) a0)).
  set (a2 := updateAdaptiveWindow options _ _ _ a1).
  assert (He2 : effects a2 = effects a ++ [asrCall deps audioSlice]).
  { unfold a2, a1. rewrite effects_updateAdaptiveWindow,
      effects_deliverWhileLoopActive. cbn. rewrite He0. reflexivity. }
  assert (Hp2 : rawTranscriptParts a2 = rawTranscriptParts a).
  { unfold a2, a1. rewrite parts_updateAdaptiveWindow,
      parts_deliverWhileLoopActive. exact Hp0. }
  assert (Hnone : Typed base a2).
  { apply (Typed_extend base a a2 [asrCall deps audioSlice] H He2).
    - rewrite injectedTexts_asrCall, app_nil_r. exact Hp2.
    - apply dictationEvents_asrCall. }
  destruct (asrOutcome env) as [result|]; [|exact Hnone].
  repeat match goal with
  | |- context [if negb (truthy ?t) then _ else _] =>
      destruct (truthy t); cbn [negb]; [|exact Hnone]
  end.
  set (d := dedupeChunkAgainstLiveTranscript (liveInjectedText a2) _).
  apply (Typed_extend base a _ [asrCall deps audioSlice; CallInject d] H).
  - destruct (injectOutcome env); cbn [fst effects set_latencyTracker];
      rewrite effects_deliverWhileLoopActive; cbn; rewrite He2, <- app_assoc;
      reflexivity.
  - change [asrCall deps audioSlice; CallInject d]
      with ([asrCall deps audioSlice] ++ [CallInject d]).
    rewrite injectedTexts_app, injectedTexts_asrCall.
    destruct (injectOutcome env); cbn [fst rawTranscriptParts set_latencyTracker];
      rewrite parts_deliverWhileLoopActive; cbn; rewrite Hp2; reflexivity.
  - change [asrCall deps audioSlice; CallInject d]
      with ([asrCall deps audioSlice] ++ [CallInject d]).
    rewrite dictationEvents_app, dictationEvents_asrCall. reflexivity.
Qed.

Lemma Typed_field (set : App -> App) :
  (forall y, effects (set y) = effects y) ->
  (forall y, rawTranscriptParts (set y) = rawTranscriptParts y) ->
  forall a, Typed base a -> Typed base (set a).
Proof. intros H1 H2 a. apply Typed_same; auto. Qed.

Ltac typed_frame :=
  first [ exact Typed_takeNextAudioSlice
        | intros id audioSlice requestId b; apply Typed_processAudioSlice
        | intros v; apply Typed_field; reflexivity
        | intros now0 chunk0 b Hb _; revert b Hb; apply Typed_field;
          reflexivity ].

Lemma Typed_onChunk fuel now chunk a a' out :
  Typed base a ->
  onChunk log10 options deps world fuel now chunk a = Some (a', out) ->
  Typed base a'.
Proof. apply (frame_onChunk log10 options deps world (Typed base)); typed_frame. Qed.

Lemma Typed_deliver fuel arrivals a a' out :
  Typed base a ->
  deliver log10 options deps world fuel arrivals a = Some (a', out) ->
  Typed base a'.
Proof. apply (frame_deliver log10 options deps world (Typed base)); typed_frame. Qed.

Lemma Typed_waitForAsrDrain fuel a a' out :
  Typed base a ->
  waitForAsrDrain log10 options deps world fuel a = Some (a', out) ->
  Typed base a'.
Proof.
  apply (frame_waitForAsrDrain log10 options deps world (Typed base));
    typed_frame.
Qed.

Lemma Typed_perform e a :
  injectedTexts [e] = [] -> dictationEvents [e] = [] ->
  Typed base a -> Typed base (perform e a).
Proof.
  intros Hi Hd H. apply (Typed_extend base a _ [e] H); try assumption.
  - reflexivity.
  - rewrite Hi, app_nil_r. reflexivity.
Qed.

Lemma Typed_setState next a : Typed base a -> Typed base (setState next a).
Proof.
  intros H. unfold setState. apply Typed_perform; try reflexivity.
  apply (Typed_same base a); try reflexivity. exact H.
Qed.

Lemma Typed_processStreamFlush env a :
  Typed base a -> Typed base (fst (processStreamFlush options deps env a)).
Proof.
  intros H.
  assert (Hcall : Typed base (perform CallAsrFlushStream a))
    by (apply Typed_perform; [reflexivity | reflexivity | exact H]).
  unfold processStreamFlush.
  destruct (asrBackend options); try exact H.
  all: destruct (hasFlushStream deps); cbn [negb]; [|exact H].
  all: destruct (flushOutcome env) as [tailResult|]; [|exact Hcall].
  all: repeat match goal with
       | |- context [if negb (truthy ?t) then _ else _] =>
           destruct (truthy t); cbn [negb]; [|exact Hcall]
       end.
  all: eapply (Typed_extend base a _ [CallAsrFlushStream; CallInject _] H);
    [ cbn; rewrite <- app_assoc; reflexivity | reflexivity | reflexivity ].
Qed.

Lemma Reported_extend a a' new :
  Reported base a ->
  effects a' = effects a ++ new ->
  injectedTexts new = [] ->
  dictationEvents new = [] ->
  Reported base a'.
Proof.
  intros (added & He & Hd) He' Hi' Hd'. exists (added ++ new).
  rewrite He', He, <- app_assoc, injectedTexts_app, dictationEvents_app,
    Hi', Hd', !app_nil_r.
  split; [reflexivity | exact Hd].
Qed.

Lemma Reported_finishDictation env a :
  Typed base a -> Reported base (fst (finishDictation options deps env a)).
Proof.
  intros H. unfold finishDictation.
  assert (Hpass :
    (match asrBackend options with
     | parakeet_native =>
         if parakeetFinalPass options && (0 <? len (sessionAudioChunks (audio a)))
         then
           let a1 :=
             setState (mkState transcribing "Final native Parakeet pass") a in
           let fullAudio := concat (sessionAudioChunks (audio a1)) in
           let a2 := perform (CallAsrTranscribe fullAudio) a1 in
           match finalPassOutcome env with
           | None => (a2, normalizeRawTranscript (rawTranscriptParts a), Returned)
           | Some finalPass =>
               let finalRawTranscript := trim (asrText finalPass) in
               if truthy finalRawTranscript then
                 if negb (Js.eqb finalRawTranscript
                            (normalizeRawTranscript (rawTranscriptParts a)))
                    && hasReplaceRecentText deps
                 then
                   let a3 :=
                     setState
                       (mkState injecting "Applying final ASR correction") a2 in
                   let a4 :=
                     perform
                       (CallReplaceRecentText (trimEnd (liveInjectedText a3))
                          finalRawTranscript) a3 in
                   match finalReplaceOutcome env with
                   | Threw d =>
                       (a4, normalizeRawTranscript (rawTranscriptParts a), Threw d)
                   | Returned =>
                       (set_liveInjectedText (finalRawTranscript ++ [SP]) a4,
                        finalRawTranscript, Returned)
                   end
                 else (a2, finalRawTranscript, Returned)
               else (a2, normalizeRawTranscript (rawTranscriptParts a), Returned)
           end
         else (a, normalizeRawTranscript (rawTranscriptParts a), Returned)
     | _ => (a, normalizeRawTranscript (rawTranscriptParts a), Returned)
     end) = (a, normalizeRawTranscript (rawTranscriptParts a), Returned)).
  { rewrite no_final_pass. destruct (asrBackend options); reflexivity. }
  cbv zeta in Hpass |- *. rewrite Hpass. clear Hpass.
  destruct H as (added & He & Hi & Hd).
  set (raw := normalizeRawTranscript (rawTranscriptParts a)).
  destruct (truthy raw) eqn:Hraw; cbn [negb fst].
  2: { exists (added ++ [EmitStateChanged (mkState idle "No speech detected")]).
       cbn. rewrite He, <- app_assoc, dictationEvents_app, Hd.
       split; [reflexivity | left; reflexivity]. }
  set (finalText :=
         if truthy (trim match formatOutcome env with
                         | Some formatted => formatted
                         | None => raw
                         end)
         then trim match formatOutcome env with
                   | Some formatted => formatted
                   | None => raw
                   end
         else raw).
  assert (Hfinal : finalText <> []).
  { unfold finalText.
    destruct (truthy (trim _)) eqn:Ht; apply StringFacts.truthy_true; assumption. }
  assert (Hne : raw <> []) by (apply StringFacts.truthy_true; exact Hraw).
  destruct (negb (Js.eqb finalText raw) && hasReplaceRecentText deps).
  - destruct (formattedReplaceOutcome env); cbn [fst].
    + eexists (added ++ [_; _; _; _; _; _]). split.
      * cbn. rewrite He, <- !app_assoc. reflexivity.
      * right. eexists. rewrite dictationEvents_app, injectedTexts_app, Hd, Hi.
        cbn. rewrite app_nil_r.
        split; [reflexivity|]. split; [reflexivity|].
        split; [exact Hne | exact Hfinal].
    + eexists (added ++ [_; _; _; _]). split.
      * cbn. rewrite He, <- !app_assoc. reflexivity.
      * left. rewrite dictationEvents_app, Hd. reflexivity.
  - cbn [fst]. eexists (added ++ [_; _; _; _]). split.
    + cbn. rewrite He, <- !app_assoc. reflexivity.
    + right. eexists. rewrite dictationEvents_app, injectedTexts_app, Hd, Hi.
      cbn. rewrite app_nil_r.
      split; [reflexivity|]. split; [reflexivity|].
      split; [exact Hne | exact Hfinal].
Qed.

Lemma Reported_stopAndProcessTry fuel env a a' out :
  Typed base a ->
  stopAndProcessTry log10 options deps world fuel env a = Some (a', out) ->
  Reported base a'.
Proof.
  intros H Htry. unfold stopAndProcessTry in Htry. cbv zeta in Htry.
  assert (H0 : Typed base (perform CallRecorderStop (set_recordingActive false a))).
  { apply Typed_perform; [reflexivity | reflexivity |].
    apply (Typed_same base a); try reflexivity. exact H. }
  destruct (deliver log10 options deps world fuel (recorderStopArrivals env) _)
    as [[a1 [|d1]]|] eqn:Hdeliver; [| |discriminate].
  2: { inversion Htry; subst. apply Typed_Reported.
       eapply Typed_deliver; eassumption. }
  assert (H1 : Typed base a1) by (eapply Typed_deliver; eassumption).
  destruct (recorderStopOutcome env);
    [|inversion Htry; subst; apply Typed_Reported; exact H1].
  assert (H1' : Typed base
                  (setState (mkState transcribing "Draining audio queue")
                     (set_acceptingAudio false a1))).
  { apply Typed_setState. apply (Typed_same base a1); try reflexivity. exact H1. }
  destruct (waitForAsrDrain log10 options deps world fuel _)
    as [[a2 [|d2]]|] eqn:Hdrain; [| |discriminate].
  2: { inversion Htry; subst. apply Typed_Reported.
       eapply Typed_waitForAsrDrain; eassumption. }
  assert (H2 : Typed base a2) by (eapply Typed_waitForAsrDrain; eassumption).
  pose proof (Typed_processStreamFlush (flushEnv env) a2 H2) as Hflush.
  destruct (processStreamFlush options deps (flushEnv env) a2) as [a3 [|d3]];
    cbn [fst] in Hflush.
  - pose proof (Reported_finishDictation env a3 Hflush) as Hfinish.
    destruct (finishDictation options deps env a3) as [a4 o4].
    inversion Htry; subst. exact Hfinish.
  - inversion Htry; subst. apply Typed_Reported. exact Hflush.
Qed.

Lemma Reported_handlePushToTalkReleased fuel env a a' :
  Typed base a ->
  handlePushToTalkReleased log10 options deps world fuel env a = Some a' ->
  Reported base a'.
Proof.
  intros H Hrun. unfold handlePushToTalkReleased in Hrun.
  destruct (stage (state a));
    try (inversion Hrun; subst; apply Typed_Reported; exact H).
  destruct (stopInProgress a);
    [inversion Hrun; subst; apply Typed_Reported; exact H|].
  destruct (stopAndProcess log10 options deps world fuel env _)
    as [b|] eqn:Hstop; [|discriminate].
  inversion Hrun; subst. clear Hrun.
  unfold stopAndProcess in Hstop.
  destruct (stopAndProcessTry log10 options deps world fuel env _)
    as [[c out]|] eqn:Htry; [|discriminate].
  assert (Hc : Reported base c).
  { eapply Reported_stopAndProcessTry; [|exact Htry].
    apply (Typed_same base a); try reflexivity. exact H. }
  inversion Hstop; subst. clear Hstop.
  destruct out as [|d], (hasStopStream deps).
  - apply (Reported_extend c _ [CallAsrStopStream] Hc); reflexivity.
  - apply (Reported_extend c _ [] Hc); try reflexivity.
    cbn. rewrite app_nil_r. reflexivity.
  - apply (Reported_extend c _
             [EmitStateChanged {| stage := error; detail := Some d |};
              CallAsrStopStream] Hc); try reflexivity.
    cbn. rewrite <- app_assoc. reflexivity.
  - apply (Reported_extend c _
             [EmitStateChanged {| stage := error; detail := Some d |}] Hc);
      reflexivity.
Qed.

Lemma Reported_chunks_then_release fuel stopEnv arrivals : forall a a' out,
  Typed base a ->
  runSession log10 options deps world fuel
    (chunkEvents arrivals ++ [Released stopEnv]) a = Some (a', out) ->
  Reported base a'.
Proof.
  induction arrivals as [|[now chunk] rest IH]; intros a a' out H Hrun.
  - cbn [chunkEvents map app runSession sessionStep] in Hrun.
    destruct (handlePushToTalkReleased log10 options deps world fuel stopEnv a)
      as [b|] eqn:Hreleased; [|discriminate].
    inversion Hrun; subst.
    eapply Reported_handlePushToTalkReleased; eassumption.
  - cbn [chunkEvents map app runSession sessionStep fst snd] in Hrun.
    destruct (onChunk log10 options deps world fuel now chunk a)
      as [[b [|d]]|] eqn:Hchunk; [| |discriminate].
    + eapply IH; [|exact Hrun]. eapply Typed_onChunk; eassumption.
    + inversion Hrun; subst. apply Typed_Reported.
      eapply Typed_onChunk; eassumption.
Qed.

End Transcript.

Section Session.

Variable log10 : float -> float.
Variable options : DingoFlowLatencyOptions.
Variable deps : Deps.
Variable world : Z -> SliceEnv.

Lemma Typed_handlePushToTalkPressed env a :
  stage (state a) = idle \/ stage (state a) = error ->
  Typed (effects a) (handlePushToTalkPressed options deps env a).
Proof.
  intros Hstage. unfold handlePushToTalkPressed.
  assert (Hstart :
    forall b out, startRecording options deps env a = (b, out) ->
    Typed (effects a)
      match out with
      | Returned => b
      | Threw d => setState {| stage := error; detail := Some d |} b
      end).
  { intros b out Hb. unfold startRecording in Hb.
    destruct (recorderStartOutcome env).
    - destruct (hasStartStream deps); [destruct (asrStartStreamOutcome env)|];
        inversion Hb; subst; eexists; cbn;
        (split; [rewrite <- ?app_assoc; reflexivity|]); split; reflexivity.
    - inversion Hb; subst; eexists; cbn;
        (split; [rewrite <- ?app_assoc; reflexivity|]); split; reflexivity. }
  destruct (startRecording options deps env a) as [b out] eqn:Hb.
  specialize (Hstart b out eq_refl).
  destruct Hstage as [-> | ->]; destruct out; exact Hstart.
Qed.

(** X18. The transcript reported is the text typed.  In a dictation
    without final pass (a press from the idle or the error stage, chunk
    deliveries, a release), whatever the audio, the ASR answers and the
    failures: at most one [dictationCompleted] event is emitted, and its
    raw transcript is the concatenation of the texts passed to [inject]
    during the dictation, in order, normalised as [stopAndProcess] does;
    it is not empty, and neither is the formatted text. *)
Theorem reported_transcript_is_the_typed_text
  (startEnv : StartEnv) (arrivals : list (Z * Buffer)) (stopEnv : StopEnv)
  (fuel : nat) (a0 a : App) (out : Outcome)
  (Hfinal : parakeetFinalPass options = false)
  (Hstage : stage (state a0) = idle \/ stage (state a0) = error)
  (Hrun : runSession log10 options deps world fuel
            (session startEnv arrivals stopEnv) a0 = Some (a, out)) :
  exists added,
    effects a = effects a0 ++ added
    /\ (dictationEvents added = []
        \/ exists r,
             dictationEvents added = [r]
             /\ rawTranscript r = normalizeRawTranscript (injectedTexts added)
             /\ rawTranscript r <> []
             /\ formattedText r <> []).
Proof.
  unfold session in Hrun. cbn [runSession sessionStep] in Hrun.
  eapply (Reported_chunks_then_release log10 options deps world Hfinal
            (effects a0)); [|exact Hrun].
  apply Typed_handlePushToTalkPressed. exact Hstage.
Qed.

End Session.

(** The session that types [hello]. *)
Lemma reported_transcript_is_the_typed_text_witness :
  exists a out added,
    runSession Examples.log10Approx DEFAULT_LATENCY_OPTIONS Examples.fullDeps
      GateSpec.helloWorld 3202
      (session okStart GateSpec.loud100ms okStop)
      (new DEFAULT_LATENCY_OPTIONS)
    = Some (a, out)
    /\ effects a = effects (new DEFAULT_LATENCY_OPTIONS) ++ added
    /\ (dictationEvents added = []
        \/ exists r,
             dictationEvents added = [r]
             /\ rawTranscript r = normalizeRawTranscript (injectedTexts added)
             /\ rawTranscript r <> []
             /\ formattedText r <> []).
Proof.
  eexists. eexists.
  destruct (reported_transcript_is_the_typed_text
              Examples.log10Approx DEFAULT_LATENCY_OPTIONS Examples.fullDeps
              GateSpec.helloWorld okStart GateSpec.loud100ms okStop 3202
              (new DEFAULT_LATENCY_OPTIONS) _ Returned
              eq_refl (or_introl eq_refl)
              ltac:(vm_compute; reflexivity)) as (added & He & Hd).
  exists added. split; [vm_compute; reflexivity|]. split; [exact He | exact Hd].
Defined.

End TranscriptFacts.

Module LifetimeFacts.

Import DingoFlowApp SessionSpec.

(** X19. What holds throughout the life of the orchestrator.  With
    [minAsrWindowMs <= normalAsrWindowMs <= maxAsrWindowMs], after any
    sequence of presses, chunk deliveries and releases handled from
    construction: the pending-byte counter is the number of unread bytes
    in the queue, the dynamic window lies between the minimum and the
    maximum window, and every text that has been passed to [inject] is
    non-empty and ends in whitespace. *)
Theorem counter_window_and_spacing_hold_between_events
  (log10 : float -> float) (options : DingoFlowLatencyOptions) (deps : Deps)
  (world : Z -> SliceEnv)
  (Hlow : minAsrWindowMs options <= normalAsrWindowMs options)
  (Hhigh : normalAsrWindowMs options <= maxAsrWindowMs options)
  (fuel : nat) (evs : list SessionEvent) (a : App) (out : Outcome)
  (Hrun : runSession log10 options deps world fuel evs (new options)
          = Some (a, out)) :
  SessionInv options a.
Proof.
  eapply (InvariantFacts.session_invariant log10 options deps world Hlow Hhigh);
    [|exact Hrun].
  apply InvariantFacts.SessionInv_new; assumption.
Qed.

Lemma counter_window_and_spacing_hold_between_events_witness :
  exists a out,
    runSession Examples.log10Approx DEFAULT_LATENCY_OPTIONS Examples.fullDeps
      GateSpec.helloWorld 3202
      (session okStart GateSpec.loud100ms okStop ++
       session okStart GateSpec.loud100ms okStop)
      (new DEFAULT_LATENCY_OPTIONS)
    = Some (a, out)
    /\ SessionInv DEFAULT_LATENCY_OPTIONS a.
Proof.
  eexists. eexists. split; [vm_compute; reflexivity|].
  apply (counter_window_and_spacing_hold_between_events
           Examples.log10Approx DEFAULT_LATENCY_OPTIONS Examples.fullDeps
           GateSpec.helloWorld
           ltac:(vm_compute; discriminate) ltac:(vm_compute; discriminate)
           3202
           (session okStart GateSpec.loud100ms okStop ++
            session okStart GateSpec.loud100ms okStop) _ Returned).
  vm_compute. reflexivity.
Defined.

End LifetimeFacts.

Module RecorderFacts.

Import RecorderBuffer RecorderSpec.
Import QueueFacts.

Lemma unread_cons (head : Buffer) (rest : list Buffer) offset :
  0 <= offset <= len head ->
  unread (head :: rest) offset = skipn (Z.to_nat offset) head ++ concat rest.
Proof.
  intros H. unfold unread. cbn [concat].
  rewrite skipn_app.
  replace (Z.to_nat offset - length head)%nat with 0%nat
    by (unfold len in H; lia).
  reflexivity.
Qed.

Lemma unread_zero (chunks : list Buffer) : unread chunks 0 = concat chunks.
Proof. reflexivity. Qed.

Lemma recorder_readStep_inv byteCount headChunk rest st :
  writeOffset st < byteCount ->
  chunks st = headChunk :: rest ->
  ReadInv byteCount st ->
  Forall (fun c => 0 < len c) (chunks st) ->
  ReadInv byteCount (readStep byteCount headChunk rest st)
  /\ Forall (fun c => 0 < len c) (chunks (readStep byteCount headChunk rest st))
  /\ output (readStep byteCount headChunk rest st)
       ++ unread (chunks (readStep byteCount headChunk rest st))
            (chunkOffset (readStep byteCount headChunk rest st))
     = output st ++ unread (chunks st) (chunkOffset st).
Proof.
  intros Hlt Hq [Hh Hp Hw Hb] Hpos. rewrite Hq in Hh, Hp, Hpos.
  cbn [headOk] in Hh.
  inversion Hpos as [|? ? Hhead Hrest]; subst.
  set (toCopy := Z.min (len headChunk - chunkOffset st)
                       (byteCount - writeOffset st)).
  assert (HtoCopy : 0 < toCopy <= len headChunk - chunkOffset st)
    by (unfold toCopy; lia).
  assert (Hsplit :
    slice (chunkOffset st) (chunkOffset st + toCopy) headChunk
      ++ unread (if len headChunk <=? chunkOffset st + toCopy
                 then rest else headChunk :: rest)
           (if len headChunk <=? chunkOffset st + toCopy
            then 0 else chunkOffset st + toCopy)
    = unread (headChunk :: rest) (chunkOffset st)).
  { rewrite (unread_cons headChunk rest (chunkOffset st)) by lia.
    rewrite <- (slice_then_skipn headChunk (chunkOffset st) toCopy) by lia.
    rewrite <- app_assoc. f_equal.
    destruct (Z.leb_spec (len headChunk) (chunkOffset st + toCopy)).
    - rewrite skipn_len_nil by lia. reflexivity.
    - rewrite unread_cons by lia. reflexivity. }
  unfold readStep. fold toCopy.
  cbn [chunks output writeOffset pending chunkOffset].
  split; [|split].
  - constructor; cbn [chunks output writeOffset pending chunkOffset].
    + destruct (Z.leb_spec (len headChunk) (chunkOffset st + toCopy)).
      * destruct rest as [|next rest']; cbn [headOk]; [reflexivity|].
        inversion Hrest; subst. lia.
      * cbn [headOk]. lia.
    + apply (f_equal len) in Hsplit. rewrite len_app, len_slice in Hsplit by lia.
      lia.
    + rewrite len_app, len_slice by lia. lia.
    + unfold toCopy. lia.
  - destruct (Z.leb_spec (len headChunk) (chunkOffset st + toCopy));
      [assumption | constructor; assumption].
  - rewrite Hq, <- app_assoc. f_equal. exact Hsplit.
Qed.

Lemma recorder_readLoop_inv byteCount st :
  ReadInv byteCount st ->
  Forall (fun c => 0 < len c) (chunks st) ->
  ReadInv byteCount (readLoop byteCount st)
  /\ Forall (fun c => 0 < len c) (chunks (readLoop byteCount st))
  /\ output (readLoop byteCount st)
       ++ unread (chunks (readLoop byteCount st))
            (chunkOffset (readLoop byteCount st))
     = output st ++ unread (chunks st) (chunkOffset st).
Proof.
  funelim (readLoop byteCount st); intros Hinv Hpos.
  - split; [assumption | split; [assumption | reflexivity]].
  - split; [assumption | split; [assumption | reflexivity]].
  - pose proof (proj1 (Z.ltb_lt _ _) Hlt) as Hlt'.
    destruct (recorder_readStep_inv byteCount headChunk rest st Hlt' Hq Hinv Hpos)
      as (Hi & Hp & He).
    destruct (H Hi Hp) as (Hi' & Hp' & He').
    split; [assumption | split; [assumption|]]. rewrite He'. exact He.
Qed.

Lemma recorder_readLoop_exit byteCount st :
  byteCount <= writeOffset (readLoop byteCount st)
  \/ chunks (readLoop byteCount st) = [].
Proof.
  funelim (readLoop byteCount st).
  - left. apply Z.ltb_ge. assumption.
  - right. assumption.
  - assumption.
Qed.

(** A read that is granted returns exactly the bytes asked for: the first
    [byteCount] unread bytes. *)
Lemma readPendingBytes_some byteCount r :
  Framed r -> 0 < byteCount <= pendingBytes r ->
  exists out r',
    readPendingBytes byteCount r = (Some out, r')
    /\ Framed r'
    /\ len out = byteCount
    /\ out ++ unread (pendingChunks r') (pendingChunkOffset r')
       = unread (pendingChunks r) (pendingChunkOffset r)
    /\ pendingBytes r' = pendingBytes r - byteCount
    /\ chunkByteSize r' = chunkByteSize r
    /\ onChunk r' = onChunk r
    /\ process r' = process r.
Proof.
  intros [[Hh Hp] Hpos] [H0 Hle]. unfold readPendingBytes.
  destruct (Z.leb_spec byteCount 0); [lia|].
  destruct (Z.ltb_spec (pendingBytes r) byteCount); [lia|].
  cbn [orb].
  set (st0 := {| output := []; writeOffset := 0;
                 chunks := pendingChunks r;
                 chunkOffset := pendingChunkOffset r;
                 pending := pendingBytes r |}).
  assert (Hinv0 : ReadInv byteCount st0)
    by (split; cbn; [assumption | assumption | reflexivity | lia]).
  destruct (recorder_readLoop_inv byteCount st0 Hinv0 Hpos)
    as ([Hh' Hp' Hw' Hb'] & Hpos' & He).
  cbn [output chunks chunkOffset st0 app] in He.
  assert (Hfull : writeOffset (readLoop byteCount st0) = byteCount).
  { destruct (recorder_readLoop_exit byteCount st0) as [Hx|Hx]; [lia|].
    rewrite Hx in Hh', He. cbn [headOk] in Hh'. rewrite Hh' in He.
    rewrite unread_zero in He. cbn [concat] in He. rewrite app_nil_r in He.
    rewrite He in Hw'. rewrite Hw', <- Hp. lia. }
  eexists. eexists. split; [reflexivity|].
  cbn [pendingChunks pendingChunkOffset pendingBytes chunkByteSize onChunk process].
  split; [split; [split|]; assumption|].
  split; [lia|]. split; [exact He|].
  split; [|repeat split].
  apply (f_equal len) in He. rewrite len_app in He. lia.
Qed.


Lemma Forall_len_app (n : Z) (l1 l2 : list Buffer) :
  Forall (fun c => len c = n) l1 -> Forall (fun c => len c = n) l2 ->
  Forall (fun c => len c = n) (l1 ++ l2).
Proof. intros H1 H2. apply Forall_app. split; assumption. Qed.

(** The emit loop hands out whole chunks until fewer than [chunkByteSize]
    bytes are left. *)
Lemma emitLoop_frames fuel : forall r emitted,
  Framed r -> 0 < chunkByteSize r ->
  (Z.to_nat (pendingBytes r) < fuel)%nat ->
  exists r' out,
    emitLoop fuel r emitted = Some (r', emitted ++ out)
    /\ Framed r'
    /\ Forall (fun c => len c = chunkByteSize r) out
    /\ concat out ++ unread (pendingChunks r') (pendingChunkOffset r')
       = unread (pendingChunks r) (pendingChunkOffset r)
    /\ pendingBytes r' < chunkByteSize r
    /\ chunkByteSize r' = chunkByteSize r
    /\ onChunk r' = onChunk r
    /\ process r' = process r.
Proof.
  induction fuel as [|fuel IH]; intros r emitted Hinv Hsize Hfuel; [lia|].
  cbn [emitLoop].
  destruct (Z.leb_spec (chunkByteSize r) (pendingBytes r)) as [Hge|Hlt].
  - destruct (readPendingBytes_some (chunkByteSize r) r Hinv)
      as (out & r1 & Hread & Hinv1 & Hlen & Hcat & Hpend & Hcs & Hon & Hproc);
      [lia|].
    rewrite Hread.
    destruct (IH r1 (emitted ++ [out]) Hinv1) as
      (r2 & outs & Hloop & Hinv2 & Hall & Hcat2 & Hlt2 & Hcs2 & Hon2 & Hproc2);
      [lia | lia |].
    exists r2, (out :: outs). rewrite Hloop, <- app_assoc. cbn [app].
    split; [reflexivity|]. split; [assumption|].
    split; [constructor; [assumption | rewrite <- Hcs; assumption]|].
    split; [cbn [concat]; rewrite <- app_assoc, Hcat2; exact Hcat|].
    repeat split; try (congruence || lia).
  - exists r, []. rewrite app_nil_r.
    split; [reflexivity|]. split; [assumption|].
    split; [constructor|]. repeat split; try reflexivity. lia.
Qed.

Lemma unread_snoc (chunks : list Buffer) (chunk : Buffer) offset :
  0 <= offset <= len (concat chunks) ->
  unread (chunks ++ [chunk]) offset = unread chunks offset ++ chunk.
Proof.
  intros H. unfold unread. rewrite concat_app. cbn [concat].
  rewrite app_nil_r, skipn_app.
  replace (Z.to_nat offset - length (concat chunks))%nat with 0%nat
    by (unfold len in H; lia).
  reflexivity.
Qed.

Lemma headOk_bound (chunks : list Buffer) offset :
  headOk chunks offset -> 0 <= offset <= len (concat chunks).
Proof.
  destruct chunks as [|head rest]; cbn [headOk concat].
  - intros ->. cbn. lia.
  - intros H. rewrite len_app. pose proof (len_nonneg (concat rest)). lia.
Qed.

Lemma push_Framed chunk r :
  Framed r -> 0 < len chunk ->
  Framed {| process := process r; onChunk := onChunk r;
            pendingChunks := pendingChunks r ++ [chunk];
            pendingChunkOffset := pendingChunkOffset r;
            pendingBytes := pendingBytes r + len chunk;
            chunkByteSize := chunkByteSize r |}.
Proof.
  intros [[Hh Hp] Hpos] Hlen. split; [split|];
    cbn [pendingChunks pendingChunkOffset pendingBytes].
  - destruct (pendingChunks r) as [|head rest]; cbn [headOk app] in *; lia.
  - rewrite unread_snoc by (apply headOk_bound; assumption).
    rewrite len_app. lia.
  - apply Forall_app. split; [assumption | constructor; [assumption | constructor]].
Qed.

Lemma handleAudioData_frames fuel chunk r :
  Framed r -> 0 < chunkByteSize r -> onChunk r = true ->
  (Z.to_nat (pendingBytes r + len chunk) < fuel)%nat ->
  exists r' out,
    handleAudioData fuel chunk r = Some (r', out)
    /\ Framed r'
    /\ Forall (fun c => len c = chunkByteSize r) out
    /\ concat out ++ unread (pendingChunks r') (pendingChunkOffset r')
       = unread (pendingChunks r) (pendingChunkOffset r) ++ chunk
    /\ pendingBytes r' < Z.max (chunkByteSize r) (pendingBytes r + 1)
    /\ chunkByteSize r' = chunkByteSize r
    /\ onChunk r' = onChunk r
    /\ process r' = process r.
Proof.
  intros Hinv Hsize Hon Hfuel. unfold handleAudioData.
  replace (negb (onChunk r)) with false by (rewrite Hon; reflexivity).
  destruct (Z.leb_spec (chunkByteSize r) 0); [lia|].
  cbn [orb]. rewrite orb_false_r.
  destruct (Z.eqb_spec (len chunk) 0) as [Hz|Hnz].
  - exists r, []. split; [reflexivity|]. split; [assumption|].
    split; [constructor|].
    assert (chunk = []) as -> by (destruct chunk; [reflexivity | discriminate]).
    rewrite app_nil_r. repeat split; try reflexivity; try assumption. lia.
  - pose proof (len_nonneg chunk) as Hnn.
    destruct (emitLoop_frames fuel _ [] (push_Framed chunk r Hinv ltac:(lia)))
      as (r' & out & Hloop & Hinv' & Hall & Hcat & Hlt & Hcs & Hon' & Hproc);
      cbn [chunkByteSize pendingBytes pendingChunks pendingChunkOffset
           onChunk process] in *; [lia | lia |].
    exists r', out. split; [exact Hloop|]. split; [assumption|].
    split; [assumption|].
    split; [rewrite Hcat; apply unread_snoc, headOk_bound, Hinv|].
    repeat split; try assumption; try congruence. lia.
Qed.

Lemma started_Framed ms : Framed (started ms).
Proof. split; [split|]; cbn; [reflexivity | reflexivity | constructor]. Qed.

Lemma chunkBytes_pos ms : 0 < Capture.chunkBytes ms.
Proof. unfold Capture.chunkBytes. lia. Qed.

Lemma feed_frames fuel datas : forall r,
  Framed r -> 0 < chunkByteSize r -> onChunk r = true ->
  pendingBytes r < chunkByteSize r ->
  (Z.to_nat (chunkByteSize r + len (concat datas)) < fuel)%nat ->
  exists r' out,
    feed fuel datas r = Some (r', out)
    /\ Framed r'
    /\ Forall (fun c => len c = chunkByteSize r) out
    /\ concat out ++ unread (pendingChunks r') (pendingChunkOffset r')
       = unread (pendingChunks r) (pendingChunkOffset r) ++ concat datas
    /\ pendingBytes r' < chunkByteSize r
    /\ chunkByteSize r' = chunkByteSize r
    /\ onChunk r' = onChunk r
    /\ process r' = process r.
Proof.
  induction datas as [|chunk datas IH]; intros r Hinv Hsize Hon Hlt Hfuel.
  - exists r, []. cbn [feed concat app]. rewrite app_nil_r.
    split; [reflexivity|]. split; [assumption|]. split; [constructor|].
    split; [reflexivity|]. repeat split; try reflexivity; assumption.
  - cbn [feed]. cbn [concat] in Hfuel. rewrite len_app in Hfuel.
    pose proof (len_nonneg chunk). pose proof (len_nonneg (concat datas)).
    destruct (handleAudioData_frames fuel chunk r Hinv Hsize Hon)
      as (r1 & out1 & Hh & Hinv1 & Hall1 & Hcat1 & Hlt1 & Hcs1 & Hon1 & Hp1);
      [lia|].
    rewrite Hh.
    destruct (IH r1 Hinv1) as
      (r2 & out2 & Hf & Hinv2 & Hall2 & Hcat2 & Hlt2 & Hcs2 & Hon2 & Hp2);
      [lia | congruence | lia | lia |].
    rewrite Hf. exists r2, (out1 ++ out2).
    split; [reflexivity|]. split; [assumption|].
    split; [apply Forall_len_app; [assumption | rewrite <- Hcs1; assumption]|].
    split.
    { rewrite concat_app, <- app_assoc, Hcat2, app_assoc, Hcat1.
      cbn [concat]. rewrite <- app_assoc. reflexivity. }
    repeat split; try (congruence || lia).
Qed.

(** X1. Re-framing by the recorders.  After [startStreaming] with any chunk
    duration, whatever the sizes of the buffers that arrive from the child
    process, every buffer passed to [onChunk] has exactly [chunkByteSize]
    bytes, the buffers passed so far followed by the bytes still pending
    are the bytes received, in order, and fewer than [chunkByteSize] bytes
    stay pending. *)
Theorem recorder_emits_whole_chunks_in_order
  (chunkDurationMs : Z) (datas : list Buffer) (fuel : nat)
  (Hfuel : (Z.to_nat (Capture.chunkBytes chunkDurationMs + len (concat datas))
            < fuel)%nat) :
  exists r emitted,
    feed fuel datas (started chunkDurationMs) = Some (r, emitted)
    /\ Forall (fun c => len c = Capture.chunkBytes chunkDurationMs) emitted
    /\ concat emitted ++ unread (pendingChunks r) (pendingChunkOffset r)
       = concat datas
    /\ pendingBytes r = len (unread (pendingChunks r) (pendingChunkOffset r))
    /\ 0 <= pendingBytes r < Capture.chunkBytes chunkDurationMs.
Proof.
  pose proof (chunkBytes_pos chunkDurationMs) as Hpos.
  destruct (feed_frames fuel datas (started chunkDurationMs)
              (started_Framed chunkDurationMs))
    as (r & out & Hf & [[Hh Hp] Hne] & Hall & Hcat & Hlt & _);
    cbn [started chunkByteSize pendingBytes onChunk] in *;
    [lia | reflexivity | lia | exact Hfuel |].
  exists r, out. split; [exact Hf|]. split; [exact Hall|].
  split; [exact Hcat|]. split; [exact Hp|].
  rewrite Hp. pose proof (len_nonneg (unread (pendingChunks r) (pendingChunkOffset r))).
  lia.
Qed.

(** Buffers of 1000 and 500 bytes with chunks of 20 ms (640 bytes). *)
Lemma recorder_emits_whole_chunks_in_order_witness :
  exists r emitted,
    feed 4000 [Examples.zeros 1000; Examples.zeros 500] (started 20)
    = Some (r, emitted)
    /\ Forall (fun c => len c = Capture.chunkBytes 20) emitted
    /\ concat emitted ++ unread (pendingChunks r) (pendingChunkOffset r)
       = concat [Examples.zeros 1000; Examples.zeros 500]
    /\ pendingBytes r = len (unread (pendingChunks r) (pendingChunkOffset r))
    /\ 0 <= pendingBytes r < Capture.chunkBytes 20.
Proof.
  apply (recorder_emits_whole_chunks_in_order 20
           [Examples.zeros 1000; Examples.zeros 500] 4000).
  apply Nat.ltb_lt. vm_compute. reflexivity.
Defined.

Lemma flushPendingTailChunk_spec r :
  Framed r -> onChunk r = true -> 0 < chunkByteSize r ->
  exists r' tail lost,
    flushPendingTailChunk r = (r', tail)
    /\ concat tail ++ lost = unread (pendingChunks r) (pendingChunkOffset r)
    /\ 2 * len lost < chunkByteSize r
    /\ (chunkByteSize r / 2 <= pendingBytes r -> lost = [])
    /\ (pendingBytes r < chunkByteSize r / 2 -> tail = [])
    /\ Forall (fun c => 0 < len c) tail
    /\ chunkByteSize r' = chunkByteSize r
    /\ process r' = process r.
Proof.
  intros Hinv Hon Hsize. unfold flushPendingTailChunk. rewrite Hon. cbn [negb orb].
  pose proof Hinv as [[Hh Hp] Hne].
  pose proof (len_nonneg (unread (pendingChunks r) (pendingChunkOffset r))) as Hnn.
  destruct (Z.ltb_spec (pendingBytes r) (chunkByteSize r / 2)) as [Hlt|Hge].
  - exists r, [], (unread (pendingChunks r) (pendingChunkOffset r)).
    split; [reflexivity|]. split; [reflexivity|].
    split; [rewrite <- Hp;
            pose proof (Z.mul_div_le (chunkByteSize r) 2 ltac:(lia)); lia|].
    split; [lia|]. repeat split. constructor.
  - destruct (Z.eq_dec (pendingBytes r) 0) as [Hz|Hnz].
    + unfold readPendingBytes. rewrite Hz. cbn [Z.leb orb Z.compare].
      exists r, [], []. split; [reflexivity|].
      assert (unread (pendingChunks r) (pendingChunkOffset r) = []) as ->.
      { rewrite Hz in Hp.
        destruct (unread _ _); [reflexivity | discriminate]. }
      change (len (@nil Byte.byte)) with 0.
      split; [reflexivity|]. split; [lia|]. split; [reflexivity|].
      split; [reflexivity|]. split; [constructor|]. split; reflexivity.
    + destruct (readPendingBytes_some (pendingBytes r) r Hinv)
        as (out & r1 & Hread & Hinv1 & Hlen & Hcat & Hpend & Hcs & Hon1 & Hproc);
        [lia|].
      rewrite Hread. exists r1, [out], [].
      destruct Hinv1 as [[Hh1 Hp1] _].
      assert (unread (pendingChunks r1) (pendingChunkOffset r1) = []) as Hnil.
      { destruct (unread (pendingChunks r1) (pendingChunkOffset r1)) as [|b l];
          [reflexivity|].
        unfold len in Hp1. cbn [length] in Hp1. lia. }
      rewrite Hnil, app_nil_r in Hcat.
      split; [reflexivity|]. cbn [concat]. rewrite !app_nil_r.
      split; [exact Hcat|]. cbn [len length]. 
      split; [change (len (@nil Byte.byte)) with 0; lia|].
      split; [reflexivity|]. split; [lia|].
      split; [constructor; [lia | constructor]|]. split; assumption.
Qed.

(** X2. What [stop] does with the remainder.  When the child process
    closes normally, the recorder passes the pending bytes to [onChunk]
    as one last, shorter buffer if they amount to at least half a chunk
    ([Math.floor(chunkByteSize / 2)] bytes) and discards them otherwise; so
    the buffers passed to [onChunk] over the whole capture are the bytes
    received, in order, except for a discarded tail of less than half a
    chunk; afterwards nothing is pending and no callback is set. *)
Theorem recorder_stop_keeps_all_but_a_short_tail
  (chunkDurationMs : Z) (datas : list Buffer) (fuel : nat)
  (Hfuel : (Z.to_nat (Capture.chunkBytes chunkDurationMs + len (concat datas))
            < fuel)%nat) :
  exists r emitted r' tail lost,
    feed fuel datas (started chunkDurationMs) = Some (r, emitted)
    /\ stop Returned r = (r', tail, Returned)
    /\ concat (emitted ++ tail) ++ lost = concat datas
    /\ 2 * len lost < Capture.chunkBytes chunkDurationMs
    /\ (Capture.chunkBytes chunkDurationMs / 2 <= pendingBytes r -> lost = [])
    /\ (pendingBytes r < Capture.chunkBytes chunkDurationMs / 2 -> tail = [])
    /\ process r' = false /\ onChunk r' = false
    /\ pendingChunks r' = [] /\ pendingChunkOffset r' = 0
    /\ pendingBytes r' = 0.
Proof.
  pose proof (chunkBytes_pos chunkDurationMs) as Hpos.
  destruct (feed_frames fuel datas (started chunkDurationMs)
              (started_Framed chunkDurationMs))
    as (r & out & Hf & Hinv & Hall & Hcat & Hlt & Hcs & Hon & Hproc);
    cbn [started chunkByteSize pendingBytes onChunk process] in *;
    [lia | reflexivity | lia | exact Hfuel |].
  assert (Hflush : exists r' tail lost,
            stop Returned r = (r', tail, Returned)
            /\ concat tail ++ lost
               = unread (pendingChunks r) (pendingChunkOffset r)
            /\ 2 * len lost < chunkByteSize r
            /\ (chunkByteSize r / 2 <= pendingBytes r -> lost = [])
            /\ (pendingBytes r < chunkByteSize r / 2 -> tail = [])
            /\ process r' = false /\ onChunk r' = false
            /\ pendingChunks r' = [] /\ pendingChunkOffset r' = 0
            /\ pendingBytes r' = 0).
  { unfold stop. rewrite Hproc. cbn [negb].
    match goal with
    | |- context [flushPendingTailChunk ?x] =>
        destruct (flushPendingTailChunk_spec x) as
          (r' & tail & lost & Hflush & Hcat' & Hlost & Hfull & Hshort & _ & _
           & Hproc');
        [ destruct Hinv as [[Hh Hp] Hne]; split; [split|]; assumption
        | exact Hon | cbn [chunkByteSize]; lia |]
    end.
    rewrite Hflush. eexists. exists tail, lost.
    split; [reflexivity|].
    cbn [chunkByteSize pendingBytes pendingChunks pendingChunkOffset
         process onChunk] in *.
    split; [exact Hcat'|]. split; [exact Hlost|]. split; [exact Hfull|].
    split; [exact Hshort|]. split; [exact Hproc'|]. repeat split. }
  destruct Hflush as (r' & tail & lost & Hstop & Hcat' & Hlost & Hfull & Hshort
                      & Hreset).
  rewrite Hcs in *.
  exists r, out, r', tail, lost.
  split; [exact Hf|]. split; [exact Hstop|].
  split; [rewrite concat_app, <- app_assoc, Hcat'; exact Hcat|].
  split; [exact Hlost|]. split; [exact Hfull|]. split; [exact Hshort|].
  exact Hreset.
Qed.

Lemma recorder_stop_keeps_all_but_a_short_tail_witness :
  exists r emitted r' tail lost,
    feed 4000 [Examples.zeros 1000; Examples.zeros 500] (started 20)
    = Some (r, emitted)
    /\ stop Returned r = (r', tail, Returned)
    /\ concat (emitted ++ tail) ++ lost
       = concat [Examples.zeros 1000; Examples.zeros 500]
    /\ 2 * len lost < Capture.chunkBytes 20
    /\ (Capture.chunkBytes 20 / 2 <= pendingBytes r -> lost = [])
    /\ (pendingBytes r < Capture.chunkBytes 20 / 2 -> tail = [])
    /\ process r' = false /\ onChunk r' = false
    /\ pendingChunks r' = [] /\ pendingChunkOffset r' = 0
    /\ pendingBytes r' = 0.
Proof.
  apply (recorder_stop_keeps_all_but_a_short_tail 20
           [Examples.zeros 1000; Examples.zeros 500] 4000).
  apply Nat.ltb_lt. vm_compute. reflexivity.
Defined.

End RecorderFacts.

Module FramedFacts.

Import PersistentFramedWorker FramedSpec.
Import QueueFacts.

Lemma byteValue_byteOfZ z : byteValue (byteOfZ z) = z mod 256.
Proof.
  unfold byteValue, byteOfZ.
  assert (Hr : 0 <= z mod 256 < 256) by (apply Z.mod_pos_bound; lia).
  destruct (Byte.of_N (Z.to_N (z mod 256))) as [b|] eqn:E.
  - apply Byte.to_of_N in E. rewrite E. lia.
  - apply Byte.of_N_None_iff in E. lia.
Qed.

(** A length written by [writeUInt32LE] is read back by [readUInt32LE]. *)
Lemma readUInt32LE_writeUInt32LE value rest :
  0 <= value < 4294967296 ->
  readUInt32LE (writeUInt32LE value ++ rest) = value.
Proof.
  intros H. unfold writeUInt32LE, readUInt32LE. cbn [app].
  rewrite !byteValue_byteOfZ.
  pose proof (Z.div_mod value 256 ltac:(lia)).
  pose proof (Z.div_mod (value / 256) 256 ltac:(lia)).
  pose proof (Z.div_mod (value / 256 / 256) 256 ltac:(lia)).
  replace (value / 65536) with (value / 256 / 256)
    by (rewrite Z.div_div by lia; reflexivity).
  replace (value / 16777216) with (value / 256 / 256 / 256)
    by (rewrite !Z.div_div by lia; reflexivity).
  assert (value / 256 / 256 / 256 < 256).
  { apply Z.div_lt_upper_bound; [lia|].
    apply Z.div_lt_upper_bound; [lia|].
    apply Z.div_lt_upper_bound; lia. }
  assert (0 <= value / 256 / 256 / 256).
  { repeat (apply Z.div_pos; [|lia]). lia. }
  rewrite (Z.mod_small (value / 256 / 256 / 256)) by lia.
  lia.
Qed.

Lemma len_writeUInt32LE value : len (writeUInt32LE value) = 4.
Proof. reflexivity. Qed.

Section Stream.

Variable Json : Type.
Variable parse : Buffer -> Parsed Json.
Variable name : jsstring.

Lemma header_of_frame (json buf more : Buffer) :
  0 <= len json < 4294967296 ->
  buf ++ more = responseFrame json -> 4 <= len buf ->
  readUInt32LE buf = len json.
Proof.
  intros Hrange Hsplit Hge.
  assert (Hb : buf = writeUInt32LE (len json) ++ skipn 4 buf).
  { unfold responseFrame in Hsplit.
    rewrite <- (firstn_skipn 4 buf) at 1.
    f_equal.
    apply (f_equal (firstn 4)) in Hsplit.
    rewrite firstn_app in Hsplit.
    replace (4 - length buf)%nat with 0%nat in Hsplit
      by (unfold len in Hge; lia).
    rewrite firstn_O, app_nil_r in Hsplit.
    rewrite Hsplit. reflexivity. }
  rewrite Hb. apply readUInt32LE_writeUInt32LE. exact Hrange.
Qed.

Lemma lengthOk_range json : lengthOk json -> 0 <= len json < 4294967296.
Proof. unfold lengthOk, MAX_RESPONSE_JSON_BYTES. lia. Qed.

Lemma dispatch_returns json keys :
  parsesToValue Json parse json ->
  snd (dispatch Json parse name json keys) = Returned.
Proof.
  intros H. unfold dispatch, parsesToValue in *.
  destruct (parse json) as [| |r]; [reflexivity | contradiction |].
  destruct (responseId r); try reflexivity.
  destruct (negb _); [reflexivity|]. destruct (okIsFalse _); reflexivity.
Qed.

(** A buffer shorter than the frame it begins is left as it is. *)
Lemma drain_incomplete json buf more keys :
  lengthOk json -> buf ++ more = responseFrame json -> more <> [] ->
  drain Json parse name buf keys
  = ({| stdoutBuffer := buf; pending := keys |}, [], Returned).
Proof.
  intros Hok Hsplit Hmore.
  pose proof Hok as [Hpos Hmax].
  assert (Hshort : len buf < 4 + len json).
  { apply (f_equal len) in Hsplit. unfold responseFrame in Hsplit.
    rewrite !len_app, len_writeUInt32LE in Hsplit.
    assert (0 < len more)
      by (destruct more; [contradiction | unfold len; cbn [length]; lia]).
    lia. }
  funelim (drain Json parse name buf keys); try reflexivity.
  all: exfalso.
  all: pose proof (proj1 (Z.leb_le _ _) Hlen) as Hge.
  all: change RESPONSE_HEADER_BYTES with 4 in Hge.
  all: pose proof (header_of_frame json buf more (lengthOk_range json Hok)
                     Hsplit Hge) as Hread.
  - pose proof e as e'. rewrite Hread in e'.
    apply orb_true_iff in e'.
    destruct e' as [e'|e']; [apply Z.leb_le in e' | apply Z.ltb_lt in e']; lia.
  - pose proof (proj1 (Z.ltb_ge _ _) Hframe) as Hf. rewrite Hread in Hf.
    change RESPONSE_HEADER_BYTES with 4 in Hf. lia.
  - pose proof (proj1 (Z.ltb_ge _ _) Hframe) as Hf. rewrite Hread in Hf.
    change RESPONSE_HEADER_BYTES with 4 in Hf. lia.
Qed.

Lemma slice_frame json rest :
  slice 4 (4 + len json) (responseFrame json ++ rest) = json.
Proof.
  unfold slice, responseFrame.
  replace (4 + len json - 4) with (len json) by lia.
  rewrite <- app_assoc. change (Z.to_nat 4) with 4%nat.
  cbn [writeUInt32LE app skipn].
  rewrite firstn_app. unfold len. rewrite Nat2Z.id, Nat.sub_diag, firstn_all.
  cbn [firstn]. apply app_nil_r.
Qed.

Lemma sliceFrom_frame json rest :
  sliceFrom (4 + len json) (responseFrame json ++ rest) = rest.
Proof.
  unfold sliceFrom, responseFrame.
  rewrite <- !app_assoc. 
  replace (Z.to_nat (4 + len json)) with (4 + length json)%nat
    by (unfold len; lia).
  cbn [writeUInt32LE app Nat.add skipn].
  rewrite skipn_app, skipn_all, Nat.sub_diag. reflexivity.
Qed.

(** A buffer that begins with a whole frame: the frame is settled and the
    loop goes on with what follows it. *)
Lemma drain_frame json rest keys :
  lengthOk json ->
  drain Json parse name (responseFrame json ++ rest) keys
  = match dispatch Json parse name json keys with
    | (keys', settled, Threw d) =>
        ({| stdoutBuffer := rest; pending := keys' |}, settled, Threw d)
    | (keys', settled, Returned) =>
        let '(st, settled', out) := drain Json parse name rest keys' in
        (st, settled ++ settled', out)
    end.
Proof.
  intros Hok. pose proof Hok as [Hpos Hmax].
  assert (Hlong : 4 + len json <= len (responseFrame json ++ rest)).
  { unfold responseFrame. rewrite !len_app, len_writeUInt32LE.
    pose proof (len_nonneg rest). lia. }
  assert (Hread : readUInt32LE (responseFrame json ++ rest) = len json).
  { unfold responseFrame. rewrite <- app_assoc.
    apply readUInt32LE_writeUInt32LE, lengthOk_range, Hok. }
  remember (responseFrame json ++ rest) as buf eqn:Hbuf.
  funelim (drain Json parse name buf keys).
  - exfalso. pose proof (proj1 (Z.leb_gt _ _) e) as Hlt.
    change RESPONSE_HEADER_BYTES with 4 in Hlt. lia.
  - exfalso. pose proof e as e'. rewrite Hread in e'.
    apply orb_true_iff in e'.
    destruct e' as [e'|e']; [apply Z.leb_le in e' | apply Z.ltb_lt in e']; lia.
  - exfalso. pose proof (proj1 (Z.ltb_lt _ _) e) as Hlt. rewrite Hread in Hlt.
    change RESPONSE_HEADER_BYTES with 4 in Hlt. lia.
  - clear Heqcall H.
    pose proof e as e'. rewrite Hread in e'.
    change RESPONSE_HEADER_BYTES with 4 in e'. rewrite slice_frame in e'.
    rewrite e', Hread. change RESPONSE_HEADER_BYTES with 4.
    rewrite sliceFrom_frame. reflexivity.
  - clear Heqcall.
    pose proof e as e'. rewrite Hread in e'.
    change RESPONSE_HEADER_BYTES with 4 in e'. rewrite slice_frame in e'.
    rewrite e', Hread. change RESPONSE_HEADER_BYTES with 4.
    rewrite sliceFrom_frame. reflexivity.
Qed.

Lemma drain_nil keys :
  drain Json parse name [] keys
  = ({| stdoutBuffer := []; pending := keys |}, [], Returned).
Proof. funelim (drain Json parse name [] keys); try reflexivity; discriminate. Qed.

Lemma len_responseFrame json : len (responseFrame json) = 4 + len json.
Proof. unfold responseFrame. rewrite len_app, len_writeUInt32LE. reflexivity. Qed.

(** Two lists that share their concatenation with a common continuation
    split at the shorter one. *)
Lemma app_eq_split (a b c d : Buffer) :
  a ++ b = c ++ d -> len c <= len a ->
  exists m, a = c ++ m /\ d = m ++ b.
Proof.
  revert c. induction a as [|x a IH]; intros c H Hle.
  - destruct c as [|y c]; [|unfold len in Hle; cbn [length] in Hle; lia].
    exists []. cbn in *. split; [reflexivity | symmetry; exact H].
  - destruct c as [|y c].
    + exists (x :: a). cbn in *. split; [reflexivity | symmetry; exact H].
    + cbn [app] in H. inversion H; subst.
      destruct (IH c) as (m & Ha & Hd);
        [assumption | unfold len in *; cbn [length] in Hle; lia |].
      exists m. split; [cbn [app]; f_equal; exact Ha | exact Hd].
Qed.

(** What a chunk does to a well-formed stream: the frames that the buffer
    holds in full are settled in order, and the buffer keeps the beginning
    of the next frame. *)
Lemma drain_stream jsons : forall buf rest keys,
  Forall lengthOk jsons ->
  Forall (parsesToValue Json parse) jsons ->
  buf ++ rest = responseStream jsons ->
  exists settledNow later buf',
    jsons = settledNow ++ later
    /\ drain Json parse name buf keys
       = ({| stdoutBuffer := buf';
             pending := fst (dispatchAll Json parse name settledNow keys) |},
          snd (dispatchAll Json parse name settledNow keys), Returned)
    /\ buf' ++ rest = responseStream later
    /\ match later with
       | [] => buf' = []
       | json :: _ => len buf' < len (responseFrame json)
       end.
Proof.
  induction jsons as [|json jsons IH]; intros buf rest keys Hok Hval Hcat.
  - cbn in Hcat. apply app_eq_nil in Hcat. destruct Hcat as [-> ->].
    exists [], [], []. rewrite drain_nil. repeat split.
  - inversion Hok as [|? ? Hok1 Hoks]; subst.
    inversion Hval as [|? ? Hval1 Hvals]; subst.
    change (responseStream (json :: jsons))
      with (responseFrame json ++ responseStream jsons) in Hcat.
    destruct (Z_lt_le_dec (len buf) (len (responseFrame json))) as [Hlt|Hge].
    + symmetry in Hcat.
      destruct (app_eq_split (responseFrame json) (responseStream jsons)
                  buf rest Hcat ltac:(lia)) as (m & Hf & Hr).
      exists [], (json :: jsons), buf.
      rewrite (drain_incomplete json buf m keys Hok1 (eq_sym Hf)).
      * split; [reflexivity|]. split; [reflexivity|].
        split; [symmetry; exact Hcat | exact Hlt].
      * intros ->. rewrite app_nil_r in Hf. rewrite Hf in Hlt. lia.
    + destruct (app_eq_split buf rest (responseFrame json)
                  (responseStream jsons) Hcat Hge) as (m & Hb & Hs).
      subst buf. rewrite drain_frame by exact Hok1.
      pose proof (dispatch_returns json keys Hval1) as Hret.
      destruct (dispatch Json parse name json keys) as [[keys1 settled1] out1] eqn:Hd.
      cbn [snd] in Hret. subst out1.
      destruct (IH m rest keys1 Hoks Hvals (eq_sym Hs))
        as (now' & later & buf' & Hsplit & Hdrain & Hrest & Hshort).
      exists (json :: now'), later, buf'.
      rewrite Hdrain. cbn [dispatchAll]. rewrite Hd.
      destruct (dispatchAll Json parse name now' keys1) as [keys2 settled2].
      cbn [fst snd].
      split; [cbn [app]; f_equal; exact Hsplit|].
      split; [reflexivity|]. split; assumption.
Qed.

Lemma dispatchAll_app jsons1 jsons2 keys :
  dispatchAll Json parse name (jsons1 ++ jsons2) keys
  = let (keys1, settled1) := dispatchAll Json parse name jsons1 keys in
    let (keys2, settled2) := dispatchAll Json parse name jsons2 keys1 in
    (keys2, settled1 ++ settled2).
Proof.
  revert keys. induction jsons1 as [|json jsons1 IH]; intros keys.
  - cbn [app dispatchAll].
    destruct (dispatchAll Json parse name jsons2 keys). reflexivity.
  - cbn [app dispatchAll].
    destruct (dispatch Json parse name json keys) as [[keys1 settled1] out1].
    rewrite IH.
    destruct (dispatchAll Json parse name jsons1 keys1) as [keys2 settled2].
    destruct (dispatchAll Json parse name jsons2 keys2) as [keys3 settled3].
    rewrite app_assoc. reflexivity.
Qed.

Lemma feed_stream chunks : forall jsons buf keys,
  Forall lengthOk jsons ->
  Forall (parsesToValue Json parse) jsons ->
  buf ++ concat chunks = responseStream jsons ->
  match jsons with
  | [] => buf = []
  | json :: _ => len buf < len (responseFrame json)
  end ->
  feed Json parse name chunks {| stdoutBuffer := buf; pending := keys |}
  = ({| stdoutBuffer := [];
        pending := fst (dispatchAll Json parse name jsons keys) |},
     snd (dispatchAll Json parse name jsons keys), Returned).
Proof.
  induction chunks as [|chunk chunks IH]; intros jsons buf keys Hok Hval Hcat Hshort.
  - cbn [concat] in Hcat. rewrite app_nil_r in Hcat.
    destruct jsons as [|json jsons].
    + subst buf. reflexivity.
    + exfalso. rewrite Hcat in Hshort.
      change (responseStream (json :: jsons))
        with (responseFrame json ++ responseStream jsons) in Hshort.
      rewrite len_app in Hshort. pose proof (len_nonneg (responseStream jsons)).
      lia.
  - cbn [feed concat] in *. unfold handleStdoutChunk. cbn [stdoutBuffer pending].
    rewrite app_assoc in Hcat.
    destruct (drain_stream jsons (buf ++ chunk) (concat chunks) keys Hok Hval Hcat)
      as (now' & later & buf' & Hsplit & Hdrain & Hrest & Hshort').
    rewrite Hdrain. subst jsons.
    apply Forall_app in Hok. apply Forall_app in Hval.
    rewrite (IH later buf' _ (proj2 Hok) (proj2 Hval) Hrest Hshort').
    rewrite dispatchAll_app.
    destruct (dispatchAll Json parse name now' keys) as [keys1 settled1].
    cbn [fst snd].
    destruct (dispatchAll Json parse name later keys1) as [keys2 settled2].
    reflexivity.
Qed.

(** X3. Reading the worker's responses.  When the worker writes a sequence
    of responses, each as a four-byte little-endian length followed by
    that many bytes of JSON (between 1 byte and [MAX_RESPONSE_JSON_BYTES]),
    none of which parses to [null], then however the byte stream is cut
    into [data] events, [handleStdoutChunk] settles the pending requests
    exactly as if the JSON texts had been handed over one by one, in
    order, and ends with an empty buffer. *)
Theorem framed_responses_settle_whatever_the_chunking
  (jsons chunks : list Buffer) (keys : list jsstring)
  (Hok : Forall lengthOk jsons)
  (Hval : Forall (parsesToValue Json parse) jsons)
  (Hcat : concat chunks = responseStream jsons) :
  feed Json parse name chunks {| stdoutBuffer := []; pending := keys |}
  = ({| stdoutBuffer := [];
        pending := fst (dispatchAll Json parse name jsons keys) |},
     snd (dispatchAll Json parse name jsons keys), Returned).
Proof.
  apply feed_stream; try assumption.
  destruct jsons as [|json jsons]; [reflexivity|].
  rewrite len_responseFrame. change (len (@nil Byte.byte)) with 0.
  pose proof (len_nonneg json). lia.
Qed.

End Stream.

Lemma framed_responses_settle_whatever_the_chunking_witness :
  feed Z exampleParse (str "asr") exampleChunks
    {| stdoutBuffer := []; pending := [str "7"] |}
  = ({| stdoutBuffer := [];
        pending :=
          fst (dispatchAll Z exampleParse (str "asr") exampleJsons [str "7"]) |},
     snd (dispatchAll Z exampleParse (str "asr") exampleJsons [str "7"]),
     Returned).
Proof.
  apply (framed_responses_settle_whatever_the_chunking Z exampleParse (str "asr")
           exampleJsons exampleChunks [str "7"]).
  - repeat constructor; vm_compute; congruence.
  - repeat constructor; discriminate.
  - vm_compute. reflexivity.
Defined.

(** X4. The request header.  The two lengths that [request] writes before
    the JSON bytes and the audio bytes are read back from the frame, and
    the frame is as long as they say, for payloads below 4 GiB. *)
Theorem request_header_tells_the_lengths
  (jsonBytes : Buffer) (binaryData : option Buffer)
  (Hjson : len jsonBytes < 4294967296)
  (Haudio : match binaryData with
            | Some data => len data < 4294967296
            | None => True
            end) :
  let frame := requestFrame jsonBytes binaryData in
  let jsonLen := readUInt32LE frame in
  let audioLen := readUInt32LE (sliceFrom 4 frame) in
  jsonLen = len jsonBytes
  /\ audioLen = match binaryData with Some data => len data | None => 0 end
  /\ len frame = FRAME_HEADER_BYTES + jsonLen + audioLen
  /\ slice FRAME_HEADER_BYTES (FRAME_HEADER_BYTES + jsonLen) frame = jsonBytes
  /\ sliceFrom (FRAME_HEADER_BYTES + jsonLen) frame
     = match binaryData with Some data => data | None => [] end.
Proof.
  cbv zeta. unfold requestFrame, requestHeader.
  set (audioBytes := match binaryData with
                     | Some data => if 0 <? len data then data else []
                     | None => []
                     end).
  assert (Haudio' : audioBytes
                    = match binaryData with Some data => data | None => [] end).
  { unfold audioBytes. destruct binaryData as [data|]; [|reflexivity].
    destruct data; reflexivity. }
  assert (Hlen : 0 <= len audioBytes < 4294967296).
  { rewrite Haudio'. destruct binaryData as [data|].
    - pose proof (len_nonneg data). lia.
    - change (len (@nil Byte.byte)) with 0. lia. }
  pose proof (len_nonneg jsonBytes) as Hj.
  assert (H1 : readUInt32LE
                 ((writeUInt32LE (len jsonBytes) ++ writeUInt32LE (len audioBytes))
                  ++ jsonBytes ++ audioBytes) = len jsonBytes).
  { rewrite <- !app_assoc. apply readUInt32LE_writeUInt32LE. lia. }
  assert (H2 : readUInt32LE
                 (sliceFrom 4
                    ((writeUInt32LE (len jsonBytes)
                      ++ writeUInt32LE (len audioBytes))
                     ++ jsonBytes ++ audioBytes)) = len audioBytes).
  { unfold sliceFrom. change (Z.to_nat 4) with 4%nat.
    rewrite <- !app_assoc. cbn [writeUInt32LE app skipn].
    apply (readUInt32LE_writeUInt32LE (len audioBytes) (jsonBytes ++ audioBytes)).
    lia. }
  rewrite H1, H2.
  split; [reflexivity|].
  split; [rewrite Haudio'; destruct binaryData; reflexivity|].
  split; [rewrite !len_app, !len_writeUInt32LE; unfold FRAME_HEADER_BYTES; lia|].
  unfold FRAME_HEADER_BYTES, slice, sliceFrom.
  replace (8 + len jsonBytes - 8) with (len jsonBytes) by lia.
  replace (Z.to_nat (8 + len jsonBytes)) with (8 + length jsonBytes)%nat
    by (unfold len; lia).
  change (Z.to_nat 8) with 8%nat.
  cbn [writeUInt32LE app skipn Nat.add].
  split.
  - rewrite firstn_app. unfold len. rewrite Nat2Z.id, Nat.sub_diag, firstn_all.
    cbn [firstn]. apply app_nil_r.
  - rewrite skipn_app, skipn_all, Nat.sub_diag. cbn [skipn app]. exact Haudio'.
Qed.

(** A request of 300 bytes of JSON with 700 bytes of audio. *)
Lemma request_header_tells_the_lengths_witness :
  let frame := requestFrame (Examples.zeros 300) (Some (Examples.zeros 700)) in
  let jsonLen := readUInt32LE frame in
  let audioLen := readUInt32LE (sliceFrom 4 frame) in
  jsonLen = len (Examples.zeros 300)
  /\ audioLen = len (Examples.zeros 700)
  /\ len frame = FRAME_HEADER_BYTES + jsonLen + audioLen
  /\ slice FRAME_HEADER_BYTES (FRAME_HEADER_BYTES + jsonLen) frame
     = Examples.zeros 300
  /\ sliceFrom (FRAME_HEADER_BYTES + jsonLen) frame = Examples.zeros 700.
Proof.
  apply (request_header_tells_the_lengths (Examples.zeros 300)
           (Some (Examples.zeros 700))).
  - vm_compute. reflexivity.
  - vm_compute. reflexivity.
Defined.

End FramedFacts.

Module InjectorFacts.

Import TextInjector InjectorSpec.
Import QueueFacts StringFacts.

Lemma eqb_refl (s : jsstring) : Js.eqb s s = true.
Proof. apply StringFacts.eqb_eq. reflexivity. Qed.

Section Facts.

Variable run : list (Command * Outcome) -> Command -> Outcome.
Variable self : t.

(** The shape of what a call of [inject] adds to the log. *)
Record InjectLog (text : jsstring) (remaining : nat) (w0 w : World)
  (ending : Ending) (added : list (Command * Outcome)) : Prop := {
  il_added : commands w = commands w0 ++ added;
  il_clipboard : clipboard w = clipboard w0;
  il_text : Forall (insertsText text) added;
  il_direct :
    DIRECT_INPUT_MAX_LENGTH < len text -> Forall notDirect added;
  il_ending :
    match ending with
    | Done =>
        exists init last,
          added = init ++ [(last, Returned)] /\ Forall entryThrew init
    | InjectionFailed retries lastFailures =>
        retries = retryCount self
        /\ Forall entryThrew added
        /\ len added = Z.of_nat remaining * methodsPerAttempt self text
        /\ len lastFailures <= 4
    | CommandFailed _ => False
    end
}.

Lemma injectViaClipboardPaste_spec text w :
  injectViaClipboardPaste run text w
  = ({| clipboard := clipboard w;
        commands :=
          commands w
            ++ [(PasteKeystroke,
                 run (commands w) PasteKeystroke)] |},
     run (commands w) PasteKeystroke).
Proof.
  unfold injectViaClipboardPaste, commandRunner, writeText.
  cbn [clipboard commands].
  destruct (run (commands w) PasteKeystroke) as [|d] eqn:E;
    rewrite eqb_refl; reflexivity.
Qed.

Lemma len_sliceLast_le {A} (n : Z) (l : list A) :
  1 <= n -> len (sliceLast n l) <= n.
Proof.
  intros Hn. unfold sliceLast, len. rewrite length_skipn. lia.
Qed.

Ltac destruct_run :=
  match goal with
  | |- context [match run ?l ?c with _ => _ end] =>
      let E := fresh "E" in destruct (run l c) as [|?d] eqn:E
  end.

(** The last entry of an explicit log succeeded, the others threw. *)
Ltac split_last :=
  first
    [ exists []; eexists; split; [reflexivity|]
    | eexists [_]; eexists; split; [reflexivity|]
    | eexists [_; _]; eexists; split; [reflexivity|]
    | eexists [_; _; _]; eexists; split; [reflexivity|] ];
  repeat (constructor; [exact I|]); constructor.

Ltac inserts_text :=
  repeat (constructor;
          [split; [reflexivity
                  | first [left; reflexivity | right; reflexivity]]|]);
  try constructor.

Lemma attempts_log text remaining : forall attemptNo failures w,
  exists added,
    InjectLog text remaining w
      (fst (attempts run self remaining attemptNo text failures w))
      (snd (attempts run self remaining attemptNo text failures w)) added.
Proof.
  induction remaining as [|remaining IH]; intros attemptNo failures w.
  - exists []. cbn [attempts fst snd]. split.
    + rewrite app_nil_r. reflexivity.
    + reflexivity.
    + constructor.
    + intros _. constructor.
    + split; [reflexivity|]. split; [constructor|].
      split; [reflexivity | apply len_sliceLast_le; lia].
  - cbn [attempts]. unfold methodsPerAttempt in *.
    unfold injectViaNativeInsert, injectViaAccessibilityInsert,
      injectViaDirectInput, commandRunner.
    cbn [clipboard commands].
    destruct (Z.leb_spec (len text) DIRECT_INPUT_MAX_LENGTH) as [Hshort|Hlong];
      destruct (nativeBinaryPath self) as [binary|] eqn:Hnative.
    all: repeat (first [destruct_run | rewrite injectViaClipboardPaste_spec];
                 cbn [clipboard commands fst snd]).
    all: try (eexists; split;
              [ cbn [commands]; rewrite <- ?app_assoc; reflexivity
              | reflexivity
              | inserts_text
              | intros Hgt;
                first [ exfalso; lia
                      | repeat (constructor; [reflexivity|]); constructor ]
              | split_last ]; fail).
    all: match goal with
         | |- context [attempts run self ?r ?n ?t ?f ?w'] =>
             destruct (IH n f w') as (added' & [Ha Hc Ht Hd He]);
             destruct (attempts run self r n t f w') as [w'' ending]
         end.
    all: cbn [fst snd clipboard commands] in *.
    all: rewrite <- ?app_assoc in Ha; cbn [app] in Ha.
    all: eexists; split;
      [ exact Ha
      | exact Hc
      | inserts_text; exact Ht
      | intros Hgt;
        first [ exfalso; lia
              | repeat (constructor; [reflexivity|]); exact (Hd Hgt) ]
      | ].
    all: destruct ending as [|retries lastFailures|detail]; [| |contradiction].
    1, 3, 5, 7:
      destruct He as (init & last & -> & Hinit);
      first
        [ eexists (_ :: _ :: _ :: _ :: init); exists last;
          split; [reflexivity|]
        | eexists (_ :: _ :: _ :: init); exists last;
          split; [reflexivity|]
        | eexists (_ :: _ :: init); exists last;
          split; [reflexivity|] ];
      repeat (constructor; [exact I|]); exact Hinit.
    all: destruct He as (Hr & Hall & Hlen & Hfs).
    all: split; [exact Hr|]; split;
      [repeat (constructor; [exact I|]); exact Hall|].
    all: split; [|exact Hfs].
    all: unfold methodsPerAttempt, len in *; cbn [length];
      rewrite Hnative in *; rewrite !Nat2Z.inj_succ;
      destruct (Z.leb_spec (Z.of_nat (length text)) DIRECT_INPUT_MAX_LENGTH);
      lia.
Qed.



Lemma dropWhile_head (p : ascii -> bool) (s : jsstring) :
  match dropWhile p s with
  | [] => True
  | c :: _ => p c = false
  end.
Proof.
  induction s as [|c s IH]; cbn [dropWhile]; [exact I|].
  destruct (p c) eqn:E; [exact IH | exact E].
Qed.

Lemma isSpace_LF : isSpace LF = true.
Proof. reflexivity. Qed.

Lemma endsWithSpace_trimEnd (s : jsstring) : endsWithSpace (trimEnd s) = false.
Proof.
  unfold endsWithSpace, trimEnd, dropWhileEnd. rewrite rev_involutive.
  pose proof (dropWhile_head isSpace (rev s)) as H.
  destruct (dropWhile isSpace (rev s)) as [|c l]; [reflexivity|].
  rewrite H. cbn [orb].
  destruct (Ascii.eqb_spec c LF) as [->|]; [|reflexivity].
  rewrite isSpace_LF in H. discriminate.
Qed.

Lemma trimEnd_shorter (s : jsstring) :
  endsWithSpace s = true -> len (trimEnd s) < len s.
Proof.
  unfold endsWithSpace, trimEnd, dropWhileEnd, len. rewrite length_rev.
  rewrite <- (length_rev s).
  destruct (rev s) as [|c l]; [discriminate|].
  intros H. cbn [dropWhile].
  assert (Hc : isSpace c = true).
  { destruct (isSpace c) eqn:Hs; [reflexivity|]. cbn [orb] in H.
    apply Ascii.eqb_eq in H. subst c. rewrite isSpace_LF in Hs. discriminate. }
  rewrite Hc. pose proof (StringFacts.dropWhile_length isSpace l).
  cbn [length]. lia.
Qed.

Lemma len_trim_le (s : jsstring) : len (trim s) <= len s.
Proof.
  unfold trim, trimEnd, trimStart, len.
  pose proof (StringFacts.dropWhileEnd_length isSpace (dropWhile isSpace s)).
  pose proof (StringFacts.dropWhile_length isSpace s). lia.
Qed.

Lemma endsWithSpace_nonempty (s : jsstring) :
  endsWithSpace s = true -> 0 < len s.
Proof.
  destruct s; [discriminate|]. intros _. unfold len. cbn [length]. lia.
Qed.

(** X7. What [replaceRecentText] deletes.  The orchestrator passes the
    live text without its trailing whitespace as the text to replace,
    while the text it has typed ends in whitespace.  For such a call the
    number of characters that [replaceRecentText] asks to delete is the
    length of the trimmed text, so it is smaller than the number of
    characters typed, whichever way the replacement goes (native binary,
    osascript, or a plain insertion when the trimmed text is empty). *)
Theorem replaceRecentText_deletes_less_than_typed
  (live replacementText : jsstring) (w : World)
  (Hspace : endsWithSpace live = true) :
  exists added,
    commands (fst (replaceRecentText run self (trimEnd live) replacementText w))
    = commands w ++ added
    /\ Forall
         (fun e =>
            deleted (fst e)
            = (if isInsert (fst e) then 0 else len (trim (trimEnd live)))
            /\ deleted (fst e) < len live)
         added.
Proof.
  pose proof (trimEnd_shorter live Hspace) as Hshorter.
  pose proof (len_trim_le (trimEnd live)) as Htrim.
  pose proof (endsWithSpace_nonempty live Hspace) as Hpos.
  unfold replaceRecentText.
  destruct (truthy (trim replacementText)); cbn [negb];
    [|exists []; cbn [fst]; rewrite app_nil_r; split; [reflexivity | constructor]].
  destruct (truthy (trim (trimEnd live))); cbn [negb].
  - unfold commandRunner. cbn [clipboard commands].
    destruct (nativeBinaryPath self) as [binary|];
      repeat (destruct_run; cbn [fst snd commands]).
    all: eexists; split; [rewrite <- ?app_assoc; reflexivity|].
    all: repeat (constructor; [cbn [fst deleted isInsert]; split; [reflexivity | lia]|]).
    all: constructor.
  - assert (Hlog : exists added,
              commands (fst (inject run self (trim replacementText) w))
              = commands w ++ added
              /\ Forall (insertsText (trim replacementText)) added).
    { unfold inject. destruct (len (trim replacementText) =? 0).
      - exists []. cbn [fst]. rewrite app_nil_r.
        split; [reflexivity | constructor].
      - destruct (attempts_log (trim replacementText)
                    (Z.to_nat (retryCount self)) 1 [] w)
          as (added & [Ha _ Ht _ _]).
        exists added. split; assumption. }
    destruct Hlog as (added & Ha & Ht).
    exists added. split; [exact Ha|].
    eapply Forall_impl; [|exact Ht].
    intros [c o] [Hi _]. cbn [fst] in *. rewrite Hi.
    destruct c; try discriminate; cbn [deleted]; split; (reflexivity || lia).
Qed.

End Facts.

(** The live text [hello world ] replaced by [Hello, world.]: eleven
    characters are deleted where twelve have been typed. *)
Lemma replaceRecentText_deletes_less_than_typed_witness :
  exists added,
    commands
      (fst (replaceRecentText alwaysOk scriptedInjector
              (trimEnd (str "hello world ")) (str "Hello, world.") emptyWorld))
    = commands emptyWorld ++ added
    /\ Forall
         (fun e =>
            deleted (fst e)
            = (if isInsert (fst e) then 0
               else len (trim (trimEnd (str "hello world "))))
            /\ deleted (fst e) < len (str "hello world "))
         added.
Proof.
  apply (replaceRecentText_deletes_less_than_typed alwaysOk scriptedInjector
           (str "hello world ") (str "Hello, world.") emptyWorld).
  vm_compute. reflexivity.
Defined.

Import TerminalInjector.

Lemma endsWith_suffix (s suffix : jsstring) :
  endsWith s suffix = true -> exists pre, s = pre ++ suffix.
Proof.
  unfold endsWith. intros H. apply andb_true_iff in H. destruct H as [_ H].
  apply StringFacts.eqb_eq in H.
  exists (firstn (length s - length suffix) s).
  rewrite <- H at 2. symmetry. apply firstn_skipn.
Qed.

Lemma endsWith_app (pre suffix : jsstring) : endsWith (pre ++ suffix) suffix = true.
Proof.
  unfold endsWith. rewrite length_app.
  replace (length pre + length suffix - length suffix)%nat with (length pre) by lia.
  rewrite skipn_app, skipn_all, Nat.sub_diag. cbn [skipn app].
  rewrite eqb_refl. apply andb_true_iff. split; [|reflexivity].
  apply Nat.leb_le. lia.
Qed.

Lemma endsWithSpace_app (pre s : jsstring) :
  s <> [] -> endsWithSpace (pre ++ s) = endsWithSpace s.
Proof.
  intros Hne. unfold endsWithSpace. rewrite rev_app_distr.
  destruct (rev s) as [|c l] eqn:E; [|reflexivity].
  apply (f_equal (@rev ascii)) in E. rewrite rev_involutive in E. contradiction.
Qed.

(** X8. The injector of the terminal front end.  [replaceRecentText]
    replaces the end of its record when the record ends with the given
    non-empty text and keeps what is before.  Called as the orchestrator
    calls it, with the live text less its trailing whitespace while the
    record ends with the live text and thus in whitespace, the record does
    not end with the given text: the whole record, earlier dictations
    included, becomes the replacement. *)
Theorem terminal_replaceRecentText_suffix_or_everything
  (before live existingText replacementText : jsstring)
  (out : list jsstring) :
  (existingText <> [] ->
   liveText (replaceRecentText existingText replacementText
               {| liveText := before ++ existingText; stdout := out |})
   = before ++ replacementText)
  /\ (endsWithSpace live = true ->
      liveText (replaceRecentText (trimEnd live) replacementText
                  {| liveText := before ++ live; stdout := out |})
      = replacementText).
Proof.
  split.
  - intros Hne. unfold replaceRecentText. cbn [liveText].
    rewrite endsWith_app.
    destruct existingText as [|c e]; [contradiction|]. cbn [truthy andb].
    f_equal. unfold slice, len. rewrite length_app.
    replace (Z.to_nat (Z.of_nat (length before + length (c :: e))
                       - Z.of_nat (length (c :: e)) - 0))
      with (length before) by lia.
    cbn [Z.to_nat skipn]. rewrite firstn_app, firstn_all, Nat.sub_diag.
    cbn [firstn]. apply app_nil_r.
  - intros Hspace. unfold replaceRecentText. cbn [liveText].
    destruct (truthy (trimEnd live)) eqn:Ht; [|reflexivity].
    destruct (endsWith (before ++ live) (trimEnd live)) eqn:He; [|reflexivity].
    exfalso.
    apply endsWith_suffix in He. destruct He as (pre & Hpre).
    assert (Hne : trimEnd live <> []) by (apply StringFacts.truthy_true; exact Ht).
    assert (Hlive : live <> []) by (intros ->; discriminate).
    pose proof (endsWithSpace_app before live Hlive) as H1.
    rewrite Hpre, (endsWithSpace_app pre (trimEnd live) Hne) in H1.
    rewrite endsWithSpace_trimEnd, Hspace in H1. discriminate.
Qed.

End InjectorFacts.

Module PromptFacts.

Import Prompt PromptSpec SpokenFormattingProcessor.

Lemma canonChar_lowerChar c : canonChar (lowerChar c) = canonChar c.
Proof.
  destruct c as [[] [] [] [] [] [] [] []]; vm_compute; reflexivity.
Qed.

Lemma canonChar_LT c : canonChar c = canonChar LT -> c = LT.
Proof.
  destruct c as [[] [] [] [] [] [] [] []]; vm_compute; intros H;
    first [reflexivity | discriminate H].
Qed.

Lemma matchLiteral_spelled p : forall written prev rest,
  toLowerCase written = p ->
  exists last, matchLiteral p prev (written ++ rest) = Some (last, rest).
Proof.
  induction p as [|pc p IH]; intros written prev rest H.
  - destruct written; [|discriminate]. exists prev. reflexivity.
  - destruct written as [|c written]; [discriminate|].
    cbn [toLowerCase map] in H. inversion H; subst.
    cbn [matchLiteral app]. rewrite canonChar_lowerChar, Ascii.eqb_refl.
    apply IH. reflexivity.
Qed.

Lemma startsWith_spelled p written rest :
  spells p written -> startsWith p (written ++ rest) = Some rest.
Proof.
  intros H. unfold startsWith.
  destruct (matchLiteral_spelled p written None rest H) as (last & ->).
  reflexivity.
Qed.

(** A tag does not begin at a character that is not [<]. *)
Lemma startsWith_tag_other (p : jsstring) c s :
  c <> LT -> startsWith (LT :: p) (c :: s) = None.
Proof.
  intros H. unfold startsWith. cbn [matchLiteral].
  destruct (Ascii.eqb_spec (canonChar LT) (canonChar c)) as [E|]; [|reflexivity].
  symmetry in E. apply canonChar_LT in E. contradiction.
Qed.

Lemma startsWith_nil (p : jsstring) : startsWith (LT :: p) [] = None.
Proof. reflexivity. Qed.

Lemma findLiteral_tagFree (p : jsstring) text : forall before written rest,
  tagFree text -> spells (LT :: p) written ->
  findLiteral (LT :: p) before (text ++ written ++ rest)
  = Some (before ++ text, rest).
Proof.
  induction text as [|c text IH]; intros before written rest Hfree Hsp.
  - cbn [app]. rewrite app_nil_r.
    destruct (written ++ rest) eqn:E;
      cbn [findLiteral]; rewrite <- E, (startsWith_spelled _ _ _ Hsp);
      reflexivity.
  - inversion Hfree as [|? ? Hc Hfree']; subst.
    cbn [app findLiteral]. rewrite (startsWith_tag_other p c _ Hc).
    rewrite (IH (before ++ [c]) written rest Hfree' Hsp), <- app_assoc.
    reflexivity.
Qed.

Lemma findLiteral_none (p : jsstring) text : forall before,
  tagFree text -> findLiteral (LT :: p) before text = None.
Proof.
  induction text as [|c text IH]; intros before Hfree.
  - reflexivity.
  - inversion Hfree as [|? ? Hc Hfree']; subst.
    cbn [findLiteral]. rewrite (startsWith_tag_other p c _ Hc).
    apply IH. exact Hfree'.
Qed.

Lemma extract_between (before inner after opening closing : jsstring) :
  tagFree before -> tagFree inner ->
  spells OPEN_TAG opening -> spells CLOSE_TAG closing ->
  extractFormattedOutput (before ++ opening ++ inner ++ closing ++ after)
  = trim inner.
Proof.
  intros Hb Hi Ho Hc. unfold extractFormattedOutput, matchFinal.
  change OPEN_TAG with (LT :: str "final>") in *.
  change CLOSE_TAG with (LT :: str "/final>") in *.
  rewrite (findLiteral_tagFree _ before [] opening _ Hb Ho).
  rewrite (findLiteral_tagFree _ inner [] closing _ Hi Hc).
  reflexivity.
Qed.

(** X9. What [extractFormattedOutput] extracts.  When the generated text
    holds an opening and a closing tag, written in any letter case, with
    no [<] before the opening tag nor between the tags, the result is the
    text between the tags, trimmed, whatever follows the closing tag.  A
    text without any [<] is returned trimmed as a whole. *)
Theorem extractFormattedOutput_between_tags
  (before inner after opening closing : jsstring) :
  (tagFree before -> tagFree inner ->
   spells OPEN_TAG opening -> spells CLOSE_TAG closing ->
   extractFormattedOutput (before ++ opening ++ inner ++ closing ++ after)
   = trim inner)
  /\ (tagFree before -> extractFormattedOutput before = trim before).
Proof.
  split.
  - apply extract_between.
  - intros Hb. unfold extractFormattedOutput, matchFinal.
    change OPEN_TAG with (LT :: str "final>").
    rewrite (findLiteral_none _ before [] Hb). reflexivity.
Qed.

Lemma tagFree_str (s : jsstring) :
  forallb (fun c => negb (Ascii.eqb c LT)) s = true -> tagFree s.
Proof.
  intros H. apply Forall_forall. intros c Hin.
  rewrite forallb_forall in H. specialize (H c Hin).
  intros ->. rewrite Ascii.eqb_refl in H. discriminate.
Qed.

(** X10. The prompt quotes the tags.  [buildFormatterPrompt] begins with
    the base rules, whose last sentence names both tags; so on any text
    that begins with a prompt, whatever the mode and the transcript and
    whatever follows (the model's answer included), the extracted output
    is the word between the two tags of that sentence. *)
Theorem extractFormattedOutput_of_echoed_prompt
  (mode : FormatMode) (transcript completion : jsstring) :
  extractFormattedOutput (buildFormatterPrompt mode transcript ++ completion)
  = str "and".
Proof.
  set (before := str "You are an offline dictation post-processor. Keep the language of the input unchanged. Do not add facts that were not stated. Return output only between ").
  set (after := str " tags." ++ [LF; LF] ++ MODE_RULES mode ++ [LF; LF]
                ++ str "Input transcript starts now." ++ [LF; LF]
                ++ trim transcript ++ [LF; LF]
                ++ str "Produce final output now." ++ [LF; LF]
                ++ str "<final>" ++ completion).
  assert (Hshape : buildFormatterPrompt mode transcript ++ completion
                   = before ++ OPEN_TAG ++ str " and " ++ CLOSE_TAG ++ after).
  { unfold buildFormatterPrompt, after, before, BASE_RULES, OPEN_TAG, CLOSE_TAG.
    cbn [join str list_ascii_of_string app].
    repeat (rewrite <- ?app_assoc; cbn [app]). reflexivity. }
  rewrite Hshape.
  rewrite (extract_between before (str " and ") after OPEN_TAG CLOSE_TAG);
    [reflexivity | | | reflexivity | reflexivity];
    apply tagFree_str; reflexivity.
Qed.

End PromptFacts.

Module ConfigFacts.

Import Config ConfigSpec.

Lemma check_nil condition message :
  check condition message = [] -> condition = false.
Proof. destruct condition; [discriminate | reflexivity]. Qed.

Lemma outside_false value lo hi :
  outside value lo hi = false -> lo <= value <= hi.
Proof.
  unfold outside. intros H. apply orb_false_iff in H. destruct H as [H1 H2].
  apply Z.ltb_ge in H1. apply Z.ltb_ge in H2. lia.
Qed.

(** X11. What a configuration without errors guarantees.  When
    [validateConfig] returns no message, the chunk duration lies in
    [[20, 600]], the four windows are ordered [MIN <= NORMAL <= BACKLOG <=
    MAX] within [[40, 4000]], the injection retry count lies in [[1, 8]],
    and a native ASR backend comes with the framed transport. *)
Theorem valid_config_bounds (config : AppConfig)
  (Hvalid : validateConfig config = []) :
  20 <= liveStreamChunkMs config <= 600
  /\ 40 <= minAsrWindowMs config
  /\ minAsrWindowMs config <= normalAsrWindowMs config
  /\ normalAsrWindowMs config <= backlogAsrWindowMs config
  /\ backlogAsrWindowMs config <= maxAsrWindowMs config
  /\ maxAsrWindowMs config <= 4000
  /\ 1 <= injectionRetryCount config <= 8
  /\ (In (asrBackend config) nativeFramedBackends ->
      asrTransport config = framed).
Proof.
  unfold validateConfig in Hvalid.
  repeat match type of Hvalid with
         | _ ++ _ = [] =>
             apply app_eq_nil in Hvalid;
             let H := fresh "Hc" in destruct Hvalid as [H Hvalid];
             apply check_nil in H
         end.
  apply check_nil in Hvalid.
  repeat match goal with
         | H : outside _ _ _ = false |- _ => apply outside_false in H
         end.
  match goal with
  | H : negb (_ && _ && _) = false |- _ =>
      apply negb_false_iff in H; apply andb_true_iff in H;
      destruct H as [H Hbm]; apply andb_true_iff in H; destruct H as [Hmn Hnb];
      apply Z.leb_le in Hbm; apply Z.leb_le in Hmn; apply Z.leb_le in Hnb
  end.
  repeat split; try lia.
  intros Hin. destruct (asrTransport config); [|reflexivity].
  exfalso. destruct (asrBackend config); cbn in Hin, Hvalid;
    try discriminate; destruct Hin as [Hin|[Hin|[]]]; discriminate.
Qed.

Lemma In_dropWhile p c : forall s,
  In c s -> p c = false -> In c (dropWhile p s).
Proof.
  induction s as [|d s IH]; intros Hin Hp; [contradiction|].
  cbn [dropWhile]. destruct (p d) eqn:Hd; [|exact Hin].
  destruct Hin as [->|Hin]; [congruence | apply IH; assumption].
Qed.

Lemma blank_false c s : In c s -> isSpace c = false -> blank s = false.
Proof.
  intros Hin Hc. unfold blank, trim, trimEnd, trimStart, dropWhileEnd.
  assert (H : In c (rev (dropWhile isSpace (rev (dropWhile isSpace s))))).
  { apply in_rev. rewrite rev_involutive. apply In_dropWhile; [|exact Hc].
    apply in_rev. rewrite rev_involutive. apply In_dropWhile; assumption. }
  destruct (rev _); [contradiction | reflexivity].
Qed.

Lemma blank_pathJoin rootDir segment segments :
  blank (pathJoin rootDir (segment :: segments)) = false.
Proof.
  apply (blank_false "/"%char); [|reflexivity].
  unfold pathJoin. apply in_or_app. right. cbn. left. reflexivity.
Qed.

Lemma valid_config_bounds_witness :
  let config := resolveConfig shortChunkEnv exampleRoot true in
  20 <= liveStreamChunkMs config <= 600
  /\ 40 <= minAsrWindowMs config
  /\ minAsrWindowMs config <= normalAsrWindowMs config
  /\ normalAsrWindowMs config <= backlogAsrWindowMs config
  /\ backlogAsrWindowMs config <= maxAsrWindowMs config
  /\ maxAsrWindowMs config <= 4000
  /\ 1 <= injectionRetryCount config <= 8
  /\ (In (asrBackend config) nativeFramedBackends ->
      asrTransport config = framed).
Proof.
  cbv zeta.
  apply (valid_config_bounds (resolveConfig shortChunkEnv exampleRoot true)).
  vm_compute. reflexivity.
Defined.

(** X12. The defaults are valid.  When the environment sets no variable
    other than the selectors of the ASR backend, the recorder and the
    latency preset, whatever values these have, the configuration that
    [resolveConfig] builds passes [validateConfig] without a message, on
    Apple silicon or not and for every root directory. *)
Theorem default_config_is_valid (env : string -> option jsstring)
  (rootDir : jsstring) (isAppleSilicon : bool)
  (Honly : onlySelectors env) :
  validateConfig (resolveConfig env rootDir isAppleSilicon) = [].
Proof.
  unfold resolveConfig.
  repeat match goal with
         | |- context [env ?name] =>
             lazymatch eval vm_compute in (selector name) with
             | false => rewrite (Honly name eq_refl)
             end
         end.
  unfold validateConfig.
  cbn [hotkey recorderBackend nativeAudioBin nativeTextInjectBin nativeAsrBin
       nativeParakeetBin nativeAsrThreads pythonBin asrBackend asrTransport
       formatterMaxTokens pasteDelayMs injectionRetryCount
       injectionRetryDelayMs latencyPreset liveStreamChunkMs minAsrWindowMs
       normalAsrWindowMs backlogAsrWindowMs maxAsrWindowMs
       parakeetStreamContextLeft parakeetStreamContextRight
       parakeetStreamDepth orElse].
  rewrite !blank_pathJoin.
  destruct (resolveAsrBackend _), (resolveRecorderBackend _),
    (resolveLatencyPreset _), isAppleSilicon; vm_compute; reflexivity.
Qed.

Lemma default_config_is_valid_witness :
  validateConfig (resolveConfig emptyEnv exampleRoot false) = [].
Proof.
  apply (default_config_is_valid emptyEnv exampleRoot false).
  intros name _. reflexivity.
Defined.

(** X13. A valid configuration that cannot record.  For a configuration
    that [validateConfig] accepts, the recorder that [createRecorder]
    picks rejects the chunk duration with its range error exactly when it
    is the ffmpeg recorder and the duration is below 40 ms: the native
    recorder accepts every validated duration. *)
Theorem valid_config_range_error (config : AppConfig)
  (nativeAudioBinExists : bool)
  (Hvalid : validateConfig config = []) :
  Capture.isRangeError (startCheck config nativeAudioBinExists) = true
  <-> createRecorder config nativeAudioBinExists = UseFfmpegRecorder
      /\ liveStreamChunkMs config < 40.
Proof.
  assert (Hchunk : 20 <= liveStreamChunkMs config <= 600).
  { unfold validateConfig in Hvalid.
    repeat match type of Hvalid with
           | _ ++ _ = [] =>
               apply app_eq_nil in Hvalid;
               let H := fresh "Hc" in destruct Hvalid as [H Hvalid];
               apply check_nil in H
           end.
    repeat match goal with
           | H : outside _ _ _ = false |- _ => apply outside_false in H
           end.
    lia. }
  unfold startCheck.
  destruct (createRecorder config nativeAudioBinExists) eqn:Hrec.
  - unfold Capture.ffmpegStartStreaming. cbn [Capture.ffmpegProcess].
    destruct (liveStreamChunkMs config <? 40) eqn:Hlow.
    + apply Z.ltb_lt in Hlow. cbn. split; [intros _; split; [reflexivity | lia] | reflexivity].
    + apply Z.ltb_ge in Hlow.
      replace (2000 <? liveStreamChunkMs config) with false
        by (symmetry; apply Z.ltb_ge; lia).
      cbn. split; [discriminate | intros [_ H]; lia].
  - unfold Capture.nativeStartStreaming.
    cbn [Capture.nativeProcess Capture.binaryExists Capture.binaryPath].
    replace (liveStreamChunkMs config <? 20) with false
      by (symmetry; apply Z.ltb_ge; lia).
    replace (2000 <? liveStreamChunkMs config) with false
      by (symmetry; apply Z.ltb_ge; lia).
    cbn [orb]. split; [|intros [H _]; discriminate].
    destruct nativeAudioBinExists; cbn [negb Capture.isRangeError]; [discriminate|].
    intros H. exfalso. revert H. 
    unfold Capture.nativeRangeError, Capture.ffmpegRangeError.
    match goal with |- context [Js.eqb ?a ?b] => idtac end.
    unfold Js.eqb.
    repeat match goal with
           | |- context [list_eq_dec ascii_dec ?a ?b] =>
               destruct (list_eq_dec ascii_dec a b) as [E|_]; [discriminate E|]
           end.
    discriminate.
Qed.

(** The environment [shortChunkEnv] gives a valid configuration whose
    recorder refuses to start. *)
Lemma valid_config_range_error_witness :
  Capture.isRangeError
    (startCheck (resolveConfig shortChunkEnv exampleRoot true) true) = true.
Proof.
  apply (valid_config_range_error
           (resolveConfig shortChunkEnv exampleRoot true) true).
  - vm_compute. reflexivity.
  - split; vm_compute; reflexivity.
Defined.

End ConfigFacts.

Module HotkeyFacts.

Import PushToTalkHotkey HotkeySpec.

Lemma pairing_snoc calls : forall held held' call,
  pairing held calls = Some held' ->
  pairing held (calls ++ [call])
  = match call with
    | onPress => if held' then None else Some true
    | onRelease => if held' then Some false else None
    end.
Proof.
  induction calls as [|c calls IH]; intros held held' call H.
  - cbn in H. inversion H; subst. destruct call, held'; reflexivity.
  - cbn [app pairing] in *. destruct c, held; try discriminate;
      apply IH; exact H.
Qed.

Lemma onKeyEvent_pairing event down self :
  pairing false (invoked self) = Some (active self) ->
  let self' := fst (onKeyEvent event down self) in
  pairing false (invoked self') = Some (active self')
  /\ parsedHotkey self' = parsedHotkey self.
Proof.
  intros H. unfold onKeyEvent.
  destruct (name event) as [keyName|]; [|split; [exact H | reflexivity]].
  destruct (negb (truthy keyName)); [split; [exact H | reflexivity]|].
  cbv zeta.
  destruct (isDown (state event) && _ && _).
  - destruct (active self) eqn:Ha; cbn [negb fst].
    + split; [rewrite Ha; exact H | reflexivity].
    + cbn [invokeSafely set_active invoked active parsedHotkey].
      rewrite (pairing_snoc _ _ _ onPress H). split; reflexivity.
  - destruct (active self) eqn:Ha; cbn [andb].
    + assert (Hrel : pairing false (invoked self ++ [onRelease]) = Some false)
        by (rewrite (pairing_snoc _ _ _ onRelease H); reflexivity).
      destruct (isUp (state event) && _);
        [|destruct (negb _)]; cbn [fst invokeSafely set_active invoked active
                                      parsedHotkey];
        first [split; [exact Hrel | reflexivity]
              | split; [rewrite Ha; exact H | reflexivity]].
    + cbn [fst]. split; [rewrite Ha; exact H | reflexivity].
Qed.

(** X14. Presses and releases pair up.  Whatever key events the listener
    delivers, and whatever keys are down at each, the callbacks invoked
    since construction alternate, an [onPress] first, and the hotkey is
    [active] at the end exactly when the last callback was an [onPress]:
    key repeats do not press twice and no release comes without a
    press. *)
Theorem hotkey_callbacks_pair_up (parsed : ParsedHotkey)
  (events : list (IGlobalKeyEvent * IGlobalKeyDownMap)) :
  pairing false (invoked (deliver events (new parsed)))
  = Some (active (deliver events (new parsed))).
Proof.
  assert (H : forall self,
             pairing false (invoked self) = Some (active self) ->
             pairing false (invoked (deliver events self))
             = Some (active (deliver events self))).
  { induction events as [|[event down] events IH]; intros self Hs.
    - exact Hs.
    - cbn [deliver]. apply IH. apply onKeyEvent_pairing. exact Hs. }
  apply H. reflexivity.
Qed.

End HotkeyFacts.

Module SpacingFacts.

Import SpokenFormattingProcessor SpacingSpec StringFacts.

Lemma dropWhile_first (p : ascii -> bool) (s : jsstring) :
  match dropWhile p s with
  | [] => True
  | c :: _ => p c = false
  end.
Proof.
  induction s as [|c s IH]; cbn [dropWhile]; [exact I|].
  destruct (p c) eqn:Hc; [exact IH | exact Hc].
Qed.

Lemma dropWhile_keeps_last (p : ascii -> bool) c : forall l,
  p c = false -> exists pre, dropWhile p (l ++ [c]) = pre ++ [c].
Proof.
  induction l as [|d l IH]; intros Hc; cbn [app dropWhile].
  - rewrite Hc. exists []. reflexivity.
  - destruct (p d); [apply IH; exact Hc|]. exists (d :: l). reflexivity.
Qed.

Lemma stripEdgeSpaces_edgeClean s : edgeClean (stripEdgeSpaces s).
Proof.
  unfold stripEdgeSpaces, dropWhileEnd, edgeClean.
  pose proof (dropWhile_first isHSpace s) as Hhead.
  destruct (dropWhile isHSpace s) as [|c d]; [split; exact I|].
  split.
  - cbn [rev].
    destruct (dropWhile_keeps_last isHSpace c (rev d) Hhead) as [pre Hpre].
    rewrite Hpre, rev_unit. exact Hhead.
  - rewrite rev_involutive. apply dropWhile_first.
Qed.

Lemma paragraphsClean_prefix a : forall run b,
  paragraphsClean run (a ++ b) = true -> paragraphsClean run a = true.
Proof.
  induction a as [|c a IH]; intros run b H; [reflexivity|].
  cbn [app paragraphsClean] in *. destruct (Ascii.eqb c LF).
  - apply andb_true_iff in H. destruct H as [H1 H2].
    rewrite H1. cbn [andb]. eapply IH. exact H2.
  - eapply IH. exact H.
Qed.

Lemma paragraphsClean_dropWhile s :
  paragraphsClean 0 s = true -> paragraphsClean 0 (dropWhile isHSpace s) = true.
Proof.
  induction s as [|c s IH]; intros H; [reflexivity|].
  cbn [dropWhile]. destruct (isHSpace c) eqn:Hc; [|exact H].
  apply IH. cbn [paragraphsClean] in H.
  destruct (Ascii.eqb_spec c LF) as [->|_]; [discriminate Hc | exact H].
Qed.

Lemma paragraphsClean_dropWhileEnd s :
  paragraphsClean 0 s = true ->
  paragraphsClean 0 (dropWhileEnd isHSpace s) = true.
Proof.
  intros H. unfold dropWhileEnd.
  destruct (dropWhile_suffix isHSpace (rev s)) as [pre Hpre].
  apply (f_equal (@rev ascii)) in Hpre.
  rewrite rev_involutive, rev_app_distr in Hpre.
  rewrite Hpre in H. eapply paragraphsClean_prefix. exact H.
Qed.

Lemma paragraphsClean_flush run c rest :
  Ascii.eqb c LF = false ->
  paragraphsClean 0 rest = true ->
  paragraphsClean 0 (flushNewlines run ++ c :: rest) = true.
Proof.
  intros Hc H. unfold flushNewlines.
  destruct (3 <=? run)%nat eqn:Hrun.
  - cbn. rewrite Hc. exact H.
  - apply Nat.leb_gt in Hrun.
    destruct run as [|[|[|run]]]; [| | |lia]; cbn; rewrite Hc; exact H.
Qed.

Lemma paragraphsClean_collapseNewlines s : forall run,
  paragraphsClean 0 (collapseNewlines run s) = true.
Proof.
  induction s as [|c s IH]; intros run; cbn [collapseNewlines].
  - unfold flushNewlines. destruct (3 <=? run)%nat eqn:Hrun; [reflexivity|].
    apply Nat.leb_gt in Hrun.
    destruct run as [|[|[|run]]]; [| | |lia]; reflexivity.
  - destruct (Ascii.eqb c LF) eqn:Hc; [apply IH|].
    apply paragraphsClean_flush; [exact Hc | apply IH].
Qed.

(** X20. What the rewriter never returns.  Whatever the text, the text
    that [transform] returns neither begins nor ends with a space or a
    tab, and never holds three newlines in a row. *)
Theorem transform_output_is_clean (input : jsstring) :
  edgeClean (text (transform input))
  /\ paragraphsClean 0 (text (transform input)) = true.
Proof.
  unfold transform.
  destruct (negb (truthy (trim input))); [split; [split; exact I | reflexivity]|].
  destruct (applyRules RULES input 0) as [output applied]. cbn [text].
  unfold normalizeSpacing. cbv zeta. split.
  - apply stripEdgeSpaces_edgeClean.
  - unfold stripEdgeSpaces.
    apply paragraphsClean_dropWhileEnd, paragraphsClean_dropWhile,
      paragraphsClean_collapseNewlines.
Qed.

Lemma replaceGo_count r s : forall prev skip,
  0 <= snd (replaceGo r prev skip s).
Proof.
  induction s as [|c s IH]; intros prev skip; cbn [replaceGo]; [cbn; lia|].
  destruct skip as [|skip]; [|apply IH].
  destruct (matchPhraseAt (phrase r) prev (c :: s)).
  - specialize (IH (Some c) (Nat.pred (length (phrase r)))).
    destruct (replaceGo r (Some c) _ s) as [out n]. cbn [snd] in *. lia.
  - specialize (IH (Some c) O).
    destruct (replaceGo r (Some c) O s) as [out n]. cbn [snd] in *. lia.
Qed.

Lemma replaceGo_none r s : forall prev,
  snd (replaceGo r prev O s) = 0 -> fst (replaceGo r prev O s) = s.
Proof.
  induction s as [|c s IH]; intros prev H; [reflexivity|].
  cbn [replaceGo] in *.
  destruct (matchPhraseAt (phrase r) prev (c :: s)).
  - pose proof (replaceGo_count r s (Some c) (Nat.pred (length (phrase r)))) as Hn.
    destruct (replaceGo r (Some c) _ s) as [out n]. cbn [snd] in *. lia.
  - specialize (IH (Some c)).
    destruct (replaceGo r (Some c) O s) as [out n]. cbn [fst snd] in *.
    f_equal. apply IH. exact H.
Qed.

Lemma applyRules_count rules : forall output applied,
  applied <= snd (applyRules rules output applied).
Proof.
  induction rules as [|r rules IH]; intros output applied;
    cbn [applyRules]; [cbn; lia|].
  unfold replaceRule.
  pose proof (replaceGo_count r output None O) as Hn.
  destruct (replaceGo r None O output) as [output' n]. cbn [snd] in Hn.
  specialize (IH output' (applied + n)). lia.
Qed.

Lemma applyRules_none rules : forall output applied,
  snd (applyRules rules output applied) = applied ->
  fst (applyRules rules output applied) = output.
Proof.
  induction rules as [|r rules IH]; intros output applied H; [reflexivity|].
  cbn [applyRules] in *. unfold replaceRule in *.
  pose proof (replaceGo_count r output None O) as Hn.
  pose proof (replaceGo_none r output None) as Hsame.
  destruct (replaceGo r None O output) as [output' n]. cbn [fst snd] in *.
  pose proof (applyRules_count rules output' (applied + n)) as Hle.
  assert (n = 0) by lia. subst n.
  rewrite Z.add_0_r in *. rewrite (IH output' applied H).
  apply Hsame. reflexivity.
Qed.

(** X21. Without a spoken command only the spacing changes.  The count of
    applied commands is never negative, and when it is zero the text
    returned is the spacing normalisation of the input itself (or the
    empty text when the input is blank): no rule has rewritten
    anything. *)
Theorem transform_without_command_only_normalises (input : jsstring) :
  0 <= appliedCommands (transform input)
  /\ (appliedCommands (transform input) = 0 ->
      text (transform input)
      = if truthy (trim input) then normalizeSpacing input else []).
Proof.
  unfold transform. destruct (truthy (trim input)); cbn [negb];
    [|split; [cbn; lia | reflexivity]].
  pose proof (applyRules_count RULES input 0) as Hle.
  pose proof (applyRules_none RULES input 0) as Hsame.
  destruct (applyRules RULES input 0) as [output applied].
  cbn [fst snd text appliedCommands] in *.
  split; [exact Hle|]. intros Hzero. rewrite Hsame; [reflexivity | exact Hzero].
Qed.

End SpacingFacts.

Module LatencyFacts.

Import LatencyTracker LatencySpec.

Lemma insert_In x y sorted : In y (insert x sorted) <-> y = x \/ In y sorted.
Proof.
  induction sorted as [|z rest IH]; cbn [insert].
  - cbn. intuition.
  - destruct (x <=? z); cbn [In]; [intuition|]. rewrite IH. intuition.
Qed.

Lemma sort_In y values : In y (sort values) <-> In y values.
Proof.
  induction values as [|x rest IH]; cbn [sort]; [reflexivity|].
  rewrite insert_In, IH. cbn. intuition.
Qed.

Lemma insert_length x sorted : length (insert x sorted) = S (length sorted).
Proof.
  induction sorted as [|z rest IH]; cbn [insert]; [reflexivity|].
  destruct (x <=? z); cbn [length]; [reflexivity | rewrite IH; reflexivity].
Qed.

Lemma sort_length values : length (sort values) = length values.
Proof.
  induction values as [|x rest IH]; cbn [sort]; [reflexivity|].
  rewrite insert_length, IH. reflexivity.
Qed.

Lemma insert_sorted x sorted :
  Sorted.StronglySorted Z.le sorted -> Sorted.StronglySorted Z.le (insert x sorted).
Proof.
  induction 1 as [|z rest Hrest IH Hz]; cbn [insert].
  - constructor; constructor.
  - destruct (Z.leb_spec x z).
    + constructor; [constructor; assumption|].
      constructor; [assumption|].
      eapply Forall_impl; [|exact Hz]. cbn. intros. lia.
    + constructor; [exact IH|].
      apply Forall_forall. intros y Hy. apply insert_In in Hy.
      destruct Hy as [->|Hy]; [lia|].
      rewrite Forall_forall in Hz. apply Hz. exact Hy.
Qed.

Lemma sort_sorted values : Sorted.StronglySorted Z.le (sort values).
Proof.
  induction values as [|x rest IH]; cbn [sort]; [constructor|].
  apply insert_sorted. exact IH.
Qed.

Lemma sorted_last sorted :
  Sorted.StronglySorted Z.le sorted -> sorted <> [] ->
  isGreatest sorted (nth (length sorted - 1) sorted 0).
Proof.
  induction 1 as [|z rest Hrest IH Hz]; intros Hne; [contradiction|].
  destruct rest as [|y rest'].
  - cbn. split; [left; reflexivity | constructor; [lia | constructor]].
  - destruct IH as [Hin Hall]; [discriminate|].
    cbn [length] in *. replace (S (S (length rest')) - 1)%nat
      with (S (S (length rest') - 1)) by lia.
    cbn [nth]. split; [right; exact Hin|].
    constructor; [|exact Hall].
    rewrite Forall_forall in Hz. apply Hz. exact Hin.
Qed.

Lemma sorted_first sorted :
  Sorted.StronglySorted Z.le sorted -> sorted <> [] -> isLeast sorted (nth 0 sorted 0).
Proof.
  intros H Hne. destruct sorted as [|z rest]; [contradiction|].
  cbn [nth]. split; [left; reflexivity|].
  inversion H; subst. constructor; [lia | assumption].
Qed.

Lemma pick_In sorted pct : sorted <> [] -> In (pick sorted pct) sorted.
Proof.
  intros Hne. unfold pick. apply nth_In.
  assert (0 < len sorted).
  { destruct sorted; [contradiction|]. unfold len. cbn [length]. lia. }
  unfold len in *. lia.
Qed.

Lemma fold_left_sum values : forall start,
  fold_left (fun sum value => sum + value) values start
  = start + fold_left (fun sum value => sum + value) values 0.
Proof.
  induction values as [|x rest IH]; intros start; cbn [fold_left]; [lia|].
  rewrite (IH (start + x)), (IH (0 + x)). lia.
Qed.

Lemma sum_bounds values lo hi :
  Forall (fun value => lo <= value <= hi) values ->
  lo * len values
  <= fold_left (fun sum value => sum + value) values 0
  <= hi * len values.
Proof.
  induction 1 as [|x rest Hx _ IH]; [cbn; lia|].
  cbn [fold_left]. rewrite fold_left_sum.
  unfold len in *. cbn [length]. rewrite Nat2Z.inj_succ. lia.
Qed.

Lemma roundedQuotient_bounds total count lo hi :
  0 < count -> lo * count <= total <= hi * count ->
  lo <= roundedQuotient total count <= hi.
Proof.
  intros Hc [Hlo Hhi]. unfold roundedQuotient. split.
  - apply Z.div_le_lower_bound; lia.
  - assert ((2 * total + count) / (2 * count) < hi + 1); [|lia].
    apply Z.div_lt_upper_bound; lia.
Qed.

(** X22. The figures of a latency summary.  For a non-empty list of
    values, [p50] and [p95] are values of the list, [max] is its greatest
    value and [avg] lies between its least and its greatest value; so no
    figure of the summary is outside the range of the values. *)
Theorem summary_figures_are_within_the_samples (values : list Z)
  (Hsome : values <> []) :
  let summary := asSummary values in
  isSample values (p50 summary)
  /\ isSample values (p95 summary)
  /\ isGreatest values (max summary)
  /\ exists least,
       isLeast values least
       /\ least <= p50 summary <= max summary
       /\ least <= p95 summary <= max summary
       /\ least <= avg summary <= max summary.
Proof.
  cbv zeta. unfold asSummary, isSample.
  assert (Hlen : 0 < len values).
  { destruct values; [contradiction|]. unfold len. cbn [length]. lia. }
  destruct (Z.eqb_spec (len values) 0) as [Hz|_]; [lia|].
  cbn [p50 p95 max avg].
  assert (Hsorted : sort values <> []).
  { intros E. apply (f_equal (@length Z)) in E. rewrite sort_length in E.
    unfold len in Hlen. cbn in E. lia. }
  pose proof (sorted_last (sort values) (sort_sorted values) Hsorted)
    as [Hmax_in Hmax_all].
  pose proof (sorted_first (sort values) (sort_sorted values) Hsorted)
    as [Hmin_in Hmin_all].
  replace (Z.to_nat (len (sort values) - 1)) with (length (sort values) - 1)%nat
    by (unfold len; lia).
  set (greatest := nth (length (sort values) - 1) (sort values) 0) in *.
  set (least := nth 0 (sort values) 0) in *.
  pose proof (pick_In (sort values) 0.5%float Hsorted) as H50.
  pose proof (pick_In (sort values) pct95 Hsorted) as H95.
  rewrite Forall_forall in Hmax_all, Hmin_all.
  assert (Hall : Forall (fun value => least <= value <= greatest) (sort values)).
  { apply Forall_forall. intros v Hv. split; [apply Hmin_all | apply Hmax_all];
      exact Hv. }
  pose proof (sum_bounds (sort values) least greatest Hall) as Hsum.
  assert (Hcount : len (sort values) = len values)
    by (unfold len; rewrite sort_length; reflexivity).
  split; [apply sort_In; exact H50|].
  split; [apply sort_In; exact H95|].
  split.
  { split; [apply sort_In; exact Hmax_in|].
    apply Forall_forall. intros v Hv. apply Hmax_all, sort_In. exact Hv. }
  exists least. split.
  { split; [apply sort_In; exact Hmin_in|].
    apply Forall_forall. intros v Hv. apply Hmin_all, sort_In. exact Hv. }
  split; [split; [apply Hmin_all | apply Hmax_all]; exact H50|].
  split; [split; [apply Hmin_all | apply Hmax_all]; exact H95|].
  apply roundedQuotient_bounds; lia.
Qed.

Lemma summary_figures_are_within_the_samples_witness :
  let values := [12; 7; 30; 7; 19] in
  let summary := asSummary values in
  isSample values (p50 summary)
  /\ isSample values (p95 summary)
  /\ isGreatest values (max summary)
  /\ exists least,
       isLeast values least
       /\ least <= p50 summary <= max summary
       /\ least <= p95 summary <= max summary
       /\ least <= avg summary <= max summary.
Proof.
  apply (summary_figures_are_within_the_samples [12; 7; 30; 7; 19]).
  discriminate.
Defined.

End LatencyFacts.

Module TrayFacts.

Import DingoFlowApp Commands TrayController TraySpec.
Import SliceSpec InjectFacts FrameFacts.




Section Growth.

Variable log10 : float -> float.
Variable options : DingoFlowLatencyOptions.
Variable deps : Deps.
Variable world : Z -> SliceEnv.
Variable base : list Effect.








End Growth.

Section Menu.

Variable log10 : float -> float.
Variable options : DingoFlowLatencyOptions.
Variable deps : Deps.
Variable world : Z -> SliceEnv.







End Menu.


End TrayFacts.
